(** * advanced-vector: RawMemory<T> and Vector<T> (vector.h)

    A shallow embedding of the two class templates of [vector.h] and the
    properties of their operations.

    - A [T*] is a pair of a block and an offset counted in elements.  A block
      is the list of its slots; a slot is raw ([None]) or holds a constructed
      object ([Some v]).
    - [size_t] is a 64-bit unsigned integer: sizes live in [N] and every
      [size_t] operation of the source is written with its wrap-around.
    - [Vector] objects live in a store indexed by their address ([this]), so
      that [this != &rhs] is a comparison of addresses.
    - Every function runs in a state monad over the store with two ways of not
      returning: a C++ exception ([Throw], the store survives) and undefined
      behaviour or a failed [assert] ([Undef]). *)

From stdpp Require Import base numbers option list strings gmap fin_maps.

Open Scope N_scope.

(** ** The element type

    The template parameter [T] is known to the container only through the
    operations below.  An operation that throws yields [None] and leaves its
    operands as they were.  A move hands back the new object together with the
    state it leaves in its source. *)

Class Element (T : Type) := {
  ctor_args : Type;
  (** [T(args...)] for arguments that are no [T] object themselves *)
  construct : ctor_args → option T;
  (** [T()] *)
  value_construct : option T;
  (** [T(const T&)] *)
  copy_construct : T → option T;
  (** [T(T&&)]: the new object and what is left of the source *)
  move_construct : T → option (T * T);
  (** [dst = src] for [const T& src]: the new state of [dst] *)
  copy_assign : T → T → option T;
  (** [dst = std::move(src)]: the new states of [dst] and of [src] *)
  move_assign : T → T → option (T * T);
  is_nothrow_move_constructible : bool;
  is_copy_constructible : bool;
  (** [sizeof(T)]: at least one byte, and an object fits in a block *)
  sizeof_T : N;
  sizeof_T_pos : 0 < sizeof_T;
  sizeof_T_bound : sizeof_T < 2 ^ 63;
}.

(** [PTRDIFF_MAX]: no block is larger *)
Definition ptrdiff_max : N := 2 ^ 63 - 1.

(** the largest number of [T] objects a block can hold *)
Definition max_size {T} `{Element T} : N := ptrdiff_max / sizeof_T.

(** What a regular value type adds: copies and moves carry the value over, and
    the [noexcept] trait tells the truth. *)
Class ElementLaws (T : Type) `{Element T} := {
  copy_construct_value v v' : copy_construct v = Some v' → v' = v;
  move_construct_value v v' r : move_construct v = Some (v', r) → v' = v;
  copy_assign_value d s d' : copy_assign d s = Some d' → d' = s;
  move_assign_value d s d' r : move_assign d s = Some (d', r) → d' = s;
  nothrow_move_sound v :
    is_nothrow_move_constructible = true → is_Some (move_construct v);
}.

(** ** [size_t] *)

Definition size_t_modulus : N := 2 ^ 64.
Definition wrap (n : N) : N := n mod size_t_modulus.
(** [a - b] on two [size_t] values *)
Definition size_t_sub (a b : N) : N := (a + size_t_modulus - b) mod size_t_modulus.

(** ** Pointers, objects and the store *)

Definition addr := positive.
Definition vid := positive.

Record ptr := { base : option addr; off : N }.

Definition nullptr : ptr := {| base := None; off := 0 |}.
Definition ptr_add (p : ptr) (n : N) : ptr := {| base := base p; off := off p + n |}.
Infix "+ₚ" := ptr_add (at level 50, left associativity).

Definition ptr_eqb (p q : ptr) : bool :=
  bool_decide (base p = base q) && (off p =? off q).
(** [p <= q]; only pointers into one block compare *)
Definition ptr_leb (p q : ptr) : option bool :=
  if bool_decide (base p = base q) then Some (off p <=? off q) else None.

Record RawMemory := { buffer_ : ptr; capacity_ : N }.
Record Vector := { data_ : RawMemory; size_ : N }.

Section Machine.
Context {T : Type} `{!Element T}.

Record world := {
  heap : gmap addr (list (option T));
  (** bytes the allocator can still hand out *)
  avail : N;
  objs : gmap vid Vector;
}.

Inductive exn := bad_alloc | element_error.

Inductive res (A : Type) :=
  | Ok (a : A) (w : world)
  | Throw (e : exn) (w : world)
  | Undef.
Global Arguments Ok {A} a w.
Global Arguments Throw {A} e w.
Global Arguments Undef {A}.

Definition M (A : Type) : Type := world → res A.

Definition ret {A} (a : A) : M A := λ w, Ok a w.
Definition bind {A B} (m : M A) (k : A → M B) : M B :=
  λ w, match m w with
       | Ok a w' => k a w'
       | Throw e w' => Throw e w'
       | Undef => Undef
       end.
Definition throw {A} (e : exn) : M A := λ w, Throw e w.
Definition undef {A} : M A := λ _, Undef.
(** [try { m } catch (...) { h }] *)
Definition try_catch {A} (m : M A) (h : exn → M A) : M A :=
  λ w, match m w with
       | Throw e w' => h e w'
       | r => r
       end.
(** [m] inside the scope of a local object: [cleanup] is its destructor, run
    when an exception leaves the scope *)
Definition unwinding {A} (cleanup : M unit) (m : M A) : M A :=
  try_catch m (λ e, bind cleanup (λ _, throw e)).
Definition assert (b : bool) : M unit := if b then ret tt else undef.
Definition lift_option {A} (o : option A) : M A :=
  match o with Some a => ret a | None => undef end.
(** the result of an operation of [T] *)
Definition elem {A} (o : option A) : M A :=
  match o with Some a => ret a | None => throw element_error end.
End Machine.

Global Arguments world T : clear implicits.
Global Arguments res T A : clear implicits.
Global Arguments M T A : clear implicits.

Global Instance M_ret {T} : MRet (M T) := λ A, @ret T A.
Global Instance M_bind {T} : MBind (M T) := λ A B k m, @bind T A B m k.

(** ** Raw storage and object lifetime *)

Section Memory.
Context {T : Type} `{!Element T}.

Definition set_heap (w : world T) (h : gmap addr (list (option T))) : world T :=
  {| heap := h; avail := avail w; objs := objs w |}.
Definition set_objs (w : world T) (o : gmap vid Vector) : world T :=
  {| heap := heap w; avail := avail w; objs := o |}.

(** the slot a pointer designates, if it points into a live block *)
Definition slot_at (w : world T) (p : ptr) : option (option T) :=
  a ← base p; blk ← heap w !! a; blk !! N.to_nat (off p).

Definition write_slot (p : ptr) (s : option T) : M T unit :=
  λ w, match base p with
       | Some a =>
           match heap w !! a with
           | Some blk =>
               if bool_decide (N.to_nat (off p) < length blk)%nat
               then Ok tt (set_heap w (<[a := <[N.to_nat (off p) := s]> blk]> (heap w)))
               else Undef
           | None => Undef
           end
       | None => Undef
       end.

(** reading through a pointer needs a constructed object behind it *)
Definition load (p : ptr) : M T T :=
  λ w, match slot_at w p with Some (Some v) => Ok v w | _ => Undef end.
(** the storage a placement [new] writes to has to exist *)
Definition check_storage (p : ptr) : M T unit :=
  λ w, match slot_at w p with Some _ => Ok tt w | None => Undef end.
(** the object at [p] gets a new state *)
Definition update (p : ptr) (v : T) : M T unit := load p;; write_slot p (Some v).
(** [std::destroy_at(p)], [p->~T()] *)
Definition destroy_at (p : ptr) : M T unit := load p;; write_slot p None.

(** [p - n] on a [T*]: stepping in front of the block is undefined *)
Definition ptr_sub (p : ptr) (n : N) : M T ptr :=
  if n <=? off p then mret {| base := base p; off := off p - n |} else undef.
(** [std::distance(first, last)] converted to [size_t] *)
Definition distance (first last : ptr) : M T N :=
  if bool_decide (base first = base last) && (off first <=? off last)
  then mret (off last - off first) else undef.

(** A [T] object an argument refers to: one that lives outside the modelled
    blocks (a local, a temporary, a literal), or the object in a slot. *)
Inductive ref := Temp (v : T) | At (p : ptr).

(** The argument pack of a constructor call [T(std::forward<Args>(args)...)]:
    arguments that are no [T], a [const T&], or a [T&&]. *)
Inductive args := Direct (a : ctor_args) | Copy (r : ref) | Move (r : ref).

Definition read_ref (r : ref) : M T T :=
  match r with Temp v => mret v | At p => load p end.
Definition write_ref (r : ref) (v : T) : M T unit :=
  match r with Temp _ => mret tt | At p => update p v end.

(** the object [T(std::forward<Args>(args)...)] *)
Definition make (a : args) : M T T :=
  match a with
  | Direct x => elem (construct x)
  | Copy r => v ← read_ref r; elem (copy_construct v)
  | Move r =>
      v ← read_ref r;
      '(v', rest) ← elem (move_construct v);
      write_ref r rest;;
      mret v'
  end.

(** [new (p) T(std::forward<Args>(args)...)] *)
Definition placement_new (p : ptr) (a : args) : M T unit :=
  check_storage p;; v ← make a; write_slot p (Some v).
(** [new (p) T()] *)
Definition placement_new_value (p : ptr) : M T unit :=
  check_storage p;; v ← elem value_construct; write_slot p (Some v).
(** [*dst = std::move( *src)] *)
Definition assign_move (dst src : ptr) : M T unit :=
  d ← load dst; s ← load src;
  '(d', s') ← elem (move_assign d s);
  update src s';; update dst d'.
(** [*dst = *src] *)
Definition assign_copy (dst src : ptr) : M T unit :=
  d ← load dst; s ← load src;
  d' ← elem (copy_assign d s);
  update dst d'.

(** [operator new(count)] for a block of [T]: a fresh block with the
    raw slots that fit in [count] bytes, or [std::bad_alloc] when the
    request is larger than a block can be or than what is left *)
Definition operator_new (count : N) : M T ptr :=
  λ w, if (count <=? ptrdiff_max) && (count <=? avail w)
       then let a := fresh (dom (heap w)) in
            Ok {| base := Some a; off := 0 |}
               {| heap := <[a := replicate (N.to_nat (count / sizeof_T)) None]> (heap w);
                  avail := avail w - count;
                  objs := objs w |}
       else Throw bad_alloc w.

(** [operator delete]: a no-op on the null pointer, otherwise the pointer
    has to be one [operator new] returned and not yet deleted; the bytes of
    the slots of the block are free again *)
Definition operator_delete (p : ptr) : M T unit :=
  λ w, match base p with
       | None => Ok tt w
       | Some a =>
           match heap w !! a with
           | Some blk =>
               if off p =? 0
               then Ok tt {| heap := delete a (heap w);
                             avail := avail w + N.of_nat (length blk) * sizeof_T;
                             objs := objs w |}
               else Undef
           | None => Undef
           end
       end.

(** *** The algorithms of <memory> and <algorithm> the container calls *)

(** [std::destroy_n(first, n)] *)
Fixpoint destroy_loop (first : ptr) (n : nat) : M T unit :=
  match n with
  | O => mret tt
  | S n' => destroy_at first;; destroy_loop (first +ₚ 1) n'
  end.
Definition destroy_n (first : ptr) (n : N) : M T unit :=
  destroy_loop first (N.to_nat n).

(** The common shape of [std::uninitialized_*_n]: construct slot after slot;
    when a constructor throws, destroy what was built and rethrow. *)
Fixpoint uninitialized_loop (build : N → ptr → M T unit)
    (d_first : ptr) (done : N) (n : nat) : M T unit :=
  match n with
  | O => mret tt
  | S n' =>
      unwinding (destroy_n d_first done) (build done (d_first +ₚ done));;
      uninitialized_loop build d_first (done + 1) n'
  end.
Definition uninitialized_move_n (first : ptr) (n : N) (d_first : ptr) : M T unit :=
  uninitialized_loop (λ i p, placement_new p (Move (At (first +ₚ i)))) d_first 0 (N.to_nat n).
Definition uninitialized_copy_n (first : ptr) (n : N) (d_first : ptr) : M T unit :=
  uninitialized_loop (λ i p, placement_new p (Copy (At (first +ₚ i)))) d_first 0 (N.to_nat n).
Definition uninitialized_value_construct_n (first : ptr) (n : N) : M T unit :=
  uninitialized_loop (λ _ p, placement_new_value p) first 0 (N.to_nat n).

(** [std::move(first, last, d_first)]: front to back *)
Fixpoint move_loop (first d_first : ptr) (n : nat) : M T unit :=
  match n with
  | O => mret tt
  | S n' => assign_move d_first first;; move_loop (first +ₚ 1) (d_first +ₚ 1) n'
  end.
Definition std_move (first last d_first : ptr) : M T unit :=
  n ← distance first last; move_loop first d_first (N.to_nat n).

(** [std::move_backward(first, last, d_last)]: back to front,
    [*(--d_last) = std::move( *(--last))] *)
Fixpoint move_backward_loop (last d_last : ptr) (n : nat) : M T unit :=
  match n with
  | O => mret tt
  | S n' =>
      last' ← ptr_sub last 1; d_last' ← ptr_sub d_last 1;
      assign_move d_last' last';;
      move_backward_loop last' d_last' n'
  end.
Definition move_backward (first last d_last : ptr) : M T unit :=
  n ← distance first last; move_backward_loop last d_last (N.to_nat n).
End Memory.

Global Arguments ref T : clear implicits.
Global Arguments args T {_}.

(** ** [class RawMemory] *)

Module RawMemory.
Section Members.
Context {T : Type} `{!Element T}.

(** [static T* Allocate(size_t n)] *)
Definition Allocate (n : N) : M T ptr :=
  if negb (n =? 0) then operator_new (wrap (n * sizeof_T)) else mret nullptr.
(** [static void Deallocate(T* buf)] *)
Definition Deallocate (buf : ptr) : M T unit := operator_delete buf.

(** [RawMemory() = default] *)
Definition ctor_default : RawMemory := {| buffer_ := nullptr; capacity_ := 0 |}.
(** [explicit RawMemory(size_t capacity)] *)
Definition ctor_capacity (capacity : N) : M T RawMemory :=
  b ← Allocate capacity; mret {| buffer_ := b; capacity_ := capacity |}.
(** [~RawMemory()] *)
Definition dtor (this : RawMemory) : M T unit := Deallocate (buffer_ this).

Definition GetAddress (this : RawMemory) : ptr := buffer_ this.
Definition Capacity (this : RawMemory) : N := capacity_ this.

(** [RawMemory(RawMemory&& other)]: the new object and [other] afterwards.
    [std::move] is applied to the values [GetAddress()] and [Capacity()]
    return, so [other] itself is not written. *)
Definition ctor_move (other : RawMemory) : RawMemory * RawMemory :=
  ({| buffer_ := GetAddress other; capacity_ := Capacity other |}, other).
(** the two assignments in the body of [operator=(RawMemory&& rhs)]:
    [this] and [rhs] afterwards.  As in the constructor, [rhs] is not
    written. *)
Definition op_assign_move_stores (this rhs : RawMemory) : RawMemory * RawMemory :=
  ({| buffer_ := GetAddress rhs; capacity_ := Capacity rhs |}, rhs).
(** [RawMemory& operator=(RawMemory&& rhs) noexcept].  The body ends after
    the two assignments, without a [return] statement: control flows off
    the end of a function that returns a reference, and the behaviour of
    the call is undefined. *)
Definition op_assign_move (this rhs : RawMemory) : M T (RawMemory * RawMemory) :=
  mret (op_assign_move_stores this rhs);; undef.

(** [T* operator+(size_t offset)] *)
Definition op_plus (this : RawMemory) (offset : N) : M T ptr :=
  assert (offset <=? capacity_ this);; mret (buffer_ this +ₚ offset).
(** [T& operator[](size_t index)]: the reference is the slot's address *)
Definition op_index (this : RawMemory) (i : N) : M T ptr :=
  assert (i <? capacity_ this);; mret (buffer_ this +ₚ i).

(** [void Swap(RawMemory& other)]: [this] and [other] afterwards *)
Definition Swap (this other : RawMemory) : RawMemory * RawMemory :=
  ({| buffer_ := buffer_ other; capacity_ := capacity_ other |},
   {| buffer_ := buffer_ this; capacity_ := capacity_ this |}).
End Members.
End RawMemory.

(** ** [class Vector] *)

Module Vector.
Section Members.
Context {T : Type} `{!Element T}.

(** the object at address [this] *)
Definition get (this : vid) : M T Vector :=
  λ w, match objs w !! this with Some v => Ok v w | None => Undef end.
Definition put (this : vid) (v : Vector) : M T unit :=
  λ w, Ok tt (set_objs w (<[this := v]> (objs w))).
Definition set_data (this : vid) (d : RawMemory) : M T unit :=
  v ← get this; put this {| data_ := d; size_ := size_ v |}.
Definition set_size (this : vid) (n : N) : M T unit :=
  v ← get this; put this {| data_ := data_ v; size_ := n |}.
(** storage for a new [Vector] object holding [v] *)
Definition alloc_object (v : Vector) : M T vid :=
  λ w, let this := fresh (dom (objs w)) in
       Ok this (set_objs w (<[this := v]> (objs w))).
Definition free_object (this : vid) : M T unit :=
  λ w, Ok tt (set_objs w (delete this (objs w))).

(** the branch [if constexpr (std::is_nothrow_move_constructible_v<T> ||
    !std::is_copy_constructible_v<T>)] takes *)
Definition moves_elements : bool :=
  is_nothrow_move_constructible || negb is_copy_constructible.

Definition begin (this : vid) : M T ptr :=
  v ← get this; RawMemory.op_plus (data_ v) 0.
Definition end_ (this : vid) : M T ptr :=
  v ← get this; RawMemory.op_plus (data_ v) (size_ v).
Definition cbegin (this : vid) : M T ptr :=
  v ← get this; RawMemory.op_plus (data_ v) 0.
Definition cend (this : vid) : M T ptr :=
  v ← get this; RawMemory.op_plus (data_ v) (size_ v).

Definition Size (this : vid) : M T N := v ← get this; mret (size_ v).
Definition Capacity (this : vid) : M T N :=
  v ← get this; mret (RawMemory.Capacity (data_ v)).

(** [static void DestroyN(T* buf, size_t n)] *)
Definition DestroyN (buf : ptr) (n : N) : M T unit := destroy_n buf n.
(** [static void CopyConstruct(T* buf, const T& elem)] *)
Definition CopyConstruct (buf : ptr) (e : ref T) : M T unit :=
  placement_new buf (Copy e).
(** [static void Destroy(T* buf)] *)
Definition Destroy (buf : ptr) : M T unit := destroy_at buf.

(** [void Swap(Vector& other)] *)
Definition Swap (this other : vid) : M T unit :=
  v ← get this; o ← get other;
  let '(d, od) := RawMemory.Swap (data_ v) (data_ o) in
  set_data this d;; set_data other od;;
  v ← get this; o ← get other;
  set_size this (size_ o);; set_size other (size_ v).

(** [void Reserve(size_t new_capacity)] *)
Definition Reserve (this : vid) (new_capacity : N) : M T unit :=
  v ← get this;
  if new_capacity <=? RawMemory.Capacity (data_ v) then mret tt
  else
    new_data ← RawMemory.ctor_capacity new_capacity;
    unwinding (RawMemory.dtor new_data)
      (if moves_elements
       then uninitialized_move_n (RawMemory.GetAddress (data_ v)) (size_ v)
              (RawMemory.GetAddress new_data)
       else uninitialized_copy_n (RawMemory.GetAddress (data_ v)) (size_ v)
              (RawMemory.GetAddress new_data));;
    destroy_n (RawMemory.GetAddress (data_ v)) (size_ v);;
    let '(d, nd) := RawMemory.Swap (data_ v) new_data in
    set_data this d;;
    RawMemory.dtor nd.

(** [T& EmplaceBack(Args&&... args)] *)
Definition EmplaceBack (this : vid) (a : args T) : M T ptr :=
  v ← get this;
  (if size_ v =? RawMemory.Capacity (data_ v) then
     let new_capacity :=
       if size_ v =? 0 then 1 else wrap (RawMemory.Capacity (data_ v) * 2) in
     new_data ← RawMemory.ctor_capacity new_capacity;
     unwinding (RawMemory.dtor new_data)
       (if moves_elements then
          p ← RawMemory.op_plus new_data (size_ v);
          placement_new p a;;
          uninitialized_move_n (RawMemory.GetAddress (data_ v)) (size_ v)
            (RawMemory.GetAddress new_data)
        else
          try_catch
            (p ← RawMemory.op_plus new_data (size_ v); placement_new p a)
            (λ e, throw e);;
          uninitialized_copy_n (RawMemory.GetAddress (data_ v)) (size_ v)
            (RawMemory.GetAddress new_data));;
     destroy_n (RawMemory.GetAddress (data_ v)) (size_ v);;
     let '(d, nd) := RawMemory.Swap (data_ v) new_data in
     set_data this d;;
     RawMemory.dtor nd
   else
     p ← RawMemory.op_plus (data_ v) (size_ v);
     placement_new p a);;
  v ← get this;
  set_size this (wrap (size_ v + 1));;
  v ← get this;
  p ← RawMemory.op_plus (data_ v) (size_ v);
  ptr_sub p 1.

(** [iterator Emplace(const_iterator pos, Args&&... args)] *)
Definition Emplace (this : vid) (pos : ptr) (a : args T) : M T ptr :=
  b ← begin this; e ← end_ this;
  ge ← lift_option (ptr_leb b pos); le ← lift_option (ptr_leb pos e);
  assert (ge && le);;
  ce ← cend this;
  if ptr_eqb pos ce then
    EmplaceBack this a;;
    v ← get this;
    p ← RawMemory.op_plus (data_ v) (size_ v);
    ptr_sub p 1
  else
    cb ← cbegin this;
    num_pos ← distance cb pos;
    v ← get this;
    (if size_ v =? RawMemory.Capacity (data_ v) then
       let new_capacity :=
         if size_ v =? 0 then 1 else wrap (RawMemory.Capacity (data_ v) * 2) in
       new_data ← RawMemory.ctor_capacity new_capacity;
       unwinding (RawMemory.dtor new_data)
         (if moves_elements then
            p ← RawMemory.op_plus new_data num_pos;
            placement_new p a;;
            src ← RawMemory.op_plus (data_ v) 0;
            dst ← RawMemory.op_plus new_data 0;
            uninitialized_move_n src num_pos dst;;
            src ← RawMemory.op_plus (data_ v) num_pos;
            dst ← RawMemory.op_plus new_data num_pos;
            uninitialized_move_n src (size_t_sub (size_ v) num_pos) (dst +ₚ 1)
          else
            try_catch
              (p ← RawMemory.op_plus new_data num_pos; placement_new p a)
              (λ e, throw e);;
            try_catch
              (uninitialized_copy_n (RawMemory.GetAddress (data_ v)) num_pos
                 (RawMemory.GetAddress new_data))
              (λ e, p ← RawMemory.op_plus new_data num_pos;
                    destroy_n p 1;; throw e);;
            try_catch
              (uninitialized_copy_n (RawMemory.GetAddress (data_ v) +ₚ num_pos)
                 (size_t_sub (size_ v) num_pos)
                 (RawMemory.GetAddress new_data +ₚ num_pos +ₚ 1))
              (λ e, p ← RawMemory.op_plus new_data 0;
                    destroy_n p num_pos;; throw e));;
       destroy_n (RawMemory.GetAddress (data_ v)) (size_ v);;
       let '(nd, d) := RawMemory.Swap new_data (data_ v) in
       set_data this d;;
       RawMemory.dtor nd
     else if negb (size_ v =? 0) then
       e ← end_ this;
       last ← RawMemory.op_index (data_ v) (size_t_sub (size_ v) 1);
       placement_new e (Move (At last));;
       copy ← make a;
       b ← begin this; e1 ← end_ this; e1' ← ptr_sub e1 1; e2 ← end_ this;
       move_backward (b +ₚ num_pos) e1' e2;;
       p ← RawMemory.op_plus (data_ v) num_pos;
       d ← load p;
       '(d', _) ← elem (move_assign d copy);
       update p d'
     else
       p ← RawMemory.op_plus (data_ v) num_pos;
       placement_new p a);;
    v ← get this;
    set_size this (wrap (size_ v + 1));;
    v ← get this;
    RawMemory.op_plus (data_ v) num_pos.

(** [iterator Insert(const_iterator pos, const T& value)] *)
Definition Insert (this : vid) (pos : ptr) (value : ref T) : M T ptr :=
  Emplace this pos (Copy value).
(** [iterator Insert(const_iterator pos, T&& value)] *)
Definition Insert_rvalue (this : vid) (pos : ptr) (value : ref T) : M T ptr :=
  Emplace this pos (Move value).

(** [iterator Erase(const_iterator pos)] *)
Definition Erase (this : vid) (pos : ptr) : M T ptr :=
  b ← begin this; e ← end_ this;
  ge ← lift_option (ptr_leb b pos); le ← lift_option (ptr_leb pos e);
  assert (ge && le);;
  cb ← cbegin this;
  num_pos ← distance cb pos;
  b1 ← begin this; e1 ← end_ this; b2 ← begin this;
  std_move (b1 +ₚ num_pos +ₚ 1) e1 (b2 +ₚ num_pos);;
  e2 ← end_ this; last ← ptr_sub e2 1;
  destroy_at last;;
  v ← get this;
  set_size this (size_t_sub (size_ v) 1);;
  v ← get this;
  RawMemory.op_plus (data_ v) num_pos.

(** [Vector() = default] *)
Definition ctor_default : M T vid :=
  alloc_object {| data_ := RawMemory.ctor_default; size_ := 0 |}.

(** [explicit Vector(size_t size)] *)
Definition ctor_size (size : N) : M T vid :=
  data ← RawMemory.ctor_capacity size;
  unwinding (RawMemory.dtor data)
    (uninitialized_value_construct_n (RawMemory.GetAddress data) size);;
  alloc_object {| data_ := data; size_ := size |}.

(** [Vector(const Vector& other)] *)
Definition ctor_copy (other : vid) : M T vid :=
  o ← get other;
  data ← RawMemory.ctor_capacity (size_ o);
  unwinding (RawMemory.dtor data)
    (uninitialized_copy_n (RawMemory.GetAddress (data_ o)) (size_ o)
       (RawMemory.GetAddress data));;
  alloc_object {| data_ := data; size_ := size_ o |}.

(** [Vector(Vector&& other) noexcept] *)
Definition ctor_move (other : vid) : M T vid :=
  this ← alloc_object {| data_ := RawMemory.ctor_default; size_ := 0 |};
  Swap this other;;
  mret this.

(** [~Vector()], followed by the destructor of the member [data_] *)
Definition dtor (this : vid) : M T unit :=
  v ← get this;
  p ← RawMemory.op_plus (data_ v) 0;
  destroy_n p (size_ v);;
  RawMemory.dtor (data_ v);;
  free_object this.

(** [void Resize(size_t new_size)] *)
Definition Resize (this : vid) (new_size : N) : M T unit :=
  v ← get this;
  (if new_size <? size_ v then
     p ← RawMemory.op_plus (data_ v) new_size;
     DestroyN p (size_t_sub (size_ v) new_size)
   else if size_ v <? new_size then
     Reserve this new_size;;
     v ← get this;
     p ← RawMemory.op_plus (data_ v) (size_ v);
     uninitialized_value_construct_n p (size_t_sub new_size (size_ v))
   else mret tt);;
  set_size this new_size.

(** [void PushBack(const T& value)] *)
Definition PushBack (this : vid) (value : ref T) : M T unit :=
  EmplaceBack this (Copy value);; mret tt.
(** [void PushBack(T&& value)] *)
Definition PushBack_rvalue (this : vid) (value : ref T) : M T unit :=
  EmplaceBack this (Move value);; mret tt.

(** [void PopBack()] *)
Definition PopBack (this : vid) : M T unit :=
  v ← get this;
  p ← RawMemory.op_plus (data_ v) (size_ v);
  last ← ptr_sub p 1;
  destroy_n last 1;;
  set_size this (size_t_sub (size_ v) 1).

(** [for (size_t i = 0; i < n; ++i) data_[i] = rhs.data_[i];] *)
Fixpoint assign_loop (d r : RawMemory) (i : N) (n : nat) : M T unit :=
  match n with
  | O => mret tt
  | S n' =>
      dst ← RawMemory.op_index d i; src ← RawMemory.op_index r i;
      assign_copy dst src;;
      assign_loop d r (wrap (i + 1)) n'
  end.

(** [Vector& operator=(const Vector& rhs)] *)
Definition op_assign_copy (this rhs : vid) : M T unit :=
  (if negb (bool_decide (this = rhs)) then
     v ← get this; r ← get rhs;
     if RawMemory.Capacity (data_ v) <? size_ r then
       copy ← ctor_copy rhs;
       Swap this copy;;
       dtor copy
     else if size_ r <? size_ v then
       assign_loop (data_ v) (data_ r) 0 (N.to_nat (size_ r));;
       p ← RawMemory.op_plus (data_ v) (size_ r);
       destroy_n p (size_t_sub (size_ v) (size_ r))
     else
       assign_loop (data_ v) (data_ r) 0 (N.to_nat (size_ v));;
       src ← RawMemory.op_plus (data_ r) (size_ v);
       uninitialized_copy_n src (size_t_sub (size_ r) (size_ v))
         (RawMemory.GetAddress (data_ v) +ₚ size_ v)
   else mret tt);;
  r ← get rhs;
  set_size this (size_ r).

(** [Vector& operator=(Vector&& rhs) noexcept] *)
Definition op_assign_move (this rhs : vid) : M T unit :=
  if negb (bool_decide (this = rhs)) then
    v ← get this; r ← get rhs;
    if RawMemory.Capacity (data_ v) <? size_ r then
      Swap this rhs
    else
      let '(d, rd) := RawMemory.Swap (data_ v) (data_ r) in
      set_data this d;; set_data rhs rd;;
      r ← get rhs;
      set_size this (size_ r)
  else mret tt.

(** [T& operator[](size_t index)] *)
Definition op_index (this : vid) (i : N) : M T ptr :=
  v ← get this;
  assert (i <? size_ v);;
  RawMemory.op_index (data_ v) i.
End Members.
End Vector.

(** * Predicates on stores and runs *)

Section Predicates.
Context {T : Type} `{!Element T}.
Implicit Types (w : world T) (p : ptr) (this t other rhs : vid) (n : N).

(** the run returned *)
Definition is_ok {A} (r : res T A) : bool :=
  match r with Ok _ _ => true | _ => false end.

(** the block behind a [RawMemory]: none for the empty one *)
Definition block_of (w : world T) (m : RawMemory) : option (list (option T)) :=
  match base (buffer_ m) with
  | None =>
      if (capacity_ m =? 0) && (off (buffer_ m) =? 0) then Some [] else None
  | Some a =>
      if (off (buffer_ m) =? 0) && negb (capacity_ m =? 0)
      then heap w !! a else None
  end.

(** The vector at [this] owns a block of [cap] slots, [cap] is what it
    reports as capacity, its size is the length of [vs], and the slots
    [0 .. size) hold constructed objects with the values [vs]. *)
Definition represents (w : world T) (this : vid) (vs : list T) (cap : N) : Prop :=
  ∃ v blk,
    objs w !! this = Some v ∧
    block_of w (data_ v) = Some blk ∧
    capacity_ (data_ v) = cap ∧
    N.of_nat (length blk) = cap ∧
    cap ≤ max_size ∧
    size_ v = N.of_nat (length vs) ∧
    take (length vs) blk = Some <$> vs.

(** As [represents], with a block of [slots] slots under the capacity
    [cap] the vector reports: the two differ after an allocation whose byte
    count wrapped. *)
Definition stores (w : world T) (this : vid) (vs : list T) (cap slots : N) : Prop :=
  ∃ v blk,
    objs w !! this = Some v ∧
    block_of w (data_ v) = Some blk ∧
    capacity_ (data_ v) = cap ∧
    N.of_nat (length blk) = slots ∧
    size_ v = N.of_nat (length vs) ∧
    take (length vs) blk = Some <$> vs.

(** when the computation returns, every block is still there, with the
    number of slots it had *)
Definition keeps_blocks {A} (m : M T A) : Prop :=
  ∀ w x w', m w = Ok x w' →
    ∀ a blk, heap w !! a = Some blk →
      ∃ blk', heap w' !! a = Some blk' ∧ length blk' = length blk.

(** the store after [operator new] handed out a block of [slots] raw slots
    for a request of [count] bytes *)
Definition handed_out (w : world T) (slots : nat) (count : N) : world T :=
  {| heap := <[fresh (dom (heap w)) := replicate slots None]> (heap w);
     avail := avail w - count;
     objs := objs w |}.
(** the store after [Allocate(n)], when [n * sizeof(T)] does not wrap *)
Definition allocated (w : world T) (n : N) : world T :=
  handed_out w (N.to_nat n) (n * sizeof_T).

(** the pointer [operator new] returns *)
Definition fresh_ptr (w : world T) : ptr :=
  {| base := Some (fresh (dom (heap w))); off := 0 |}.

(** What is known of an outcome: when it is a normal return, [post] holds of
    the value and the store; and under [cond] it is a normal return. *)
Definition spec {A} (r : res T A) (cond : Prop) (post : A → world T → Prop) : Prop :=
  (∀ a w', r = Ok a w' → post a w') ∧ (cond → is_ok r = true).

(** the store with the block at [a] replaced *)
Definition with_block (w : world T) (a : addr) (blk : list (option T)) : world T :=
  set_heap w (<[a := blk]> (heap w)).

(** the value a constructor call makes from arguments that refer to no
    object inside a block *)
Definition made (x : args T) : option T :=
  match x with
  | Direct y => construct y
  | Copy (Temp v) => copy_construct v
  | Move (Temp v) => fst <$> move_construct v
  | _ => None
  end.

(** the arguments refer to no object inside a block *)
Definition external (x : args T) : bool :=
  match x with Copy (At _) | Move (At _) => false | _ => true end.

(** the element transfers of a reallocation never throw *)
Definition transfer_never_throws : Prop :=
  if Vector.moves_elements
  then ∀ v : T, is_Some (move_construct v)
  else ∀ v : T, is_Some (copy_construct v).

(** slot [i] of the storage of the vector at [this] *)
Definition slot_of (w : world T) (this : vid) (i : N) : option (option T) :=
  v ← objs w !! this; slot_at w (buffer_ (data_ v) +ₚ i).

(** no move assignment of [T] throws *)
Definition move_assign_never_throws : Prop :=
  ∀ d s : T, is_Some (move_assign d s).

(** the iterator [begin() + i] of the vector at [this] *)
Definition iterator_at (w : world T) (this : vid) (i : nat) : option ptr :=
  v ← objs w !! this; Some (buffer_ (data_ v) +ₚ 0 +ₚ N.of_nat i).

(** the capacity of the growth policy *)
Definition grown (cap : N) : N := N.max 1 (2 * cap).

(** no copy, move or move assignment of [T] throws *)
Definition never_throws : Prop :=
  (∀ v : T, is_Some (copy_construct v)) ∧
  (∀ v : T, is_Some (move_construct v)) ∧
  move_assign_never_throws.

(** room for the reallocation a full vector needs *)
Definition room_to_grow (w : world T) (vs : list T) (cap : N) : Prop :=
  N.of_nat (length vs) = cap →
  grown cap ≤ max_size ∧ grown cap * sizeof_T ≤ avail w.

(** the computation works on blocks only: whether it returns or throws, the
    [Vector] objects are the ones before *)
Definition keeps_objs {A} (m : M T A) : Prop :=
  ∀ w, match m w with
       | Ok _ w' | Throw _ w' => objs w' = objs w
       | Undef => True
       end.

(** the computation never throws *)
Definition never_raises {A} (m : M T A) : Prop := ∀ w e w', m w ≠ Throw e w'.

(** what holds of a run when it returns and when it throws *)
Definition outcome {A} (r : res T A)
    (ok : A → world T → Prop) (thrown : world T → Prop) : Prop :=
  match r with
  | Ok a w' => ok a w'
  | Throw _ w' => thrown w'
  | Undef => True
  end.

(** what [Allocate] returns with the capacity it was asked for: a pointer
    to the start of a block, or the null pointer, and a capacity that fits
    in an allocation *)
Definition sound_buffer (m : RawMemory) : Prop :=
  off (buffer_ m) = 0.

(** [0 <= size <= capacity] over a buffer [Allocate] returned, the size one
    a block can have *)
Definition sound_vector (v : Vector) : Prop :=
  size_ v ≤ capacity_ (data_ v) ∧ size_ v ≤ max_size ∧ sound_buffer (data_ v).

Definition sound_objects (o : gmap vid Vector) : Prop :=
  ∀ t v, o !! t = Some v → sound_vector v.

(** no block has more slots than the largest request [operator new]
    accepts pays for *)
Definition blocks_bounded (w : world T) : Prop :=
  ∀ a blk, heap w !! a = Some blk → N.of_nat (length blk) ≤ max_size.

(** whether the computation returns or throws, a store with [P] is left
    with [P] *)
Definition preserves (P : world T → Prop) {A} (m : M T A) : Prop :=
  ∀ w, P w → outcome (m w) (λ _, P) P.

Definition sound_store (w : world T) : Prop :=
  sound_objects (objs w) ∧ blocks_bounded w.

(** the object [t] now has a buffer of capacity [cap] and the size [s]:
    the buffer it had, or one [Allocate] returned; every other object is
    the one it was *)
Definition adopts (w : world T) t (s cap : N) (w' : world T) : Prop :=
  ∃ d, objs w' = <[t := {| data_ := d; size_ := s |}]> (objs w) ∧
       capacity_ d = cap ∧
       (sound_buffer d ∨ ∃ v, objs w !! t = Some v ∧ d = data_ v).

(** whether the run returns or throws, the [Vector] objects are sound *)
Definition objects_stay_sound {A} (r : res T A) : Prop :=
  outcome r (λ _ w', sound_objects (objs w')) (λ w', sound_objects (objs w')).

(** whether the run returns or throws, the store is sound *)
Definition stays_sound {A} (r : res T A) : Prop :=
  outcome r (λ _, sound_store) sound_store.

(** the vectors at [this] and [rhs] own different blocks *)
Definition apart (w : world T) (this rhs : vid) : Prop :=
  ∀ v r a, objs w !! this = Some v → objs w !! rhs = Some r →
    base (buffer_ (data_ v)) = Some a → base (buffer_ (data_ r)) ≠ Some a.

(** the capacity [EmplaceBack] and [Emplace] ask for *)
Definition new_capacity (v : Vector) : N :=
  if size_ v =? 0 then 1 else wrap (RawMemory.Capacity (data_ v) * 2).

(** the capacity an append or an insert leaves: doubled when the vector
    was full *)
Definition appended (v : Vector) : N :=
  if size_ v =? capacity_ (data_ v) then new_capacity v else capacity_ (data_ v).

(** whether the computation returns or throws, the object [this], when
    there is one, is the one it was *)
Definition frames {A} this (m : M T A) : Prop :=
  ∀ w, is_Some (objs w !! this) →
    outcome (m w) (λ _ w', objs w' !! this = objs w !! this)
      (λ w', objs w' !! this = objs w !! this).

(** what [Capacity()] returns for the object [this] *)
Definition capacity_of (w : world T) this : option N :=
  v ← objs w !! this; Some (RawMemory.Capacity (data_ v)).
End Predicates.

(** ** Element types and stores used as concrete inputs *)

(** an [int]: trivially copyable, nothing throws *)
Definition Int : Element Z :=
  {| ctor_args := Z;
     construct := Some;
     value_construct := Some 0%Z;
     copy_construct := Some;
     move_construct := λ v, Some (v, v);
     copy_assign := λ _ s, Some s;
     move_assign := λ _ s, Some (s, s);
     is_nothrow_move_constructible := true;
     is_copy_constructible := true;
     sizeof_T := 4;
     sizeof_T_pos := eq_refl;
     sizeof_T_bound := eq_refl |}.

(** a [std::string]: a move is [noexcept] and leaves its source empty *)
Definition Str : Element string :=
  {| ctor_args := string;
     construct := Some;
     value_construct := Some EmptyString;
     copy_construct := Some;
     move_construct := λ v, Some (v, EmptyString);
     copy_assign := λ _ s, Some s;
     move_assign := λ _ s, Some (s, EmptyString);
     is_nothrow_move_constructible := true;
     is_copy_constructible := true;
     sizeof_T := 32;
     sizeof_T_pos := eq_refl;
     sizeof_T_bound := eq_refl |}.

(** a type whose constructor throws for the value 13 and whose move
    constructor is not [noexcept]: reallocation copies its objects *)
Definition Fragile : Element N :=
  {| ctor_args := N;
     construct := λ x, if x =? 13 then None else Some x;
     value_construct := Some 0;
     copy_construct := λ v, if v =? 13 then None else Some v;
     move_construct := λ v, if v =? 13 then None else Some (v, 0);
     copy_assign := λ _ s, Some s;
     move_assign := λ _ s, Some (s, 0);
     is_nothrow_move_constructible := false;
     is_copy_constructible := true;
     sizeof_T := 8;
     sizeof_T_pos := eq_refl;
     sizeof_T_bound := eq_refl |}.

(** a type without a usable default constructor: [T()] throws *)
Definition Moody : Element bool :=
  {| ctor_args := bool;
     construct := Some;
     value_construct := None;
     copy_construct := Some;
     move_construct := λ v, Some (v, false);
     copy_assign := λ _ s, Some s;
     move_assign := λ _ s, Some (s, false);
     is_nothrow_move_constructible := true;
     is_copy_constructible := true;
     sizeof_T := 1;
     sizeof_T_pos := eq_refl;
     sizeof_T_bound := eq_refl |}.

(** a store with nothing in it and room for [n] slots *)
Definition empty_world {T} (n : N) : world T :=
  {| heap := ∅; avail := n; objs := ∅ |}.

(** the store with one vector at address 1 that owns block 1 *)
Definition one_vector {T} (blk : list (option T)) (size : N) (room : N) : world T :=
  {| heap := {[ 1%positive := blk ]};
     avail := room;
     objs := {[ 1%positive :=
                  {| data_ := {| buffer_ := {| base := Some 1%positive; off := 0 |};
                                 capacity_ := N.of_nat (length blk) |};
                     size_ := size |} ]} |}.

(** the store with one vector at address 1, as [Vector()] leaves it *)
Definition fresh_vector {T} (room : N) : world T :=
  {| heap := ∅;
     avail := room;
     objs := {[ 1%positive :=
                  {| data_ := {| buffer_ := nullptr; capacity_ := 0 |};
                     size_ := 0 |} ]} |}.

(** the positions of the vector at address 1 of [one_vector] *)
Definition slot1 (i : N) : ptr := {| base := Some 1%positive; off := i |}.

(** two vectors: the one at 1 has capacity 2 and no element, the one at 2
    holds 7 and 8 *)
Definition two_vectors : world Z :=
  {| heap := {[ 1%positive := [None; None]; 2%positive := [Some 7%Z; Some 8%Z] ]};
     avail := 100;
     objs := {[ 1%positive :=
                  {| data_ := {| buffer_ := {| base := Some 1%positive; off := 0 |};
                                 capacity_ := 2 |};
                     size_ := 0 |};
                2%positive :=
                  {| data_ := {| buffer_ := {| base := Some 2%positive; off := 0 |};
                                 capacity_ := 2 |};
                     size_ := 2 |} ]} |}.

(** ** The public interface as a list of calls *)

Section Calls.
Context {T : Type} `{!Element T}.

(** one call of a public member of [Vector] *)
Inductive call :=
  | Construct
  | ConstructSize (size : N)
  | ConstructCopy (other : vid)
  | ConstructMove (other : vid)
  | Destruct (this : vid)
  | AssignCopy (this rhs : vid)
  | AssignMove (this rhs : vid)
  | CallSwap (this other : vid)
  | CallReserve (this : vid) (new_capacity : N)
  | CallResize (this : vid) (new_size : N)
  | CallPushBack (this : vid) (value : ref T)
  | CallPushBackRvalue (this : vid) (value : ref T)
  | CallPopBack (this : vid)
  | CallEmplaceBack (this : vid) (a : args T)
  | CallEmplace (this : vid) (pos : ptr) (a : args T)
  | CallInsert (this : vid) (pos : ptr) (value : ref T)
  | CallInsertRvalue (this : vid) (pos : ptr) (value : ref T)
  | CallErase (this : vid) (pos : ptr).

Definition perform (c : call) : M T unit :=
  match c with
  | Construct => Vector.ctor_default;; mret tt
  | ConstructSize size => Vector.ctor_size size;; mret tt
  | ConstructCopy other => Vector.ctor_copy other;; mret tt
  | ConstructMove other => Vector.ctor_move other;; mret tt
  | Destruct this => Vector.dtor this
  | AssignCopy this rhs => Vector.op_assign_copy this rhs
  | AssignMove this rhs => Vector.op_assign_move this rhs
  | CallSwap this other => Vector.Swap this other
  | CallReserve this n => Vector.Reserve this n
  | CallResize this n => Vector.Resize this n
  | CallPushBack this value => Vector.PushBack this value
  | CallPushBackRvalue this value => Vector.PushBack_rvalue this value
  | CallPopBack this => Vector.PopBack this
  | CallEmplaceBack this a => Vector.EmplaceBack this a;; mret tt
  | CallEmplace this pos a => Vector.Emplace this pos a;; mret tt
  | CallInsert this pos value => Vector.Insert this pos value;; mret tt
  | CallInsertRvalue this pos value => Vector.Insert_rvalue this pos value;; mret tt
  | CallErase this pos => Vector.Erase this pos;; mret tt
  end.

Fixpoint perform_all (cs : list call) : M T unit :=
  match cs with
  | [] => mret tt
  | c :: cs' => perform c;; perform_all cs'
  end.

(** the arguments of type [size_t] are values of that type *)
Definition size_args_fit (c : call) : bool :=
  match c with
  | ConstructSize n | CallReserve _ n | CallResize _ n => n <? size_t_modulus
  | _ => true
  end.

(** a store some finite sequence of public calls produces from nothing *)
Definition reachable (w : world T) : Prop :=
  ∃ cs room, forallb size_args_fit cs = true ∧
             perform_all cs (empty_world room) = Ok tt w.
End Calls.

Global Arguments call T {_}.

(** ** Kinds of calls *)

Section CallKinds.
Context {T : Type} `{!Element T}.
Implicit Types (this t other rhs : vid) (c : call T).

(** the calls that give [this] the whole contents of another vector, or take
    its contents away, or end its life: assignment to it, [Swap] with it,
    moving from it, its destructor *)
Definition replaces this c : bool :=
  match c with
  | ConstructMove other => bool_decide (other = this)
  | Destruct t => bool_decide (t = this)
  | AssignCopy t _ => bool_decide (t = this)
  | AssignMove t rhs => bool_decide (t = this) || bool_decide (rhs = this)
  | CallSwap t other => bool_decide (t = this) || bool_decide (other = this)
  | _ => false
  end.

(** the appends and inserts on [this] *)
Definition appends this c : bool :=
  match c with
  | CallPushBack t _ | CallPushBackRvalue t _ | CallEmplaceBack t _
  | CallEmplace t _ _ | CallInsert t _ _ | CallInsertRvalue t _ _ =>
      bool_decide (t = this)
  | _ => false
  end.

(** appends and inserts of a value that is not an element of a vector *)
Definition appends_of this (pos : ptr) (value : T) : list (call T) :=
  [ CallPushBack this (Temp value); CallPushBackRvalue this (Temp value);
    CallEmplaceBack this (Copy (Temp value));
    CallEmplace this pos (Copy (Temp value));
    CallInsert this pos (Temp value); CallInsertRvalue this pos (Temp value) ].
End CallKinds.

(** ** Running computations *)

Section Run.
Context {T : Type} `{!Element T}.
Implicit Types (w : world T) (p : ptr) (this : vid).

Lemma world_eta w : {| heap := heap w; avail := avail w; objs := objs w |} = w.
Proof. by destruct w. Qed.

Lemma run_ret {A} (a : A) w : (mret a : M T A) w = Ok a w.
Proof. reflexivity. Qed.

Lemma run_bind {A B} (m : M T A) (k : A → M T B) w :
  (m ≫= k) w =
  match m w with
  | Ok a w' => k a w'
  | Throw e w' => Throw e w'
  | Undef => Undef
  end.
Proof. reflexivity. Qed.

Lemma run_bind_assoc {A B C} (m : M T A) (k1 : A → M T B) (k2 : B → M T C) w :
  ((m ≫= k1) ≫= k2) w = (m ≫= λ x, k1 x ≫= k2) w.
Proof. rewrite !run_bind. by destruct (m w). Qed.

Lemma run_bind_ok {A B} (m : M T A) (k : A → M T B) w a w' :
  m w = Ok a w' → (m ≫= k) w = k a w'.
Proof. intros Hm. by rewrite run_bind, Hm. Qed.

Lemma run_bind_throw {A B} (m : M T A) (k : A → M T B) w e w' :
  m w = Throw e w' → (m ≫= k) w = Throw e w'.
Proof. intros Hm. by rewrite run_bind, Hm. Qed.

Lemma run_bind_not_ok {A B} (m : M T A) (k : A → M T B) w :
  is_ok (m w) = false → is_ok ((m ≫= k) w) = false.
Proof. rewrite run_bind. by destruct (m w). Qed.

Lemma run_try_catch_ok {A} (m : M T A) h w a w' :
  m w = Ok a w' → try_catch m h w = Ok a w'.
Proof. unfold try_catch. by intros ->. Qed.

Lemma run_try_catch_throw {A} (m : M T A) h w e w' :
  m w = Throw e w' → try_catch m h w = h e w'.
Proof. unfold try_catch. by intros ->. Qed.

Lemma run_unwinding_ok {A} c (m : M T A) w a w' :
  m w = Ok a w' → unwinding c m w = Ok a w'.
Proof. apply run_try_catch_ok. Qed.

Lemma run_unwinding_throw {A} c (m : M T A) w e w' w'' :
  m w = Throw e w' → c w' = Ok tt w'' → unwinding c m w = Throw e w''.
Proof.
  intros Hm Hc. unfold unwinding, try_catch, bind. by rewrite Hm, Hc.
Qed.

(** a scope left by an exception does not return *)
Lemma run_unwinding_not_ok {A} c (m : M T A) w :
  is_ok (m w) = false → is_ok (unwinding c m w) = false.
Proof.
  unfold unwinding, try_catch. destruct (m w) as [| e w' |]; try done.
  intros _. unfold bind. by destruct (c w').
Qed.

Lemma run_rethrow_not_ok {A} (m : M T A) w :
  is_ok (m w) = false → is_ok (try_catch m (λ e, throw e) w) = false.
Proof. unfold try_catch. by destruct (m w). Qed.

Lemma run_assert b w : b = true → assert (T := T) b w = Ok tt w.
Proof. by intros ->. Qed.

Lemma run_elem_some {A} (o : option A) a w : o = Some a → elem o w = Ok a w.
Proof. by intros ->. Qed.

Lemma run_elem_none {A} (o : option A) w :
  o = None → elem o w = Throw element_error w.
Proof. by intros ->. Qed.

(** *** Slots *)

Lemma slot_at_heap w p a blk :
  base p = Some a → heap w !! a = Some blk →
  slot_at w p = blk !! N.to_nat (off p).
Proof. unfold slot_at. intros -> Hb. simpl. by rewrite Hb. Qed.

Lemma run_load w p v : slot_at w p = Some (Some v) → load p w = Ok v w.
Proof. unfold load. by intros ->. Qed.

Lemma run_check_storage w p s : slot_at w p = Some s → check_storage p w = Ok tt w.
Proof. unfold check_storage. by intros ->. Qed.

Lemma run_write_slot w p a blk s :
  base p = Some a → heap w !! a = Some blk →
  (N.to_nat (off p) < length blk)%nat →
  write_slot p s w = Ok tt (set_heap w (<[a := <[N.to_nat (off p) := s]> blk]> (heap w))).
Proof.
  unfold write_slot. intros -> -> Hlt. by rewrite bool_decide_eq_true_2.
Qed.

Lemma run_op_plus w (m : RawMemory) offset :
  offset ≤ capacity_ m → RawMemory.op_plus m offset w = Ok (buffer_ m +ₚ offset) w.
Proof.
  intros Hle. unfold RawMemory.op_plus.
  by rewrite (run_bind_ok _ _ _ tt w) by (by apply run_assert, N.leb_le).
Qed.

Lemma run_op_index w (m : RawMemory) i :
  i < capacity_ m → RawMemory.op_index m i w = Ok (buffer_ m +ₚ i) w.
Proof.
  intros Hlt. unfold RawMemory.op_index.
  by rewrite (run_bind_ok _ _ _ tt w) by (by apply run_assert, N.ltb_lt).
Qed.

Lemma run_get w this v : objs w !! this = Some v → Vector.get this w = Ok v w.
Proof. unfold Vector.get. by intros ->. Qed.

Lemma run_set_data w this v d :
  objs w !! this = Some v →
  Vector.set_data this d w
  = Ok tt (set_objs w (<[this := {| data_ := d; size_ := size_ v |}]> (objs w))).
Proof.
  intros Hv. unfold Vector.set_data.
  by rewrite (run_bind_ok _ _ _ _ _ (run_get _ _ _ Hv)).
Qed.

Lemma run_set_size w this v n :
  objs w !! this = Some v →
  Vector.set_size this n w
  = Ok tt (set_objs w (<[this := {| data_ := data_ v; size_ := n |}]> (objs w))).
Proof.
  intros Hv. unfold Vector.set_size.
  by rewrite (run_bind_ok _ _ _ _ _ (run_get _ _ _ Hv)).
Qed.
End Run.

(** one step of a run: the head of the chain of binds returns *)
Ltac run_step H := rewrite ?run_bind_assoc; rewrite (run_bind_ok _ _ _ _ _ H).
Tactic Notation "run_step_by" constr(w) tactic3(tac) :=
  rewrite ?run_bind_assoc; rewrite (run_bind_ok _ _ _ _ w) by tac.

(** ** What a store says about a vector *)

Section Represents.
Context {T : Type} `{!Element T}.
Implicit Types (w : world T) (p : ptr) (this : vid) (vs : list T).

(** The two shapes of a represented vector. *)
Lemma represents_inv w this vs cap :
  represents w this vs cap →
  cap ≤ max_size ∧
  ((cap = 0 ∧ vs = [] ∧
    objs w !! this = Some {| data_ := {| buffer_ := nullptr; capacity_ := 0 |};
                             size_ := 0 |}) ∨
   (cap ≠ 0 ∧ ∃ a tail,
      objs w !! this
      = Some {| data_ := {| buffer_ := {| base := Some a; off := 0 |};
                            capacity_ := cap |};
                size_ := N.of_nat (length vs) |} ∧
      heap w !! a = Some ((Some <$> vs) ++ tail) ∧
      N.of_nat (length vs + length tail) = cap)).
Proof.
  intros ([[[b o] c] s] & blk & Hv & Hb & Hc & Hl & Hm & Hs & Ht).
  simpl in *. subst c s. split; [done|].
  unfold block_of in Hb. simpl in Hb. destruct b as [a|].
  - destruct (o =? 0) eqn:Ho; [|done]. apply N.eqb_eq in Ho. subst o.
    destruct (cap =? 0) eqn:Hc; [done|]. apply N.eqb_neq in Hc.
    simpl in Hb. right. split; [done|].
    exists a, (drop (length vs) blk). split; [done|].
    rewrite <- Ht, take_drop. split; [done|].
    rewrite length_drop.
    assert (length (take (length vs) blk) = length vs) as Hlen
      by (by rewrite Ht, length_fmap).
    rewrite length_take in Hlen. lia.
  - destruct (cap =? 0) eqn:Hc; [|done]. apply N.eqb_eq in Hc.
    destruct (o =? 0) eqn:Ho; [|done]. apply N.eqb_eq in Ho. subst o.
    simplify_eq/=. left.
    destruct vs; [done|]. done.
Qed.

Lemma represents_intro w this vs cap a tail :
  cap ≠ 0 → cap ≤ max_size →
  objs w !! this
  = Some {| data_ := {| buffer_ := {| base := Some a; off := 0 |};
                        capacity_ := cap |};
            size_ := N.of_nat (length vs) |} →
  heap w !! a = Some ((Some <$> vs) ++ tail) →
  N.of_nat (length vs + length tail) = cap →
  represents w this vs cap.
Proof.
  intros Hc Hm Hv Hb Hl.
  exists {| data_ := {| buffer_ := {| base := Some a; off := 0 |};
                       capacity_ := cap |};
           size_ := N.of_nat (length vs) |}, ((Some <$> vs) ++ tail).
  split; [done|]. unfold block_of. simpl.
  apply N.eqb_neq in Hc. rewrite Hc. simpl. split; [done|]. split; [done|].
  rewrite length_app, length_fmap. split; [done|]. split; [done|].
  split; [done|]. by rewrite take_app_length' by (by rewrite length_fmap).
Qed.

Lemma represents_intro_empty w this :
  objs w !! this = Some {| data_ := {| buffer_ := nullptr; capacity_ := 0 |};
                           size_ := 0 |} →
  represents w this [] 0.
Proof.
  intros Hv. eexists _, []. split; [done|]. repeat split; try done. simpl. lia.
Qed.

Lemma represents_stores w this vs cap :
  represents w this vs cap ↔ stores w this vs cap cap ∧ cap ≤ max_size.
Proof.
  split.
  - intros (v & blk & Hv & Hb & Hc & Hl & Hm & Hs & Ht).
    split; [|done]. by exists v, blk.
  - intros [(v & blk & Hv & Hb & Hc & Hl & Hs & Ht) Hm]. by exists v, blk.
Qed.

Lemma stores_intro w this vs cap a tail :
  cap ≠ 0 →
  objs w !! this
  = Some {| data_ := {| buffer_ := {| base := Some a; off := 0 |};
                        capacity_ := cap |};
            size_ := N.of_nat (length vs) |} →
  heap w !! a = Some ((Some <$> vs) ++ tail) →
  stores w this vs cap (N.of_nat (length vs + length tail)).
Proof.
  intros Hc Hv Hb.
  exists {| data_ := {| buffer_ := {| base := Some a; off := 0 |};
                       capacity_ := cap |};
           size_ := N.of_nat (length vs) |}, ((Some <$> vs) ++ tail).
  split; [done|]. unfold block_of. simpl.
  apply N.eqb_neq in Hc. rewrite Hc. simpl. split; [done|]. split; [done|].
  rewrite length_app, length_fmap. split; [done|]. split; [done|].
  by rewrite take_app_length' by (by rewrite length_fmap).
Qed.

(** the shape of a stored vector with a capacity *)
Lemma stores_inv w this vs cap slots :
  stores w this vs cap slots → cap ≠ 0 →
  ∃ a tail,
    objs w !! this
    = Some {| data_ := {| buffer_ := {| base := Some a; off := 0 |};
                          capacity_ := cap |};
              size_ := N.of_nat (length vs) |} ∧
    heap w !! a = Some ((Some <$> vs) ++ tail) ∧
    N.of_nat (length vs + length tail) = slots.
Proof.
  intros ([[[b o] c] s] & blk & Hv & Hb & Hc & Hl & Hs & Ht) Hcap.
  simpl in *. subst c s.
  unfold block_of in Hb. simpl in Hb. destruct b as [a|].
  - destruct (o =? 0) eqn:Ho; [|done]. apply N.eqb_eq in Ho. subst o.
    destruct (cap =? 0) eqn:Hc; [done|]. simpl in Hb.
    exists a, (drop (length vs) blk). split; [done|].
    rewrite <- Ht, take_drop. split; [done|].
    rewrite length_drop.
    assert (length (take (length vs) blk) = length vs) as Hlen
      by (by rewrite Ht, length_fmap).
    rewrite length_take in Hlen. lia.
  - destruct (cap =? 0) eqn:Hc; [|done]. by apply N.eqb_eq in Hc.
Qed.

(** One store holds one vector at an address with one content. *)
Lemma represents_agree w this vs cap vs' cap' :
  represents w this vs cap → represents w this vs' cap' → vs = vs' ∧ cap = cap'.
Proof.
  intros (v & blk & Hv & Hb & Hc & Hl & _ & Hs & Ht)
         (v' & blk' & Hv' & Hb' & Hc' & Hl' & _ & Hs' & Ht').
  simplify_eq. split; [|done].
  assert (length vs = length vs') as Hlen by lia.
  rewrite Hlen in Ht. rewrite Ht in Ht'.
  by apply (inj (fmap Some)) in Ht'.
Qed.
End Represents.

(** ** Allocation *)

Section Allocation.
Context {T : Type} `{!Element T}.
Implicit Types (w : world T) (p : ptr) (this : vid) (vs : list T).

(** *** Sizes in bytes *)

Lemma wrap_small n : n < size_t_modulus → wrap n = n.
Proof. apply N.mod_small. Qed.

Lemma sizeof_T_ne_0 : sizeof_T ≠ 0.
Proof. pose proof sizeof_T_pos. lia. Qed.

Lemma max_size_bound : max_size < 2 ^ 63.
Proof.
  unfold max_size, ptrdiff_max. pose proof sizeof_T_pos.
  apply N.le_lt_trans with (2 ^ 63 - 1); [|lia].
  apply N.Div0.div_le_upper_bound. nia.
Qed.

Lemma max_size_modulus : 2 * max_size < size_t_modulus.
Proof.
  pose proof max_size_bound. unfold size_t_modulus.
  change (2 ^ 64) with (2 * 2 ^ 63). lia.
Qed.

Lemma max_size_pos : 1 ≤ max_size.
Proof.
  unfold max_size, ptrdiff_max. pose proof sizeof_T_bound.
  apply N.div_le_lower_bound; [apply sizeof_T_ne_0|]. lia.
Qed.

(** up to [max_size] objects fit in a block *)
Lemma bytes_fit n : n ≤ max_size → n * sizeof_T ≤ ptrdiff_max.
Proof.
  unfold max_size. intros Hn.
  pose proof (N.Div0.mul_div_le ptrdiff_max sizeof_T). nia.
Qed.

Lemma bytes_exceed n : max_size < n → ptrdiff_max < n * sizeof_T.
Proof.
  unfold max_size. intros Hn.
  pose proof (N.mul_succ_div_gt ptrdiff_max sizeof_T sizeof_T_ne_0). nia.
Qed.

(** the byte count of up to twice [max_size] objects does not wrap *)
Lemma bytes_no_wrap n : n ≤ 2 * max_size → wrap (n * sizeof_T) = n * sizeof_T.
Proof.
  intros Hn. apply wrap_small.
  pose proof (bytes_fit max_size (N.le_refl _)) as Hfit.
  unfold ptrdiff_max in Hfit. unfold size_t_modulus.
  change (2 ^ 64) with (2 * 2 ^ 63). nia.
Qed.

Lemma slots_of_bytes n : n * sizeof_T / sizeof_T = n.
Proof. apply N.div_mul, sizeof_T_ne_0. Qed.

(** a block never has more than [max_size] slots *)
Lemma slots_bound count : count ≤ ptrdiff_max → count / sizeof_T ≤ max_size.
Proof. intros Hc. unfold max_size. by apply N.Div0.div_le_mono. Qed.

(** *** [operator new] *)

Lemma fresh_not_in_heap w : heap w !! fresh (dom (heap w)) = None.
Proof. apply not_elem_of_dom, is_fresh. Qed.

Lemma handed_out_lookup_old w slots count a blk :
  heap w !! a = Some blk → heap (handed_out w slots count) !! a = Some blk.
Proof.
  intros Ha. simpl. rewrite lookup_insert_ne; [done|].
  intros <-. by rewrite fresh_not_in_heap in Ha.
Qed.

Lemma handed_out_lookup_new w slots count :
  heap (handed_out w slots count) !! fresh (dom (heap w))
  = Some (replicate slots None).
Proof. simpl. by rewrite lookup_insert_eq. Qed.

Lemma allocated_lookup_old w n a blk :
  heap w !! a = Some blk → heap (allocated w n) !! a = Some blk.
Proof. apply handed_out_lookup_old. Qed.

Lemma allocated_lookup_new w n :
  heap (allocated w n) !! fresh (dom (heap w)) = Some (replicate (N.to_nat n) None).
Proof. apply handed_out_lookup_new. Qed.

Lemma allocated_slot_old w n p s :
  slot_at w p = Some s → slot_at (allocated w n) p = Some s.
Proof.
  unfold slot_at. destruct (base p) as [a|]; [|done]. simpl.
  destruct (heap w !! a) as [blk|] eqn:Ha; [|done].
  by rewrite (lookup_insert_ne (heap w)), Ha
    by (intros <-; by rewrite fresh_not_in_heap in Ha).
Qed.

(** what [Allocate(n)] does for every [n] but 0: the request is for
    [n * sizeof(T)] bytes, computed in [size_t] *)
Lemma run_ctor_capacity w n :
  n ≠ 0 →
  let count := wrap (n * sizeof_T) in
  RawMemory.ctor_capacity n w
  = if (count <=? ptrdiff_max) && (count <=? avail w)
    then Ok {| buffer_ := fresh_ptr w; capacity_ := n |}
            (handed_out w (N.to_nat (count / sizeof_T)) count)
    else Throw bad_alloc w.
Proof.
  intros Hn count. unfold RawMemory.ctor_capacity, RawMemory.Allocate.
  apply N.eqb_neq in Hn. rewrite Hn. simpl. rewrite run_bind.
  unfold operator_new. fold count.
  by destruct ((count <=? ptrdiff_max) && (count <=? avail w)).
Qed.

Lemma run_ctor_capacity_ok w n :
  n ≠ 0 → n ≤ max_size → n * sizeof_T ≤ avail w →
  RawMemory.ctor_capacity n w
  = Ok {| buffer_ := fresh_ptr w; capacity_ := n |} (allocated w n).
Proof.
  intros Hn Hm Ha. rewrite run_ctor_capacity by done. simpl.
  pose proof max_size_pos. rewrite bytes_no_wrap by lia.
  pose proof (bytes_fit n Hm) as Hfit.
  apply N.leb_le in Hfit, Ha. rewrite Hfit, Ha. simpl.
  unfold allocated. by rewrite slots_of_bytes.
Qed.

Lemma run_ctor_capacity_fail w n :
  n ≠ 0 → n ≤ 2 * max_size → ¬ (n ≤ max_size ∧ n * sizeof_T ≤ avail w) →
  RawMemory.ctor_capacity n w = Throw bad_alloc w.
Proof.
  intros Hn H2 Hm. rewrite run_ctor_capacity by done. simpl.
  rewrite bytes_no_wrap by done.
  destruct (n * sizeof_T <=? ptrdiff_max) eqn:H1; [|done].
  destruct (n * sizeof_T <=? avail w) eqn:H3; [|done].
  apply N.leb_le in H1, H3. exfalso. apply Hm. split; [|done].
  destruct (decide (n ≤ max_size)) as [|Hgt]; [done|].
  pose proof (bytes_exceed n). lia.
Qed.

(** giving a block back right after it was handed out restores the store *)
Lemma run_dtor_allocated w n :
  n * sizeof_T ≤ avail w →
  RawMemory.dtor {| buffer_ := fresh_ptr w; capacity_ := n |} (allocated w n)
  = Ok tt w.
Proof.
  intros Ha. unfold RawMemory.dtor, RawMemory.Deallocate, operator_delete.
  simpl. rewrite lookup_insert_eq. f_equal.
  rewrite delete_insert_id by apply fresh_not_in_heap.
  rewrite length_replicate, N2Nat.id.
  replace (avail w - n * sizeof_T + n * sizeof_T) with (avail w) by lia.
  apply world_eta.
Qed.

Lemma read_ref_allocated w n r :
  (∃ v, read_ref r w = Ok v w ∧
        read_ref r (allocated w n) = Ok v (allocated w n)) ∨
  read_ref r w = Undef.
Proof.
  destruct r as [x|p]; simpl; [left; by eexists|].
  unfold load. destruct (slot_at w p) as [[x|]|] eqn:Hs; auto.
  left. exists x. by rewrite (allocated_slot_old _ _ _ _ Hs).
Qed.

(** A constructor call that throws reads only objects that are there, so it
    throws again in a store with one more block. *)
Lemma make_throws_allocated w a n :
  make a w = Throw element_error w →
  make a (allocated w n) = Throw element_error (allocated w n).
Proof.
  destruct a as [x|r|r]; simpl.
  - destruct (construct x); [done|]. done.
  - destruct (read_ref_allocated w n r) as [(v & Hr & Hr')|Hr].
    + rewrite (run_bind_ok _ _ _ _ _ Hr), (run_bind_ok _ _ _ _ _ Hr').
      destruct (copy_construct v); [done|]. done.
    + rewrite run_bind, Hr. done.
  - destruct (read_ref_allocated w n r) as [(v & Hr & Hr')|Hr].
    + rewrite (run_bind_ok _ _ _ _ _ Hr), (run_bind_ok _ _ _ _ _ Hr').
      destruct (move_construct v) as [[v1 rest]|]; [|done].
      rewrite (run_bind_ok _ _ _ (v1, rest) w) by done.
      rewrite !run_bind.
      destruct (write_ref r rest w) as [[] w1|e w1|] eqn:Hw; try done.
      intros [= -> ->].
      destruct r as [x|p]; [done|]. simpl in Hw. unfold update in Hw.
      rewrite run_bind in Hw. unfold load in Hw at 1.
      destruct (slot_at w p) as [[?|]|]; try done.
      unfold write_slot in Hw.
      repeat (case_match; try done).
    + rewrite run_bind, Hr. done.
Qed.
End Allocation.

Section EmplaceBackFailure.
Context {T : Type} `{!Element T}.
Implicit Types (w : world T) (p : ptr) (this : vid) (vs : list T).

(** placement [new] whose constructor throws leaves the store alone *)
Lemma run_placement_new_throws w p a s :
  slot_at w p = Some s → make a w = Throw element_error w →
  placement_new p a w = Throw element_error w.
Proof.
  intros Hs Hm. unfold placement_new.
  rewrite (run_bind_ok _ _ _ _ _ (run_check_storage _ _ _ Hs)).
  by rewrite (run_bind_throw _ _ _ _ _ Hm).
Qed.

(** The growth path from the allocation to the first constructor call: the
    new block is given back and the exception leaves the scope. *)
Lemma run_grow_ctor_throws w a n i (rest_moves rest_copies : M T unit) :
  n * sizeof_T ≤ avail w → i < n →
  make a w = Throw element_error w →
  let new_data := {| buffer_ := fresh_ptr w; capacity_ := n |} in
  unwinding (RawMemory.dtor new_data)
    (if Vector.moves_elements then
       p ← RawMemory.op_plus new_data i;
       placement_new p a;;
       rest_moves
     else
       try_catch (p ← RawMemory.op_plus new_data i; placement_new p a)
         (λ e, throw e);;
       rest_copies) (allocated w n)
  = Throw element_error w.
Proof.
  intros Ha Hi Hm nd.
  assert (RawMemory.op_plus nd i (allocated w n)
          = Ok (fresh_ptr w +ₚ i) (allocated w n)) as Hplus
    by (apply run_op_plus; simpl; lia).
  assert (placement_new (fresh_ptr w +ₚ i) a (allocated w n)
          = Throw element_error (allocated w n)) as Hnew.
  { eapply run_placement_new_throws; [|by apply make_throws_allocated].
    erewrite slot_at_heap; [|done|apply allocated_lookup_new].
    simpl. apply lookup_replicate_2. lia. }
  eapply run_unwinding_throw; [|by apply run_dtor_allocated].
  destruct Vector.moves_elements.
  - rewrite (run_bind_ok _ _ _ _ _ Hplus).
    by rewrite (run_bind_throw _ _ _ _ _ Hnew).
  - apply run_bind_throw. erewrite run_try_catch_throw; [done|].
    rewrite (run_bind_ok _ _ _ _ _ Hplus). done.
Qed.

(** the whole growth path when the constructor throws *)
Lemma run_grow_throws {A} w a n i (rest_moves rest_copies : RawMemory → M T unit)
    (after : RawMemory → unit → M T A) :
  n ≠ 0 → n ≤ 2 * max_size → i < n →
  make a w = Throw element_error w →
  ∃ e,
    (RawMemory.ctor_capacity n ≫= λ new_data,
     unwinding (RawMemory.dtor new_data)
       (if Vector.moves_elements then
          p ← RawMemory.op_plus new_data i;
          placement_new p a;;
          rest_moves new_data
        else
          try_catch (p ← RawMemory.op_plus new_data i; placement_new p a)
            (λ e, throw e);;
          rest_copies new_data) ≫= after new_data : M T A) w = Throw e w.
Proof.
  intros Hn Hn2 Hi Hm.
  destruct (decide (n ≤ max_size ∧ n * sizeof_T ≤ avail w)) as [[H1 H2]|Hfail]; cycle 1.
  { exists bad_alloc.
    by rewrite (run_bind_throw _ _ _ _ _ (run_ctor_capacity_fail _ _ Hn Hn2 Hfail)). }
  exists element_error.
  rewrite (run_bind_ok _ _ _ _ _ (run_ctor_capacity_ok _ _ Hn H1 H2)).
  apply run_bind_throw. by apply run_grow_ctor_throws.
Qed.

(** C1. When the constructor [EmplaceBack] invokes for the new element
    throws, in the growth path as in the spare-capacity path, the exception
    leaves [EmplaceBack] and the store is the one before the call: the
    vector has the size and the elements it had.  (In the growth path the
    allocation comes first; when it fails, [std::bad_alloc] leaves the call
    instead, with the same store.) *)
Theorem EmplaceBack_constructor_throws w this vs cap a :
  represents w this vs cap →
  make a w = Throw element_error w →
  ∃ e, Vector.EmplaceBack this a w = Throw e w ∧ represents w this vs cap.
Proof.
  intros Hrep Hmake.
  cut (∃ e, Vector.EmplaceBack this a w = Throw e w).
  { intros [e He]. by exists e. }
  destruct (represents_inv _ _ _ _ Hrep)
    as [Hmax [(-> & -> & Hv)|(Hc & b & tail & Hv & Hb & Hl)]];
    unfold Vector.EmplaceBack;
    rewrite (run_bind_ok _ _ _ _ _ (run_get _ _ _ Hv));
    cbn [size_ data_ RawMemory.Capacity capacity_].
  - (* empty storage: the first element goes to a block of one slot *)
    rewrite N.eqb_refl.
    pose proof max_size_pos.
    edestruct (run_grow_throws (A := unit) w a 1 0) as [e He];
      [done|lia|done|done| exists e; apply run_bind_throw; apply He].
  - pose proof max_size_modulus as Hmod.
    destruct (N.of_nat (length vs) =? cap) eqn:Hfull.
    + (* size == capacity: the capacity doubles *)
      apply N.eqb_eq in Hfull.
      assert ((N.of_nat (length vs) =? 0) = false) as -> by (apply N.eqb_neq; lia).
      rewrite wrap_small by lia.
      edestruct (run_grow_throws (A := unit) w a (cap * 2) (N.of_nat (length vs)))
        as [e He]; [lia|lia|lia|done| exists e; apply run_bind_throw; apply He].
    + (* a raw slot is left *)
      apply N.eqb_neq in Hfull.
      exists element_error. apply run_bind_throw.
      rewrite (run_bind_ok _ _ _ _ w) by (apply run_op_plus; simpl; lia).
      destruct tail as [|s tail]; [simpl in Hl; lia|].
      eapply run_placement_new_throws; [|done].
      erewrite slot_at_heap; [|done..]. simpl.
      rewrite N.add_0_l, Nat2N.id.
      rewrite lookup_app_r by (by rewrite length_fmap).
      by rewrite length_fmap, Nat.sub_diag.
Qed.
End EmplaceBackFailure.

(** ** Specifications of computations *)

Section Spec.
Context {T : Type} `{!Element T}.
Implicit Types (w : world T) (p : ptr) (this : vid).

Lemma spec_ok {A} (r : res T A) cond (post : A → world T → Prop) a w' :
  r = Ok a w' → post a w' → spec r cond post.
Proof. intros -> Hp. split; [by intros ?? [= <- <-]|done]. Qed.

Lemma spec_not_ok {A} (r : res T A) (cond : Prop) post :
  is_ok r = false → ¬ cond → spec r cond post.
Proof. intros Hr Hc. split; [intros ?? ->; done|tauto]. Qed.

Lemma spec_weaken {A} (r : res T A) (cond cond' : Prop) (post post' : A → world T → Prop) :
  spec r cond post → (cond' → cond) → (∀ a w', r = Ok a w' → post a w' → post' a w') →
  spec r cond' post'.
Proof. intros [H1 H2] Hc Hp. split; [naive_solver|tauto]. Qed.

Lemma spec_bind {A B} (m : M T A) (k : A → M T B) w
    (c1 c : Prop) (p1 : A → world T → Prop) (p : B → world T → Prop) :
  spec (m w) c1 p1 → (c → c1) →
  (∀ a w1, m w = Ok a w1 → p1 a w1 → spec (k a w1) c p) →
  spec ((m ≫= k) w) c p.
Proof.
  intros [Hp1 Hc1] Hc Hk. rewrite run_bind.
  destruct (m w) as [a w1|e w1|] eqn:Hm.
  - by apply Hk, Hp1.
  - split; [done|]. intros Hcond. by apply Hc, Hc1 in Hcond.
  - split; [done|]. intros Hcond. by apply Hc, Hc1 in Hcond.
Qed.

Lemma spec_unwinding {A} c (m : M T A) w cond post :
  spec (m w) cond post → spec (unwinding c m w) cond post.
Proof.
  intros [Hp Hc]. unfold unwinding, try_catch.
  destruct (m w) as [a w1|e w1|] eqn:Hm; [done| |done].
  split; [|naive_solver]. unfold bind. by destruct (c w1).
Qed.

(** [try { m } catch (...) { ...; throw; }]: the handler does not return *)
Lemma spec_try_rethrow {A} (m : M T A) (h : exn → M T A) w cond post :
  (∀ e w', is_ok (h e w') = false) →
  spec (m w) cond post →
  spec (try_catch m h w) cond post.
Proof.
  intros Hh [Hp Hc]. unfold try_catch.
  destruct (m w) as [a w1|e w1|] eqn:Hm; [done| |done].
  split; [|naive_solver]. intros a w' Hr. specialize (Hh e w1).
  by rewrite Hr in Hh.
Qed.

Lemma spec_try_throw {A} (m : M T A) w cond post :
  spec (m w) cond post → spec (try_catch m (λ e, throw e) w) cond post.
Proof.
  intros [Hp Hc]. unfold try_catch.
  destruct (m w) as [a w1|e w1|] eqn:Hm; [done| |done].
  split; [done|naive_solver].
Qed.

Lemma spec_elem {A} (o : option A) w :
  spec (elem o w) (is_Some o) (λ a w', o = Some a ∧ w' = w).
Proof.
  destruct o as [a|]; simpl.
  - eapply spec_ok; done.
  - apply spec_not_ok; [done|]. by intros [? ?].
Qed.
End Spec.

(** ** Blocks *)

Section Blocks.
Context {T : Type} `{!Element T}.
Implicit Types (w : world T) (p : ptr) (this : vid) (a b : addr).
Implicit Types (pre post blk : list (option T)) (s : option T).

Lemma with_block_lookup w a blk : heap (with_block w a blk) !! a = Some blk.
Proof. apply lookup_insert_eq. Qed.

Lemma with_block_lookup_ne w a b blk :
  a ≠ b → heap (with_block w a blk) !! b = heap w !! b.
Proof. intros. by apply lookup_insert_ne. Qed.

Lemma with_block_twice w a blk blk' :
  with_block (with_block w a blk) a blk' = with_block w a blk'.
Proof. unfold with_block, set_heap. simpl. by rewrite insert_insert_eq. Qed.

Lemma with_block_comm w a b blk blk' :
  a ≠ b →
  with_block (with_block w a blk) b blk' = with_block (with_block w b blk') a blk.
Proof.
  intros. unfold with_block, set_heap. simpl. f_equal. by apply insert_insert_ne.
Qed.

Lemma with_block_same w a blk : heap w !! a = Some blk → with_block w a blk = w.
Proof.
  intros Ha. unfold with_block, set_heap. rewrite insert_id by done.
  apply world_eta.
Qed.

Lemma with_block_objs w a blk : objs (with_block w a blk) = objs w.
Proof. done. Qed.

Lemma with_block_avail w a blk : avail (with_block w a blk) = avail w.
Proof. done. Qed.

Lemma slot_at_middle w p a pre s post :
  base p = Some a → N.to_nat (off p) = length pre →
  heap w !! a = Some (pre ++ s :: post) →
  slot_at w p = Some s.
Proof.
  intros Hb Ho Ha. rewrite (slot_at_heap _ _ _ _ Hb Ha), Ho.
  apply list_lookup_middle. done.
Qed.

Lemma run_load_middle w p a pre v post :
  base p = Some a → N.to_nat (off p) = length pre →
  heap w !! a = Some (pre ++ Some v :: post) →
  load p w = Ok v w.
Proof. intros. eapply run_load, slot_at_middle; done. Qed.

Lemma run_write_middle w p a pre s s' post :
  base p = Some a → N.to_nat (off p) = length pre →
  heap w !! a = Some (pre ++ s :: post) →
  write_slot p s' w = Ok tt (with_block w a (pre ++ s' :: post)).
Proof.
  intros Hb Ho Ha. erewrite run_write_slot; [|done..|].
  - rewrite Ho. do 2 f_equal. unfold with_block. do 2 f_equal.
    replace (length pre) with (length pre + 0)%nat by lia.
    by rewrite insert_app_r.
  - rewrite Ho, length_app. simpl. lia.
Qed.

Lemma run_update_middle w p a pre v v' post :
  base p = Some a → N.to_nat (off p) = length pre →
  heap w !! a = Some (pre ++ Some v :: post) →
  update p v' w = Ok tt (with_block w a (pre ++ Some v' :: post)).
Proof.
  intros Hb Ho Ha. unfold update.
  rewrite (run_bind_ok _ _ _ _ _ (run_load_middle _ _ _ _ _ _ Hb Ho Ha)).
  by eapply run_write_middle.
Qed.

Lemma run_destroy_at_middle w p a pre v post :
  base p = Some a → N.to_nat (off p) = length pre →
  heap w !! a = Some (pre ++ Some v :: post) →
  destroy_at p w = Ok tt (with_block w a (pre ++ None :: post)).
Proof.
  intros Hb Ho Ha. unfold destroy_at.
  rewrite (run_bind_ok _ _ _ _ _ (run_load_middle _ _ _ _ _ _ Hb Ho Ha)).
  by eapply run_write_middle.
Qed.

(** [std::destroy_n] over constructed objects leaves raw slots *)
Lemma run_destroy_loop (vs : list T) w p a pre post :
  base p = Some a → N.to_nat (off p) = length pre →
  heap w !! a = Some (pre ++ (Some <$> vs) ++ post) →
  destroy_loop p (length vs) w
  = Ok tt (with_block w a (pre ++ replicate (length vs) None ++ post)).
Proof.
  revert w p pre. induction vs as [|v vs IH]; intros w p pre Hb Ho Ha; simpl.
  - by rewrite with_block_same.
  - rewrite (run_bind_ok _ _ _ _ _
               (run_destroy_at_middle _ _ _ _ _ _ Hb Ho Ha)).
    rewrite (IH _ _ (pre ++ [None])).
    + rewrite with_block_twice. by rewrite <- !app_assoc.
    + done.
    + rewrite length_app. simpl. lia.
    + rewrite with_block_lookup. by rewrite <- app_assoc.
Qed.

Lemma run_destroy_n (vs : list T) w p a pre post n :
  n = N.of_nat (length vs) →
  base p = Some a → N.to_nat (off p) = length pre →
  heap w !! a = Some (pre ++ (Some <$> vs) ++ post) →
  destroy_n p n w
  = Ok tt (with_block w a (pre ++ replicate (length vs) None ++ post)).
Proof.
  intros -> Hb Ho Ha. unfold destroy_n. rewrite Nat2N.id.
  by apply run_destroy_loop.
Qed.

End Blocks.

(** ** The construction loops *)

Section Loops.
Context {T : Type} `{!Element T} `{!ElementLaws T}.
Implicit Types (w : world T) (p : ptr) (this : vid) (a b : addr).
Implicit Types (pre post blk : list (option T)) (s : option T) (vs : list T).

Lemma run_make_external x w : external x = true → make x w = elem (made x) w.
Proof.
  destruct x as [y|[v|p]|[v|p]]; try done; simpl; intros _.
  rewrite (run_bind_ok _ _ _ v w) by done.
  destruct (move_construct v) as [[v' r]|]; [|done].
  by rewrite (run_bind_ok _ _ _ (v', r) w) by done.
Qed.

Lemma with_block2_twice w a b blk1 blk2 blk1' blk2' :
  a ≠ b →
  with_block (with_block (with_block (with_block w a blk1) b blk2) a blk1') b blk2'
  = with_block (with_block w a blk1') b blk2'.
Proof.
  intros Hab. rewrite (with_block_comm _ b a) by done.
  by rewrite !with_block_twice.
Qed.

(** [new (dst) T(args...)] for arguments from outside *)
Lemma spec_placement_new_external w dst x b pre s post :
  external x = true →
  base dst = Some b → N.to_nat (off dst) = length pre →
  heap w !! b = Some (pre ++ s :: post) →
  spec (placement_new dst x w) (is_Some (made x))
    (λ _ w', ∃ v, made x = Some v ∧ w' = with_block w b (pre ++ Some v :: post)).
Proof.
  intros Hx Hb Ho Ha. unfold placement_new.
  rewrite (run_bind_ok _ _ _ tt w)
    by (eapply run_check_storage, slot_at_middle; done).
  rewrite run_bind, run_make_external by done.
  destruct (made x) as [v|]; simpl; cycle 1.
  { apply spec_not_ok; [done|]. by intros [? ?]. }
  eapply spec_ok; [by eapply run_write_middle|]. by exists v.
Qed.

(** [new (dst) T(std::move( *src))] into another block *)
Lemma spec_placement_new_move w src dst a b pre_s v post_s pre_d s post_d :
  a ≠ b →
  base src = Some a → N.to_nat (off src) = length pre_s →
  heap w !! a = Some (pre_s ++ Some v :: post_s) →
  base dst = Some b → N.to_nat (off dst) = length pre_d →
  heap w !! b = Some (pre_d ++ s :: post_d) →
  spec (placement_new dst (Move (At src)) w) (is_Some (move_construct v))
    (λ _ w', ∃ r,
       w' = with_block (with_block w a (pre_s ++ Some r :: post_s))
              b (pre_d ++ Some v :: post_d)).
Proof.
  intros Hab Hsb Hso Hsa Hdb Hdo Hda. unfold placement_new.
  rewrite (run_bind_ok _ _ _ tt w)
    by (eapply run_check_storage, slot_at_middle; done).
  simpl. rewrite run_bind_assoc.
  rewrite (run_bind_ok _ _ _ _ _ (run_load_middle _ _ _ _ _ _ Hsb Hso Hsa)).
  rewrite run_bind_assoc.
  destruct (move_construct v) as [[v' r]|] eqn:Hmv; cycle 1.
  { apply spec_not_ok; [done|]. by intros [? ?]. }
  apply move_construct_value in Hmv as ->.
  rewrite (run_bind_ok _ _ _ (v, r) w) by done.
  rewrite run_bind_assoc.
  rewrite (run_bind_ok _ _ _ _ _ (run_update_middle _ _ _ _ _ r _ Hsb Hso Hsa)).
  rewrite (run_bind_ok _ _ _ v (with_block w a (pre_s ++ Some r :: post_s)))
    by done.
  eapply spec_ok; [|by exists r].
  eapply run_write_middle; [done..|].
  by rewrite with_block_lookup_ne.
Qed.

(** [new (dst) T( *src)] into another block *)
Lemma spec_placement_new_copy w src dst a b pre_s v post_s pre_d s post_d :
  base src = Some a → N.to_nat (off src) = length pre_s →
  heap w !! a = Some (pre_s ++ Some v :: post_s) →
  base dst = Some b → N.to_nat (off dst) = length pre_d →
  heap w !! b = Some (pre_d ++ s :: post_d) →
  spec (placement_new dst (Copy (At src)) w) (is_Some (copy_construct v))
    (λ _ w', w' = with_block w b (pre_d ++ Some v :: post_d)).
Proof.
  intros Hsb Hso Hsa Hdb Hdo Hda. unfold placement_new.
  rewrite (run_bind_ok _ _ _ tt w)
    by (eapply run_check_storage, slot_at_middle; done).
  simpl. rewrite run_bind_assoc.
  rewrite (run_bind_ok _ _ _ _ _ (run_load_middle _ _ _ _ _ _ Hsb Hso Hsa)).
  destruct (copy_construct v) as [v'|] eqn:Hcv; cycle 1.
  { apply spec_not_ok; [done|]. by intros [? ?]. }
  apply copy_construct_value in Hcv as ->.
  rewrite (run_bind_ok _ _ _ v w) by done.
  eapply spec_ok; [|done]. by eapply run_write_middle.
Qed.

(** [std::uninitialized_move_n] between two blocks: the destination holds
    the values, the source what the moves left *)
Lemma spec_uninitialized_move_loop vs : ∀ w first d_first a b k pre_s post_s pre_d mid post_d,
  a ≠ b →
  base first = Some a → base d_first = Some b →
  N.to_nat (off first + k) = length pre_s →
  N.to_nat (off d_first + k) = length pre_d →
  length mid = length vs →
  heap w !! a = Some (pre_s ++ (Some <$> vs) ++ post_s) →
  heap w !! b = Some (pre_d ++ mid ++ post_d) →
  spec (uninitialized_loop (λ i p, placement_new p (Move (At (first +ₚ i))))
          d_first k (length vs) w)
    (∀ v, is_Some (move_construct v))
    (λ _ w', ∃ rest,
       length rest = length vs ∧
       w' = with_block (with_block w a (pre_s ++ (Some <$> rest) ++ post_s))
              b (pre_d ++ (Some <$> vs) ++ post_d)).
Proof.
  induction vs as [|v vs IH];
    intros w first d_first a b k pre_s post_s pre_d mid post_d
      Hab Hfb Hdb Hfo Hdo Hlen Ha Hb; simpl.
  - destruct mid; [|done]. eapply spec_ok; [done|]. exists [].
    split; [done|]. simpl in *.
    by rewrite (with_block_same w a), (with_block_same w b).
  - destruct mid as [|s mid]; [done|]. simpl in *.
    eapply spec_bind.
    + apply spec_unwinding.
      eapply (spec_placement_new_move _ _ _ a b pre_s v _ pre_d s); done.
    + naive_solver.
    + intros [] w1 _ [r ->].
      eapply spec_weaken.
      * eapply (IH _ first d_first a b (k + 1) (pre_s ++ [Some r]) post_s
                  (pre_d ++ [Some v]) mid post_d); try done.
        -- rewrite length_app. simpl. lia.
        -- rewrite length_app. simpl. lia.
        -- lia.
        -- rewrite with_block_lookup_ne, with_block_lookup by done.
           by rewrite <- app_assoc.
        -- rewrite with_block_lookup. by rewrite <- app_assoc.
      * done.
      * simpl. intros _ w' _ (rest & Hrest & ->). exists (r :: rest).
        split; [simpl; lia|]. rewrite with_block2_twice by done.
        simpl. by rewrite <- !app_assoc.
Qed.

(** [std::uninitialized_copy_n] between two blocks *)
Lemma spec_uninitialized_copy_loop vs : ∀ w first d_first a b k pre_s post_s pre_d mid post_d,
  a ≠ b →
  base first = Some a → base d_first = Some b →
  N.to_nat (off first + k) = length pre_s →
  N.to_nat (off d_first + k) = length pre_d →
  length mid = length vs →
  heap w !! a = Some (pre_s ++ (Some <$> vs) ++ post_s) →
  heap w !! b = Some (pre_d ++ mid ++ post_d) →
  spec (uninitialized_loop (λ i p, placement_new p (Copy (At (first +ₚ i))))
          d_first k (length vs) w)
    (∀ v, is_Some (copy_construct v))
    (λ _ w', w' = with_block w b (pre_d ++ (Some <$> vs) ++ post_d)).
Proof.
  induction vs as [|v vs IH];
    intros w first d_first a b k pre_s post_s pre_d mid post_d
      Hab Hfb Hdb Hfo Hdo Hlen Ha Hb; simpl.
  - destruct mid; [|done]. eapply spec_ok; [done|].
    simpl in *. by rewrite (with_block_same w b).
  - destruct mid as [|s mid]; [done|]. simpl in *.
    eapply spec_bind.
    + apply spec_unwinding.
      eapply (spec_placement_new_copy _ _ _ a b pre_s v _ pre_d s); done.
    + naive_solver.
    + intros [] w1 _ ->.
      eapply spec_weaken.
      * eapply (IH _ first d_first a b (k + 1) (pre_s ++ [Some v]) post_s
                  (pre_d ++ [Some v]) mid post_d); try done.
        -- rewrite length_app. simpl. lia.
        -- rewrite length_app. simpl. lia.
        -- lia.
        -- rewrite with_block_lookup_ne by done. by rewrite <- app_assoc.
        -- rewrite with_block_lookup. by rewrite <- app_assoc.
      * done.
      * simpl. intros _ w' _ ->. rewrite with_block_twice.
        by rewrite <- !app_assoc.
Qed.

(** [new (dst) T()] *)
Lemma spec_placement_new_value w dst b pre s post :
  base dst = Some b → N.to_nat (off dst) = length pre →
  heap w !! b = Some (pre ++ s :: post) →
  spec (placement_new_value dst w) (is_Some value_construct)
    (λ _ w', ∃ v0, value_construct = Some v0 ∧
                   w' = with_block w b (pre ++ Some v0 :: post)).
Proof.
  intros Hb Ho Ha. unfold placement_new_value.
  rewrite (run_bind_ok _ _ _ tt w)
    by (eapply run_check_storage, slot_at_middle; done).
  destruct value_construct as [v0|]; cycle 1.
  { apply spec_not_ok; [done|]. by intros [? ?]. }
  rewrite (run_bind_ok _ _ _ v0 w) by done.
  eapply spec_ok; [by eapply run_write_middle|]. by exists v0.
Qed.

(** [std::uninitialized_value_construct_n] *)
Lemma spec_uninitialized_value_loop n : ∀ w first b k pre mid post,
  base first = Some b →
  N.to_nat (off first + k) = length pre →
  length mid = n →
  heap w !! b = Some (pre ++ mid ++ post) →
  spec (uninitialized_loop (λ _ p, placement_new_value p) first k n w)
    (is_Some value_construct)
    (λ _ w', n = 0%nat ∧ w' = w ∨
             ∃ v0, value_construct = Some v0 ∧
                   w' = with_block w b (pre ++ replicate n (Some v0) ++ post)).
Proof.
  induction n as [|n IH]; intros w first b k pre mid post Hfb Hfo Hlen Hb; simpl.
  - eapply spec_ok; [done|]. by left.
  - destruct mid as [|s mid]; [done|]. simpl in *.
    eapply spec_bind.
    + apply spec_unwinding.
      by eapply (spec_placement_new_value _ _ b pre s).
    + done.
    + intros [] w1 _ (v0 & Hv0 & ->).
      eapply spec_weaken.
      * eapply (IH _ first b (k + 1) (pre ++ [Some v0]) mid post); try done.
        -- rewrite length_app. simpl. lia.
        -- lia.
        -- rewrite with_block_lookup. by rewrite <- app_assoc.
      * done.
      * simpl. intros _ w' _ [[Hn Hw']|(v1 & Hv1 & ->)]; right; exists v0.
        -- subst n w'. by destruct mid.
        -- simplify_eq. split; [done|]. rewrite with_block_twice.
           by rewrite <- !app_assoc.
Qed.
End Loops.

(** ** Construction past the end of a block *)

Section Overrun.
Context {T : Type} `{!Element T}.
Implicit Types (w : world T) (p : ptr) (this : vid) (a b : addr).

Lemma keeps_blocks_ret {A} (x : A) : keeps_blocks (mret x : M T A).
Proof. intros w y w' [= <- <-] a blk Ha. eauto. Qed.

Lemma keeps_blocks_bind {A B} (m : M T A) (k : A → M T B) :
  keeps_blocks m → (∀ x, keeps_blocks (k x)) → keeps_blocks (m ≫= k).
Proof.
  intros Hm Hk w y w' Hrun a blk Ha. rewrite run_bind in Hrun.
  destruct (m w) as [x w1| |] eqn:Hmw; [|done..].
  destruct (Hm _ _ _ Hmw _ _ Ha) as (blk1 & Ha1 & Hl1).
  destruct (Hk _ _ _ _ Hrun _ _ Ha1) as (blk2 & Ha2 & Hl2).
  exists blk2. split; [done|congruence].
Qed.

Lemma keeps_blocks_pure {A} (m : M T A) :
  (∀ w x w', m w = Ok x w' → w' = w) → keeps_blocks m.
Proof. intros Hm w x w' Hrun a blk Ha. apply Hm in Hrun as ->. eauto. Qed.

Lemma keeps_blocks_elem {A} (o : option A) : keeps_blocks (elem (T := T) o).
Proof. apply keeps_blocks_pure. intros w x w'. destruct o; by intros [= <- <-]. Qed.

Lemma keeps_blocks_load p : keeps_blocks (load (T := T) p).
Proof.
  apply keeps_blocks_pure. intros w x w'. unfold load.
  destruct (slot_at w p) as [[?|]|]; [|done..]. by intros [= <- <-].
Qed.

Lemma keeps_blocks_check_storage p : keeps_blocks (check_storage (T := T) p).
Proof.
  apply keeps_blocks_pure. intros w x w'. unfold check_storage.
  destruct (slot_at w p); [|done]. by intros [= <- <-].
Qed.

Lemma keeps_blocks_write_slot p (s : option T) : keeps_blocks (write_slot p s).
Proof.
  intros w x w' Hrun a blk Ha. unfold write_slot in Hrun.
  destruct (base p) as [b|]; [|done].
  destruct (heap w !! b) as [blk0|] eqn:Hb; [|done].
  case_bool_decide; [|done]. injection Hrun as <- <-. simpl.
  destruct (decide (b = a)) as [->|Hne].
  - rewrite lookup_insert_eq. eexists. split; [done|].
    rewrite length_insert. congruence.
  - rewrite lookup_insert_ne by done. eauto.
Qed.

Lemma keeps_blocks_update p (v : T) : keeps_blocks (update p v).
Proof.
  apply keeps_blocks_bind; [apply keeps_blocks_load|].
  intros _. apply keeps_blocks_write_slot.
Qed.

Lemma keeps_blocks_make (x : args T) : keeps_blocks (make x).
Proof.
  destruct x as [y|[v|p]|[v|p]]; simpl.
  - apply keeps_blocks_elem.
  - apply keeps_blocks_bind; [apply keeps_blocks_ret|].
    intros ?. apply keeps_blocks_elem.
  - apply keeps_blocks_bind; [apply keeps_blocks_load|].
    intros ?. apply keeps_blocks_elem.
  - apply keeps_blocks_bind; [apply keeps_blocks_ret|]. intros ?.
    apply keeps_blocks_bind; [apply keeps_blocks_elem|]. intros [? ?].
    apply keeps_blocks_bind; apply keeps_blocks_ret || (intros; apply keeps_blocks_ret).
  - apply keeps_blocks_bind; [apply keeps_blocks_load|]. intros ?.
    apply keeps_blocks_bind; [apply keeps_blocks_elem|]. intros [? ?].
    apply keeps_blocks_bind; [apply keeps_blocks_update|].
    intros; apply keeps_blocks_ret.
Qed.

Lemma keeps_blocks_placement_new p (x : args T) : keeps_blocks (placement_new p x).
Proof.
  apply keeps_blocks_bind; [apply keeps_blocks_check_storage|]. intros _.
  apply keeps_blocks_bind; [apply keeps_blocks_make|]. intros ?.
  apply keeps_blocks_write_slot.
Qed.

Lemma keeps_blocks_placement_new_value p :
  keeps_blocks (placement_new_value (T := T) p).
Proof.
  apply keeps_blocks_bind; [apply keeps_blocks_check_storage|]. intros _.
  apply keeps_blocks_bind; [apply keeps_blocks_elem|]. intros ?.
  apply keeps_blocks_write_slot.
Qed.

(** placement [new] on storage that is not there *)
Lemma placement_new_no_storage p (x : args T) w :
  slot_at w p = None → is_ok (placement_new p x w) = false.
Proof.
  intros Hs. unfold placement_new. apply run_bind_not_ok.
  unfold check_storage. by rewrite Hs.
Qed.

Lemma placement_new_value_no_storage p w :
  slot_at w p = None → is_ok (placement_new_value (T := T) p w) = false.
Proof.
  intros Hs. unfold placement_new_value. apply run_bind_not_ok.
  unfold check_storage. by rewrite Hs.
Qed.

Lemma unwinding_Ok_inv {A} c (m : M T A) w x w' :
  unwinding c m w = Ok x w' → m w = Ok x w'.
Proof.
  unfold unwinding, try_catch. destruct (m w) as [| e w1 |]; try done.
  unfold bind. by destruct (c w1).
Qed.

(** A construction loop that is to fill more slots than the block has does
    not return. *)
Lemma uninitialized_loop_overruns (build : N → ptr → M T unit) d_first b :
  (∀ i p, keeps_blocks (build i p)) →
  (∀ i p w, slot_at w p = None → is_ok (build i p w) = false) →
  base d_first = Some b →
  ∀ (n : nat) k w blk,
    heap w !! b = Some blk →
    (length blk < N.to_nat (off d_first + k) + n)%nat →
    (N.to_nat (off d_first + k) ≤ length blk)%nat →
    is_ok (uninitialized_loop build d_first k n w) = false.
Proof.
  intros Hkeeps Hcheck Hb. induction n as [|n IH]; intros k w blk Hblk Hlt Hle.
  { lia. }
  simpl. rewrite run_bind.
  destruct (unwinding (destroy_n d_first k) (build k (d_first +ₚ k)) w)
    as [[] w1|e w1|] eqn:Hstep; [|done..].
  apply unwinding_Ok_inv in Hstep.
  destruct (decide (N.to_nat (off d_first + k) = length blk)) as [Heq|Hne].
  - assert (slot_at w (d_first +ₚ k) = None) as Hs.
    { erewrite slot_at_heap; [|exact Hb|exact Hblk].
      apply lookup_ge_None. simpl. lia. }
    apply (Hcheck k) in Hs. by rewrite Hstep in Hs.
  - destruct (Hkeeps _ _ _ _ _ Hstep _ _ Hblk) as (blk1 & Hblk1 & Hlen).
    apply (IH (k + 1) w1 blk1 Hblk1); lia.
Qed.
End Overrun.
(** ** [Reserve] *)

Section Reserve.
Context {T : Type} `{!Element T} `{!ElementLaws T}.
Implicit Types (w : world T) (p : ptr) (this : vid) (a b : addr).
Implicit Types (pre post blk : list (option T)) (s : option T) (vs : list T).

Lemma run_operator_delete w a blk :
  heap w !! a = Some blk →
  operator_delete {| base := Some a; off := 0 |} w
  = Ok tt {| heap := delete a (heap w);
             avail := avail w + N.of_nat (length blk) * sizeof_T;
             objs := objs w |}.
Proof. unfold operator_delete. simpl. by intros ->. Qed.

(** The transfer of all elements into a fresh block, by the policy of the
    element type. *)
Lemma spec_transfer w a b vs tail n :
  a ≠ b →
  heap w !! a = Some ((Some <$> vs) ++ tail) →
  heap w !! b = Some (replicate n None) →
  (length vs ≤ n)%nat →
  spec ((if Vector.moves_elements
         then uninitialized_move_n {| base := Some a; off := 0 |}
                (N.of_nat (length vs)) {| base := Some b; off := 0 |}
         else uninitialized_copy_n {| base := Some a; off := 0 |}
                (N.of_nat (length vs)) {| base := Some b; off := 0 |}) w)
    transfer_never_throws
    (λ _ w', ∃ rest,
       length rest = length vs ∧
       w' = with_block (with_block w a ((Some <$> rest) ++ tail))
              b ((Some <$> vs) ++ replicate (n - length vs) None)).
Proof.
  intros Hab Ha Hb Hn. unfold transfer_never_throws.
  assert (replicate n None
          = [] ++ replicate (length vs) (@None T) ++ replicate (n - length vs) None)
    as Hrep.
  { simpl. rewrite <- replicate_add. f_equal. lia. }
  rewrite Hrep in Hb.
  destruct Vector.moves_elements.
  - unfold uninitialized_move_n. rewrite Nat2N.id.
    eapply spec_weaken.
    + eapply (spec_uninitialized_move_loop vs w _ _ a b 0 [] tail []); try done.
      by rewrite length_replicate.
    + done.
    + done.
  - unfold uninitialized_copy_n. rewrite Nat2N.id.
    eapply spec_weaken.
    + eapply (spec_uninitialized_copy_loop vs w _ _ a b 0 [] tail []); try done.
      by rewrite length_replicate.
    + done.
    + simpl. intros _ w' _ ->. exists vs. split; [done|].
      by rewrite (with_block_same w a).
Qed.

(** The end of every reallocation: the old elements are destroyed, the
    vector adopts the new block, the old block is given back. *)
Lemma run_adopt w this a b (rest : list T) tail v new_cap cap :
  a ≠ b →
  objs w !! this = Some v →
  heap w !! a = Some ((Some <$> rest) ++ tail) →
  (destroy_n {| base := Some a; off := 0 |} (N.of_nat (length rest));;
   Vector.set_data this {| buffer_ := {| base := Some b; off := 0 |};
                           capacity_ := new_cap |};;
   RawMemory.dtor {| buffer_ := {| base := Some a; off := 0 |};
                     capacity_ := cap |}) w
  = Ok tt {| heap := delete a (heap w);
             avail := avail w + N.of_nat (length rest + length tail) * sizeof_T;
             objs := <[this := {| data_ := {| buffer_ := {| base := Some b; off := 0 |};
                                              capacity_ := new_cap |};
                                  size_ := size_ v |}]> (objs w) |}.
Proof.
  intros Hab Hv Ha.
  rewrite (run_bind_ok _ _ _ _ _
             (run_destroy_n rest w {| base := Some a; off := 0 |} a [] tail _
                eq_refl eq_refl eq_refl Ha)).
  erewrite run_bind_ok; [|by apply run_set_data].
  unfold RawMemory.dtor, RawMemory.Deallocate. simpl.
  erewrite run_operator_delete; [|apply lookup_insert_eq].
  simpl. f_equal. f_equal.
  - by rewrite delete_insert_eq.
  - by rewrite length_app, length_replicate.
Qed.
(** the same, followed by the rest of the member function *)
Lemma run_adopt_then {A} w this a b (rest : list T) tail v new_cap cap
    (k : unit → M T A) :
  a ≠ b →
  objs w !! this = Some v →
  heap w !! a = Some ((Some <$> rest) ++ tail) →
  (destroy_n {| base := Some a; off := 0 |} (N.of_nat (length rest)) ≫= λ _,
   (Vector.set_data this {| buffer_ := {| base := Some b; off := 0 |};
                            capacity_ := new_cap |} ≫= λ _,
    RawMemory.dtor {| buffer_ := {| base := Some a; off := 0 |};
                      capacity_ := cap |}) ≫= k) w
  = k tt {| heap := delete a (heap w);
            avail := avail w + N.of_nat (length rest + length tail) * sizeof_T;
            objs := <[this := {| data_ := {| buffer_ := {| base := Some b; off := 0 |};
                                             capacity_ := new_cap |};
                                 size_ := size_ v |}]> (objs w) |}.
Proof.
  intros Hab Hv Ha.
  pose proof (run_adopt w this a b rest tail v new_cap cap Hab Hv Ha) as Hrun.
  rewrite run_bind in Hrun. rewrite run_bind.
  destruct (destroy_n _ _ w) as [[] w1| |]; [|done..].
  by rewrite (run_bind_ok _ _ _ _ _ Hrun).
Qed.

Lemma Reserve_no_op w this vs cap n :
  represents w this vs cap → n ≤ cap → Vector.Reserve this n w = Ok tt w.
Proof.
  intros (v & blk & Hv & _ & <- & _) Hn. unfold Vector.Reserve.
  rewrite (run_bind_ok _ _ _ _ _ (run_get _ _ _ Hv)).
  unfold RawMemory.Capacity. apply N.leb_le in Hn. by rewrite Hn.
Qed.

(** the transfer into a block too short for the elements does not return *)
Lemma transfer_overruns w a b vs (m : nat) :
  heap w !! b = Some (replicate m None) → (m < length vs)%nat →
  is_ok ((if Vector.moves_elements
          then uninitialized_move_n {| base := Some a; off := 0 |}
                 (N.of_nat (length vs)) {| base := Some b; off := 0 |}
          else uninitialized_copy_n {| base := Some a; off := 0 |}
                 (N.of_nat (length vs)) {| base := Some b; off := 0 |}) w)
  = false.
Proof.
  intros Hb Hm.
  destruct Vector.moves_elements;
    unfold uninitialized_move_n, uninitialized_copy_n;
    (eapply (uninitialized_loop_overruns _ _ b);
     [intros; apply keeps_blocks_placement_new
     |intros; by apply placement_new_no_storage
     |done|exact Hb|..]);
    rewrite length_replicate; simpl; lia.
Qed.

(** [Reserve(n)] beyond the capacity.  The block has [n] slots when the
    byte count [n * sizeof(T)] does not wrap, and never more than
    [max_size]. *)
Lemma Reserve_grows w this vs cap n :
  represents w this vs cap → cap < n →
  spec (Vector.Reserve this n w)
    (n ≤ max_size ∧ n * sizeof_T ≤ avail w ∧ transfer_never_throws)
    (λ _ w', ∃ slots, stores w' this vs n slots ∧ slots ≤ max_size ∧
                      (n ≤ max_size → slots = n)).
Proof.
  intros Hrep Hn.
  assert (n ≠ 0) as Hn0 by lia.
  set (count := wrap (n * sizeof_T)).
  set (m := count / sizeof_T).
  assert (n ≤ max_size → count = n * sizeof_T ∧ m = n) as Hfit.
  { intros Hmax. pose proof max_size_pos. unfold m, count.
    rewrite bytes_no_wrap by lia. by rewrite slots_of_bytes. }
  assert ((n <=? cap) = false) as Hle by (by apply N.leb_gt).
  destruct ((count <=? ptrdiff_max) && (count <=? avail w)) eqn:Hroom; cycle 1.
  { apply spec_not_ok.
    - destruct Hrep as (v & blk & Hv & _ & <- & _). unfold Vector.Reserve.
      rewrite (run_bind_ok _ _ _ _ _ (run_get _ _ _ Hv)).
      unfold RawMemory.Capacity. rewrite Hle.
      rewrite run_bind, run_ctor_capacity by done. simpl.
      fold count. by rewrite Hroom.
    - intros (Hmax & Hav & _). destruct (Hfit Hmax) as [Hc _].
      pose proof (bytes_fit n Hmax).
      apply andb_false_iff in Hroom as [H1%N.leb_gt|H1%N.leb_gt]; lia. }
  apply andb_true_iff in Hroom as Hroom'. destruct Hroom' as [Hpd%N.leb_le Hav%N.leb_le].
  assert (m ≤ max_size) as Hm by (by apply slots_bound).
  set (w1 := handed_out w (N.to_nat m) count).
  assert (RawMemory.ctor_capacity n w
          = Ok {| buffer_ := fresh_ptr w; capacity_ := n |} w1) as Hctor.
  { rewrite run_ctor_capacity by done. simpl. fold count. by rewrite Hroom. }
  destruct (represents_inv _ _ _ _ Hrep)
    as [_ [(Hc & -> & Hv)|(Hc & a & tail & Hv & Ha & Hl)]];
    try subst cap;
    unfold Vector.Reserve;
    rewrite (run_bind_ok _ _ _ _ _ (run_get _ _ _ Hv));
    cbn [size_ data_ RawMemory.Capacity capacity_ RawMemory.GetAddress buffer_];
    rewrite Hle;
    rewrite (run_bind_ok _ _ _ _ _ Hctor).
  - (* nothing to transfer *)
    eapply spec_ok.
    + rewrite (run_bind_ok _ _ _ tt w1)
        by (apply run_unwinding_ok; by destruct Vector.moves_elements).
      rewrite (run_bind_ok _ _ _ tt w1) by done.
      unfold RawMemory.Swap. cbn [buffer_ capacity_].
      erewrite run_bind_ok; [|by apply run_set_data].
      reflexivity.
    + exists m. split; [|split; [done|intros Hx; by destruct (Hfit Hx)]].
      match goal with |- stores ?W _ _ _ _ =>
        assert (stores W this [] n
                  (N.of_nat (length (@nil T)
                             + length (replicate (N.to_nat m) (@None T))))) as Hst
      end.
      { eapply (stores_intro _ _ [] n (fresh (dom (heap w)))
                  (replicate (N.to_nat m) None)).
        - done.
        - simpl. by rewrite lookup_insert_eq.
        - simpl. by rewrite lookup_insert_eq. }
      rewrite length_replicate in Hst. simpl in Hst.
      by rewrite N2Nat.id in Hst.
  - set (b := fresh (dom (heap w))).
    assert (a ≠ b) as Hab.
    { intros ->. unfold b in Ha. by rewrite fresh_not_in_heap in Ha. }
    destruct (decide (length vs ≤ N.to_nat m)%nat) as [Hroom_vs|Hshort]; cycle 1.
    { apply spec_not_ok.
      - apply run_bind_not_ok, run_unwinding_not_ok.
        eapply (transfer_overruns w1 a b vs (N.to_nat m)); [|lia].
        apply handed_out_lookup_new.
      - intros (Hmax & _). destruct (Hfit Hmax) as [_ Hmn]. lia. }
    eapply spec_bind.
    + apply spec_unwinding.
      eapply (spec_transfer w1 a b vs tail (N.to_nat m)); try done.
      * by apply handed_out_lookup_old.
      * apply handed_out_lookup_new.
    + tauto.
    + simpl. intros [] w2 _ (rest & Hrest & ->).
      eapply spec_ok.
      * unfold RawMemory.Swap. cbn [buffer_ capacity_]. rewrite <- Hrest.
        eapply run_adopt; [done|done|].
        rewrite with_block_lookup_ne, with_block_lookup; done.
      * exists m. split; [|split; [done|intros Hx; by destruct (Hfit Hx)]].
        match goal with |- stores ?W _ _ _ _ =>
          assert (stores W this vs n
                    (N.of_nat (length vs
                       + length (replicate (N.to_nat m - length vs) (@None T)))))
            as Hst
        end.
        { eapply (stores_intro _ _ vs n b
                    (replicate (N.to_nat m - length vs) None)).
          - done.
          - simpl. by rewrite lookup_insert_eq.
          - simpl. rewrite lookup_delete_ne by done.
            by rewrite lookup_insert_eq, Hrest. }
        rewrite length_replicate in Hst.
        by replace (N.of_nat (length vs + (N.to_nat m - length vs))) with m
          in Hst by lia.
Qed.

(** C9. [Reserve(n)] with [n <= capacity] changes nothing.  With
    [n > capacity], when it returns the vector reports the capacity [n],
    has the size it had and the same values in the same order; its block has
    [n] slots whenever the byte count [n * sizeof(T)] of the request does not
    wrap, that is for [n <= max_size].  It returns whenever the allocation
    succeeds and no element transfer throws. *)
Theorem Reserve_spec w this vs cap n :
  represents w this vs cap →
  (n ≤ cap → Vector.Reserve this n w = Ok tt w) ∧
  (cap < n →
     (∀ w', Vector.Reserve this n w = Ok tt w' →
        (∃ slots, stores w' this vs n slots) ∧
        (n ≤ max_size → represents w' this vs n)) ∧
     (n ≤ max_size → n * sizeof_T ≤ avail w → transfer_never_throws →
      ∃ w', Vector.Reserve this n w = Ok tt w')).
Proof.
  intros Hrep. split; [intros; by eapply Reserve_no_op|].
  intros Hn. destruct (Reserve_grows _ _ _ _ _ Hrep Hn) as [Hpost Hok].
  split.
  - intros w' Hrun. destruct (Hpost _ _ Hrun) as (slots & Hst & _ & Hslots).
    split; [by exists slots|]. intros Hmax. apply represents_stores.
    rewrite (Hslots Hmax) in Hst. done.
  - intros H1 H2 H3.
    destruct (Vector.Reserve this n w) as [[] w'| |]; [by exists w'|..];
      by specialize (Hok (conj H1 (conj H2 H3))).
Qed.
End Reserve.

(** ** [Resize] *)

Section Resize.
Context {T : Type} `{!Element T} `{!ElementLaws T}.
Implicit Types (w : world T) (p : ptr) (this : vid) (a b : addr).
Implicit Types (pre post blk : list (option T)) (s : option T) (vs : list T).

Lemma size_t_sub_small x y : y ≤ x → x < size_t_modulus → size_t_sub x y = x - y.
Proof.
  intros Hy Hx. unfold size_t_sub.
  replace (x + size_t_modulus - y) with ((x - y) + 1 * size_t_modulus) by lia.
  rewrite N.Div0.mod_add. apply N.mod_small. lia.
Qed.

Lemma represents_size_bound w this vs cap :
  represents w this vs cap → N.of_nat (length vs) ≤ cap ∧ cap < size_t_modulus.
Proof.
  intros Hrep. pose proof max_size_modulus.
  destruct (represents_inv _ _ _ _ Hrep) as [? [(-> & -> & _)|(_ & a & tail & _ & _ & <-)]];
    simpl; lia.
Qed.

Lemma Resize_shrinks w this vs cap n :
  represents w this vs cap → n < N.of_nat (length vs) →
  ∃ w', Vector.Resize this n w = Ok tt w' ∧
        represents w' this (take (N.to_nat n) vs) cap ∧
        ∀ i, n ≤ i < N.of_nat (length vs) → slot_of w' this i = Some None.
Proof.
  intros Hrep Hn. pose proof (represents_size_bound _ _ _ _ Hrep) as [Hsz Hcap].
  destruct (represents_inv _ _ _ _ Hrep)
    as [Hmax [(_ & -> & _)|(Hc & a & tail & Hv & Ha & Hl)]]; [simpl in Hn; lia|].
  set (k := N.to_nat n).
  assert (blk_split : (Some <$> vs) ++ tail
            = (Some <$> take k vs) ++ (Some <$> drop k vs) ++ tail).
  { by rewrite app_assoc, <- fmap_app, take_drop. }
  assert (length (take k vs) = k) as Htake by (rewrite length_take; lia).
  assert (length (drop k vs) = (length vs - k)%nat) as Hdrop by apply length_drop.
  eexists. split; [|split].
  - unfold Vector.Resize.
    rewrite (run_bind_ok _ _ _ _ _ (run_get _ _ _ Hv)).
    cbn [size_ data_]. apply N.ltb_lt in Hn as Hn'. rewrite Hn'.
    rewrite run_bind_assoc.
    rewrite (run_bind_ok _ _ _ _ w) by (apply run_op_plus; simpl; lia).
    unfold Vector.DestroyN. rewrite size_t_sub_small by lia.
    erewrite run_bind_ok; cycle 1.
    { eapply (run_destroy_n (drop k vs) w _ a (Some <$> take k vs) tail).
      - rewrite Hdrop. lia.
      - done.
      - simpl. rewrite length_fmap, Htake. lia.
      - by rewrite <- blk_split. }
    by apply run_set_size.
  - eapply (represents_intro _ _ _ cap a
              (replicate (length (drop k vs)) None ++ tail)); try done.
    + simpl. rewrite lookup_insert_eq, Htake. unfold k. by rewrite N2Nat.id.
    + simpl. by rewrite lookup_insert_eq.
    + rewrite length_app, length_replicate, Htake, Hdrop. lia.
  - intros i Hi. unfold slot_of. simpl. rewrite lookup_insert_eq. simpl.
    unfold slot_at. simpl. rewrite lookup_insert_eq. simpl.
    rewrite lookup_app_r by (rewrite length_fmap, Htake; lia).
    rewrite lookup_app_l by (rewrite length_fmap, length_replicate, Htake, Hdrop; lia).
    apply lookup_replicate_2. rewrite length_fmap, Htake, Hdrop. lia.
Qed.

Lemma Resize_same w this vs cap :
  represents w this vs cap →
  Vector.Resize this (N.of_nat (length vs)) w = Ok tt w.
Proof.
  intros (v & blk & Hv & _ & _ & _ & _ & Hs & _). unfold Vector.Resize.
  rewrite (run_bind_ok _ _ _ _ _ (run_get _ _ _ Hv)).
  rewrite <- Hs, N.ltb_irrefl.
  rewrite (run_bind_ok _ _ _ tt w) by done.
  rewrite (run_set_size _ _ _ _ Hv). f_equal. unfold set_objs.
  rewrite insert_id; [apply world_eta|]. by destruct v.
Qed.
Lemma Reserve_ensures w this vs cap n :
  represents w this vs cap →
  spec (Vector.Reserve this n w)
    (cap < n → n ≤ max_size ∧ n * sizeof_T ≤ avail w ∧ transfer_never_throws)
    (λ _ w', ∃ slots, stores w' this vs (N.max cap n) slots ∧ slots ≤ max_size ∧
                      (n ≤ max_size → slots = N.max cap n)).
Proof.
  intros Hrep. destruct (decide (n ≤ cap)) as [Hle|Hgt].
  - eapply spec_ok; [by eapply Reserve_no_op|].
    rewrite N.max_l by done. exists cap.
    apply represents_stores in Hrep as [Hst Hmax]. done.
  - rewrite N.max_r by lia. eapply spec_weaken.
    + eapply Reserve_grows; [done|lia].
    + intros Hc. apply Hc. lia.
    + done.
Qed.

Lemma Resize_grows w this vs cap n :
  represents w this vs cap → N.of_nat (length vs) < n → n < size_t_modulus →
  spec (Vector.Resize this n w)
    ((cap < n → n ≤ max_size ∧ n * sizeof_T ≤ avail w ∧ transfer_never_throws) ∧
     is_Some value_construct)
    (λ _ w', ∃ v0,
       value_construct = Some v0 ∧
       represents w' this (vs ++ replicate (N.to_nat n - length vs) v0)
         (N.max cap n)).
Proof.
  intros Hrep Hn Hnm.
  pose proof (represents_size_bound _ _ _ _ Hrep) as [Hsz0 Hcap0].
  assert (cap ≤ max_size) as Hcapmax by (by destruct (represents_inv _ _ _ _ Hrep)).
  destruct Hrep as (v & blk & Hv & Hrep).
  assert (size_ v = N.of_nat (length vs)) as Hs by tauto.
  assert (represents w this vs cap) as Hrep' by (by exists v, blk).
  clear Hrep. rename Hrep' into Hrep.
  unfold Vector.Resize.
  rewrite (run_bind_ok _ _ _ _ _ (run_get _ _ _ Hv)). rewrite Hs.
  assert ((n <? N.of_nat (length vs)) = false) as -> by (apply N.ltb_ge; lia).
  apply N.ltb_lt in Hn as Hn'. rewrite Hn'. clear v blk Hv Hs Hn'.
  rewrite run_bind_assoc.
  eapply spec_bind; [by apply Reserve_ensures|tauto|].
  simpl. intros [] w1 _ (slots & Hst & Hslots & Hexact).
  pose proof (N.le_max_r cap n) as Hmaxr.
  pose proof (N.le_max_l cap n) as Hmaxl.
  destruct (stores_inv _ _ _ _ _ Hst) as (a & tail & Hv & Ha & Hl); [lia|].
  set (m := (N.to_nat n - length vs)%nat).
  rewrite run_bind_assoc.
  rewrite (run_bind_ok _ _ _ _ _ (run_get _ _ _ Hv)).
  cbn [size_ data_]. rewrite run_bind_assoc.
  rewrite (run_bind_ok _ _ _ _ w1) by (apply run_op_plus; simpl; lia).
  unfold uninitialized_value_construct_n.
  pose proof max_size_modulus.
  destruct (decide (m ≤ length tail)%nat) as [Hm|Hshort]; cycle 1.
  { (* the byte count of the request wrapped: the block is too short *)
    apply spec_not_ok.
    - apply run_bind_not_ok.
      eapply (uninitialized_loop_overruns _ _ a);
        [intros; apply keeps_blocks_placement_new_value
        |intros; by apply placement_new_value_no_storage
        |done|exact Ha|..].
      + rewrite length_app, length_fmap. simpl.
        rewrite size_t_sub_small by lia. lia.
      + rewrite length_app, length_fmap. simpl. lia.
    - intros [Hcond _]. destruct (decide (cap < n)) as [Hgrow|Hkeep].
      + destruct (Hcond Hgrow) as (Hmax & _). specialize (Hexact Hmax). lia.
      + assert (n ≤ max_size) as Hmax by lia. specialize (Hexact Hmax). lia. }
  assert (n ≤ max_size) as Hnmax by lia.
  specialize (Hexact Hnmax). subst slots.
  rewrite size_t_sub_small by lia.
  replace (N.to_nat (n - N.of_nat (length vs))) with m by lia.
  eapply spec_bind.
  - eapply (spec_uninitialized_value_loop m w1 _ a 0 (Some <$> vs)
              (take m tail) (drop m tail)).
    + done.
    + simpl. rewrite length_fmap. lia.
    + rewrite length_take. lia.
    + by rewrite take_drop.
  - tauto.
  - simpl. intros [] w2 _ [[Hm0 _]|(v0 & Hv0 & ->)]; [lia|].
    eapply spec_ok; [by apply run_set_size|].
    exists v0. split; [done|].
    eapply (represents_intro _ _ _ _ a (drop m tail)); [lia|lia|..].
    + simpl. rewrite lookup_insert_eq. do 3 f_equal.
      rewrite length_app, length_replicate. lia.
    + simpl. rewrite lookup_insert_eq.
      by rewrite fmap_app, fmap_replicate, <- app_assoc.
    + rewrite length_app, length_replicate, length_drop. lia.
Qed.

(** C8, as the code has it.  [Resize(n)] with [n < size] destroys the
    trailing [size - n] elements and keeps the first [n] and the capacity;
    with [n == size] it changes nothing; with [n > size] ([n] a [size_t]),
    when it returns,
    the capacity is the old one if that was at least [n] and exactly [n]
    otherwise (the reallocation is that of [Reserve(n)]), the first [size]
    elements keep their values and the [n - size] new trailing elements are
    value-constructed.  It returns whenever the allocation, the transfers and
    [T()] do not throw. *)
Theorem Resize_spec w this vs cap n :
  represents w this vs cap →
  (n < N.of_nat (length vs) →
     ∃ w', Vector.Resize this n w = Ok tt w' ∧
           represents w' this (take (N.to_nat n) vs) cap ∧
           ∀ i, n ≤ i < N.of_nat (length vs) → slot_of w' this i = Some None) ∧
  (n = N.of_nat (length vs) → Vector.Resize this n w = Ok tt w) ∧
  (N.of_nat (length vs) < n → n < size_t_modulus →
     (∀ w', Vector.Resize this n w = Ok tt w' →
        ∃ v0, value_construct = Some v0 ∧
              represents w' this (vs ++ replicate (N.to_nat n - length vs) v0)
                (if n <=? cap then cap else n)) ∧
     ((cap < n → n ≤ max_size ∧ n * sizeof_T ≤ avail w ∧ transfer_never_throws) →
      is_Some value_construct →
      ∃ w', Vector.Resize this n w = Ok tt w')).
Proof.
  intros Hrep. split; [by apply Resize_shrinks|].
  split; [intros ->; by eapply Resize_same|].
  intros Hn Hnm. destruct (Resize_grows _ _ _ _ _ Hrep Hn Hnm) as [Hpost Hok].
  split.
  - intros w' Hw'. destruct (Hpost _ _ Hw') as (v0 & Hv0 & Hrep').
    exists v0. split; [done|].
    destruct (n <=? cap) eqn:Hle.
    + apply N.leb_le in Hle. by rewrite N.max_l in Hrep'.
    + apply N.leb_gt in Hle. by rewrite N.max_r in Hrep' by lia.
  - intros H1 H2.
    destruct (Vector.Resize this n w) as [[] w'| |]; [by exists w'|..];
      by specialize (Hok (conj H1 H2)).
Qed.
End Resize.

(** ** Swap, move construction, move assignment *)

Section Moves.
Context {T : Type} `{!Element T}.
Implicit Types (w : world T) (p : ptr) (this other rhs : vid) (vs : list T).

Lemma RawMemory_eta (m : RawMemory) :
  {| buffer_ := buffer_ m; capacity_ := capacity_ m |} = m.
Proof. by destruct m. Qed.

Lemma Vector_eta (v : Vector) : {| data_ := data_ v; size_ := size_ v |} = v.
Proof. by destruct v. Qed.

Lemma run_put_twice w this v v' :
  set_objs (set_objs w (<[this := v]> (objs w)))
    (<[this := v']> (objs (set_objs w (<[this := v]> (objs w)))))
  = set_objs w (<[this := v']> (objs w)).
Proof. unfold set_objs. simpl. by rewrite insert_insert_eq. Qed.

(** [Swap] exchanges the two objects *)
Lemma run_Swap w this other v o :
  this ≠ other →
  objs w !! this = Some v → objs w !! other = Some o →
  Vector.Swap this other w
  = Ok tt (set_objs w (<[other := v]> (<[this := o]> (objs w)))).
Proof.
  intros Hne Hv Ho. unfold Vector.Swap.
  rewrite (run_bind_ok _ _ _ _ _ (run_get _ _ _ Hv)).
  rewrite (run_bind_ok _ _ _ _ _ (run_get _ _ _ Ho)).
  unfold RawMemory.Swap. rewrite !RawMemory_eta.
  rewrite (run_bind_ok _ _ _ _ _ (run_set_data _ _ _ _ Hv)).
  erewrite run_bind_ok;
    [|apply run_set_data; simpl; rewrite lookup_insert_ne by done; exact Ho].
  erewrite run_bind_ok;
    [|apply run_get; simpl; rewrite lookup_insert_ne by done;
      apply lookup_insert_eq].
  erewrite run_bind_ok; [|apply run_get; simpl; apply lookup_insert_eq].
  erewrite run_bind_ok;
    [|apply run_set_size; simpl; rewrite lookup_insert_ne by done;
      apply lookup_insert_eq].
  erewrite run_set_size;
    [|simpl; rewrite lookup_insert_ne by done; apply lookup_insert_eq].
  f_equal. unfold set_objs. simpl. f_equal.
  rewrite !Vector_eta. apply map_eq. intros i.
  rewrite !lookup_insert. by repeat case_decide.
Qed.

(** what [represents] reads of a store *)
Lemma represents_ext w w' this this' vs cap :
  heap w' = heap w → objs w' !! this' = objs w !! this →
  represents w this vs cap → represents w' this' vs cap.
Proof.
  intros Hh Ho (v & blk & Hv & Hb & Hrest).
  exists v, blk. split; [by rewrite Ho|]. split; [|done].
  unfold block_of in *. by rewrite Hh.
Qed.

(** C10. Move construction leaves the source exactly empty (size 0,
    capacity 0, the null pointer for a block), and the new vector has the
    elements, the size and the capacity the source had.  No storage is
    allocated or released. *)
Theorem ctor_move_spec w other vs cap :
  represents w other vs cap →
  ∃ this w',
    Vector.ctor_move other w = Ok this w' ∧
    objs w !! this = None ∧
    objs w' !! other
    = Some {| data_ := {| buffer_ := nullptr; capacity_ := 0 |}; size_ := 0 |} ∧
    represents w' other [] 0 ∧
    represents w' this vs cap ∧
    heap w' = heap w ∧ avail w' = avail w.
Proof.
  intros Hrep. pose proof Hrep as (v & blk & Hv & _).
  set (this := fresh (dom (objs w))).
  assert (objs w !! this = None) as Hfresh by apply not_elem_of_dom, is_fresh.
  assert (this ≠ other) as Hne by (intros ->; congruence).
  set (empty := {| data_ := RawMemory.ctor_default; size_ := 0 |}).
  set (w1 := set_objs w (<[this := empty]> (objs w))).
  exists this, (set_objs w1 (<[other := empty]> (<[this := v]> (objs w1)))).
  split; [|split; [done|split; [|split; [|split]]]].
  - unfold Vector.ctor_move.
    rewrite (run_bind_ok _ _ _ this w1) by done.
    erewrite run_bind_ok; [done|].
    apply run_Swap; [done|apply lookup_insert_eq|].
    simpl. by rewrite lookup_insert_ne.
  - simpl. apply lookup_insert_eq.
  - apply represents_intro_empty. simpl. apply lookup_insert_eq.
  - eapply represents_ext; [| |exact Hrep]; [done|]. simpl.
    rewrite lookup_insert_ne by done. by rewrite lookup_insert_eq.
  - done.
Qed.

(** Move assignment hands the storage and the length of the source to the
    destination, and touches no block. *)
Lemma op_assign_move_destination w this rhs v vs cap :
  this ≠ rhs →
  objs w !! this = Some v →
  represents w rhs vs cap →
  ∃ w', Vector.op_assign_move this rhs w = Ok tt w' ∧
        represents w' this vs cap ∧
        heap w' = heap w ∧ avail w' = avail w.
Proof.
  intros Hne Hv Hrep. pose proof Hrep as (r & blk & Hr & _).
  unfold Vector.op_assign_move.
  rewrite bool_decide_eq_false_2 by done. simpl.
  rewrite (run_bind_ok _ _ _ _ _ (run_get _ _ _ Hv)).
  rewrite (run_bind_ok _ _ _ _ _ (run_get _ _ _ Hr)).
  destruct (RawMemory.Capacity (data_ v) <? size_ r).
  - eexists. split; [by apply run_Swap|]. split; [|done].
    eapply represents_ext; [| |exact Hrep]; [done|]. simpl.
    rewrite lookup_insert_ne by done. by rewrite lookup_insert_eq.
  - unfold RawMemory.Swap. rewrite !RawMemory_eta.
    rewrite (run_bind_ok _ _ _ _ _ (run_set_data _ _ _ _ Hv)).
    erewrite run_bind_ok;
      [|apply run_set_data; simpl; rewrite lookup_insert_ne by done; exact Hr].
    erewrite run_bind_ok; [|apply run_get; simpl; apply lookup_insert_eq].
    eexists. split.
    { apply run_set_size. simpl. rewrite lookup_insert_ne by done.
      apply lookup_insert_eq. }
    split; [|done].
    eapply represents_ext; [| |exact Hrep]; [done|]. simpl.
    rewrite lookup_insert_eq. by rewrite Vector_eta.
Qed.
End Moves.

(** ** Moves inside one block *)

Section Shifts.
Context {T : Type} `{!Element T} `{!ElementLaws T}.
Implicit Types (w : world T) (p : ptr) (this : vid) (a b : addr).
Implicit Types (pre post blk : list (option T)) (s : option T) (vs : list T).

(** [*dst = std::move( *src)] where [src] is the slot after [dst] *)
Lemma spec_assign_move_left w dst src a pre x y post :
  base dst = Some a → base src = Some a →
  N.to_nat (off dst) = length pre → N.to_nat (off src) = S (length pre) →
  heap w !! a = Some (pre ++ Some x :: Some y :: post) →
  spec (assign_move dst src w) (is_Some (move_assign x y))
    (λ _ w', ∃ r, w' = with_block w a (pre ++ Some y :: Some r :: post)).
Proof.
  intros Hdb Hsb Hdo Hso Ha. unfold assign_move.
  rewrite (run_bind_ok _ _ _ _ _ (run_load_middle _ _ _ _ _ _ Hdb Hdo Ha)).
  assert (heap w !! a = Some ((pre ++ [Some x]) ++ Some y :: post)) as Ha'
    by (by rewrite <- app_assoc).
  assert (N.to_nat (off src) = length (pre ++ [Some x])) as Hso'
    by (rewrite length_app; simpl; lia).
  rewrite (run_bind_ok _ _ _ _ _ (run_load_middle _ _ _ _ _ _ Hsb Hso' Ha')).
  destruct (move_assign x y) as [[d' r]|] eqn:Hma; cycle 1.
  { apply spec_not_ok; [done|]. by intros [? ?]. }
  apply move_assign_value in Hma as ->.
  rewrite (run_bind_ok _ _ _ (y, r) w) by done.
  rewrite (run_bind_ok _ _ _ _ _ (run_update_middle _ _ _ _ _ r _ Hsb Hso' Ha')).
  eapply spec_ok; [|by exists r].
  erewrite run_update_middle; [|done|exact Hdo|].
  - by rewrite with_block_twice.
  - rewrite with_block_lookup. by rewrite <- app_assoc.
Qed.

(** [*dst = std::move( *src)] where [src] is the slot before [dst] *)
Lemma spec_assign_move_right w dst src a pre x y post :
  base dst = Some a → base src = Some a →
  N.to_nat (off src) = length pre → N.to_nat (off dst) = S (length pre) →
  heap w !! a = Some (pre ++ Some x :: Some y :: post) →
  spec (assign_move dst src w) (is_Some (move_assign y x))
    (λ _ w', ∃ r, w' = with_block w a (pre ++ Some r :: Some x :: post)).
Proof.
  intros Hdb Hsb Hso Hdo Ha. unfold assign_move.
  assert (heap w !! a = Some ((pre ++ [Some x]) ++ Some y :: post)) as Ha'
    by (by rewrite <- app_assoc).
  assert (N.to_nat (off dst) = length (pre ++ [Some x])) as Hdo'
    by (rewrite length_app; simpl; lia).
  rewrite (run_bind_ok _ _ _ _ _ (run_load_middle _ _ _ _ _ _ Hdb Hdo' Ha')).
  rewrite (run_bind_ok _ _ _ _ _ (run_load_middle _ _ _ _ _ _ Hsb Hso Ha)).
  destruct (move_assign y x) as [[d' r]|] eqn:Hma; cycle 1.
  { apply spec_not_ok; [done|]. by intros [? ?]. }
  apply move_assign_value in Hma as ->.
  rewrite (run_bind_ok _ _ _ (x, r) w) by done.
  rewrite (run_bind_ok _ _ _ _ _ (run_update_middle _ _ _ _ _ r _ Hsb Hso Ha)).
  eapply spec_ok; [|by exists r].
  erewrite (run_update_middle _ _ a (pre ++ [Some r]) y x post); [|done| |].
  - rewrite with_block_twice. by rewrite <- app_assoc.
  - rewrite length_app. simpl. lia.
  - rewrite with_block_lookup. by rewrite <- app_assoc.
Qed.

(** [new (dst) T(std::move( *src))] where [src] is the slot before [dst] *)
Lemma spec_placement_new_move_right w dst src a pre x s post :
  base dst = Some a → base src = Some a →
  N.to_nat (off src) = length pre → N.to_nat (off dst) = S (length pre) →
  heap w !! a = Some (pre ++ Some x :: s :: post) →
  spec (placement_new dst (Move (At src)) w) (is_Some (move_construct x))
    (λ _ w', ∃ r, w' = with_block w a (pre ++ Some r :: Some x :: post)).
Proof.
  intros Hdb Hsb Hso Hdo Ha. unfold placement_new.
  assert (heap w !! a = Some ((pre ++ [Some x]) ++ s :: post)) as Ha'
    by (by rewrite <- app_assoc).
  assert (N.to_nat (off dst) = length (pre ++ [Some x])) as Hdo'
    by (rewrite length_app; simpl; lia).
  rewrite (run_bind_ok _ _ _ tt w)
    by (eapply run_check_storage, slot_at_middle; done).
  simpl. rewrite run_bind_assoc.
  rewrite (run_bind_ok _ _ _ _ _ (run_load_middle _ _ _ _ _ _ Hsb Hso Ha)).
  rewrite run_bind_assoc.
  destruct (move_construct x) as [[v' r]|] eqn:Hmv; cycle 1.
  { apply spec_not_ok; [done|]. by intros [? ?]. }
  apply move_construct_value in Hmv as ->.
  rewrite (run_bind_ok _ _ _ (x, r) w) by done.
  rewrite run_bind_assoc.
  rewrite (run_bind_ok _ _ _ _ _ (run_update_middle _ _ _ _ _ r _ Hsb Hso Ha)).
  rewrite (run_bind_ok _ _ _ x (with_block w a (pre ++ Some r :: s :: post)))
    by done.
  eapply spec_ok; [|by exists r].
  erewrite (run_write_middle _ _ a (pre ++ [Some r]) s (Some x) post); [|done| |].
  - rewrite with_block_twice. by rewrite <- app_assoc.
  - rewrite length_app. simpl. lia.
  - rewrite with_block_lookup. by rewrite <- app_assoc.
Qed.

(** [std::move(first, last, first - 1)]: the range moves one slot to the
    left; the last source slot keeps what the last move left in it *)
Lemma spec_move_loop vs : ∀ w first d_first a pre d post,
  base first = Some a → base d_first = Some a →
  N.to_nat (off d_first) = length pre → N.to_nat (off first) = S (length pre) →
  heap w !! a = Some (pre ++ Some d :: (Some <$> vs) ++ post) →
  spec (move_loop first d_first (length vs) w) move_assign_never_throws
    (λ _ w', ∃ r, w' = with_block w a (pre ++ (Some <$> vs) ++ Some r :: post)).
Proof.
  induction vs as [|v vs IH]; intros w first d_first a pre d post
    Hfb Hdb Hdo Hfo Ha; simpl in *.
  - eapply spec_ok; [done|]. exists d. by rewrite with_block_same.
  - eapply spec_bind.
    + by eapply (spec_assign_move_left _ _ _ a pre d v).
    + intros Hc. apply Hc.
    + simpl. intros [] w1 _ [r ->].
      eapply spec_weaken.
      * eapply (IH _ (first +ₚ 1) (d_first +ₚ 1) a (pre ++ [Some v]) r post);
          try done.
        -- rewrite length_app. simpl. lia.
        -- rewrite length_app. simpl. lia.
        -- rewrite with_block_lookup. by rewrite <- app_assoc.
      * done.
      * simpl. intros _ w' _ [r' ->]. exists r'.
        rewrite with_block_twice. by rewrite <- app_assoc.
Qed.

(** [std::move_backward(first, last, last + 1)]: the range moves one slot to
    the right, back to front; the first source slot keeps what the last move
    left in it *)
Lemma spec_move_backward_loop vs : ∀ w last d_last a pre d post,
  base last = Some a → base d_last = Some a →
  N.to_nat (off last) = (length pre + length vs)%nat →
  N.to_nat (off d_last) = S (length pre + length vs) →
  heap w !! a = Some (pre ++ (Some <$> vs) ++ Some d :: post) →
  spec (move_backward_loop last d_last (length vs) w) move_assign_never_throws
    (λ _ w', ∃ r, w' = with_block w a (pre ++ Some r :: (Some <$> vs) ++ post)).
Proof.
  induction vs as [|v vs IH] using rev_ind; intros w last d_last a pre d post
    Hlb Hdb Hlo Hdo Ha.
  - simpl. eapply spec_ok; [done|]. exists d. by rewrite with_block_same.
  - rewrite length_app in *. simpl in *.
    replace (length vs + 1)%nat with (S (length vs)) in * by lia. simpl.
    unfold ptr_sub.
    assert ((1 <=? off last) = true) as -> by (apply N.leb_le; lia).
    rewrite (run_bind_ok _ _ _ {| base := base last; off := off last - 1 |} w)
      by done.
    assert ((1 <=? off d_last) = true) as -> by (apply N.leb_le; lia).
    rewrite (run_bind_ok _ _ _ {| base := base d_last; off := off d_last - 1 |} w)
      by done.
    rewrite fmap_app in Ha. simpl in Ha.
    eapply spec_bind.
    + eapply (spec_assign_move_right _ _ _ a (pre ++ (Some <$> vs)) v d post);
        try done;
        try (simpl; rewrite length_app, length_fmap; lia).
      rewrite Ha. f_equal. by rewrite <- !app_assoc.
    + intros Hc. apply Hc.
    + simpl. intros [] w1 _ [r ->].
      eapply spec_weaken.
      * eapply (IH _ _ _ a pre r (Some v :: post)); try done.
        -- simpl. lia.
        -- simpl. lia.
        -- rewrite with_block_lookup. by rewrite <- !app_assoc.
      * done.
      * simpl. intros _ w' _ [r' ->]. exists r'.
        rewrite with_block_twice. rewrite fmap_app. simpl.
        by rewrite <- !app_assoc.
Qed.
End Shifts.

(** ** [Erase] *)

Section Erase.
Context {T : Type} `{!Element T} `{!ElementLaws T}.
Implicit Types (w : world T) (p : ptr) (this : vid) (a b : addr).
Implicit Types (pre post blk : list (option T)) (s : option T) (vs : list T).

Lemma run_begin w this v :
  objs w !! this = Some v → Vector.begin this w = Ok (buffer_ (data_ v) +ₚ 0) w.
Proof.
  intros Hv. unfold Vector.begin.
  rewrite (run_bind_ok _ _ _ _ _ (run_get _ _ _ Hv)).
  apply run_op_plus. lia.
Qed.

Lemma run_end w this v :
  objs w !! this = Some v → size_ v ≤ capacity_ (data_ v) →
  Vector.end_ this w = Ok (buffer_ (data_ v) +ₚ size_ v) w.
Proof.
  intros Hv Hs. unfold Vector.end_.
  rewrite (run_bind_ok _ _ _ _ _ (run_get _ _ _ Hv)).
  by apply run_op_plus.
Qed.

Lemma run_cbegin w this : Vector.cbegin this w = Vector.begin this w.
Proof. done. Qed.

Lemma run_cend w this : Vector.cend this w = Vector.end_ this w.
Proof. done. Qed.

Lemma ptr_leb_same_base p q :
  base p = base q → ptr_leb p q = Some (off p <=? off q).
Proof. intros Hb. unfold ptr_leb. by rewrite bool_decide_eq_true_2. Qed.

Lemma run_distance w p q :
  base p = base q → off p ≤ off q → distance p q w = Ok (off q - off p) w.
Proof.
  intros Hb Ho. unfold distance. rewrite bool_decide_eq_true_2 by done.
  apply N.leb_le in Ho. by rewrite Ho.
Qed.

Lemma run_ptr_sub w p n :
  n ≤ off p → ptr_sub p n w = Ok {| base := base p; off := off p - n |} w.
Proof. intros Hn. unfold ptr_sub. apply N.leb_le in Hn. by rewrite Hn. Qed.

(** the entry of [Emplace] and [Erase]: the assertion on [pos] *)
Lemma run_position_assert {A} w this v pos (k : unit → M T A) :
  objs w !! this = Some v → size_ v ≤ capacity_ (data_ v) →
  base pos = base (buffer_ (data_ v)) →
  off (buffer_ (data_ v)) = 0 → off pos ≤ size_ v →
  (b ← Vector.begin this; e ← Vector.end_ this;
   ge ← lift_option (ptr_leb b pos); le ← lift_option (ptr_leb pos e);
   assert (ge && le) ≫= k) w
  = k tt w.
Proof.
  intros Hv Hs Hb Ho Hp.
  rewrite (run_bind_ok _ _ _ _ _ (run_begin _ _ _ Hv)).
  rewrite (run_bind_ok _ _ _ _ _ (run_end _ _ _ Hv Hs)).
  rewrite (ptr_leb_same_base (buffer_ (data_ v) +ₚ 0) pos) by (simpl; congruence).
  rewrite (run_bind_ok _ _ _ (off (buffer_ (data_ v) +ₚ 0) <=? off pos) w) by done.
  rewrite (ptr_leb_same_base pos) by (simpl; congruence).
  rewrite (run_bind_ok _ _ _ (off pos <=? off (buffer_ (data_ v) +ₚ size_ v)) w)
    by done.
  simpl. rewrite Ho. simpl.
  assert ((0 + 0 <=? off pos) = true) as -> by (apply N.leb_le; lia).
  assert ((off pos <=? 0 + size_ v) = true) as -> by (apply N.leb_le; lia).
  done.
Qed.

Lemma Erase_spec w this vs cap i pos :
  represents w this vs cap → (i < length vs)%nat →
  iterator_at w this i = Some pos →
  spec (Vector.Erase this pos w) move_assign_never_throws
    (λ it w', it = pos ∧ represents w' this (take i vs ++ drop (S i) vs) cap).
Proof.
  intros Hrep Hi Hpos.
  pose proof (represents_size_bound _ _ _ _ Hrep) as [Hsz Hcap].
  destruct (represents_inv _ _ _ _ Hrep)
    as [Hmax [(_ & -> & _)|(Hc & a & tail & Hv & Ha & Hl)]]; [simpl in Hi; lia|].
  unfold iterator_at in Hpos. rewrite Hv in Hpos. simpl in Hpos.
  injection Hpos as <-.
  destruct (lookup_lt_is_Some_2 vs i Hi) as [x Hx].
  pose proof (take_drop_middle _ _ _ Hx) as Hsplit.
  assert (length (take i vs) = i) as Htake by (rewrite length_take; lia).
  assert (length (drop (S i) vs) = (length vs - S i)%nat) as Hdrop
    by apply length_drop.
  set (pre := Some <$> take i vs).
  assert (Ha1 : heap w !! a
                = Some (pre ++ Some x :: (Some <$> drop (S i) vs) ++ tail)).
  { rewrite Ha. f_equal. rewrite <- Hsplit at 1.
    rewrite fmap_app. simpl. by rewrite <- app_assoc. }
  unfold Vector.Erase.
  rewrite (run_position_assert w this _ _ _ Hv); [|simpl; lia|done|done|simpl; lia].
  change (Vector.cbegin this) with (Vector.begin (T := T) this).
  rewrite (run_bind_ok _ _ _ _ _ (run_begin _ _ _ Hv)).
  rewrite (run_bind_ok _ _ _ (N.of_nat i) w)
    by (rewrite run_distance; [f_equal; simpl; lia|done|simpl; lia]).
  rewrite (run_bind_ok _ _ _ _ _ (run_begin _ _ _ Hv)).
  rewrite (run_bind_ok _ _ _ _ w) by (apply run_end; [done|simpl; lia]).
  rewrite (run_bind_ok _ _ _ _ _ (run_begin _ _ _ Hv)).
  cbn [data_ buffer_ size_].
  unfold std_move.
  rewrite run_bind_assoc.
  rewrite (run_bind_ok _ _ _ _ w) by (apply run_distance; [done|simpl; lia]).
  match goal with
  | |- context [move_loop _ _ ?n] =>
      replace n with (length (drop (S i) vs)) by (simpl; rewrite Hdrop; lia)
  end.
  eapply spec_bind.
  - eapply (spec_move_loop (drop (S i) vs) w _ _ a pre x tail); try done.
    + simpl. unfold pre. rewrite length_fmap, Htake. lia.
    + simpl. unfold pre. rewrite length_fmap, Htake. lia.
  - done.
  - simpl. intros [] w1 _ [r ->].
    set (blk1 := pre ++ (Some <$> drop (S i) vs) ++ Some r :: tail).
    assert (Hv1 : objs (with_block w a blk1) !! this = Some _) by exact Hv.
    rewrite (run_bind_ok _ _ _ _ (with_block w a blk1))
      by (apply (run_end _ _ _ Hv1); simpl; lia).
    rewrite (run_bind_ok _ _ _ _ (with_block w a blk1))
      by (apply run_ptr_sub; simpl; lia).
    cbn [data_ buffer_ size_ ptr_add base off].
    erewrite run_bind_ok; cycle 1.
    { eapply (run_destroy_at_middle _ _ a (pre ++ (Some <$> drop (S i) vs)) r tail).
      - done.
      - simpl. unfold pre. rewrite length_app, !length_fmap, Htake, Hdrop. lia.
      - rewrite with_block_lookup. unfold blk1. by rewrite <- app_assoc. }

    rewrite with_block_twice.
    erewrite run_bind_ok; [|by apply run_get].
    erewrite run_bind_ok; [|by apply run_set_size].
    erewrite run_bind_ok; [|apply run_get; simpl; apply lookup_insert_eq].
    eapply spec_ok; [apply run_op_plus; simpl; lia|].
    split.
    { unfold ptr_add. simpl. f_equal. }
    eapply (represents_intro _ _ _ cap a (None :: tail)); try done.
    + simpl. rewrite lookup_insert_eq. do 2 f_equal.
      rewrite size_t_sub_small by lia.
      rewrite length_app, Htake, Hdrop. lia.
    + simpl. rewrite lookup_insert_eq. f_equal.
      unfold pre. by rewrite fmap_app, <- !app_assoc.
    + rewrite length_app, Htake, Hdrop. simpl. lia.
Qed.
End Erase.

(** ** [EmplaceBack] *)

Section EmplaceBack.
Context {T : Type} `{!Element T} `{!ElementLaws T}.
Implicit Types (w : world T) (p : ptr) (this : vid) (a b : addr).
Implicit Types (pre post blk : list (option T)) (s : option T) (vs : list T).

Lemma never_throws_transfer : never_throws → transfer_never_throws.
Proof.
  intros (Hc & Hm & _). unfold transfer_never_throws.
  by destruct Vector.moves_elements.
Qed.

Lemma new_capacity_grown (size cap : N) :
  size = cap → cap ≤ max_size →
  (if size =? 0 then 1 else wrap (cap * 2)) = grown cap.
Proof.
  intros -> Hmax. pose proof max_size_modulus. unfold grown.
  destruct (cap =? 0) eqn:Hc.
  - apply N.eqb_eq in Hc. subst. done.
  - apply N.eqb_neq in Hc. rewrite wrap_small by lia. lia.
Qed.

Lemma replicate_middle {A} (n i : nat) (x : A) :
  (i < n)%nat → replicate n x = replicate i x ++ x :: replicate (n - S i) x.
Proof.
  intros Hi. replace n with (i + S (n - S i))%nat at 1 by lia.
  by rewrite replicate_add.
Qed.

Lemma spec_uninitialized_move_n vs w first d_first a b n pre_s post_s pre_d mid post_d :
  a ≠ b → n = N.of_nat (length vs) →
  base first = Some a → base d_first = Some b →
  N.to_nat (off first) = length pre_s →
  N.to_nat (off d_first) = length pre_d →
  length mid = length vs →
  heap w !! a = Some (pre_s ++ (Some <$> vs) ++ post_s) →
  heap w !! b = Some (pre_d ++ mid ++ post_d) →
  spec (uninitialized_move_n first n d_first w)
    (∀ v, is_Some (move_construct v))
    (λ _ w', ∃ rest,
       length rest = length vs ∧
       w' = with_block (with_block w a (pre_s ++ (Some <$> rest) ++ post_s))
              b (pre_d ++ (Some <$> vs) ++ post_d)).
Proof.
  intros Hab -> Hfb Hdb Hfo Hdo Hlen Ha Hb.
  unfold uninitialized_move_n. rewrite Nat2N.id.
  eapply spec_uninitialized_move_loop; try done; lia.
Qed.

Lemma spec_uninitialized_copy_n vs w first d_first a b n pre_s post_s pre_d mid post_d :
  a ≠ b → n = N.of_nat (length vs) →
  base first = Some a → base d_first = Some b →
  N.to_nat (off first) = length pre_s →
  N.to_nat (off d_first) = length pre_d →
  length mid = length vs →
  heap w !! a = Some (pre_s ++ (Some <$> vs) ++ post_s) →
  heap w !! b = Some (pre_d ++ mid ++ post_d) →
  spec (uninitialized_copy_n first n d_first w)
    (∀ v, is_Some (copy_construct v))
    (λ _ w', w' = with_block w b (pre_d ++ (Some <$> vs) ++ post_d)).
Proof.
  intros Hab -> Hfb Hdb Hfo Hdo Hlen Ha Hb.
  unfold uninitialized_copy_n. rewrite Nat2N.id.
  eapply spec_uninitialized_copy_loop; try done; lia.
Qed.

(** [++size_] and the returned position, at the end of [EmplaceBack] *)
Lemma run_finish_back w this v :
  objs w !! this = Some v → size_ v + 1 ≤ capacity_ (data_ v) →
  capacity_ (data_ v) < size_t_modulus →
  (v ← Vector.get this;
   Vector.set_size this (wrap (size_ v + 1));;
   v ← Vector.get this;
   p ← RawMemory.op_plus (data_ v) (size_ v);
   ptr_sub p 1) w
  = Ok (buffer_ (data_ v) +ₚ size_ v)
       (set_objs w (<[this := {| data_ := data_ v; size_ := size_ v + 1 |}]> (objs w))).
Proof.
  intros Hv Hs Hc.
  rewrite (run_bind_ok _ _ _ _ _ (run_get _ _ _ Hv)).
  rewrite wrap_small by lia.
  rewrite (run_bind_ok _ _ _ _ _ (run_set_size _ _ _ _ Hv)).
  erewrite run_bind_ok; [|apply run_get; simpl; apply lookup_insert_eq].
  erewrite run_bind_ok; [|by apply run_op_plus].
  rewrite run_ptr_sub by (simpl; lia).
  f_equal. unfold ptr_add. simpl. f_equal. lia.
Qed.
(** the first element of an empty vector without storage *)
Lemma EmplaceBack_first w this x :
  represents w this [] 0 → external x = true →
  spec (Vector.EmplaceBack this x w)
    (is_Some (made x) ∧ 1 ≤ max_size ∧ 1 * sizeof_T ≤ avail w)
    (λ it w', ∃ v, made x = Some v ∧
                   represents w' this [v] 1 ∧
                   iterator_at w' this 0 = Some it).
Proof.
  intros Hrep Hext.
  destruct (represents_inv _ _ _ _ Hrep)
    as [Hmax [(_ & _ & Hv)|(Hc & _)]]; [|done].
  unfold Vector.EmplaceBack.
  rewrite (run_bind_ok _ _ _ _ _ (run_get _ _ _ Hv)).
  cbn [size_ data_ RawMemory.Capacity capacity_ RawMemory.GetAddress buffer_].
  rewrite N.eqb_refl. rewrite !run_bind_assoc.
  assert (1 ≤ 2 * max_size) as Hn2 by (pose proof max_size_pos; lia).
  destruct (decide (1 ≤ max_size ∧ 1 * sizeof_T ≤ avail w)) as [[H1 H2]|Hfail]; cycle 1.
  { apply spec_not_ok; [|tauto].
    by rewrite (run_bind_throw _ _ _ _ _
                  (run_ctor_capacity_fail w 1 (N.neq_succ_0 0) Hn2 Hfail)). }
  rewrite (run_bind_ok _ _ _ _ _
             (run_ctor_capacity_ok w 1 (N.neq_succ_0 0) H1 H2)).
  set (b := fresh (dom (heap w))).
  set (w1 := allocated w 1).
  assert (Hb1 : heap w1 !! b = Some ([] ++ None :: [])) by exact (allocated_lookup_new w 1).
  rewrite run_bind_assoc.
  eapply spec_bind.
  - apply spec_unwinding.
    instantiate (1 := λ _ w2, ∃ v, made x = Some v ∧ w2 = with_block w1 b [Some v]).
    instantiate (1 := is_Some (made x)).
    destruct Vector.moves_elements.
    + rewrite (run_bind_ok _ _ _ _ w1) by (apply run_op_plus; simpl; lia).
      eapply spec_bind; [by eapply (spec_placement_new_external _ _ _ b [] None [])
                        |done|].
      simpl. intros [] w2 _ (v & Hv' & ->). eapply spec_ok; [done|]. by exists v.
    + eapply spec_bind.
      * apply spec_try_throw.
        rewrite (run_bind_ok _ _ _ _ w1) by (apply run_op_plus; simpl; lia).
        by eapply (spec_placement_new_external _ _ _ b [] None []).
      * done.
      * simpl. intros [] w2 _ (v & Hv' & ->). eapply spec_ok; [done|]. by exists v.
  - tauto.
  - simpl. intros [] w2 _ (v & Hmade & ->).
    rewrite !run_bind_assoc.
    rewrite (run_bind_ok _ _ _ tt (with_block w1 b [Some v])) by done.
    rewrite !run_bind_assoc.
    erewrite run_bind_ok; [|by apply run_set_data].
    rewrite (run_bind_ok _ _ _ tt _) by done.
    eapply spec_ok.
    + apply run_finish_back; [apply lookup_insert_eq|simpl; lia|done].
    + exists v. split; [done|]. split.
      * eapply (represents_intro _ _ [v] 1 b []); try done.
        -- simpl. by rewrite insert_insert_eq, lookup_insert_eq.
        -- simpl. by rewrite insert_insert_eq, lookup_insert_eq.
      * unfold iterator_at. simpl.
        by rewrite insert_insert_eq, lookup_insert_eq.
Qed.

(** the path with a spare slot *)
Lemma EmplaceBack_in_place w this vs cap x :
  represents w this vs cap → external x = true →
  N.of_nat (length vs) ≠ cap →
  spec (Vector.EmplaceBack this x w) (is_Some (made x))
    (λ it w', ∃ v, made x = Some v ∧
                   represents w' this (vs ++ [v]) cap ∧
                   iterator_at w' this (length vs) = Some it).
Proof.
  intros Hrep Hext Hfull.
  pose proof (represents_size_bound _ _ _ _ Hrep) as [Hsz Hcap].
  destruct (represents_inv _ _ _ _ Hrep)
    as [Hmax [(-> & -> & _)|(Hc & a & tail & Hv & Ha & Hl)]]; [done|].
  destruct tail as [|s tail]; [simpl in Hl; lia|].
  unfold Vector.EmplaceBack.
  rewrite (run_bind_ok _ _ _ _ _ (run_get _ _ _ Hv)).
  cbn [size_ data_ RawMemory.Capacity capacity_ RawMemory.GetAddress buffer_].
  apply N.eqb_neq in Hfull as Hfull'. rewrite Hfull'.
  rewrite !run_bind_assoc.
  rewrite (run_bind_ok _ _ _ _ w) by (apply run_op_plus; simpl; lia).
  eapply spec_bind.
  - eapply (spec_placement_new_external _ _ _ a (Some <$> vs) s tail); try done.
    simpl. rewrite length_fmap. lia.
  - done.
  - simpl. intros [] w2 _ (v & Hmade & ->).
    eapply spec_ok.
    + apply run_finish_back; [exact Hv|simpl in *; lia|done].
    + exists v. split; [done|]. split.
      * eapply (represents_intro _ _ _ cap a tail); try done.
        -- simpl. rewrite lookup_insert_eq. do 3 f_equal.
           rewrite length_app. simpl. lia.
        -- simpl. rewrite lookup_insert_eq.
           by rewrite fmap_app, <- app_assoc.
        -- rewrite length_app. simpl in *. lia.
      * unfold iterator_at. simpl. by rewrite lookup_insert_eq.
Qed.
Lemma with_block_over w a b blk blk1 blk2 :
  a ≠ b →
  with_block (with_block (with_block w b blk) a blk1) b blk2
  = with_block (with_block w a blk1) b blk2.
Proof.
  intros Hab. rewrite (with_block_comm _ b a) by done.
  by rewrite with_block_twice.
Qed.

(** the path that doubles a full, non-empty storage *)
Lemma EmplaceBack_grows w this vs cap x :
  represents w this vs cap → external x = true →
  cap ≠ 0 → N.of_nat (length vs) = cap →
  spec (Vector.EmplaceBack this x w)
    (is_Some (made x) ∧ grown cap ≤ max_size ∧ grown cap * sizeof_T ≤ avail w ∧
     transfer_never_throws)
    (λ it w', ∃ v, made x = Some v ∧
                   represents w' this (vs ++ [v]) (grown cap) ∧
                   iterator_at w' this (length vs) = Some it).
Proof.
  intros Hrep Hext Hc Hfull.
  pose proof (represents_size_bound _ _ _ _ Hrep) as [Hsz Hcap].
  destruct (represents_inv _ _ _ _ Hrep)
    as [Hmax [(-> & _)|(_ & a & tail & Hv & Ha & Hl)]]; [done|].
  destruct tail as [|? ?]; [|simpl in Hl; lia]. clear Hl.
  unfold Vector.EmplaceBack.
  rewrite (run_bind_ok _ _ _ _ _ (run_get _ _ _ Hv)).
  cbn [size_ data_ RawMemory.Capacity capacity_ RawMemory.GetAddress buffer_].
  rewrite Hfull, N.eqb_refl.
  rewrite <- Hfull at 1. rewrite new_capacity_grown by done.
  set (n := grown cap).
  assert (n = 2 * cap) as Hn by (unfold n, grown; lia).
  assert (n ≠ 0) as Hn0 by lia.
  rewrite !run_bind_assoc.
  assert (n ≤ 2 * max_size) as Hn2 by lia.
  destruct (decide (n ≤ max_size ∧ n * sizeof_T ≤ avail w)) as [[H1 H2]|Hfail]; cycle 1.
  { apply spec_not_ok; [|tauto].
    by rewrite (run_bind_throw _ _ _ _ _ (run_ctor_capacity_fail w n Hn0 Hn2 Hfail)). }
  rewrite (run_bind_ok _ _ _ _ _ (run_ctor_capacity_ok w n Hn0 H1 H2)).
  set (b := fresh (dom (heap w))).
  assert (a ≠ b) as Hab.
  { intros ->. unfold b in Ha. by rewrite fresh_not_in_heap in Ha. }
  set (w1 := allocated w n).
  set (raw := replicate (N.to_nat n - S (length vs)) (@None T)).
  assert (Hb1 : heap w1 !! b
                = Some (replicate (length vs) None ++ None :: raw)).
  { unfold w1, b. rewrite allocated_lookup_new. f_equal.
    apply replicate_middle. lia. }
  assert (Ha1 : heap w1 !! a = Some ((Some <$> vs) ++ []))
    by (by apply allocated_lookup_old).
  rewrite run_bind_assoc.
  eapply spec_bind.
  - apply spec_unwinding.
    instantiate (1 := λ _ w2, ∃ v rest,
      made x = Some v ∧ length rest = length vs ∧
      w2 = with_block (with_block w1 a (Some <$> rest))
             b ((Some <$> vs) ++ Some v :: raw)).
    instantiate (1 := is_Some (made x) ∧ transfer_never_throws).
    unfold transfer_never_throws.
    destruct Vector.moves_elements.
    + rewrite (run_bind_ok _ _ _ _ w1) by (apply run_op_plus; simpl; lia).
      eapply spec_bind.
      * eapply (spec_placement_new_external _ _ _ b
                  (replicate (length vs) None) None raw); try done.
        simpl. rewrite length_replicate. lia.
      * tauto.
      * simpl. intros [] w2 _ (v & Hv' & ->).
        eapply spec_weaken.
        -- eapply (spec_uninitialized_move_n vs _ _ _ a b _ [] [] []
                     (replicate (length vs) None) (Some v :: raw)); try done.
           ++ by rewrite length_replicate.
           ++ by rewrite with_block_lookup_ne.
           ++ by rewrite with_block_lookup.
        -- tauto.
        -- simpl. intros _ w' _ (rest & Hrest & ->). exists v, rest.
           split; [done|]. split; [done|].
           rewrite with_block_over by done. by rewrite app_nil_r.
    + eapply spec_bind.
      * apply spec_try_throw.
        rewrite (run_bind_ok _ _ _ _ w1) by (apply run_op_plus; simpl; lia).
        eapply (spec_placement_new_external _ _ _ b
                  (replicate (length vs) None) None raw); try done.
        simpl. rewrite length_replicate. lia.
      * tauto.
      * simpl. intros [] w2 _ (v & Hv' & ->).
        eapply spec_weaken.
        -- eapply (spec_uninitialized_copy_n vs _ _ _ a b _ [] [] []
                     (replicate (length vs) None) (Some v :: raw)); try done.
           ++ by rewrite length_replicate.
           ++ by rewrite with_block_lookup_ne.
           ++ by rewrite with_block_lookup.
        -- tauto.
        -- simpl. intros _ w' _ ->. exists v, vs.
           split; [done|]. split; [done|].
           rewrite with_block_twice.
           rewrite (with_block_same w1 a); [done|].
           by rewrite app_nil_r in Ha1.
  - tauto.
  - simpl. intros [] w2 _ (v & rest & Hmade & Hrest & ->).
    rewrite !run_bind_assoc. unfold RawMemory.Swap. cbn [buffer_ capacity_].
    rewrite <- Hfull, <- Hrest.
    erewrite (run_adopt_then _ this a b rest []); [|done|exact Hv|]; cycle 1.
    { rewrite with_block_lookup_ne, with_block_lookup by done.
      by rewrite app_nil_r. }
    rewrite Hrest in *.
    eapply spec_ok.
    + pose proof max_size_modulus.
      apply run_finish_back; [apply lookup_insert_eq|simpl; lia|simpl; lia].
    + exists v. split; [done|]. split.
      * eapply (represents_intro _ _ (vs ++ [v]) n b raw); try done.
        -- simpl. rewrite insert_insert_eq, lookup_insert_eq.
           do 3 f_equal. rewrite length_app. simpl. lia.
        -- simpl. rewrite lookup_delete_ne by done.
           rewrite lookup_insert_eq. by rewrite fmap_app, <- app_assoc.
        -- unfold raw. rewrite length_app, length_replicate. simpl. lia.
      * unfold iterator_at. simpl.
        by rewrite insert_insert_eq, lookup_insert_eq.
Qed.

(** [EmplaceBack] constructs the new element after the old ones; a full
    vector gets the capacity of the growth policy. *)
Lemma EmplaceBack_spec w this vs cap x :
  represents w this vs cap → external x = true →
  spec (Vector.EmplaceBack this x w)
    (is_Some (made x) ∧
     (N.of_nat (length vs) = cap →
      grown cap ≤ max_size ∧ grown cap * sizeof_T ≤ avail w ∧ transfer_never_throws))
    (λ it w', ∃ v,
       made x = Some v ∧
       represents w' this (vs ++ [v])
         (if N.of_nat (length vs) =? cap then grown cap else cap) ∧
       iterator_at w' this (length vs) = Some it).
Proof.
  intros Hrep Hext.
  destruct (N.of_nat (length vs) =? cap) eqn:Hfull.
  - apply N.eqb_eq in Hfull. destruct (decide (cap = 0)) as [->|Hc].
    + destruct vs; [|done].
      eapply spec_weaken; [by apply EmplaceBack_first| |done].
      intros [? Hroom]. destruct (Hroom eq_refl) as (? & ? & _). done.
    + eapply spec_weaken; [by apply EmplaceBack_grows| |done].
      intros [? Hroom]. destruct (Hroom Hfull) as (? & ? & ?). done.
  - apply N.eqb_neq in Hfull.
    eapply spec_weaken; [by apply EmplaceBack_in_place| |done]. tauto.
Qed.
End EmplaceBack.

(** ** [Emplace] *)

Section Emplace.
Context {T : Type} `{!Element T} `{!ElementLaws T}.
Implicit Types (w : world T) (p : ptr) (this : vid) (a b : addr).
Implicit Types (pre post blk : list (option T)) (s : option T) (vs : list T).

(** [++size_] and the returned position, at the end of [Emplace] *)
Lemma run_finish_at w this v num_pos :
  objs w !! this = Some v → size_ v + 1 ≤ capacity_ (data_ v) →
  capacity_ (data_ v) < size_t_modulus → num_pos ≤ size_ v →
  (v ← Vector.get this;
   Vector.set_size this (wrap (size_ v + 1));;
   v ← Vector.get this;
   RawMemory.op_plus (data_ v) num_pos) w
  = Ok (buffer_ (data_ v) +ₚ num_pos)
       (set_objs w (<[this := {| data_ := data_ v; size_ := size_ v + 1 |}]> (objs w))).
Proof.
  intros Hv Hs Hc Hn.
  rewrite (run_bind_ok _ _ _ _ _ (run_get _ _ _ Hv)).
  rewrite wrap_small by lia.
  rewrite (run_bind_ok _ _ _ _ _ (run_set_size _ _ _ _ Hv)).
  erewrite run_bind_ok; [|apply run_get; simpl; apply lookup_insert_eq].
  apply run_op_plus. simpl. lia.
Qed.

Lemma ptr_eqb_same_base p q :
  base p = base q → ptr_eqb p q = (off p =? off q).
Proof. intros Hb. unfold ptr_eqb. by rewrite bool_decide_eq_true_2. Qed.

(** what [represents] gives of the object itself *)
Lemma represents_object w this vs cap :
  represents w this vs cap →
  ∃ v, objs w !! this = Some v ∧
       size_ v = N.of_nat (length vs) ∧ capacity_ (data_ v) = cap ∧
       off (buffer_ (data_ v)) = 0.
Proof.
  intros Hrep.
  destruct (represents_inv _ _ _ _ Hrep)
    as [_ [(-> & -> & Hv)|(_ & a & tail & Hv & _)]]; eexists; by split.
Qed.

(** inserting at [end()] is [EmplaceBack] *)
Lemma Emplace_at_end w this vs cap pos x :
  represents w this vs cap → external x = true →
  iterator_at w this (length vs) = Some pos →
  spec (Vector.Emplace this pos x w)
    (is_Some (made x) ∧
     (N.of_nat (length vs) = cap →
      grown cap ≤ max_size ∧ grown cap * sizeof_T ≤ avail w ∧ transfer_never_throws))
    (λ it w', ∃ v,
       made x = Some v ∧
       represents w' this (vs ++ [v])
         (if N.of_nat (length vs) =? cap then grown cap else cap) ∧
       iterator_at w' this (length vs) = Some it).
Proof.
  intros Hrep Hext Hpos.
  pose proof (represents_size_bound _ _ _ _ Hrep) as [Hsz Hcap].
  destruct (represents_object _ _ _ _ Hrep) as (v0 & Hv0 & Hs0 & Hc0 & Ho0).
  unfold iterator_at in Hpos. rewrite Hv0 in Hpos. simpl in Hpos.
  injection Hpos as <-.
  unfold Vector.Emplace.
  rewrite (run_position_assert w this _ _ _ Hv0);
    [|lia|done|done|simpl; lia].
  change (Vector.cend this) with (Vector.end_ (T := T) this).
  rewrite (run_bind_ok _ _ _ _ w) by (apply run_end; [done|lia]).
  rewrite ptr_eqb_same_base by done.
  assert ((off (buffer_ (data_ v0) +ₚ 0 +ₚ N.of_nat (length vs))
           =? off (buffer_ (data_ v0) +ₚ size_ v0)) = true) as ->
    by (apply N.eqb_eq; simpl; lia).
  eapply spec_bind; [by apply EmplaceBack_spec|done|].
  simpl. intros _ w1 _ (v & Hmade & Hrep1 & _).
  pose proof (represents_size_bound _ _ _ _ Hrep1) as [Hsz1 Hcap1].
  destruct (represents_object _ _ _ _ Hrep1) as (v1 & Hv1 & Hs1 & Hc1 & Ho1).
  rewrite length_app in *. simpl in *.
  rewrite (run_bind_ok _ _ _ _ _ (run_get _ _ _ Hv1)).
  rewrite (run_bind_ok _ _ _ _ w1) by (apply run_op_plus; lia).
  eapply spec_ok; [apply run_ptr_sub; simpl; lia|].
  exists v. split; [done|]. split; [exact Hrep1|].
  unfold iterator_at. rewrite Hv1. simpl. f_equal.
  unfold ptr_add. simpl. f_equal. lia.
Qed.
(** the entry of [Emplace] for a position in front of [end()] *)
Lemma run_Emplace_entry {A} w this v (i : nat) pos (k1 : M T A) (k2 : N → M T A) :
  objs w !! this = Some v → size_ v ≤ capacity_ (data_ v) →
  off (buffer_ (data_ v)) = 0 →
  pos = buffer_ (data_ v) +ₚ 0 +ₚ N.of_nat i →
  N.of_nat i < size_ v →
  (b ← Vector.begin this; e ← Vector.end_ this;
   ge ← lift_option (ptr_leb b pos); le ← lift_option (ptr_leb pos e);
   assert (ge && le);;
   ce ← Vector.cend this;
   if ptr_eqb pos ce then k1
   else cb ← Vector.cbegin this; num_pos ← distance cb pos; k2 num_pos) w
  = k2 (N.of_nat i) w.
Proof.
  intros Hv Hs Ho -> Hi.
  rewrite (run_position_assert w this _ _ _ Hv); [|done|done|done|simpl; lia].
  change (Vector.cend this) with (Vector.end_ (T := T) this).
  rewrite (run_bind_ok _ _ _ _ w) by (by apply run_end).
  rewrite ptr_eqb_same_base by done.
  assert ((off (buffer_ (data_ v) +ₚ 0 +ₚ N.of_nat i)
           =? off (buffer_ (data_ v) +ₚ size_ v)) = false) as ->
    by (apply N.eqb_neq; simpl; lia).
  change (Vector.cbegin this) with (Vector.begin (T := T) this).
  rewrite (run_bind_ok _ _ _ _ _ (run_begin _ _ _ Hv)).
  rewrite (run_bind_ok _ _ _ (N.of_nat i) w); [done|].
  rewrite run_distance; [f_equal; simpl; lia|done|simpl; lia].
Qed.

(** the path that shifts the tail inside the storage *)
Lemma Emplace_in_place w this vs cap i pos x :
  represents w this vs cap → external x = true →
  (i < length vs)%nat → N.of_nat (length vs) ≠ cap →
  iterator_at w this i = Some pos →
  spec (Vector.Emplace this pos x w) (is_Some (made x) ∧ never_throws)
    (λ it w', ∃ v,
       made x = Some v ∧
       represents w' this (take i vs ++ v :: drop i vs) cap ∧
       iterator_at w' this i = Some it).
Proof.
  intros Hrep Hext Hi Hfull Hpos.
  pose proof (represents_size_bound _ _ _ _ Hrep) as [Hsz Hcap].
  destruct (represents_inv _ _ _ _ Hrep)
    as [Hmax [(_ & -> & _)|(Hc & a & tail & Hv & Ha & Hl)]]; [simpl in Hi; lia|].
  destruct tail as [|s tail]; [simpl in Hl; lia|].
  unfold iterator_at in Hpos. rewrite Hv in Hpos. simpl in Hpos.
  injection Hpos as <-.
  destruct vs as [|lastv front _] using rev_ind; [simpl in Hi; lia|].
  rewrite length_app in *. simpl in *.
  set (mid := drop i front).
  assert (Hfront : front = take i front ++ mid) by (unfold mid; by rewrite take_drop).
  assert (Htake : length (take i front) = i) by (rewrite length_take; lia).
  assert (Hmid : length mid = (length front - i)%nat) by apply length_drop.
  assert (Htk : take i (front ++ [lastv]) = take i front)
    by (rewrite take_app_le; [done|lia]).
  assert (Hdr : drop i (front ++ [lastv]) = mid ++ [lastv])
    by (rewrite drop_app_le; [done|lia]).
  set (pre := Some <$> take i front).
  assert (Ha1 : heap w !! a
                = Some ((Some <$> front) ++ Some lastv :: s :: tail)).
  { rewrite Ha, fmap_app. simpl. by rewrite <- app_assoc. }
  unfold Vector.Emplace.
  rewrite (run_Emplace_entry w this _ i _ _ _ Hv);
    [|simpl; lia|done|done|simpl; lia].
  rewrite (run_bind_ok _ _ _ _ _ (run_get _ _ _ Hv)).
  cbn [size_ data_ RawMemory.Capacity capacity_ buffer_].
  apply N.eqb_neq in Hfull as Hfull'. rewrite Hfull'.
  assert ((N.of_nat (length front + 1) =? 0) = false) as Hne
    by (apply N.eqb_neq; lia).
  rewrite Hne. cbn [negb].
  rewrite !run_bind_assoc.
  rewrite (run_bind_ok _ _ _ _ w) by (apply run_end; [done|simpl; lia]).
  rewrite !run_bind_assoc.
  rewrite size_t_sub_small by lia.
  rewrite (run_bind_ok _ _ _ _ w) by (apply run_op_index; simpl; lia).
  cbn [size_ data_ buffer_].
  rewrite !run_bind_assoc.
  eapply spec_bind.
  { eapply (spec_placement_new_move_right _ _ _ a (Some <$> front) lastv s tail);
      try done; simpl; rewrite length_fmap; lia. }
  { intros (_ & _ & Hm & _). apply Hm. }
  simpl. intros [] w1 _ [r ->].
  rewrite !run_bind_assoc.
  rewrite run_bind, run_make_external by done.
  destruct (made x) as [v|] eqn:Hmade; cycle 1.
  { apply spec_not_ok; [done|]. by intros [[? ?] _]. }
  cbn [elem mret M_ret ret].
  set (blk1 := (Some <$> front) ++ Some r :: Some lastv :: tail).
  set (w1 := with_block w a blk1).
  assert (Hv1 : objs w1 !! this = Some _) by exact Hv.
  run_step (run_begin _ _ _ Hv1).
  run_step_by w1 (apply (run_end _ _ _ Hv1); simpl; lia).
  run_step_by w1 (apply run_ptr_sub; simpl; lia).
  run_step_by w1 (apply (run_end _ _ _ Hv1); simpl; lia).
  cbn [size_ data_ buffer_].
  unfold move_backward.
  run_step_by w1 (apply run_distance; [done|simpl; lia]).
  match goal with
  | |- context [move_backward_loop _ _ ?n] =>
      replace n with (length mid) by (simpl; rewrite Hmid; lia)
  end.
  eapply spec_bind.
  { eapply (spec_move_backward_loop mid w1 _ _ a pre r (Some lastv :: tail));
      try done.
    - simpl. unfold pre. rewrite length_fmap, Htake, Hmid. lia.
    - simpl. unfold pre. rewrite length_fmap, Htake, Hmid. lia.
    - unfold w1. rewrite with_block_lookup. unfold blk1, pre. f_equal.
      rewrite Hfront at 1. by rewrite fmap_app, <- app_assoc. }
  { intros (_ & _ & _ & Hm). apply Hm. }
  simpl. intros [] w2 _ [r' ->].
  set (blk2 := pre ++ Some r' :: (Some <$> mid) ++ Some lastv :: tail).
  assert (Hv2 : objs (with_block w1 a blk2) !! this = Some _) by exact Hv.
  run_step_by (with_block w1 a blk2) (apply run_op_plus; simpl; lia).
  assert (Hb2 : heap (with_block w1 a blk2) !! a = Some blk2)
    by apply with_block_lookup.
  assert (Hp : N.to_nat (off ({| base := Some a; off := 0 |} +ₚ N.of_nat i))
               = length pre)
    by (simpl; unfold pre; rewrite length_fmap, Htake; lia).
  set (p := {| base := Some a; off := 0 |} +ₚ N.of_nat i) in *.
  run_step (run_load_middle _ p a pre r' _ eq_refl Hp Hb2).
  destruct (move_assign r' v) as [[d' r'']|] eqn:Hma; cycle 1.
  { apply spec_not_ok; [done|]. intros (_ & _ & _ & Hm).
    specialize (Hm r' v). rewrite Hma in Hm. by destruct Hm. }
  apply move_assign_value in Hma as ->.
  rewrite ?run_bind_assoc.
  rewrite (run_bind_ok _ _ _ (v, r'') (with_block w1 a blk2)) by done.
  run_step (run_update_middle _ p a pre r' v _ eq_refl Hp Hb2).
  unfold w1. rewrite !with_block_twice.
  eapply spec_ok.
  - apply run_finish_at; [exact Hv|simpl; lia|done|simpl; lia].
  - exists v. split; [done|]. split.
    + rewrite Htk, Hdr.
      eapply (represents_intro _ _ _ cap a tail); try done.
      * simpl. rewrite lookup_insert_eq. do 3 f_equal.
        rewrite !length_app, Htake. simpl. rewrite length_app, Hmid. simpl. lia.
      * simpl. rewrite lookup_insert_eq. f_equal. unfold pre.
        rewrite !fmap_app. simpl. rewrite fmap_app. simpl.
        rewrite <- !app_assoc. simpl. by rewrite <- !app_assoc.
      * rewrite !length_app, Htake. simpl. rewrite length_app, Hmid. simpl. lia.
    + unfold iterator_at. simpl. by rewrite lookup_insert_eq.
Qed.
(** the path that moves to a block of the grown capacity *)
Lemma Emplace_grows w this vs cap i pos x :
  represents w this vs cap → external x = true →
  (i < length vs)%nat → N.of_nat (length vs) = cap →
  iterator_at w this i = Some pos →
  spec (Vector.Emplace this pos x w)
    (is_Some (made x) ∧ never_throws ∧
     grown cap ≤ max_size ∧ grown cap * sizeof_T ≤ avail w)
    (λ it w', ∃ v,
       made x = Some v ∧
       represents w' this (take i vs ++ v :: drop i vs) (grown cap) ∧
       iterator_at w' this i = Some it).
Proof.
  intros Hrep Hext Hi Hfull Hpos.
  pose proof (represents_size_bound _ _ _ _ Hrep) as [Hsz Hcap].
  pose proof max_size_modulus as Hmod.
  destruct (represents_inv _ _ _ _ Hrep)
    as [Hmax [(_ & -> & _)|(Hc & a & tail & Hv & Ha & Hl)]]; [simpl in Hi; lia|].
  destruct tail as [|? ?]; [|simpl in Hl; lia]. clear Hl.
  unfold iterator_at in Hpos. rewrite Hv in Hpos. simpl in Hpos.
  injection Hpos as <-.
  set (vs1 := take i vs). set (vs2 := drop i vs).
  assert (Hvs : vs = vs1 ++ vs2) by (unfold vs1, vs2; by rewrite take_drop).
  assert (Hl1 : length vs1 = i) by (unfold vs1; rewrite length_take; lia).
  assert (Hl2 : length vs2 = (length vs - i)%nat) by apply length_drop.
  unfold Vector.Emplace.
  rewrite (run_Emplace_entry w this _ i _ _ _ Hv);
    [|simpl; lia|done|done|simpl; lia].
  rewrite (run_bind_ok _ _ _ _ _ (run_get _ _ _ Hv)).
  cbn [size_ data_ RawMemory.Capacity capacity_ RawMemory.GetAddress buffer_].
  rewrite Hfull, N.eqb_refl.
  rewrite <- Hfull at 1. rewrite new_capacity_grown by done.
  set (n := grown cap).
  assert (n = 2 * cap) as Hn by (unfold n, grown; lia).
  assert (n ≠ 0) as Hn0 by lia.
  rewrite !run_bind_assoc.
  assert (n ≤ 2 * max_size) as Hn2 by lia.
  destruct (decide (n ≤ max_size ∧ n * sizeof_T ≤ avail w)) as [[H1 H2]|Hfail]; cycle 1.
  { apply spec_not_ok; [|tauto].
    by rewrite (run_bind_throw _ _ _ _ _ (run_ctor_capacity_fail w n Hn0 Hn2 Hfail)). }
  rewrite (run_bind_ok _ _ _ _ _ (run_ctor_capacity_ok w n Hn0 H1 H2)).
  set (b := fresh (dom (heap w))).
  assert (a ≠ b) as Hab.
  { intros ->. unfold b in Ha. by rewrite fresh_not_in_heap in Ha. }
  set (w1 := allocated w n).
  set (rawA := replicate i (@None T)).
  set (rawB := replicate (length vs - i) (@None T)).
  set (rawC := replicate (N.to_nat n - S (length vs)) (@None T)).
  assert (Hb1 : heap w1 !! b = Some (rawA ++ None :: rawB ++ rawC)).
  { unfold w1, b. rewrite allocated_lookup_new. f_equal.
    rewrite (replicate_middle (N.to_nat n) i) by lia. unfold rawA, rawB, rawC.
    do 2 f_equal. rewrite <- replicate_add. f_equal. lia. }
  assert (Ha1 : heap w1 !! a = Some ((Some <$> vs1) ++ (Some <$> vs2) ++ [])).
  { unfold w1. erewrite allocated_lookup_old; [|exact Ha].
    by rewrite Hvs at 1; rewrite fmap_app, <- app_assoc. }
  set (nd := {| buffer_ := fresh_ptr w; capacity_ := n |}).
  set (wA v := with_block w1 b (rawA ++ Some v :: rawB ++ rawC)).
  assert (Hplus : RawMemory.op_plus nd (N.of_nat i) w1
                  = Ok (fresh_ptr w +ₚ N.of_nat i) w1)
    by (apply run_op_plus; simpl; lia).
  assert (HplaceA : spec (placement_new (fresh_ptr w +ₚ N.of_nat i) x w1)
            (is_Some (made x))
            (λ _ w', ∃ v, made x = Some v ∧ w' = wA v)).
  { eapply (spec_placement_new_external _ _ _ b rawA None (rawB ++ rawC));
      try done.
    simpl. unfold rawA. rewrite length_replicate. lia. }
  rewrite run_bind_assoc.
  eapply spec_bind.
  - apply spec_unwinding.
    instantiate (1 := λ _ w2, ∃ v rest,
      made x = Some v ∧ length rest = length vs ∧
      w2 = with_block (with_block w1 a (Some <$> rest))
             b ((Some <$> vs1) ++ Some v :: (Some <$> vs2) ++ rawC)).
    instantiate (1 := is_Some (made x) ∧ never_throws).
    destruct Vector.moves_elements.
    + rewrite (run_bind_ok _ _ _ _ _ Hplus).
      eapply spec_bind; [exact HplaceA|tauto|].
      simpl. intros [] w2 _ (v & Hmade & ->).
      run_step_by (wA v) (apply run_op_plus; simpl; lia).
      run_step_by (wA v) (apply run_op_plus; simpl; lia).
      eapply spec_bind.
      { eapply (spec_uninitialized_move_n vs1 (wA v) _ _ a b _ []
                  ((Some <$> vs2) ++ []) [] rawA (Some v :: rawB ++ rawC));
          try done.
        - by rewrite Hl1.
        - unfold rawA. by rewrite length_replicate.
        - unfold wA. by rewrite with_block_lookup_ne.
        - unfold wA. by rewrite with_block_lookup. }
      { intros (_ & _ & Hm & _). apply Hm. }
      simpl. intros [] w3 _ (rest1 & Hrest1 & ->).
      set (wB := with_block
                   (with_block (wA v) a ((Some <$> rest1) ++ (Some <$> vs2) ++ []))
                   b ((Some <$> vs1) ++ Some v :: rawB ++ rawC)).
      run_step_by wB (apply run_op_plus; simpl; lia).
      run_step_by wB (apply run_op_plus; simpl; lia).
      rewrite size_t_sub_small by lia.
      eapply spec_weaken.
      { eapply (spec_uninitialized_move_n vs2 wB _ _ a b _ (Some <$> rest1) []
                  ((Some <$> vs1) ++ [Some v]) rawB rawC); try done.
        - rewrite Hl2. lia.
        - simpl. rewrite length_fmap. lia.
        - simpl. rewrite length_app, length_fmap. simpl. lia.
        - unfold rawB. by rewrite length_replicate.
        - unfold wB. by rewrite with_block_lookup_ne, with_block_lookup.
        - unfold wB. rewrite with_block_lookup. by rewrite <- app_assoc. }
      { intros (_ & _ & Hm & _). apply Hm. }
      simpl. intros _ w' _ (rest2 & Hrest2 & ->).
      exists v, (rest1 ++ rest2). split; [done|].
      split; [rewrite length_app; lia|].
      unfold wB, wA. rewrite with_block2_twice, with_block_over by done.
      by rewrite fmap_app, app_nil_r, <- !app_assoc.
    + eapply spec_bind;
        [apply spec_try_throw; rewrite (run_bind_ok _ _ _ _ _ Hplus);
         exact HplaceA|tauto|].
      simpl. intros [] w2 _ (v & Hmade & ->).
      eapply spec_bind.
      { apply spec_try_rethrow.
        { intros e w'. rewrite run_bind. case_match; [|done..].
          rewrite run_bind. by case_match. }
        eapply (spec_uninitialized_copy_n vs1 (wA v) _ _ a b _ []
                  ((Some <$> vs2) ++ []) [] rawA (Some v :: rawB ++ rawC));
          try done.
        - by rewrite Hl1.
        - unfold rawA. by rewrite length_replicate.
        - unfold wA. by rewrite with_block_lookup_ne.
        - unfold wA. by rewrite with_block_lookup. }
      { intros (_ & Hm & _). apply Hm. }
      simpl. intros [] w3 _ ->.
      set (wB := with_block (wA v) b ((Some <$> vs1) ++ Some v :: rawB ++ rawC)).
      rewrite size_t_sub_small by lia.
      eapply spec_weaken.
      { apply spec_try_rethrow.
        { intros e w'. rewrite run_bind. case_match; [|done..].
          rewrite run_bind. by case_match. }
        eapply (spec_uninitialized_copy_n vs2 wB _ _ a b _ (Some <$> vs1) []
                  ((Some <$> vs1) ++ [Some v]) rawB rawC); try done.
        - rewrite Hl2. lia.
        - simpl. rewrite length_fmap. lia.
        - simpl. rewrite length_app, length_fmap. simpl. lia.
        - unfold rawB. by rewrite length_replicate.
        - unfold wB, wA. by rewrite !with_block_lookup_ne.
        - unfold wB. rewrite with_block_lookup. by rewrite <- app_assoc. }
      { intros (_ & Hm & _). apply Hm. }
      simpl. intros _ w' _ ->.
      exists v, vs. split; [done|]. split; [done|].
      unfold wB, wA. rewrite !with_block_twice.
      rewrite (with_block_same w1 a)
        by (rewrite Ha1, Hvs, fmap_app; by rewrite app_nil_r).
      by rewrite <- !app_assoc.
  - tauto.
  - simpl. intros [] w2 _ (v & rest & Hmade & Hrest & ->).
    rewrite !run_bind_assoc. unfold RawMemory.Swap. cbn [buffer_ capacity_].
    rewrite <- Hfull, <- Hrest.
    erewrite (run_adopt_then _ this a b rest []); [|done|exact Hv|]; cycle 1.
    { rewrite with_block_lookup_ne, with_block_lookup by done.
      by rewrite app_nil_r. }
    rewrite Hrest in *.
    eapply spec_ok.
    + apply run_finish_at; [apply lookup_insert_eq|simpl; lia..].
    + exists v. split; [done|]. split.
      * eapply (represents_intro _ _ (vs1 ++ v :: vs2) n b rawC); try done.
        -- simpl. rewrite insert_insert_eq, lookup_insert_eq.
           do 3 f_equal. rewrite length_app. simpl. lia.
        -- simpl. rewrite lookup_delete_ne by done.
           rewrite lookup_insert_eq. f_equal.
           rewrite fmap_app. simpl. by rewrite <- app_assoc.
        -- unfold rawC. rewrite length_app, length_replicate. simpl. lia.
      * unfold iterator_at. simpl.
        by rewrite insert_insert_eq, lookup_insert_eq.
Qed.

(** [Emplace] puts the new element in front of the element at [pos]; a full
    vector gets the capacity of the growth policy. *)
Lemma Emplace_spec w this vs cap i pos x :
  represents w this vs cap → external x = true →
  (i ≤ length vs)%nat →
  iterator_at w this i = Some pos →
  spec (Vector.Emplace this pos x w)
    (is_Some (made x) ∧ never_throws ∧
     (N.of_nat (length vs) = cap → grown cap ≤ max_size ∧ grown cap * sizeof_T ≤ avail w))
    (λ it w', ∃ v,
       made x = Some v ∧
       represents w' this (take i vs ++ v :: drop i vs)
         (if N.of_nat (length vs) =? cap then grown cap else cap) ∧
       iterator_at w' this i = Some it).
Proof.
  intros Hrep Hext Hi Hpos.
  destruct (decide (i = length vs)) as [->|Hne].
  - rewrite take_ge, drop_ge by lia.
    eapply spec_weaken; [by apply Emplace_at_end| |done].
    intros (? & Hnt & Hroom). split; [done|]. intros Hfull.
    destruct (Hroom Hfull). by auto using never_throws_transfer.
  - destruct (N.of_nat (length vs) =? cap) eqn:Hfull.
    + apply N.eqb_eq in Hfull.
      eapply spec_weaken; [apply Emplace_grows; try done; lia| |done].
      intros (? & ? & Hroom). destruct (Hroom Hfull). done.
    + apply N.eqb_neq in Hfull.
      eapply spec_weaken; [apply Emplace_in_place; try done; lia| |done].
      tauto.
Qed.
End Emplace.

(** ** Insert, then erase *)

Section InsertErase.
Context {T : Type} `{!Element T} `{!ElementLaws T}.
Implicit Types (w : world T) (p : ptr) (this : vid) (a b : addr).
Implicit Types (vs : list T).

Lemma take_drop_insert vs i (v : T) :
  (i ≤ length vs)%nat →
  take i (take i vs ++ v :: drop i vs)
  ++ drop (S i) (take i vs ++ v :: drop i vs) = vs.
Proof.
  intros Hi.
  assert (length (take i vs) = i) as Hl by (rewrite length_take; lia).
  rewrite take_app_length' by done.
  rewrite (cons_middle v), app_assoc.
  rewrite (drop_app_length' _ _ (S i)) by (rewrite length_app; simpl; lia).
  by rewrite take_drop.
Qed.

Lemma Emplace_then_Erase w this vs cap i pos x :
  represents w this vs cap → external x = true →
  (i ≤ length vs)%nat →
  iterator_at w this i = Some pos →
  spec ((it ← Vector.Emplace this pos x; Vector.Erase this it) w)
    (is_Some (made x) ∧ never_throws ∧ room_to_grow w vs cap)
    (λ _ w', represents w' this vs
               (if N.of_nat (length vs) =? cap then grown cap else cap)).
Proof.
  intros Hrep Hext Hi Hpos.
  eapply spec_bind; [by eapply Emplace_spec|done|].
  simpl. intros it w1 _ (v & Hmade & Hrep1 & Hit).
  eapply spec_weaken.
  - eapply Erase_spec; [exact Hrep1| |exact Hit].
    rewrite length_app, length_take. simpl. rewrite length_drop. lia.
  - intros (_ & (_ & _ & Hm) & _). exact Hm.
  - simpl. intros it' w2 _ [_ Hrep2]. by rewrite take_drop_insert in Hrep2.
Qed.

Lemma spec_bind_inv {A B} (m : M T A) (k : A → M T B) w c (p : B → world T → Prop) :
  spec ((m ≫= k) w) c p →
  (∀ x w1 y w2, m w = Ok x w1 → k x w1 = Ok y w2 → p y w2) ∧
  (c → ∃ x w1 y w2, m w = Ok x w1 ∧ k x w1 = Ok y w2).
Proof.
  intros [Hp Hc]. split.
  - intros x w1 y w2 Hm Hk. apply Hp. by rewrite (run_bind_ok _ _ _ _ _ Hm).
  - intros Hcond. specialize (Hc Hcond). rewrite run_bind in Hc.
    destruct (m w) as [x w1| |] eqn:Hm; [|done..].
    destruct (k x w1) as [y w2| |] eqn:Hk; [|done..].
    by exists x, w1, y, w2.
Qed.

(** C7. [Insert(pos, value)] at any position of [begin() .. end()], followed
    by [Erase] at the iterator it returned, gives back a vector with the
    elements it had, in their order (and so with the size it had); this for
    the overload taking [const T&] and for the one taking [T&&], with
    [value] an object outside the vector.  The two calls return whenever no
    operation of [T] throws and a full vector has room to grow. *)
Theorem Insert_then_Erase w this vs cap i pos (value : T) :
  represents w this vs cap →
  (i ≤ length vs)%nat →
  iterator_at w this i = Some pos →
  let cap' := if N.of_nat (length vs) =? cap then grown cap else cap in
  (∀ it w1 it' w2,
     Vector.Insert this pos (Temp value) w = Ok it w1 →
     Vector.Erase this it w1 = Ok it' w2 →
     represents w2 this vs cap') ∧
  (∀ it w1 it' w2,
     Vector.Insert_rvalue this pos (Temp value) w = Ok it w1 →
     Vector.Erase this it w1 = Ok it' w2 →
     represents w2 this vs cap') ∧
  (never_throws → room_to_grow w vs cap →
     (∃ it w1 it' w2,
        Vector.Insert this pos (Temp value) w = Ok it w1 ∧
        Vector.Erase this it w1 = Ok it' w2) ∧
     (∃ it w1 it' w2,
        Vector.Insert_rvalue this pos (Temp value) w = Ok it w1 ∧
        Vector.Erase this it w1 = Ok it' w2)).
Proof.
  intros Hrep Hi Hpos cap'.
  destruct (spec_bind_inv _ _ _ _ _
              (Emplace_then_Erase w this vs cap i pos (Copy (Temp value))
                 Hrep eq_refl Hi Hpos)) as [Hcopy Hcopy_ok].
  destruct (spec_bind_inv _ _ _ _ _
              (Emplace_then_Erase w this vs cap i pos (Move (Temp value))
                 Hrep eq_refl Hi Hpos)) as [Hmove Hmove_ok].
  split; [exact Hcopy|]. split; [exact Hmove|].
  intros Hnt Hroom. pose proof Hnt as (Hc & Hm & _). split.
  - apply Hcopy_ok. split; [apply Hc|done].
  - apply Hmove_ok. split; [|done]. simpl.
    destruct (Hm value) as [[v r] ->]. by eexists.
Qed.
End InsertErase.

(** ** What a computation does to the [Vector] objects *)

Section Frame.
Context {T : Type} `{!Element T}.
Implicit Types (w : world T) (p : ptr) (this : vid).

Lemma keeps_ret {A} (a : A) : keeps_objs (mret a : M T A).
Proof. by intros w. Qed.

Lemma keeps_throw {A} e : keeps_objs (throw e : M T A).
Proof. by intros w. Qed.

Lemma keeps_undef {A} : keeps_objs (undef : M T A).
Proof. by intros w. Qed.

Lemma keeps_bind {A B} (m : M T A) (k : A → M T B) :
  keeps_objs m → (∀ a, keeps_objs (k a)) → keeps_objs (m ≫= k).
Proof.
  intros Hm Hk w. rewrite run_bind. specialize (Hm w).
  destruct (m w) as [a w1|e w1|]; [|done..].
  specialize (Hk a w1). destruct (k a w1); congruence.
Qed.

Lemma keeps_try_catch {A} (m : M T A) h :
  keeps_objs m → (∀ e, keeps_objs (h e)) → keeps_objs (try_catch m h).
Proof.
  intros Hm Hh w. unfold try_catch. specialize (Hm w).
  destruct (m w) as [a w1|e w1|]; [done| |done].
  specialize (Hh e w1). destruct (h e w1); congruence.
Qed.

Lemma keeps_unwinding {A} c (m : M T A) :
  keeps_objs c → keeps_objs m → keeps_objs (unwinding c m).
Proof.
  intros Hc Hm. apply keeps_try_catch; [done|]. intros e.
  apply (keeps_bind c); [done|]. intros _. apply keeps_throw.
Qed.

Lemma keeps_assert b : keeps_objs (assert (T := T) b).
Proof. destruct b; [apply keeps_ret|apply keeps_undef]. Qed.

Lemma keeps_lift_option {A} (o : option A) : keeps_objs (lift_option (T := T) o).
Proof. destruct o; [apply keeps_ret|apply keeps_undef]. Qed.

Lemma keeps_elem {A} (o : option A) : keeps_objs (elem (T := T) o).
Proof. destruct o; [apply keeps_ret|apply keeps_throw]. Qed.

Lemma keeps_load p : keeps_objs (load (T := T) p).
Proof. intros w. unfold load. repeat case_match; by simplify_eq/=. Qed.

Lemma keeps_check_storage p : keeps_objs (check_storage (T := T) p).
Proof. intros w. unfold check_storage. repeat case_match; by simplify_eq/=. Qed.

Lemma keeps_write_slot p s : keeps_objs (write_slot (T := T) p s).
Proof. intros w. unfold write_slot. repeat case_match; by simplify_eq/=. Qed.

Lemma keeps_ptr_sub p n : keeps_objs (ptr_sub (T := T) p n).
Proof. unfold ptr_sub. case_match; [apply keeps_ret|apply keeps_undef]. Qed.

Lemma keeps_distance p q : keeps_objs (distance (T := T) p q).
Proof. unfold distance. case_match; [apply keeps_ret|apply keeps_undef]. Qed.

Lemma keeps_operator_new n : keeps_objs (operator_new (T := T) n).
Proof. intros w. unfold operator_new. repeat case_match; by simplify_eq/=. Qed.

Lemma keeps_operator_delete p : keeps_objs (operator_delete (T := T) p).
Proof. intros w. unfold operator_delete. repeat case_match; by simplify_eq/=. Qed.

Lemma keeps_get this : keeps_objs (Vector.get (T := T) this).
Proof. intros w. unfold Vector.get. repeat case_match; by simplify_eq/=. Qed.
End Frame.

(** proves [keeps_objs] of a computation built from the ones above *)
Ltac keeps_with tac :=
  repeat first
    [ assumption
    | match goal with H : _ |- keeps_objs _ => apply H end
    | tac
    | apply keeps_ret | apply keeps_throw | apply keeps_undef
    | apply keeps_assert | apply keeps_lift_option | apply keeps_elem
    | apply keeps_load | apply keeps_check_storage | apply keeps_write_slot
    | apply keeps_ptr_sub | apply keeps_distance
    | apply keeps_operator_new | apply keeps_operator_delete
    | apply keeps_get
    | apply keeps_unwinding | apply keeps_try_catch
    | apply keeps_bind
    | progress cbv beta
    | match goal with
      | |- keeps_objs (match ?x with _ => _ end) => destruct x
      | |- keeps_objs (if ?b then _ else _) => destruct b
      | |- ∀ _, _ => intros ?
      end ].
Ltac keeps := keeps_with fail.

Section FrameMemory.
Context {T : Type} `{!Element T}.
Implicit Types (w : world T) (p q r : ptr) (this : vid) (n : N).

Lemma keeps_update p (v : T) : keeps_objs (update (T := T) p v).
Proof. unfold update. keeps. Qed.

Lemma keeps_destroy_at p : keeps_objs (destroy_at (T := T) p).
Proof. unfold destroy_at. keeps. Qed.

Lemma keeps_make x : keeps_objs (make (T := T) x).
Proof.
  destruct x as [y|[v|p]|[v|p]]; unfold make, read_ref, write_ref;
    pose proof keeps_update; keeps.
Qed.

Lemma keeps_placement_new p x : keeps_objs (placement_new (T := T) p x).
Proof. unfold placement_new. pose proof keeps_make. keeps. Qed.

Lemma keeps_placement_new_value p : keeps_objs (placement_new_value (T := T) p).
Proof. unfold placement_new_value. keeps. Qed.

Lemma keeps_assign_move p q : keeps_objs (assign_move (T := T) p q).
Proof. unfold assign_move. pose proof keeps_update. keeps. Qed.

Lemma keeps_assign_copy p q : keeps_objs (assign_copy (T := T) p q).
Proof. unfold assign_copy. pose proof keeps_update. keeps. Qed.

Lemma keeps_destroy_n p n : keeps_objs (destroy_n (T := T) p n).
Proof.
  unfold destroy_n. generalize (N.to_nat n). intros k. revert p.
  induction k as [|k IH]; intros p; simpl; pose proof keeps_destroy_at; keeps.
Qed.

Lemma keeps_uninitialized_loop (build : N → ptr → M T unit) d_first k (c : nat) :
  (∀ i p, keeps_objs (build i p)) →
  keeps_objs (uninitialized_loop (T := T) build d_first k c).
Proof.
  intros Hb. revert k. induction c as [|c IH]; intros k; simpl;
    pose proof keeps_destroy_n; keeps.
Qed.

Lemma keeps_uninitialized_move_n p n q : keeps_objs (uninitialized_move_n (T := T) p n q).
Proof.
  apply keeps_uninitialized_loop. intros. apply keeps_placement_new.
Qed.

Lemma keeps_uninitialized_copy_n p n q : keeps_objs (uninitialized_copy_n (T := T) p n q).
Proof.
  apply keeps_uninitialized_loop. intros. apply keeps_placement_new.
Qed.

Lemma keeps_uninitialized_value_construct_n p n :
  keeps_objs (uninitialized_value_construct_n (T := T) p n).
Proof.
  apply keeps_uninitialized_loop. intros. apply keeps_placement_new_value.
Qed.

Lemma keeps_std_move p q r : keeps_objs (std_move (T := T) p q r).
Proof.
  unfold std_move. apply keeps_bind; [keeps|]. intros c.
  generalize (N.to_nat c). intros k. revert p r.
  induction k as [|k IH]; intros p r; simpl; pose proof keeps_assign_move; keeps.
Qed.

Lemma keeps_move_backward p q r : keeps_objs (move_backward (T := T) p q r).
Proof.
  unfold move_backward. apply keeps_bind; [keeps|]. intros c.
  generalize (N.to_nat c). intros k. revert q r.
  induction k as [|k IH]; intros q r; simpl; pose proof keeps_assign_move; keeps.
Qed.

Lemma keeps_ctor_capacity n : keeps_objs (RawMemory.ctor_capacity (T := T) n).
Proof. unfold RawMemory.ctor_capacity, RawMemory.Allocate. keeps. Qed.

Lemma keeps_RawMemory_dtor m : keeps_objs (RawMemory.dtor (T := T) m).
Proof. unfold RawMemory.dtor, RawMemory.Deallocate. keeps. Qed.

Lemma keeps_op_plus m n : keeps_objs (RawMemory.op_plus (T := T) m n).
Proof. unfold RawMemory.op_plus. keeps. Qed.

Lemma keeps_op_index m n : keeps_objs (RawMemory.op_index (T := T) m n).
Proof. unfold RawMemory.op_index. keeps. Qed.

Lemma keeps_begin this : keeps_objs (Vector.begin (T := T) this).
Proof. unfold Vector.begin. pose proof keeps_op_plus. keeps. Qed.

Lemma keeps_end this : keeps_objs (Vector.end_ (T := T) this).
Proof. unfold Vector.end_. pose proof keeps_op_plus. keeps. Qed.

Lemma keeps_cbegin this : keeps_objs (Vector.cbegin (T := T) this).
Proof. apply keeps_begin. Qed.

Lemma keeps_cend this : keeps_objs (Vector.cend (T := T) this).
Proof. apply keeps_end. Qed.

Lemma keeps_assign_loop d s i (c : nat) : keeps_objs (Vector.assign_loop (T := T) d s i c).
Proof.
  revert i. induction c as [|c IH]; intros i; simpl;
    pose proof keeps_op_index; pose proof keeps_assign_copy; keeps.
Qed.
End FrameMemory.

Ltac keeps_mem :=
  keeps_with ltac:(first
    [ apply keeps_update | apply keeps_destroy_at | apply keeps_make
    | apply keeps_placement_new | apply keeps_placement_new_value
    | apply keeps_assign_move | apply keeps_assign_copy
    | apply keeps_destroy_n
    | apply keeps_uninitialized_move_n | apply keeps_uninitialized_copy_n
    | apply keeps_uninitialized_value_construct_n
    | apply keeps_std_move | apply keeps_move_backward
    | apply keeps_ctor_capacity | apply keeps_RawMemory_dtor
    | apply keeps_op_plus | apply keeps_op_index
    | apply keeps_begin | apply keeps_end | apply keeps_cbegin | apply keeps_cend
    | apply keeps_assign_loop ]).

(** ** Computations that never throw *)

Section Quiet.
Context {T : Type} `{!Element T}.
Implicit Types (w : world T) (p q : ptr) (this : vid) (n : N).

Lemma quiet_ret {A} (a : A) : never_raises (mret a : M T A).
Proof. by intros w e w'. Qed.

Lemma quiet_undef {A} : never_raises (undef : M T A).
Proof. by intros w e w'. Qed.

Lemma quiet_bind {A B} (m : M T A) (k : A → M T B) :
  never_raises m → (∀ a, never_raises (k a)) → never_raises (m ≫= k).
Proof.
  intros Hm Hk w e w'. rewrite run_bind.
  destruct (m w) as [a w1|e1 w1|] eqn:E; [apply Hk|by apply Hm in E|done].
Qed.

Lemma quiet_assert b : never_raises (assert (T := T) b).
Proof. destruct b; [apply quiet_ret|apply quiet_undef]. Qed.

Lemma quiet_lift_option {A} (o : option A) : never_raises (lift_option (T := T) o).
Proof. destruct o; [apply quiet_ret|apply quiet_undef]. Qed.

Lemma quiet_get this : never_raises (Vector.get (T := T) this).
Proof. intros w e w'. unfold Vector.get. by case_match. Qed.

Lemma quiet_put this v : never_raises (Vector.put (T := T) this v).
Proof. by intros w e w'. Qed.

Lemma quiet_free_object this : never_raises (Vector.free_object (T := T) this).
Proof. by intros w e w'. Qed.

Lemma quiet_operator_delete p : never_raises (operator_delete (T := T) p).
Proof. intros w e w'. unfold operator_delete. by repeat case_match. Qed.

Lemma quiet_ptr_sub p n : never_raises (ptr_sub (T := T) p n).
Proof. unfold ptr_sub. case_match; [apply quiet_ret|apply quiet_undef]. Qed.

Lemma quiet_load p : never_raises (load (T := T) p).
Proof. intros w e w'. unfold load. by repeat case_match. Qed.

Lemma quiet_write_slot p s : never_raises (write_slot (T := T) p s).
Proof. intros w e w'. unfold write_slot. by repeat case_match. Qed.
End Quiet.

Ltac quiet :=
  repeat first
    [ apply quiet_ret | apply quiet_undef | apply quiet_assert
    | apply quiet_lift_option | apply quiet_get | apply quiet_put
    | apply quiet_free_object | apply quiet_operator_delete
    | apply quiet_ptr_sub | apply quiet_load | apply quiet_write_slot
    | apply quiet_bind
    | progress cbv beta
    | match goal with
      | |- never_raises (match ?x with _ => _ end) => destruct x
      | |- never_raises (if ?b then _ else _) => destruct b
      | |- ∀ _, _ => intros ?
      end ].

(** ** What the members do to the [Vector] objects *)

Section Outcome.
Context {T : Type} `{!Element T}.
Implicit Types (w : world T) (p q : ptr) (this t : vid) (n : N)
  (o : gmap vid Vector).

Lemma outcome_weaken {A} (r : res T A) (ok ok' : A → world T → Prop)
    (thrown thrown' : world T → Prop) :
  outcome r ok thrown →
  (∀ a w', ok a w' → ok' a w') → (∀ w', thrown w' → thrown' w') →
  outcome r ok' thrown'.
Proof. destruct r; simpl; auto. Qed.

Lemma outcome_bind {A B} (m : M T A) (k : A → M T B) w
    (ok1 : A → world T → Prop) ok (thrown : world T → Prop) :
  outcome (m w) ok1 thrown →
  (∀ a w1, ok1 a w1 → outcome (k a w1) ok thrown) →
  outcome ((m ≫= k) w) ok thrown.
Proof. rewrite run_bind. destruct (m w); simpl; auto. Qed.

(** a step on blocks that may throw *)
Lemma outcome_step {A B} (m : M T A) (k : A → M T B) w o ok
    (thrown : world T → Prop) :
  objs w = o → keeps_objs m → (∀ w', objs w' = o → thrown w') →
  (∀ a w1, m w = Ok a w1 → objs w1 = o → outcome (k a w1) ok thrown) →
  outcome ((m ≫= k) w) ok thrown.
Proof.
  intros Ho Hm Ht Hk. rewrite run_bind. specialize (Hm w).
  destruct (m w) as [a w1|e w1|] eqn:E; simpl; [|apply Ht|done]; [|congruence].
  apply Hk; congruence.
Qed.

(** a step on blocks that does not throw *)
Lemma outcome_quiet_step {A B} (m : M T A) (k : A → M T B) w o ok
    (thrown : world T → Prop) :
  objs w = o → keeps_objs m → never_raises m →
  (∀ a w1, m w = Ok a w1 → objs w1 = o → outcome (k a w1) ok thrown) →
  outcome ((m ≫= k) w) ok thrown.
Proof.
  intros Ho Hm Hq Hk. rewrite run_bind. specialize (Hm w).
  destruct (m w) as [a w1|e w1|] eqn:E; simpl; [|by apply Hq in E|done].
  apply Hk; congruence.
Qed.

Lemma outcome_last {A} (m : M T A) w o (ok : A → world T → Prop)
    (thrown : world T → Prop) :
  objs w = o → keeps_objs m → (∀ w', objs w' = o → thrown w') →
  (∀ a w1, m w = Ok a w1 → objs w1 = o → ok a w1) →
  outcome (m w) ok thrown.
Proof.
  intros Ho Hm Ht Hk. specialize (Hm w).
  destruct (m w) as [a w1|e w1|] eqn:E; simpl; [|apply Ht|done]; [|congruence].
  apply Hk; congruence.
Qed.

Lemma outcome_quiet_last {A} (m : M T A) w o (ok : A → world T → Prop)
    (thrown : world T → Prop) :
  objs w = o → keeps_objs m → never_raises m →
  (∀ a w1, m w = Ok a w1 → objs w1 = o → ok a w1) →
  outcome (m w) ok thrown.
Proof.
  intros Ho Hm Hq Hk. specialize (Hm w).
  destruct (m w) as [a w1|e w1|] eqn:E; simpl; [|by apply Hq in E|done].
  apply Hk; congruence.
Qed.

Lemma outcome_get {B} t (k : Vector → M T B) w ok (thrown : world T → Prop) :
  (∀ v, objs w !! t = Some v → outcome (k v w) ok thrown) →
  outcome ((Vector.get t ≫= k) w) ok thrown.
Proof.
  intros Hk. rewrite run_bind. unfold Vector.get.
  destruct (objs w !! t) as [v|]; [by apply Hk|done].
Qed.

Lemma outcome_set_data {B} t d (k : unit → M T B) w o v ok
    (thrown : world T → Prop) :
  objs w = o → o !! t = Some v →
  (∀ w1, objs w1 = <[t := {| data_ := d; size_ := size_ v |}]> o →
         outcome (k tt w1) ok thrown) →
  outcome ((Vector.set_data t d ≫= k) w) ok thrown.
Proof.
  intros <- Hv Hk. rewrite (run_bind_ok _ _ _ _ _ (run_set_data _ _ _ _ Hv)).
  by apply Hk.
Qed.

Lemma outcome_set_size {B} t s (k : unit → M T B) w o v ok
    (thrown : world T → Prop) :
  objs w = o → o !! t = Some v →
  (∀ w1, objs w1 = <[t := {| data_ := data_ v; size_ := s |}]> o →
         outcome (k tt w1) ok thrown) →
  outcome ((Vector.set_size t s ≫= k) w) ok thrown.
Proof.
  intros <- Hv Hk. rewrite (run_bind_ok _ _ _ _ _ (run_set_size _ _ _ _ Hv)).
  by apply Hk.
Qed.

Lemma outcome_set_size_last t s w o v (ok : unit → world T → Prop)
    (thrown : world T → Prop) :
  objs w = o → o !! t = Some v →
  (∀ w1, objs w1 = <[t := {| data_ := data_ v; size_ := s |}]> o → ok tt w1) →
  outcome (Vector.set_size t s w) ok thrown.
Proof. intros <- Hv Hk. rewrite (run_set_size _ _ _ _ Hv). by apply Hk. Qed.

Lemma ctor_capacity_result n w d w1 :
  RawMemory.ctor_capacity n w = Ok d w1 → capacity_ d = n ∧ sound_buffer d.
Proof.
  unfold RawMemory.ctor_capacity, RawMemory.Allocate, sound_buffer.
  rewrite run_bind. destruct (n =? 0) eqn:Hn; simpl.
  - by intros [= <- <-].
  - unfold operator_new.
    destruct ((wrap (n * sizeof_T) <=? ptrdiff_max)
              && (wrap (n * sizeof_T) <=? avail w)); [|done].
    by intros [= <- <-].
Qed.

Lemma adopts_same w t v s w' :
  objs w !! t = Some v →
  objs w' = <[t := {| data_ := data_ v; size_ := s |}]> (objs w) →
  adopts w t s (capacity_ (data_ v)) w'.
Proof. intros Hv Ho. exists (data_ v). split; [done|]. split; [done|]. eauto. Qed.

Lemma adopts_new w t d s cap w' :
  sound_buffer d → capacity_ d = cap →
  objs w' = <[t := {| data_ := d; size_ := s |}]> (objs w) →
  adopts w t s cap w'.
Proof. intros Hd Hc Ho. exists d. eauto. Qed.

Lemma sound_buffer_eta d :
  sound_buffer d → sound_buffer {| buffer_ := buffer_ d; capacity_ := capacity_ d |}.
Proof. by rewrite RawMemory_eta. Qed.

Lemma quiet_RawMemory_dtor m : never_raises (RawMemory.dtor (T := T) m).
Proof. apply quiet_operator_delete. Qed.

Lemma quiet_op_plus m n : never_raises (RawMemory.op_plus (T := T) m n).
Proof. unfold RawMemory.op_plus. quiet. Qed.

End Outcome.

(** one step of a run on blocks, with [Ho : objs w = o] for the store [w]
    the step starts from *)
Ltac keep_block :=
  first
    [ eapply outcome_step;
        [eassumption|solve [keeps_mem]|solve [eauto]|]
    | eapply outcome_quiet_step;
        [eassumption|solve [keeps_mem]|
         solve [first [apply quiet_RawMemory_dtor|apply quiet_op_plus|quiet]]|] ].
Ltac keep_step := rewrite ?run_bind_assoc; keep_block.
Ltac keep_last :=
  first
    [ eapply outcome_last;
        [eassumption|solve [keeps_mem]|solve [eauto]|]
    | eapply outcome_quiet_last;
        [eassumption|solve [keeps_mem]|
         solve [first [apply quiet_RawMemory_dtor|apply quiet_op_plus|quiet]]|] ].

Section Objects.
Context {T : Type} `{!Element T}.
Implicit Types (w : world T) (p q : ptr) (this t : vid) (n : N)
  (o : gmap vid Vector).

Lemma Reserve_objs w t n :
  outcome (Vector.Reserve t n w)
    (λ _ w', ∃ v, objs w !! t = Some v ∧
       adopts w t (size_ v) (N.max (capacity_ (data_ v)) n) w')
    (λ w', objs w' = objs w).
Proof.
  unfold Vector.Reserve. apply outcome_get. intros v Hv.
  unfold RawMemory.Capacity. destruct (n <=? capacity_ (data_ v)) eqn:Hn.
  - apply N.leb_le in Hn. exists v. split; [done|].
    rewrite N.max_l by done. apply (adopts_same _ _ v); [done|].
    by rewrite Vector_eta, insert_id.
  - apply N.leb_gt in Hn.
    assert (objs w = objs w) as Ho by done.
    keep_step. intros nd w1 Hnd Ho1.
    apply ctor_capacity_result in Hnd as [Hnd Hsound].
    keep_step. intros [] w2 _ Ho2.
    keep_step. intros [] w3 _ Ho3.
    unfold RawMemory.Swap. cbv beta iota.
    rewrite ?run_bind_assoc. eapply outcome_set_data; [exact Ho3|exact Hv|].
    intros w4 Ho4. keep_last. intros [] w5 _ Ho5.
    exists v. split; [done|].
    eapply adopts_new; [by apply sound_buffer_eta|simpl; lia|exact Ho5].
Qed.

(** the end of [EmplaceBack]: one more element, the reference to the last *)
Lemma finish_back_objs w t o v (ok : ptr → world T → Prop) thrown :
  objs w = o → o !! t = Some v →
  (∀ p w1, objs w1 = <[t := {| data_ := data_ v; size_ := wrap (size_ v + 1) |}]> o →
           ok p w1) →
  outcome
    ((v ← Vector.get t;
      Vector.set_size t (wrap (size_ v + 1));;
      v ← Vector.get t;
      p ← RawMemory.op_plus (data_ v) (size_ v);
      ptr_sub p 1) w) ok thrown.
Proof.
  intros Ho Hv Hk. apply outcome_get. rewrite Ho, Hv. intros ? [= <-].
  eapply outcome_set_size; [exact Ho|exact Hv|]. intros w1 Ho1.
  apply outcome_get. intros v1 _.
  keep_step. intros p w2 _ Ho2.
  keep_last. intros q w3 _ Ho3. by apply Hk.
Qed.

Lemma EmplaceBack_objs w t a :
  outcome (Vector.EmplaceBack t a w)
    (λ _ w', ∃ v, objs w !! t = Some v ∧
       adopts w t (wrap (size_ v + 1))
         (if size_ v =? capacity_ (data_ v) then new_capacity v
          else capacity_ (data_ v)) w')
    (λ w', objs w' = objs w).
Proof.
  unfold Vector.EmplaceBack. apply outcome_get. intros v Hv.
  assert (objs w = objs w) as Ho by done.
  unfold RawMemory.Capacity. destruct (size_ v =? capacity_ (data_ v)) eqn:Hfull.
  - keep_step. intros nd w1 Hnd Ho1.
    apply ctor_capacity_result in Hnd as [Hnd Hsound].
    keep_step. intros [] w2 _ Ho2.
    keep_step. intros [] w3 _ Ho3.
    unfold RawMemory.Swap. cbv beta iota.
    rewrite ?run_bind_assoc. eapply outcome_set_data; [exact Ho3|exact Hv|].
    intros w4 Ho4. keep_step. intros [] w5 _ Ho5.
    eapply finish_back_objs; [exact Ho5|by rewrite lookup_insert_eq|].
    simpl. intros p w6 Ho6. exists v. split; [done|]. rewrite Hfull.
    eapply adopts_new; [by apply sound_buffer_eta|done|].
    rewrite Ho6. by rewrite insert_insert_eq.
  - keep_step. intros p w1 _ Ho1.
    keep_step. intros [] w2 _ Ho2.
    eapply finish_back_objs; [exact Ho2|exact Hv|].
    intros q w3 Ho3. exists v. split; [done|]. rewrite Hfull.
    by apply (adopts_same _ _ v).
Qed.


Lemma Emplace_objs w t pos a :
  outcome (Vector.Emplace t pos a w)
    (λ _ w', ∃ v, objs w !! t = Some v ∧
       adopts w t (wrap (size_ v + 1))
         (if size_ v =? capacity_ (data_ v) then new_capacity v
          else capacity_ (data_ v)) w')
    (λ w', objs w' = objs w).
Proof.
  unfold Vector.Emplace.
  assert (objs w = objs w) as Ho by done.
  keep_step. intros b w1 _ Ho1.
  keep_step. intros e w2 _ Ho2.
  keep_step. intros ge w3 _ Ho3.
  keep_step. intros le w4 _ Ho4.
  keep_step. intros [] w5 _ Ho5.
  keep_step. intros ce w6 _ Ho6.
  destruct (ptr_eqb pos ce).
  - eapply outcome_bind.
    { eapply outcome_weaken; [apply EmplaceBack_objs|done|].
      simpl. intros w'. by rewrite Ho6. }
    simpl. intros _ w7 (v & Hv & d & Ho7 & Hd & Hfrom).
    apply outcome_get. intros v7 _.
    keep_step. intros p w8 _ Ho8.
    keep_last. intros q w9 _ Ho9.
    rewrite Ho6 in Hv, Ho7, Hfrom. exists v. split; [done|]. exists d.
    split; [congruence|done].
  - keep_step. intros cb w7 _ Ho7.
    keep_step. intros num_pos w8 _ Ho8.
    apply outcome_get. rewrite Ho8. intros v Hv.
    assert (∀ d w9, objs w9 = <[t := {| data_ := d; size_ := size_ v |}]> (objs w) →
      capacity_ d = (if size_ v =? capacity_ (data_ v) then new_capacity v
                     else capacity_ (data_ v)) →
      sound_buffer d ∨ d = data_ v →
      outcome
        ((v ← Vector.get t;
          Vector.set_size t (wrap (size_ v + 1));;
          v ← Vector.get t;
          RawMemory.op_plus (data_ v) num_pos) w9)
        (λ _ w', ∃ v, objs w !! t = Some v ∧
           adopts w t (wrap (size_ v + 1))
             (if size_ v =? capacity_ (data_ v) then new_capacity v
              else capacity_ (data_ v)) w')
        (λ w', objs w' = objs w)) as Hfinish.
    { intros d w9 Ho9 Hd Hfrom. apply outcome_get. rewrite Ho9, lookup_insert_eq.
      intros ? [= <-].
      eapply outcome_set_size; [exact Ho9|by rewrite lookup_insert_eq|].
      simpl. intros w10 Ho10. apply outcome_get. intros v10 _.
      keep_last. intros p w11 _ Ho11.
      exists v. split; [done|]. exists d. split; [|split; [done|]].
      - by rewrite Ho11, insert_insert_eq.
      - destruct Hfrom as [?| ->]; eauto. }
    unfold RawMemory.Capacity. destruct (size_ v =? capacity_ (data_ v)) eqn:Hfull.
    + keep_step. intros nd w9 Hnd Ho9.
      apply ctor_capacity_result in Hnd as [Hnd Hsound].
      keep_step. intros [] w10 _ Ho10.
      keep_step. intros [] w11 _ Ho11.
      unfold RawMemory.Swap. cbv beta iota.
      rewrite ?run_bind_assoc. eapply outcome_set_data; [exact Ho11|exact Hv|].
      intros w12 Ho12. keep_step. intros [] w13 _ Ho13.
      eapply Hfinish; [exact Ho13|done|]. left. by apply sound_buffer_eta.
    + destruct (negb (size_ v =? 0)).
      * keep_block. intros [] w9 _ Ho9.
        eapply (Hfinish (data_ v)); [|done|by right].
        by rewrite Vector_eta, insert_id.
      * keep_block. intros [] w9 _ Ho9.
        eapply (Hfinish (data_ v)); [|done|by right].
        by rewrite Vector_eta, insert_id.
Qed.

Lemma Erase_objs w t pos :
  outcome (Vector.Erase t pos w)
    (λ _ w', ∃ v, objs w !! t = Some v ∧
       adopts w t (size_t_sub (size_ v) 1) (capacity_ (data_ v)) w')
    (λ w', objs w' = objs w).
Proof.
  unfold Vector.Erase.
  assert (objs w = objs w) as Ho by done.
  keep_step. intros b w1 _ Ho1.
  keep_step. intros e w2 _ Ho2.
  keep_step. intros ge w3 _ Ho3.
  keep_step. intros le w4 _ Ho4.
  keep_step. intros [] w5 _ Ho5.
  keep_step. intros cb w6 _ Ho6.
  keep_step. intros num_pos w7 _ Ho7.
  keep_step. intros b1 w8 _ Ho8.
  keep_step. intros e1 w9 _ Ho9.
  keep_step. intros b2 w10 _ Ho10.
  keep_step. intros [] w11 _ Ho11.
  keep_step. intros e2 w12 _ Ho12.
  keep_step. intros last w13 _ Ho13.
  keep_step. intros [] w14 _ Ho14.
  apply outcome_get. rewrite Ho14. intros v Hv.
  eapply outcome_set_size; [exact Ho14|exact Hv|].
  intros w15 Ho15. apply outcome_get. intros v15 _.
  keep_last. intros p w16 _ Ho16.
  exists v. split; [done|]. by apply (adopts_same _ _ v).
Qed.

Lemma PopBack_objs w t :
  outcome (Vector.PopBack t w)
    (λ _ w', ∃ v, objs w !! t = Some v ∧
       adopts w t (size_t_sub (size_ v) 1) (capacity_ (data_ v)) w')
    (λ w', objs w' = objs w).
Proof.
  unfold Vector.PopBack. apply outcome_get. intros v Hv.
  assert (objs w = objs w) as Ho by done.
  keep_step. intros p w1 _ Ho1.
  keep_step. intros last w2 _ Ho2.
  keep_step. intros [] w3 _ Ho3.
  eapply outcome_set_size_last; [exact Ho3|exact Hv|].
  intros w4 Ho4. exists v. split; [done|]. by apply (adopts_same _ _ v).
Qed.

(** [Resize] may throw after [Reserve] gave the vector a larger block *)
Lemma Resize_objs w t n :
  outcome (Vector.Resize t n w)
    (λ _ w', ∃ v, objs w !! t = Some v ∧
       adopts w t n
         (if size_ v <? n then N.max (capacity_ (data_ v)) n
          else capacity_ (data_ v)) w')
    (λ w', objs w' = objs w ∨
           ∃ v, objs w !! t = Some v ∧
             adopts w t (size_ v)
               (if size_ v <? n then N.max (capacity_ (data_ v)) n
                else capacity_ (data_ v)) w').
Proof.
  unfold Vector.Resize. apply outcome_get. intros v Hv.
  assert (objs w = objs w) as Ho by done.
  destruct (n <? size_ v) eqn:Hlt.
  - apply N.ltb_lt in Hlt.
    keep_step. intros p w1 _ Ho1.
    unfold Vector.DestroyN. keep_step. intros [] w2 _ Ho2.
    eapply outcome_set_size_last; [exact Ho2|exact Hv|].
    intros w3 Ho3. exists v. split; [done|].
    rewrite (proj2 (N.ltb_ge _ _)) by lia. by apply (adopts_same _ _ v).
  - destruct (size_ v <? n) eqn:Hgt.
    + rewrite ?run_bind_assoc. eapply outcome_bind.
      { eapply outcome_weaken; [apply Reserve_objs|done|]. simpl. by left. }
      simpl. intros _ w1 (v1 & Hv1 & d & Ho1 & Hd & Hfrom).
      rewrite Hv in Hv1. injection Hv1 as <-.
      rewrite ?run_bind_assoc.
      apply outcome_get. rewrite Ho1, lookup_insert_eq. intros ? [= <-]. simpl.
      assert (∀ w', objs w' = <[t := {| data_ := d; size_ := size_ v |}]> (objs w) →
        objs w' = objs w ∨
        ∃ v, objs w !! t = Some v ∧
          adopts w t (size_ v)
            (if size_ v <? n then N.max (capacity_ (data_ v)) n
             else capacity_ (data_ v)) w') as Hthrown.
      { intros w' Ho'. right. exists v. split; [done|]. exists d.
        by rewrite Hgt. }
      keep_step. intros p w2 _ Ho2.
      keep_step. intros [] w3 _ Ho3.
      eapply outcome_set_size_last; [exact Ho3|by rewrite lookup_insert_eq|].
      simpl. intros w4 Ho4. exists v. split; [done|]. exists d.
      by rewrite Ho4, insert_insert_eq, Hgt.
    + rewrite (run_bind_ok _ _ _ tt w) by done.
      eapply outcome_set_size_last; [exact Ho|exact Hv|].
      intros w1 Ho1. exists v. split; [done|]. rewrite Hgt.
    by apply (adopts_same _ _ v).
Qed.
End Objects.

(** ** Members that leave another object alone *)

Section Frames.
Context {T : Type} `{!Element T}.
Implicit Types (w : world T) (p q : ptr) (this t other rhs : vid) (n : N).

Lemma frames_keeps {A} this (m : M T A) : keeps_objs m → frames this m.
Proof.
  intros Hm w _. specialize (Hm w). unfold outcome.
  destruct (m w); [by rewrite Hm..|done].
Qed.

Lemma frames_bind {A B} this (m : M T A) (k : A → M T B) :
  frames this m → (∀ a, frames this (k a)) → frames this (m ≫= k).
Proof.
  intros Hm Hk w Hin. eapply outcome_bind; [by apply Hm|].
  simpl. intros a w1 Ho1. eapply outcome_weaken; [apply Hk|..].
  - by rewrite Ho1.
  - simpl. intros _ w'. by rewrite Ho1.
  - simpl. intros w'. by rewrite Ho1.
Qed.

Lemma frames_put this t v : t ≠ this → frames this (Vector.put (T := T) t v).
Proof. intros Hne w _. simpl. by rewrite lookup_insert_ne. Qed.

Lemma frames_set_data this t d :
  t ≠ this → frames this (Vector.set_data (T := T) t d).
Proof.
  intros Hne. apply frames_bind; [apply frames_keeps, keeps_get|].
  intros v. by apply frames_put.
Qed.

Lemma frames_set_size this t n :
  t ≠ this → frames this (Vector.set_size (T := T) t n).
Proof.
  intros Hne. apply frames_bind; [apply frames_keeps, keeps_get|].
  intros v. by apply frames_put.
Qed.

Lemma frames_free_object this t :
  t ≠ this → frames this (Vector.free_object (T := T) t).
Proof. intros Hne w _. simpl. by rewrite lookup_delete_ne. Qed.

(** a new object is not [this] *)
Lemma frames_alloc_object {B} this v (k : vid → M T B) :
  (∀ t, t ≠ this → frames this (k t)) →
  frames this (Vector.alloc_object v ≫= k).
Proof.
  intros Hk w Hin. rewrite run_bind. unfold Vector.alloc_object.
  set (t := fresh (dom (objs w))).
  assert (t ≠ this) as Hne.
  { intros Heq. apply elem_of_dom in Hin. rewrite <- Heq in Hin.
    by apply is_fresh in Hin. }
  eapply outcome_weaken; [apply (Hk t Hne)|..]; simpl.
  - by rewrite lookup_insert_ne.
  - intros _ w'. by rewrite lookup_insert_ne.
  - intros w'. by rewrite lookup_insert_ne.
Qed.
End Frames.

Ltac frames_with tac :=
  repeat first
    [ apply frames_keeps; solve [keeps_mem]
    | tac
    | apply frames_put; congruence
    | apply frames_set_data; congruence
    | apply frames_set_size; congruence
    | apply frames_free_object; congruence
    | apply frames_alloc_object; intros ? ?
    | apply frames_bind
    | progress cbv beta
    | match goal with
      | |- frames _ (match ?x with _ => _ end) => destruct x
      | |- frames _ (if ?b then _ else _) => destruct b
      | |- ∀ _, _ => intros ?
      end ].

Section FramesMembers.
Context {T : Type} `{!Element T}.
Implicit Types (w : world T) (p q : ptr) (this t other rhs : vid) (n : N).

Lemma frames_Swap this t other :
  t ≠ this → other ≠ this → frames this (Vector.Swap (T := T) t other).
Proof. intros Ht Ho. unfold Vector.Swap, RawMemory.Swap. frames_with fail. Qed.

Lemma frames_op_assign_move this t rhs :
  t ≠ this → rhs ≠ this → frames this (Vector.op_assign_move (T := T) t rhs).
Proof.
  intros Ht Ho. unfold Vector.op_assign_move, RawMemory.Swap.
  frames_with ltac:(by apply frames_Swap).
Qed.

Lemma frames_dtor this t : t ≠ this → frames this (Vector.dtor (T := T) t).
Proof. intros Ht. unfold Vector.dtor. frames_with fail. Qed.

Lemma frames_ctor_default {B} this (k : vid → M T B) :
  (∀ t, t ≠ this → frames this (k t)) → frames this (Vector.ctor_default ≫= k).
Proof. apply frames_alloc_object. Qed.

Lemma frames_ext {A} this (m m' : M T A) :
  (∀ w, m w = m' w) → frames this m' → frames this m.
Proof. intros Heq Hm w Hin. rewrite Heq. by apply Hm. Qed.

Lemma frames_ctor_size {B} this n (k : vid → M T B) :
  (∀ t, t ≠ this → frames this (k t)) → frames this (Vector.ctor_size n ≫= k).
Proof.
  intros Hk. unfold Vector.ctor_size.
  eapply frames_ext.
  { intros w. rewrite run_bind_assoc. reflexivity. }
  apply frames_bind; [frames_with fail|]. intros data.
  eapply frames_ext.
  { intros w. rewrite run_bind_assoc. reflexivity. }
  apply frames_bind; [frames_with fail|]. intros [].
  by apply frames_alloc_object.
Qed.

Lemma frames_ctor_copy {B} this other (k : vid → M T B) :
  (∀ t, t ≠ this → frames this (k t)) →
  frames this (Vector.ctor_copy other ≫= k).
Proof.
  intros Hk. unfold Vector.ctor_copy.
  eapply frames_ext.
  { intros w. rewrite run_bind_assoc. reflexivity. }
  apply frames_bind; [frames_with fail|]. intros o.
  eapply frames_ext.
  { intros w. rewrite run_bind_assoc. reflexivity. }
  apply frames_bind; [frames_with fail|]. intros data.
  eapply frames_ext.
  { intros w. rewrite run_bind_assoc. reflexivity. }
  apply frames_bind; [frames_with fail|]. intros [].
  by apply frames_alloc_object.
Qed.

Lemma frames_ctor_move {B} this other (k : vid → M T B) :
  other ≠ this →
  (∀ t, t ≠ this → frames this (k t)) → frames this (Vector.ctor_move other ≫= k).
Proof.
  intros Hne Hk. unfold Vector.ctor_move.
  eapply frames_ext.
  { intros w. rewrite run_bind_assoc. reflexivity. }
  apply frames_alloc_object. intros t Ht.
  eapply frames_ext.
  { intros w. rewrite run_bind_assoc. reflexivity. }
  apply frames_bind; [by apply frames_Swap|]. intros [].
  eapply frames_ext.
  { intros w. rewrite (run_bind_ok _ _ _ t w) by done. reflexivity. }
  by apply Hk.
Qed.

Lemma frames_op_assign_copy this t rhs :
  t ≠ this → frames this (Vector.op_assign_copy (T := T) t rhs).
Proof.
  intros Ht. unfold Vector.op_assign_copy.
  frames_with ltac:(first
    [ apply frames_ctor_copy; intros ? ?
    | by apply frames_Swap
    | by apply frames_dtor ]).
Qed.
End FramesMembers.
(** ** The capacity of a vector across the public calls *)

Section CapacityPolicy.
Context {T : Type} `{!Element T}.
Implicit Types (w : world T) (p q : ptr) (this t other rhs : vid) (n : N)
  (vs : list T) (c : call T).

Lemma capacity_of_adopts w t s cap w' this :
  adopts w t s cap w' →
  capacity_of w' this = if decide (t = this) then Some cap else capacity_of w this.
Proof.
  intros (d & Ho & Hd & _). unfold capacity_of. rewrite Ho.
  destruct (decide (t = this)) as [->|Hne].
  - rewrite lookup_insert_eq. simpl. by rewrite <- Hd.
  - by rewrite lookup_insert_ne.
Qed.

Lemma capacity_of_frame w w' this :
  objs w' !! this = objs w !! this → capacity_of w' this = capacity_of w this.
Proof. unfold capacity_of. by intros ->. Qed.

(** a call that leaves [this] alone leaves its capacity alone *)
Lemma frames_capacity {A} w this v (m : M T A) (P : N → Prop) :
  objs w !! this = Some v → frames this m →
  outcome (m w)
    (λ _ w', ∃ cap', capacity_of w' this = Some cap' ∧
               capacity_ (data_ v) ≤ cap' ∧ (false = true → P cap'))
    (λ w', ∃ cap', capacity_of w' this = Some cap' ∧ capacity_ (data_ v) ≤ cap').
Proof.
  intros Hv Hm.
  assert (capacity_of w this = Some (capacity_ (data_ v))) as Hcap.
  { unfold capacity_of. by rewrite Hv. }
  eapply outcome_weaken; [apply Hm; by rewrite Hv|..]; simpl.
  - intros _ w' Ho. exists (capacity_ (data_ v)).
    by rewrite (capacity_of_frame _ _ _ Ho).
  - intros w' Ho. exists (capacity_ (data_ v)).
    by rewrite (capacity_of_frame _ _ _ Ho).
Qed.

Lemma frames_pure {A} this (a : A) : frames this (mret a : M T A).
Proof. apply frames_keeps, keeps_ret. Qed.

(** a call with the effect [adopts] *)
Lemma adopts_outcome {A} w this v t (m : M T A) (b : bool) s s' F G :
  objs w !! this = Some v →
  capacity_ (data_ v) ≤ F v → (b = true → F v = G) →
  outcome (m w)
    (λ _ w', ∃ vt, objs w !! t = Some vt ∧ adopts w t (s vt) (F vt) w')
    (λ w', objs w' = objs w ∨
           ∃ vt, objs w !! t = Some vt ∧ adopts w t (s' vt) (F vt) w') →
  outcome (m w)
    (λ _ w', ∃ cap', capacity_of w' this = Some cap' ∧
               capacity_ (data_ v) ≤ cap' ∧
               (b && bool_decide (t = this) = true → cap' = G))
    (λ w', ∃ cap', capacity_of w' this = Some cap' ∧ capacity_ (data_ v) ≤ cap').
Proof.
  intros Hv Hle HG Hm.
  assert (capacity_of w this = Some (capacity_ (data_ v))) as Hcap.
  { unfold capacity_of. by rewrite Hv. }
  assert (∀ vt sz w', objs w !! t = Some vt → adopts w t sz (F vt) w' →
    ∃ cap', capacity_of w' this = Some cap' ∧ capacity_ (data_ v) ≤ cap' ∧
      (b && bool_decide (t = this) = true → cap' = G)) as Hstep.
  { intros vt sz w' Hvt Had. rewrite (capacity_of_adopts _ _ _ _ _ this Had).
    destruct (decide (t = this)) as [->|Hne].
    - rewrite Hv in Hvt. injection Hvt as <-. exists (F v).
      split; [done|]. split; [done|]. intros Hb. apply HG.
      by apply andb_true_iff in Hb as [? _].
    - exists (capacity_ (data_ v)). split; [done|]. split; [lia|].
      rewrite bool_decide_false by done. by rewrite andb_false_r. }
  eapply outcome_weaken; [exact Hm|..]; simpl.
  - intros _ w' (vt & Hvt & Had). by eapply Hstep.
  - intros w' [Ho|(vt & Hvt & Had)].
    + exists (capacity_ (data_ v)). split; [|lia].
      rewrite <- Hcap. apply capacity_of_frame. by rewrite Ho.
    + destruct (Hstep _ _ _ Hvt Had) as (cap' & ? & ? & _). by exists cap'.
Qed.

Lemma or_thrown {A} (r : res T A) (ok : A → world T → Prop)
    (thrown other : world T → Prop) :
  outcome r ok thrown → outcome r ok (λ w', thrown w' ∨ other w').
Proof. intros Hr. eapply outcome_weaken; [exact Hr|done|]. simpl. by left. Qed.

Lemma outcome_then_tt {A} (m : M T A) w (ok : world T → Prop)
    (thrown : world T → Prop) :
  outcome (m w) (λ _, ok) thrown → outcome ((m ;; mret tt) w) (λ _, ok) thrown.
Proof. intros Hm. eapply outcome_bind; [exact Hm|]. by intros a w1 Hok. Qed.

Lemma appended_grown v :
  (size_ v = capacity_ (data_ v) → capacity_ (data_ v) ≤ max_size) →
  appended v = if size_ v =? capacity_ (data_ v)
               then grown (capacity_ (data_ v)) else capacity_ (data_ v).
Proof.
  intros Hmax. unfold appended, new_capacity, RawMemory.Capacity.
  destruct (size_ v =? capacity_ (data_ v)) eqn:Hfull; [|done].
  apply N.eqb_eq in Hfull. apply new_capacity_grown; auto.
Qed.

Lemma appended_ge v :
  (size_ v = capacity_ (data_ v) → capacity_ (data_ v) ≤ max_size) →
  capacity_ (data_ v) ≤ appended v.
Proof.
  intros Hmax. rewrite appended_grown by done. unfold grown.
  destruct (size_ v =? capacity_ (data_ v)); lia.
Qed.

Lemma perform_capacity w this v c :
  objs w !! this = Some v →
  (size_ v = capacity_ (data_ v) → capacity_ (data_ v) ≤ max_size) →
  replaces this c = false →
  outcome (perform c w)
    (λ _ w', ∃ cap', capacity_of w' this = Some cap' ∧
       capacity_ (data_ v) ≤ cap' ∧
       (appends this c = true →
        cap' = if size_ v =? capacity_ (data_ v)
               then grown (capacity_ (data_ v)) else capacity_ (data_ v)))
    (λ w', ∃ cap', capacity_of w' this = Some cap' ∧ capacity_ (data_ v) ≤ cap').
Proof.
  intros Hv Hmax Hrep.
  pose proof (appended_ge v Hmax) as Hge.
  pose proof (appended_grown v Hmax) as Hgrown.
  set (G := if size_ v =? capacity_ (data_ v)
            then grown (capacity_ (data_ v)) else capacity_ (data_ v)) in *.
  destruct c as [|size|other|other|t|t rhs|t rhs|t other|t n|t n|t value|t value
                 |t|t a|t pos a|t pos value|t pos value|t pos];
    simpl in Hrep; unfold perform, appends.
  - apply (frames_capacity w this v _ (λ cap', cap' = G)); [done|].
    apply frames_ctor_default. intros. apply frames_pure.
  - apply (frames_capacity w this v _ (λ cap', cap' = G)); [done|].
    apply frames_ctor_size. intros. apply frames_pure.
  - apply (frames_capacity w this v _ (λ cap', cap' = G)); [done|].
    apply frames_ctor_copy. intros. apply frames_pure.
  - apply (frames_capacity w this v _ (λ cap', cap' = G)); [done|].
    apply bool_decide_eq_false in Hrep.
    apply frames_ctor_move; [done|]. intros. apply frames_pure.
  - apply (frames_capacity w this v _ (λ cap', cap' = G)); [done|].
    apply bool_decide_eq_false in Hrep. by apply frames_dtor.
  - apply (frames_capacity w this v _ (λ cap', cap' = G)); [done|].
    apply bool_decide_eq_false in Hrep. by apply frames_op_assign_copy.
  - apply (frames_capacity w this v _ (λ cap', cap' = G)); [done|].
    apply orb_false_iff in Hrep as [H1 H2].
    apply bool_decide_eq_false in H1, H2. by apply frames_op_assign_move.
  - apply (frames_capacity w this v _ (λ cap', cap' = G)); [done|].
    apply orb_false_iff in Hrep as [H1 H2].
    apply bool_decide_eq_false in H1, H2. by apply frames_Swap.
  - eapply (adopts_outcome w this v t _ false size_ size_
              (λ v, N.max (capacity_ (data_ v)) n) G); [done|lia|done|].
    eapply or_thrown, Reserve_objs.
  - eapply (adopts_outcome w this v t _ false (λ _, n) size_
              (λ v, if size_ v <? n then N.max (capacity_ (data_ v)) n
                    else capacity_ (data_ v)) G); [done| |done|].
    + destruct (size_ v <? n); lia.
    + apply Resize_objs.
  - eapply (adopts_outcome w this v t _ true (λ v, wrap (size_ v + 1)) size_
              appended G); [done|done|done|].
    apply outcome_then_tt; eapply or_thrown, EmplaceBack_objs.
  - eapply (adopts_outcome w this v t _ true (λ v, wrap (size_ v + 1)) size_
              appended G); [done|done|done|].
    apply outcome_then_tt; eapply or_thrown, EmplaceBack_objs.
  - eapply (adopts_outcome w this v t _ false (λ v, size_t_sub (size_ v) 1) size_
              (λ v, capacity_ (data_ v)) G); [done|lia|done|].
    eapply or_thrown, PopBack_objs.
  - eapply (adopts_outcome w this v t _ true (λ v, wrap (size_ v + 1)) size_
              appended G); [done|done|done|].
    apply outcome_then_tt; eapply or_thrown, EmplaceBack_objs.
  - eapply (adopts_outcome w this v t _ true (λ v, wrap (size_ v + 1)) size_
              appended G); [done|done|done|].
    apply outcome_then_tt; eapply or_thrown, Emplace_objs.
  - eapply (adopts_outcome w this v t _ true (λ v, wrap (size_ v + 1)) size_
              appended G); [done|done|done|].
    apply outcome_then_tt; eapply or_thrown, Emplace_objs.
  - eapply (adopts_outcome w this v t _ true (λ v, wrap (size_ v + 1)) size_
              appended G); [done|done|done|].
    apply outcome_then_tt; eapply or_thrown, Emplace_objs.
  - eapply (adopts_outcome w this v t _ false (λ v, size_t_sub (size_ v) 1) size_
              (λ v, capacity_ (data_ v)) G); [done|lia|done|].
    apply outcome_then_tt; eapply or_thrown, Erase_objs.
Qed.

Lemma appends_not_replaces this c : appends this c = true → replaces this c = false.
Proof. by destruct c. Qed.

Lemma is_ok_then_tt {A} (m : M T A) w :
  is_ok (m w) = true → is_ok ((m ;; mret tt) w) = true.
Proof. rewrite run_bind. by destruct (m w). Qed.

Context `{!ElementLaws T}.

(** The capacity of a [Vector] object [this] across one public call, for an
    object whose capacity, when it is full, is one a block can have.  An
    append or an insert that finds it full and returns leaves the capacity
    [grown]; no call that does not replace [this] as a whole lowers the
    capacity, whether it returns or throws; the appends and inserts of a
    value into a represented vector return when no operation of [T] throws
    and a full vector has room to grow. *)
Lemma capacity_across_call w this v :
  objs w !! this = Some v →
  (size_ v = capacity_ (data_ v) → capacity_ (data_ v) ≤ max_size) →
  let cap := capacity_ (data_ v) in
  (∀ c u w',
     appends this c = true → size_ v = cap →
     perform c w = Ok u w' → capacity_of w' this = Some (grown cap)) ∧
  (∀ c,
     replaces this c = false →
     (∀ u w', perform c w = Ok u w' →
        ∃ cap', capacity_of w' this = Some cap' ∧ cap ≤ cap') ∧
     (∀ e w', perform c w = Throw e w' →
        ∃ cap', capacity_of w' this = Some cap' ∧ cap ≤ cap')) ∧
  (∀ vs, represents w this vs cap → never_throws → room_to_grow w vs cap →
   ∀ i pos value c,
     (i ≤ length vs)%nat → iterator_at w this i = Some pos →
     c ∈ appends_of this pos value → is_ok (perform c w) = true).
Proof.
  intros Hv Hmax cap. split; [|split].
  - intros c u w' Happ Hfull Hrun.
    pose proof (perform_capacity w this v c Hv Hmax (appends_not_replaces _ _ Happ))
      as Hout.
    rewrite Hrun in Hout. simpl in Hout. destruct Hout as (cap' & Hcap & _ & Hg).
    rewrite Hcap, (Hg Happ), Hfull. by rewrite N.eqb_refl.
  - intros c Hnr.
    pose proof (perform_capacity w this v c Hv Hmax Hnr) as Hout. split.
    + intros u w' Hrun. rewrite Hrun in Hout. simpl in Hout.
      destruct Hout as (cap' & Hcap & Hle & _). by exists cap'.
    + intros e w' Hrun. rewrite Hrun in Hout. simpl in Hout.
      destruct Hout as (cap' & Hcap & Hle). by exists cap'.
  - intros vs Hrep Hnt Hroom i pos value c Hi Hpos Hin.
    pose proof Hnt as (Hcopy & Hmove & _).
    assert (is_Some (made (Copy (Temp value)))) as Hmc by apply Hcopy.
    assert (is_Some (made (Move (Temp value)))) as Hmm.
    { simpl. destruct (Hmove value) as [[x r] ->]. by eexists. }
    assert (∀ x, external x = true → is_Some (made x) →
              is_ok (Vector.EmplaceBack this x w) = true) as Hback.
    { intros x Hext Hx.
      apply (proj2 (EmplaceBack_spec w this vs cap x Hrep Hext)). split; [done|].
      intros Hfull. destruct (Hroom Hfull) as [? ?].
      split; [done|]. split; [done|]. by apply never_throws_transfer. }
    assert (∀ x, external x = true → is_Some (made x) →
              is_ok (Vector.Emplace this pos x w) = true) as Hat.
    { intros x Hext Hx.
      by apply (proj2 (Emplace_spec w this vs cap i pos x Hrep Hext Hi Hpos)). }
    unfold appends_of in Hin.
    repeat (apply elem_of_cons in Hin as [->|Hin]);
      [..|by apply elem_of_nil in Hin]; unfold perform.
    + by apply is_ok_then_tt, Hback.
    + by apply is_ok_then_tt, Hback.
    + by apply is_ok_then_tt, Hback.
    + by apply is_ok_then_tt, Hat.
    + by apply is_ok_then_tt, Hat.
    + by apply is_ok_then_tt, Hat.
Qed.
End CapacityPolicy.
(** ** What the calls keep true of the store *)

Section Preserves.
Context {T : Type} `{!Element T}.
Implicit Types (w : world T) (p q : ptr) (this t : vid) (n : N).
Variable P : world T → Prop.

Lemma preserves_ret {A} (a : A) : preserves P (mret a : M T A).
Proof. by intros w Hw. Qed.

Lemma preserves_throw {A} e : preserves P (throw e : M T A).
Proof. by intros w Hw. Qed.

Lemma preserves_undef {A} : preserves P (undef : M T A).
Proof. by intros w Hw. Qed.

Lemma preserves_bind {A B} (m : M T A) (k : A → M T B) :
  preserves P m → (∀ a, preserves P (k a)) → preserves P (m ≫= k).
Proof.
  intros Hm Hk w Hw. rewrite run_bind. specialize (Hm w Hw).
  destruct (m w) as [a w1|e w1|]; [|done..]. by apply Hk.
Qed.

Lemma preserves_try_catch {A} (m : M T A) h :
  preserves P m → (∀ e, preserves P (h e)) → preserves P (try_catch m h).
Proof.
  intros Hm Hh w Hw. unfold try_catch. specialize (Hm w Hw).
  destruct (m w) as [a w1|e w1|]; [done| |done]. by apply Hh.
Qed.

Lemma preserves_unwinding {A} c (m : M T A) :
  preserves P c → preserves P m → preserves P (unwinding c m).
Proof.
  intros Hc Hm. apply preserves_try_catch; [done|]. intros e.
  apply (preserves_bind c); [done|]. intros _. apply preserves_throw.
Qed.

(** a computation that leaves the store as it is *)
Lemma preserves_pure {A} (m : M T A) :
  (∀ w, outcome (m w) (λ _ w', w' = w) (λ w', w' = w)) → preserves P m.
Proof.
  intros Hm w Hw. specialize (Hm w).
  destruct (m w) as [a w1|e w1|]; simpl in *; by subst.
Qed.

Lemma preserves_assert b : preserves P (assert (T := T) b).
Proof. destruct b; [apply preserves_ret|apply preserves_undef]. Qed.

Lemma preserves_lift_option {A} (o : option A) : preserves P (lift_option (T := T) o).
Proof. destruct o; [apply preserves_ret|apply preserves_undef]. Qed.

Lemma preserves_elem {A} (o : option A) : preserves P (elem (T := T) o).
Proof. destruct o; [apply preserves_ret|apply preserves_throw]. Qed.

Lemma preserves_load p : preserves P (load (T := T) p).
Proof.
  apply preserves_pure. intros w. unfold load. by repeat case_match.
Qed.

Lemma preserves_check_storage p : preserves P (check_storage (T := T) p).
Proof.
  apply preserves_pure. intros w. unfold check_storage. by repeat case_match.
Qed.

Lemma preserves_ptr_sub p n : preserves P (ptr_sub (T := T) p n).
Proof. unfold ptr_sub. case_match; [apply preserves_ret|apply preserves_undef]. Qed.

Lemma preserves_distance p q : preserves P (distance (T := T) p q).
Proof. unfold distance. case_match; [apply preserves_ret|apply preserves_undef]. Qed.

Lemma preserves_get this : preserves P (Vector.get (T := T) this).
Proof.
  apply preserves_pure. intros w. unfold Vector.get. by repeat case_match.
Qed.
End Preserves.

Section Bounded.
Context {T : Type} `{!Element T}.
Implicit Types (w : world T) (p q : ptr) (this t : vid) (n : N).

Lemma blocks_bounded_heap w w' : heap w' = heap w → blocks_bounded w → blocks_bounded w'.
Proof. intros Hh Hw a blk. rewrite Hh. apply Hw. Qed.

Lemma bounded_write_slot p (s : option T) : preserves blocks_bounded (write_slot p s).
Proof.
  intros w Hw. unfold write_slot.
  destruct (base p) as [b|]; [|done].
  destruct (heap w !! b) as [blk0|] eqn:Hb; [|done].
  case_bool_decide; [|done]. simpl. intros a blk. simpl.
  destruct (decide (b = a)) as [->|Hne].
  - rewrite lookup_insert_eq. intros [= <-]. rewrite length_insert. by apply (Hw a).
  - rewrite lookup_insert_ne by done. apply Hw.
Qed.

Lemma bounded_operator_new n : preserves blocks_bounded (operator_new (T := T) n).
Proof.
  intros w Hw. unfold operator_new.
  destruct (n <=? ptrdiff_max) eqn:Hn; [|done]. apply N.leb_le in Hn.
  destruct (n <=? avail w); [|done]. simpl. intros a blk. simpl.
  destruct (decide (fresh (dom (heap w)) = a)) as [->|Hne].
  - rewrite lookup_insert_eq. intros [= <-]. rewrite length_replicate, N2Nat.id.
    unfold max_size. by apply N.Div0.div_le_mono.
  - rewrite lookup_insert_ne by done. apply Hw.
Qed.

Lemma bounded_operator_delete p : preserves blocks_bounded (operator_delete (T := T) p).
Proof.
  intros w Hw. unfold operator_delete.
  destruct (base p) as [b|]; [|done].
  destruct (heap w !! b) as [blk0|]; [|done].
  destruct (off p =? 0); [|done]. simpl. intros a blk. simpl.
  intros [_ Ha]%lookup_delete_Some. by apply (Hw a).
Qed.

Lemma bounded_put this v : preserves blocks_bounded (Vector.put (T := T) this v).
Proof. intros w Hw. simpl. by apply (blocks_bounded_heap w). Qed.

Lemma bounded_alloc_object v : preserves blocks_bounded (Vector.alloc_object (T := T) v).
Proof. intros w Hw. simpl. by apply (blocks_bounded_heap w). Qed.

Lemma bounded_free_object this : preserves blocks_bounded (Vector.free_object (T := T) this).
Proof. intros w Hw. simpl. by apply (blocks_bounded_heap w). Qed.
End Bounded.

(** proves that a computation built from the ones above keeps the blocks
    bounded *)
Ltac bounded_with tac :=
  repeat first
    [ assumption
    | match goal with H : _ |- preserves _ _ => apply H end
    | tac
    | apply preserves_ret | apply preserves_throw | apply preserves_undef
    | apply preserves_assert | apply preserves_lift_option | apply preserves_elem
    | apply preserves_load | apply preserves_check_storage
    | apply preserves_ptr_sub | apply preserves_distance | apply preserves_get
    | apply bounded_write_slot | apply bounded_operator_new
    | apply bounded_operator_delete | apply bounded_put
    | apply bounded_alloc_object | apply bounded_free_object
    | apply preserves_unwinding | apply preserves_try_catch
    | apply preserves_bind
    | progress cbv beta
    | match goal with
      | |- preserves _ (match ?x with _ => _ end) => destruct x
      | |- preserves _ (if ?b then _ else _) => destruct b
      | |- preserves _ (let '(_, _) := ?x in _) => destruct x
      | |- ∀ _, _ => intros ?
      end ].
Ltac bounded := bounded_with fail.

Section BoundedMembers.
Context {T : Type} `{!Element T}.
Implicit Types (w : world T) (p q r : ptr) (this t other rhs : vid) (n : N).

Lemma bounded_update p (v : T) : preserves blocks_bounded (update p v).
Proof. unfold update. bounded. Qed.

Lemma bounded_destroy_at p : preserves blocks_bounded (destroy_at (T := T) p).
Proof. unfold destroy_at. bounded. Qed.

Lemma bounded_make (x : args T) : preserves blocks_bounded (make x).
Proof.
  destruct x as [y|[v|p]|[v|p]]; unfold make, read_ref, write_ref;
    pose proof bounded_update; bounded.
Qed.

Lemma bounded_placement_new p (x : args T) : preserves blocks_bounded (placement_new p x).
Proof. unfold placement_new. pose proof bounded_make. bounded. Qed.

Lemma bounded_placement_new_value p :
  preserves blocks_bounded (placement_new_value (T := T) p).
Proof. unfold placement_new_value. bounded. Qed.

Lemma bounded_assign_move p q : preserves blocks_bounded (assign_move (T := T) p q).
Proof. unfold assign_move. pose proof bounded_update. bounded. Qed.

Lemma bounded_assign_copy p q : preserves blocks_bounded (assign_copy (T := T) p q).
Proof. unfold assign_copy. pose proof bounded_update. bounded. Qed.

Lemma bounded_destroy_n p n : preserves blocks_bounded (destroy_n (T := T) p n).
Proof.
  unfold destroy_n. generalize (N.to_nat n). intros k. revert p.
  induction k as [|k IH]; intros p; simpl; pose proof bounded_destroy_at; bounded.
Qed.

Lemma bounded_uninitialized_loop (build : N → ptr → M T unit) d_first k (c : nat) :
  (∀ i p, preserves blocks_bounded (build i p)) →
  preserves blocks_bounded (uninitialized_loop (T := T) build d_first k c).
Proof.
  intros Hb. revert k. induction c as [|c IH]; intros k; simpl;
    pose proof bounded_destroy_n; bounded.
Qed.

Lemma bounded_uninitialized_move_n p n q :
  preserves blocks_bounded (uninitialized_move_n (T := T) p n q).
Proof.
  apply bounded_uninitialized_loop. intros. apply bounded_placement_new.
Qed.

Lemma bounded_uninitialized_copy_n p n q :
  preserves blocks_bounded (uninitialized_copy_n (T := T) p n q).
Proof.
  apply bounded_uninitialized_loop. intros. apply bounded_placement_new.
Qed.

Lemma bounded_uninitialized_value_construct_n p n :
  preserves blocks_bounded (uninitialized_value_construct_n (T := T) p n).
Proof.
  apply bounded_uninitialized_loop. intros. apply bounded_placement_new_value.
Qed.

Lemma bounded_std_move p q r : preserves blocks_bounded (std_move (T := T) p q r).
Proof.
  unfold std_move. apply preserves_bind; [bounded|]. intros c.
  generalize (N.to_nat c). intros k. revert p r.
  induction k as [|k IH]; intros p r; simpl; pose proof bounded_assign_move; bounded.
Qed.

Lemma bounded_move_backward p q r :
  preserves blocks_bounded (move_backward (T := T) p q r).
Proof.
  unfold move_backward. apply preserves_bind; [bounded|]. intros c.
  generalize (N.to_nat c). intros k. revert q r.
  induction k as [|k IH]; intros q r; simpl; pose proof bounded_assign_move; bounded.
Qed.

Lemma bounded_ctor_capacity n :
  preserves blocks_bounded (RawMemory.ctor_capacity (T := T) n).
Proof. unfold RawMemory.ctor_capacity, RawMemory.Allocate. bounded. Qed.

Lemma bounded_RawMemory_dtor m : preserves blocks_bounded (RawMemory.dtor (T := T) m).
Proof. unfold RawMemory.dtor, RawMemory.Deallocate. bounded. Qed.

Lemma bounded_op_plus m n : preserves blocks_bounded (RawMemory.op_plus (T := T) m n).
Proof. unfold RawMemory.op_plus. bounded. Qed.

Lemma bounded_op_index m n : preserves blocks_bounded (RawMemory.op_index (T := T) m n).
Proof. unfold RawMemory.op_index. bounded. Qed.

Lemma bounded_assign_loop d s i (c : nat) :
  preserves blocks_bounded (Vector.assign_loop (T := T) d s i c).
Proof.
  revert i. induction c as [|c IH]; intros i; simpl;
    pose proof bounded_op_index; pose proof bounded_assign_copy; bounded.
Qed.
End BoundedMembers.

Ltac bounded_mem :=
  bounded_with ltac:(first
    [ apply bounded_update | apply bounded_destroy_at | apply bounded_make
    | apply bounded_placement_new | apply bounded_placement_new_value
    | apply bounded_assign_move | apply bounded_assign_copy
    | apply bounded_destroy_n
    | apply bounded_uninitialized_move_n | apply bounded_uninitialized_copy_n
    | apply bounded_uninitialized_value_construct_n
    | apply bounded_std_move | apply bounded_move_backward
    | apply bounded_ctor_capacity | apply bounded_RawMemory_dtor
    | apply bounded_op_plus | apply bounded_op_index
    | apply bounded_assign_loop ]).

Section BoundedCalls.
Context {T : Type} `{!Element T}.
Implicit Types (w : world T) (p q r : ptr) (this t other rhs : vid) (n : N).

Lemma bounded_Swap this other : preserves blocks_bounded (Vector.Swap (T := T) this other).
Proof.
  unfold Vector.Swap, Vector.set_data, Vector.set_size, RawMemory.Swap. bounded_mem.
Qed.

Lemma bounded_Reserve this n : preserves blocks_bounded (Vector.Reserve (T := T) this n).
Proof.
  unfold Vector.Reserve, Vector.set_data, RawMemory.Swap. bounded_mem.
Qed.

Lemma bounded_EmplaceBack this (a : args T) :
  preserves blocks_bounded (Vector.EmplaceBack this a).
Proof.
  unfold Vector.EmplaceBack, Vector.set_data, Vector.set_size, RawMemory.Swap.
  bounded_mem.
Qed.

Lemma bounded_Emplace this pos (a : args T) :
  preserves blocks_bounded (Vector.Emplace this pos a).
Proof.
  unfold Vector.Emplace, Vector.begin, Vector.end_, Vector.cbegin, Vector.cend,
    Vector.set_data, Vector.set_size, RawMemory.Swap.
  pose proof bounded_EmplaceBack. bounded_mem.
Qed.

Lemma bounded_Erase this pos : preserves blocks_bounded (Vector.Erase (T := T) this pos).
Proof.
  unfold Vector.Erase, Vector.begin, Vector.end_, Vector.cbegin, Vector.set_size.
  bounded_mem.
Qed.

Lemma bounded_PopBack this : preserves blocks_bounded (Vector.PopBack (T := T) this).
Proof. unfold Vector.PopBack, Vector.set_size. bounded_mem. Qed.

Lemma bounded_Resize this n : preserves blocks_bounded (Vector.Resize (T := T) this n).
Proof.
  unfold Vector.Resize, Vector.DestroyN, Vector.set_size.
  pose proof bounded_Reserve. bounded_mem.
Qed.

Lemma bounded_ctor_default : preserves blocks_bounded (Vector.ctor_default (T := T)).
Proof. unfold Vector.ctor_default. bounded. Qed.

Lemma bounded_ctor_size n : preserves blocks_bounded (Vector.ctor_size (T := T) n).
Proof. unfold Vector.ctor_size. bounded_mem. Qed.

Lemma bounded_ctor_copy other : preserves blocks_bounded (Vector.ctor_copy (T := T) other).
Proof. unfold Vector.ctor_copy. bounded_mem. Qed.

Lemma bounded_ctor_move other : preserves blocks_bounded (Vector.ctor_move (T := T) other).
Proof. unfold Vector.ctor_move. pose proof bounded_Swap. bounded. Qed.

Lemma bounded_dtor this : preserves blocks_bounded (Vector.dtor (T := T) this).
Proof. unfold Vector.dtor. bounded_mem. Qed.

Lemma bounded_op_assign_copy this rhs :
  preserves blocks_bounded (Vector.op_assign_copy (T := T) this rhs).
Proof.
  unfold Vector.op_assign_copy, Vector.set_size.
  pose proof bounded_ctor_copy. pose proof bounded_Swap. pose proof bounded_dtor.
  bounded_mem.
Qed.

Lemma bounded_op_assign_move this rhs :
  preserves blocks_bounded (Vector.op_assign_move (T := T) this rhs).
Proof.
  unfold Vector.op_assign_move, Vector.set_data, Vector.set_size, RawMemory.Swap.
  pose proof bounded_Swap. bounded_mem.
Qed.

Lemma bounded_perform (c : call T) : preserves blocks_bounded (perform c).
Proof.
  destruct c; unfold perform, Vector.PushBack, Vector.PushBack_rvalue,
    Vector.Insert, Vector.Insert_rvalue;
    pose proof bounded_ctor_default; pose proof bounded_ctor_size;
    pose proof bounded_ctor_copy; pose proof bounded_ctor_move;
    pose proof bounded_dtor; pose proof bounded_op_assign_copy;
    pose proof bounded_op_assign_move; pose proof bounded_Swap;
    pose proof bounded_Reserve; pose proof bounded_Resize;
    pose proof bounded_EmplaceBack; pose proof bounded_PopBack;
    pose proof bounded_Emplace; pose proof bounded_Erase; bounded.
Qed.
End BoundedCalls.

(** ** What a run that returned went through *)

Section Returned.
Context {T : Type} `{!Element T}.
Implicit Types (w : world T) (p q : ptr) (this t other rhs : vid) (n : N).

Lemma bind_Ok_inv {A B} (m : M T A) (k : A → M T B) w b w' :
  (m ≫= k) w = Ok b w' → ∃ a w1, m w = Ok a w1 ∧ k a w1 = Ok b w'.
Proof. rewrite run_bind. destruct (m w) as [a w1| |]; [eauto|done..]. Qed.

Lemma get_inv t w v w1 : Vector.get t w = Ok v w1 → w1 = w ∧ objs w !! t = Some v.
Proof. unfold Vector.get. destruct (objs w !! t); [|done]. by intros [= <- <-]. Qed.

Lemma assert_inv b w u w1 : assert (T := T) b w = Ok u w1 → w1 = w ∧ b = true.
Proof. destruct b; [|done]. by intros [= <- <-]. Qed.

Lemma lift_option_inv {A} (x : option A) w a w1 :
  lift_option x w = Ok a w1 → w1 = w ∧ x = Some a.
Proof. destruct x; [|done]. by intros [= <- <-]. Qed.

Lemma op_plus_inv m n w p w1 :
  RawMemory.op_plus m n w = Ok p w1 → w1 = w ∧ p = buffer_ m +ₚ n.
Proof.
  unfold RawMemory.op_plus. intros (u & w2 & Ha & Hr)%bind_Ok_inv.
  apply assert_inv in Ha as [-> _]. by injection Hr as <- <-.
Qed.

Lemma op_index_inv m n w p w1 :
  RawMemory.op_index m n w = Ok p w1 → w1 = w ∧ p = buffer_ m +ₚ n.
Proof.
  unfold RawMemory.op_index. intros (u & w2 & Ha & Hr)%bind_Ok_inv.
  apply assert_inv in Ha as [-> _]. by injection Hr as <- <-.
Qed.

Lemma begin_inv t w b w1 :
  Vector.begin t w = Ok b w1 →
  w1 = w ∧ ∃ v, objs w !! t = Some v ∧ b = buffer_ (data_ v) +ₚ 0.
Proof.
  unfold Vector.begin. intros (v & w2 & Hg & Hp)%bind_Ok_inv.
  apply get_inv in Hg as [-> Hv]. apply op_plus_inv in Hp as [-> ->]. eauto.
Qed.

Lemma end_inv t w e w1 :
  Vector.end_ t w = Ok e w1 →
  w1 = w ∧ ∃ v, objs w !! t = Some v ∧ e = buffer_ (data_ v) +ₚ size_ v.
Proof.
  unfold Vector.end_. intros (v & w2 & Hg & Hp)%bind_Ok_inv.
  apply get_inv in Hg as [-> Hv]. apply op_plus_inv in Hp as [-> ->]. eauto.
Qed.

Lemma distance_inv p q w n w1 :
  distance p q w = Ok n w1 →
  w1 = w ∧ base p = base q ∧ off p ≤ off q ∧ n = off q - off p.
Proof.
  unfold distance.
  destruct (bool_decide (base p = base q) && (off p <=? off q)) eqn:Hb; [|done].
  apply andb_true_iff in Hb as [Hbase%bool_decide_eq_true Hle%N.leb_le].
  by intros [= <- <-].
Qed.

Lemma ptr_sub_inv p n w q w1 : ptr_sub p n w = Ok q w1 → w1 = w ∧ n ≤ off p.
Proof.
  unfold ptr_sub. destruct (n <=? off p) eqn:Hb; [|done].
  apply N.leb_le in Hb. by intros [= <- <-].
Qed.

(** a handler that rethrows: the block returned *)
Lemma try_catch_Ok_inv {A} (m : M T A) h w x w' :
  (∀ e w1, is_ok (h e w1) = false) →
  try_catch m h w = Ok x w' → m w = Ok x w'.
Proof.
  intros Hh. unfold try_catch. destruct (m w) as [| e w1 |]; try done.
  intros Hrun. specialize (Hh e w1). by rewrite Hrun in Hh.
Qed.

Lemma bind_not_ok {A B} (m : M T A) (k : A → M T B) w :
  (∀ a w1, is_ok (k a w1) = false) → is_ok ((m ≫= k) w) = false.
Proof. intros Hk. rewrite run_bind. destruct (m w); [apply Hk|done..]. Qed.

Lemma preserves_Ok {A} (P : world T → Prop) (m : M T A) w a w' :
  preserves P m → P w → m w = Ok a w' → P w'.
Proof. intros Hm Hw Hrun. specialize (Hm w Hw). by rewrite Hrun in Hm. Qed.

(** *** Storage that a run wrote to *)

Lemma slot_at_bounded w p (s : option T) :
  blocks_bounded w → slot_at w p = Some s → off p + 1 ≤ max_size.
Proof.
  intros Hw. unfold slot_at. destruct (base p) as [a|]; [|done]. simpl.
  destruct (heap w !! a) as [blk|] eqn:Ha; [|done]. simpl.
  intros Hs%lookup_lt_Some. specialize (Hw a blk Ha). lia.
Qed.

Lemma placement_new_fits p (x : args T) w u w' :
  blocks_bounded w → placement_new p x w = Ok u w' → off p + 1 ≤ max_size.
Proof.
  intros Hw Hrun. destruct (slot_at w p) as [s|] eqn:Hs.
  - by apply (slot_at_bounded w p s).
  - apply (placement_new_no_storage p x) in Hs. by rewrite Hrun in Hs.
Qed.

(** a construction loop that returned stayed within a block *)
Lemma uninitialized_loop_fits (build : N → ptr → M T unit) d_first k (c : nat) w u w' :
  (∀ i p, keeps_blocks (build i p)) →
  (∀ i p w, slot_at w p = None → is_ok (build i p w) = false) →
  blocks_bounded w → c ≠ 0%nat →
  uninitialized_loop build d_first k c w = Ok u w' →
  off d_first + k + N.of_nat c ≤ max_size.
Proof.
  intros Hkeeps Hcheck Hw Hc Hrun.
  destruct c as [|c]; [done|]. pose proof Hrun as Hfirst. simpl in Hfirst.
  apply bind_Ok_inv in Hfirst as ([] & w1 & Hstep%unwinding_Ok_inv & _).
  destruct (slot_at w (d_first +ₚ k)) as [s|] eqn:Hs.
  2:{ apply (Hcheck k) in Hs. by rewrite Hstep in Hs. }
  unfold slot_at in Hs. simpl in Hs.
  destruct (base d_first) as [b|] eqn:Hb; [|done]. simpl in Hs.
  destruct (heap w !! b) as [blk|] eqn:Hblk; [|done]. simpl in Hs.
  apply lookup_lt_Some in Hs.
  destruct (decide (length blk < N.to_nat (off d_first + k) + S c)%nat) as [Hlt|Hge].
  - pose proof (uninitialized_loop_overruns build d_first b Hkeeps Hcheck Hb
      (S c) k w blk Hblk Hlt) as Hno.
    rewrite Hrun in Hno. simpl in Hno. discriminate Hno. lia.
  - specialize (Hw b blk Hblk). lia.
Qed.

Lemma uninitialized_value_construct_n_fits p n w u w' :
  blocks_bounded w → n ≠ 0 →
  uninitialized_value_construct_n (T := T) p n w = Ok u w' → off p + n ≤ max_size.
Proof.
  intros Hw Hn Hrun.
  apply uninitialized_loop_fits in Hrun; [lia| | |done|lia].
  - intros. apply keeps_blocks_placement_new_value.
  - intros. by apply placement_new_value_no_storage.
Qed.

Lemma uninitialized_move_n_fits p n q w u w' :
  blocks_bounded w → n ≠ 0 →
  uninitialized_move_n (T := T) p n q w = Ok u w' → off q + n ≤ max_size.
Proof.
  intros Hw Hn Hrun.
  apply uninitialized_loop_fits in Hrun; [lia| | |done|lia].
  - intros. apply keeps_blocks_placement_new.
  - intros. by apply placement_new_no_storage.
Qed.

Lemma uninitialized_copy_n_fits p n q w u w' :
  blocks_bounded w → n ≠ 0 →
  uninitialized_copy_n (T := T) p n q w = Ok u w' → off q + n ≤ max_size.
Proof.
  intros Hw Hn Hrun.
  apply uninitialized_loop_fits in Hrun; [lia| | |done|lia].
  - intros. apply keeps_blocks_placement_new.
  - intros. by apply placement_new_no_storage.
Qed.
End Returned.

(** ** The sizes a call that returned leaves *)

Section Sizes.
Context {T : Type} `{!Element T}.
Implicit Types (w : world T) (p q : ptr) (this t other rhs : vid) (n : N).

Lemma ctor_capacity_bounded w n d w1 :
  blocks_bounded w → RawMemory.ctor_capacity n w = Ok d w1 → blocks_bounded w1.
Proof.
  intros Hw Hrun.
  by apply (preserves_Ok blocks_bounded _ w d w1 (bounded_ctor_capacity n)).
Qed.

Lemma ctor_size_fits w n t w' :
  blocks_bounded w → Vector.ctor_size n w = Ok t w' → n ≤ max_size.
Proof.
  intros Hw. unfold Vector.ctor_size.
  intros (data & w1 & Hctor & Hrun)%bind_Ok_inv.
  apply bind_Ok_inv in Hrun as ([] & w2 & Hloop%unwinding_Ok_inv & _).
  destruct (decide (n = 0)) as [->|Hn]; [lia|].
  apply uninitialized_value_construct_n_fits in Hloop; [lia| |done].
  by apply (ctor_capacity_bounded w n data).
Qed.

Lemma EmplaceBack_fits w t (a : args T) p w' v :
  blocks_bounded w → Vector.EmplaceBack t a w = Ok p w' → objs w !! t = Some v →
  size_ v + 1 ≤ max_size.
Proof.
  intros Hw Hrun Hv. unfold Vector.EmplaceBack in Hrun.
  apply bind_Ok_inv in Hrun as (v1 & w1 & [-> Hv1]%get_inv & Hrun).
  rewrite Hv in Hv1. injection Hv1 as <-.
  apply bind_Ok_inv in Hrun as ([] & w1 & Hblock & _).
  destruct (size_ v =? RawMemory.Capacity (data_ v)).
  - apply bind_Ok_inv in Hblock as (nd & w2 & Hctor & Hblock).
    apply ctor_capacity_bounded in Hctor; [|done].
    apply bind_Ok_inv in Hblock as ([] & w3 & Hbuild%unwinding_Ok_inv & _).
    destruct Vector.moves_elements.
    + apply bind_Ok_inv in Hbuild as (q & w4 & [-> ->]%op_plus_inv & Hbuild).
      apply bind_Ok_inv in Hbuild as ([] & w4 & Hnew & _).
      apply placement_new_fits in Hnew; [|done]. simpl in Hnew. lia.
    + apply bind_Ok_inv in Hbuild as ([] & w4 & Htry & _).
      apply try_catch_Ok_inv in Htry; [|done].
      apply bind_Ok_inv in Htry as (q & w5 & [-> ->]%op_plus_inv & Hnew).
      apply placement_new_fits in Hnew; [|done]. simpl in Hnew. lia.
  - apply bind_Ok_inv in Hblock as (q & w2 & [-> ->]%op_plus_inv & Hnew).
    apply placement_new_fits in Hnew; [|done]. simpl in Hnew. lia.
Qed.

Lemma Emplace_fits w t pos (a : args T) it w' v :
  blocks_bounded w → Vector.Emplace t pos a w = Ok it w' → objs w !! t = Some v →
  size_ v ≤ max_size → size_ v + 1 ≤ max_size.
Proof.
  intros Hw Hrun Hv Hsize. unfold Vector.Emplace in Hrun.
  apply bind_Ok_inv in Hrun as (b & w1 & [-> (v1 & Hv1 & ->)]%begin_inv & Hrun).
  apply bind_Ok_inv in Hrun as (e & w1 & [-> (v2 & Hv2 & ->)]%end_inv & Hrun).
  rewrite Hv in Hv1, Hv2. injection Hv1 as <-. injection Hv2 as <-.
  apply bind_Ok_inv in Hrun as (ge & w1 & [-> Hge]%lift_option_inv & Hrun).
  apply bind_Ok_inv in Hrun as (le & w1 & [-> Hle]%lift_option_inv & Hrun).
  apply bind_Ok_inv in Hrun as (u & w1 & [-> Hboth]%assert_inv & Hrun).
  apply bind_Ok_inv in Hrun as (ce & w1 & [-> (v3 & Hv3 & ->)]%end_inv & Hrun).
  rewrite Hv in Hv3. injection Hv3 as <-.
  destruct (ptr_eqb pos (buffer_ (data_ v) +ₚ size_ v)) eqn:Heq.
  { apply bind_Ok_inv in Hrun as (q & w1 & Hback & _).
    by apply (EmplaceBack_fits w t a q w1 v). }
  apply bind_Ok_inv in Hrun as (cb & w1 & [-> (v4 & Hv4 & ->)]%begin_inv & Hrun).
  rewrite Hv in Hv4. injection Hv4 as <-.
  apply bind_Ok_inv in Hrun
    as (num_pos & w1 & [-> (Hbase & Hoff & ->)]%distance_inv & Hrun).
  apply bind_Ok_inv in Hrun as (v5 & w1 & [-> Hv5]%get_inv & Hrun).
  rewrite Hv in Hv5. injection Hv5 as <-.
  apply bind_Ok_inv in Hrun as ([] & w1 & Hblock & _).
  assert (off pos < off (buffer_ (data_ v)) + size_ v) as Hpos.
  { apply andb_true_iff in Hboth as [_ ->].
    unfold ptr_leb in Hle. case_bool_decide as Hsame; [|done].
    injection Hle as Hle. apply N.leb_le in Hle. simpl in Hle.
    unfold ptr_eqb in Heq. rewrite bool_decide_true in Heq by done.
    simpl in Heq. apply N.eqb_neq in Heq. lia. }
  simpl in Hoff.
  change (off (buffer_ (data_ v) +ₚ 0)) with (off (buffer_ (data_ v)) + 0) in Hblock.
  pose proof max_size_modulus as Hmod.
  destruct (size_ v =? RawMemory.Capacity (data_ v)).
  - apply bind_Ok_inv in Hblock as (nd & w2 & Hctor & Hblock).
    apply ctor_capacity_bounded in Hctor; [|done].
    apply bind_Ok_inv in Hblock as ([] & w3 & Hbuild%unwinding_Ok_inv & _).
    destruct Vector.moves_elements.
    + apply bind_Ok_inv in Hbuild as (q & w4 & [-> ->]%op_plus_inv & Hbuild).
      apply bind_Ok_inv in Hbuild as ([] & w4 & Hnew & Hbuild).
      apply (preserves_Ok blocks_bounded) in Hnew;
        [|apply bounded_placement_new|done].
      apply bind_Ok_inv in Hbuild as (src & w5 & [-> ->]%op_plus_inv & Hbuild).
      apply bind_Ok_inv in Hbuild as (dst & w5 & [-> ->]%op_plus_inv & Hbuild).
      apply bind_Ok_inv in Hbuild as ([] & w5 & Hfront & Hbuild).
      apply (preserves_Ok blocks_bounded) in Hfront;
        [|apply bounded_uninitialized_move_n|done].
      apply bind_Ok_inv in Hbuild as (src' & w6 & [-> ->]%op_plus_inv & Hbuild).
      apply bind_Ok_inv in Hbuild as (dst' & w6 & [-> ->]%op_plus_inv & Hback).
      rewrite size_t_sub_small in Hback by lia.
      apply uninitialized_move_n_fits in Hback; [|done|lia]. simpl in Hback. lia.
    + apply bind_Ok_inv in Hbuild as ([] & w4 & Hnew & Hbuild).
      apply (preserves_Ok blocks_bounded) in Hnew; [|bounded_mem|done].
      apply bind_Ok_inv in Hbuild as ([] & w5 & Hfront & Hback).
      apply (preserves_Ok blocks_bounded) in Hfront; [|bounded_mem|done].
      apply try_catch_Ok_inv in Hback.
      2:{ intros e w6. apply bind_not_ok. intros ? ?. by apply bind_not_ok. }
      rewrite size_t_sub_small in Hback by lia.
      apply uninitialized_copy_n_fits in Hback; [|done|lia]. simpl in Hback. lia.
  - destruct (size_ v =? 0) eqn:Hempty; simpl in Hblock.
    { apply N.eqb_eq in Hempty. pose proof (max_size_pos (T := T)). lia. }
    apply bind_Ok_inv in Hblock as (e & w2 & [-> (v6 & Hv6 & ->)]%end_inv & Hblock).
    rewrite Hv in Hv6. injection Hv6 as <-.
    apply bind_Ok_inv in Hblock as (last & w2 & [-> ->]%op_index_inv & Hblock).
    apply bind_Ok_inv in Hblock as ([] & w2 & Hnew & _).
    apply placement_new_fits in Hnew; [|done]. simpl in Hnew. lia.
Qed.

Lemma Resize_fits w t n u w' v :
  blocks_bounded w → Vector.Resize t n w = Ok u w' → objs w !! t = Some v →
  size_ v < n → n < size_t_modulus → n ≤ max_size.
Proof.
  intros Hw Hrun Hv Hlt Hn. unfold Vector.Resize in Hrun.
  apply bind_Ok_inv in Hrun as (v1 & w1 & [-> Hv1]%get_inv & Hrun).
  rewrite Hv in Hv1. injection Hv1 as <-.
  apply bind_Ok_inv in Hrun as ([] & w1 & Hblock & _).
  destruct (n <? size_ v) eqn:H1; [apply N.ltb_lt in H1; lia|].
  destruct (size_ v <? n) eqn:H2; [|apply N.ltb_ge in H2; lia].
  apply bind_Ok_inv in Hblock as ([] & w2 & Hres & Hblock).
  apply bind_Ok_inv in Hblock as (v1 & w3 & [-> Hv1]%get_inv & Hblock).
  apply bind_Ok_inv in Hblock as (p & w3 & [-> ->]%op_plus_inv & Hloop).
  pose proof (Reserve_objs w t n) as Hobjs. rewrite Hres in Hobjs. simpl in Hobjs.
  destruct Hobjs as (v' & Hv' & d & Ho & _).
  rewrite Hv in Hv'. injection Hv' as <-.
  rewrite Ho, lookup_insert_eq in Hv1. injection Hv1 as <-. simpl in Hloop.
  apply (preserves_Ok blocks_bounded) in Hres; [|apply bounded_Reserve|done].
  rewrite size_t_sub_small in Hloop by lia.
  apply uninitialized_value_construct_n_fits in Hloop; [|done|lia].
  simpl in Hloop. lia.
Qed.
End Sizes.

(** ** [0 <= size <= capacity] across the public calls *)

Section Sound.
Context {T : Type} `{!Element T}.
Implicit Types (w : world T) (p q : ptr) (this t other rhs : vid) (n : N)
  (c : call T).

Lemma sound_objects_empty : sound_objects (T := T) ∅.
Proof. intros t v. by rewrite lookup_empty. Qed.

Lemma sound_objects_insert (o : gmap vid Vector) t v :
  sound_objects o → sound_vector v → sound_objects (<[t := v]> o).
Proof.
  intros Ho Hv t' v'. destruct (decide (t = t')) as [->|Hne].
  - rewrite lookup_insert_eq. by intros [= <-].
  - rewrite lookup_insert_ne by done. apply Ho.
Qed.

Lemma sound_objects_delete (o : gmap vid Vector) t : sound_objects o → sound_objects (delete t o).
Proof.
  intros Ho t' v'. destruct (decide (t = t')) as [->|Hne].
  - by rewrite lookup_delete_eq.
  - rewrite lookup_delete_ne by done. apply Ho.
Qed.

Lemma sound_vector_default :
  sound_vector (T := T) {| data_ := RawMemory.ctor_default; size_ := 0 |}.
Proof. unfold sound_vector, sound_buffer. simpl. lia. Qed.

Lemma sound_vector_bound v : sound_vector v → size_ v + 1 < size_t_modulus.
Proof.
  intros (_ & Hs & _). pose proof (max_size_modulus (T := T)).
  assert (1 < size_t_modulus) by done. lia.
Qed.

Lemma sound_store_empty room : sound_store (empty_world (T := T) room).
Proof.
  split; [apply sound_objects_empty|]. intros a blk. simpl.
  by rewrite lookup_empty.
Qed.

(** a vector that adopted a capacity its new size fits in *)
Lemma adopts_sound w t s cap w' :
  sound_objects (objs w) → adopts w t s cap w' → s ≤ cap → s ≤ max_size →
  sound_objects (objs w').
Proof.
  intros Hw (d & Ho & Hd & Hfrom) Hs Hm. rewrite Ho.
  apply sound_objects_insert; [done|]. split; [simpl; lia|]. split; [done|].
  destruct Hfrom as [?|(v & Hv & ->)]; [done|]. by apply (Hw t v).
Qed.

Lemma appended_fits v : sound_vector v → wrap (size_ v + 1) ≤ appended v.
Proof.
  intros Hv. pose proof (sound_vector_bound v Hv) as Hb.
  destruct Hv as (Hs & Hm & _).
  rewrite wrap_small by done. rewrite appended_grown by lia. unfold grown.
  destruct (size_ v =? capacity_ (data_ v)) eqn:Hfull.
  - apply N.eqb_eq in Hfull. lia.
  - apply N.eqb_neq in Hfull. lia.
Qed.

(** [Erase] returns on a vector with an element only *)
Lemma Erase_nonempty w t pos it w' v :
  Vector.Erase t pos w = Ok it w' → objs w !! t = Some v → 1 ≤ size_ v.
Proof.
  unfold Vector.Erase. intros Hrun Hv.
  apply bind_Ok_inv in Hrun as (b & w1 & [-> _]%begin_inv & Hrun).
  apply bind_Ok_inv in Hrun as (e & w1 & [-> _]%end_inv & Hrun).
  apply bind_Ok_inv in Hrun as (ge & w1 & [-> _]%lift_option_inv & Hrun).
  apply bind_Ok_inv in Hrun as (le & w1 & [-> _]%lift_option_inv & Hrun).
  apply bind_Ok_inv in Hrun as (u & w1 & [-> _]%assert_inv & Hrun).
  apply bind_Ok_inv in Hrun as (cb & w1 & [-> _]%begin_inv & Hrun).
  apply bind_Ok_inv in Hrun as (num_pos & w1 & [-> _]%distance_inv & Hrun).
  apply bind_Ok_inv in Hrun as (b1 & w1 & [-> (v1 & Hv1 & ->)]%begin_inv & Hrun).
  apply bind_Ok_inv in Hrun as (e1 & w1 & [-> (v2 & Hv2 & ->)]%end_inv & Hrun).
  apply bind_Ok_inv in Hrun as (b2 & w1 & [-> _]%begin_inv & Hrun).
  apply bind_Ok_inv in Hrun as (u' & w1 & Hmove & _).
  unfold std_move in Hmove.
  apply bind_Ok_inv in Hmove as (k & w2 & (_ & _ & Hle & _)%distance_inv & _).
  rewrite Hv in Hv1, Hv2. injection Hv1 as <-. injection Hv2 as <-.
  simpl in Hle. lia.
Qed.

(** [PopBack] returns only when there is a slot in front of [end()] *)
Lemma PopBack_nonempty w t u w' v :
  Vector.PopBack t w = Ok u w' → objs w !! t = Some v →
  1 ≤ off (buffer_ (data_ v)) + size_ v.
Proof.
  unfold Vector.PopBack. intros Hrun Hv.
  apply bind_Ok_inv in Hrun as (v1 & w1 & [-> Hv1]%get_inv & Hrun).
  apply bind_Ok_inv in Hrun as (p & w1 & [-> ->]%op_plus_inv & Hrun).
  apply bind_Ok_inv in Hrun as (last & w1 & [-> Hle]%ptr_sub_inv & _).
  rewrite Hv in Hv1. injection Hv1 as <-. simpl in Hle. lia.
Qed.

(** *** The calls one by one *)

Lemma outcome_alloc_object {B} v (k : vid → M T B) w (o : gmap vid Vector) ok
    (thrown : world T → Prop) :
  objs w = o →
  (∀ t w1, o !! t = None → objs w1 = <[t := v]> o → outcome (k t w1) ok thrown) →
  outcome ((Vector.alloc_object v ≫= k) w) ok thrown.
Proof.
  intros <- Hk. rewrite run_bind. unfold Vector.alloc_object.
  apply Hk; [|done]. apply not_elem_of_dom, is_fresh.
Qed.

Lemma sound_keeps w (o : gmap vid Vector) :
  objs w = o → sound_objects o → ∀ w', objs w' = o → sound_objects (objs w').
Proof. by intros _ Ho w' ->. Qed.

Lemma sound_ctor_default w :
  sound_objects (objs w) → objects_stay_sound ((Vector.ctor_default ;; mret tt) w).
Proof.
  intros Hw. unfold Vector.ctor_default.
  eapply outcome_alloc_object; [done|]. intros t w1 _ Ho1. simpl. rewrite Ho1.
  apply sound_objects_insert; [done|apply sound_vector_default].
Qed.

(** the constructor from a size: a new object with that size as size and as
    capacity *)
Lemma ctor_size_objs w n :
  outcome (Vector.ctor_size n w)
    (λ t w', ∃ d, objs w !! t = None ∧ capacity_ d = n ∧ sound_buffer d ∧
       objs w' = <[t := {| data_ := d; size_ := n |}]> (objs w))
    (λ w', objs w' = objs w).
Proof.
  unfold Vector.ctor_size.
  assert (objs w = objs w) as Ho by done.
  keep_step. intros data w1 [Hcap Hdata]%ctor_capacity_result Ho1.
  keep_step. intros [] w2 _ Ho2.
  unfold Vector.alloc_object. simpl. rewrite Ho2.
  exists data. split; [|done]. apply not_elem_of_dom, is_fresh.
Qed.

Lemma sound_ctor_size w n :
  sound_store w → objects_stay_sound ((Vector.ctor_size n ;; mret tt) w).
Proof.
  intros [Hw Hb]. pose proof (ctor_size_objs w n) as Hout.
  unfold objects_stay_sound. rewrite run_bind.
  destruct (Vector.ctor_size n w) as [t w'|e w'|] eqn:Hrun; simpl in *; [| |done].
  - destruct Hout as (d & _ & Hcap & Hd & ->).
    apply ctor_size_fits in Hrun; [|done].
    apply sound_objects_insert; [done|]. split; [simpl; lia|]. by split.
  - by rewrite Hout.
Qed.

(** the copy constructor: a new object with the size of [other] as size
    and as capacity *)
Lemma ctor_copy_objs w other :
  outcome (Vector.ctor_copy other w)
    (λ t w', ∃ o d, objs w !! other = Some o ∧ objs w !! t = None ∧
       capacity_ d = size_ o ∧ sound_buffer d ∧
       objs w' = <[t := {| data_ := d; size_ := size_ o |}]> (objs w))
    (λ w', objs w' = objs w).
Proof.
  unfold Vector.ctor_copy. apply outcome_get. intros o Hother.
  assert (objs w = objs w) as Ho by done.
  keep_step. intros data w1 [Hcap Hdata]%ctor_capacity_result Ho1.
  keep_step. intros [] w2 _ Ho2.
  unfold Vector.alloc_object. simpl. rewrite Ho2.
  exists o, data. split; [done|]. split; [|done].
  apply not_elem_of_dom, is_fresh.
Qed.

Lemma sound_ctor_copy w other :
  sound_objects (objs w) → objects_stay_sound ((Vector.ctor_copy other ;; mret tt) w).
Proof.
  intros Hw. eapply outcome_bind.
  { eapply outcome_weaken; [apply ctor_copy_objs|done|]. simpl. by intros w' ->. }
  simpl. intros t w1 (o & d & Ho & _ & Hcap & Hd & ->).
  destruct (Hw other o Ho) as (_ & Hm & _).
  apply sound_objects_insert; [done|]. split; [simpl; lia|]. by split.
Qed.

(** [Swap] exchanges the two objects, also when they are one *)
Lemma Swap_objs w t other :
  outcome (Vector.Swap t other w)
    (λ _ w', ∃ v o, objs w !! t = Some v ∧ objs w !! other = Some o ∧
       objs w' = <[other := v]> (<[t := o]> (objs w)))
    (λ _, False).
Proof.
  destruct (decide (t = other)) as [<-|Hne].
  - unfold Vector.Swap. apply outcome_get. intros v Hv.
    apply outcome_get. intros ? Hv'. rewrite Hv in Hv'. injection Hv' as <-.
    unfold RawMemory.Swap. cbv beta iota.
    eapply outcome_set_data; [done|exact Hv|]. intros w1 Ho1.
    eapply outcome_set_data; [exact Ho1|by rewrite lookup_insert_eq|].
    simpl. intros w2 Ho2. rewrite insert_insert_eq in Ho2.
    apply outcome_get. rewrite Ho2, lookup_insert_eq. intros ? [= <-].
    apply outcome_get. rewrite Ho2, lookup_insert_eq. intros ? [= <-].
    eapply outcome_set_size; [exact Ho2|by rewrite lookup_insert_eq|].
    simpl. intros w3 Ho3. rewrite insert_insert_eq in Ho3.
    eapply outcome_set_size_last; [exact Ho3|by rewrite lookup_insert_eq|].
    simpl. intros w4 Ho4. rewrite insert_insert_eq in Ho4.
    exists v, v. split; [done|]. split; [done|].
    by rewrite Ho4, insert_insert_eq, RawMemory_eta, Vector_eta.
  - destruct (objs w !! t) as [v|] eqn:Hv.
    + destruct (objs w !! other) as [o|] eqn:Hother.
      * rewrite (run_Swap _ _ _ _ _ Hne Hv Hother). simpl. by exists v, o.
      * unfold Vector.Swap. apply outcome_get. intros ? _.
        apply outcome_get. intros ? Hx. by rewrite Hother in Hx.
    + unfold Vector.Swap. apply outcome_get. intros ? Hx. by rewrite Hv in Hx.
Qed.

Lemma sound_objects_swap (o : gmap vid Vector) t other v v' :
  sound_objects o → o !! t = Some v → o !! other = Some v' →
  sound_objects (<[other := v]> (<[t := v']> o)).
Proof.
  intros Ho Hv Hv'.
  apply sound_objects_insert; [apply sound_objects_insert; [done|]|].
  - by apply (Ho other).
  - by apply (Ho t).
Qed.

Lemma sound_Swap w t other :
  sound_objects (objs w) → objects_stay_sound (Vector.Swap t other w).
Proof.
  intros Hw. eapply outcome_weaken; [apply Swap_objs| |done].
  simpl. intros _ w' (v & o & Hv & Ho & ->). by apply sound_objects_swap.
Qed.

Lemma sound_ctor_move w other :
  sound_objects (objs w) → objects_stay_sound ((Vector.ctor_move other ;; mret tt) w).
Proof.
  intros Hw. unfold Vector.ctor_move. rewrite ?run_bind_assoc.
  eapply outcome_alloc_object; [done|]. intros t w1 Hfresh Ho1.
  rewrite ?run_bind_assoc. eapply outcome_bind.
  { eapply outcome_weaken; [apply sound_Swap|done..].
    rewrite Ho1. apply sound_objects_insert; [done|apply sound_vector_default]. }
  by intros [] w2 Hw2.
Qed.

Lemma dtor_objs w t :
  outcome (Vector.dtor t w) (λ _ w', objs w' = delete t (objs w))
    (λ w', objs w' = objs w).
Proof.
  unfold Vector.dtor. apply outcome_get. intros v Hv.
  assert (objs w = objs w) as Ho by done.
  keep_step. intros p w1 _ Ho1.
  keep_step. intros [] w2 _ Ho2.
  keep_step. intros [] w3 _ Ho3.
  unfold Vector.free_object. simpl. by rewrite Ho3.
Qed.

Lemma sound_dtor w t :
  sound_objects (objs w) → objects_stay_sound (Vector.dtor t w).
Proof.
  intros Hw. eapply outcome_weaken; [apply dtor_objs|..]; simpl.
  - intros _ w' ->. by apply sound_objects_delete.
  - by intros w' ->.
Qed.

Lemma sound_op_assign_move w t rhs :
  sound_objects (objs w) → objects_stay_sound (Vector.op_assign_move t rhs w).
Proof.
  intros Hw. unfold Vector.op_assign_move.
  destruct (decide (t = rhs)) as [<-|Hne].
  { by rewrite bool_decide_true by done. }
  rewrite bool_decide_false by done. simpl.
  apply outcome_get. intros v Hv. apply outcome_get. intros r Hr.
  unfold RawMemory.Capacity.
  destruct (capacity_ (data_ v) <? size_ r) eqn:Hlt; [by apply sound_Swap|].
  apply N.ltb_ge in Hlt.
  destruct (Hw t v Hv) as (Hvs & Hvm & Hvb).
  destruct (Hw rhs r Hr) as (Hrs & Hrm & Hrb).
  unfold RawMemory.Swap. cbv beta iota.
  eapply outcome_set_data; [done|exact Hv|]. intros w1 Ho1.
  eapply outcome_set_data; [exact Ho1|by rewrite lookup_insert_ne|].
  simpl. intros w2 Ho2.
  apply outcome_get. rewrite Ho2, lookup_insert_eq. intros ? [= <-]. simpl.
  eapply outcome_set_size_last; [exact Ho2|..].
  { rewrite lookup_insert_ne by done. by rewrite lookup_insert_eq. }
  simpl. intros w3 Ho3. rewrite Ho3.
  rewrite (insert_insert_ne _ rhs t) by done. rewrite insert_insert_eq.
  rewrite !RawMemory_eta.
  apply sound_objects_insert; [apply sound_objects_insert; [done|]|]; by repeat split.
Qed.

Lemma sound_op_assign_copy w t rhs :
  sound_objects (objs w) → objects_stay_sound (Vector.op_assign_copy t rhs w).
Proof.
  intros Hw. unfold Vector.op_assign_copy.
  destruct (decide (t = rhs)) as [<-|Hne].
  { rewrite bool_decide_true by done. simpl.
    rewrite (run_bind_ok _ _ _ tt w) by done.
    apply outcome_get. intros r Hr.
    eapply outcome_set_size_last; [done|exact Hr|].
    intros w1 ->. by rewrite Vector_eta, insert_id. }
  rewrite bool_decide_false by done. simpl. rewrite ?run_bind_assoc.
  apply outcome_get. intros v Hv. rewrite ?run_bind_assoc.
  apply outcome_get. intros r Hr.
  destruct (Hw t v Hv) as (Hvs & Hvm & Hvb).
  destruct (Hw rhs r Hr) as (Hrs & Hrm & Hrb).
  assert (objs w = objs w) as Ho by done.
  pose proof (sound_keeps _ _ Ho Hw) as Ht.
  assert (∀ w1, objs w1 = objs w → size_ r ≤ capacity_ (data_ v) →
    objects_stay_sound ((r ← Vector.get rhs; Vector.set_size t (size_ r)) w1)) as Hsame.
  { intros w1 Ho1 Hfits. apply outcome_get. rewrite Ho1, Hr. intros ? [= <-].
    eapply outcome_set_size_last; [exact Ho1|exact Hv|].
    intros w2 ->. apply sound_objects_insert; [done|]. by repeat split. }
  unfold RawMemory.Capacity.
  destruct (capacity_ (data_ v) <? size_ r) eqn:Hlt.
  - rewrite ?run_bind_assoc. eapply outcome_bind.
    { eapply outcome_weaken; [apply ctor_copy_objs|done|]. simpl. by intros w' ->. }
    simpl. intros copy w1 (r' & d & Hr' & Hfresh & Hcap & Hd & Ho1).
    rewrite Hr in Hr'. injection Hr' as <-.
    assert (copy ≠ t) as Hct by (intros ->; congruence).
    assert (copy ≠ rhs) as Hcr by (intros ->; congruence).
    assert (sound_vector {| data_ := d; size_ := size_ r |}) as Hnew.
    { split; [simpl; lia|]. by split. }
    rewrite ?run_bind_assoc. eapply outcome_bind.
    { eapply outcome_weaken; [apply Swap_objs|done|]. simpl. done. }
    simpl. intros [] w2 (v' & c' & Hv' & Hc' & Ho2).
    rewrite Ho1 in Hv', Hc'. rewrite lookup_insert_ne in Hv' by done.
    rewrite lookup_insert_eq in Hc'. rewrite Hv in Hv'.
    injection Hv' as <-. injection Hc' as <-.
    rewrite ?run_bind_assoc. eapply outcome_bind.
    { eapply outcome_weaken; [apply dtor_objs|done|]. simpl. intros w' ->.
      rewrite Ho2, Ho1. apply sound_objects_swap with (v := v) (v' := {| data_ := d; size_ := size_ r |}).
      - by apply sound_objects_insert.
      - by rewrite lookup_insert_ne.
      - by rewrite lookup_insert_eq. }
    simpl. intros [] w3 Ho3.
    assert (objs w3 = <[t := {| data_ := d; size_ := size_ r |}]> (objs w)) as Ho3'.
    { rewrite Ho3, Ho2, Ho1. rewrite delete_insert_eq.
      rewrite (insert_insert_ne _ t copy) by done.
      rewrite delete_insert_eq, delete_insert_ne by done.
      by rewrite delete_id. }
    apply outcome_get. rewrite Ho3', lookup_insert_ne, Hr by done. intros ? [= <-].
    eapply outcome_set_size_last; [exact Ho3'|by rewrite lookup_insert_eq|].
    simpl. intros w4 ->. rewrite insert_insert_eq.
    by apply sound_objects_insert.
  - apply N.ltb_ge in Hlt. destruct (size_ r <? size_ v).
    + keep_block. intros [] w1 _ Ho1. by apply Hsame.
    + keep_block. intros [] w1 _ Ho1. by apply Hsame.
Qed.

(** a call with the effect [adopts], the new size within the capacity and
    within what a block can hold *)
Lemma sound_adopting {A} (r : res T A) w t (s s' F : Vector → N) :
  sound_objects (objs w) →
  outcome r
    (λ _ w', ∃ v, objs w !! t = Some v ∧ adopts w t (s v) (F v) w')
    (λ w', objs w' = objs w ∨
           ∃ v, objs w !! t = Some v ∧ adopts w t (s' v) (F v) w') →
  (∀ v, objs w !! t = Some v → sound_vector v → is_ok r = true →
        s v ≤ F v ∧ s v ≤ max_size) →
  (∀ v, objs w !! t = Some v → sound_vector v → s' v ≤ F v ∧ s' v ≤ max_size) →
  objects_stay_sound r.
Proof.
  intros Hw Hr Hfits Hfits'. unfold objects_stay_sound.
  destruct r as [a w'|e w'|]; simpl in *; [| |done].
  - destruct Hr as (v & Hv & Had).
    destruct (Hfits v Hv (Hw t v Hv) eq_refl). by eapply adopts_sound.
  - destruct Hr as [->|(v & Hv & Had)]; [done|].
    destruct (Hfits' v Hv (Hw t v Hv)). by eapply adopts_sound.
Qed.

Lemma sound_Reserve w t n :
  sound_objects (objs w) → objects_stay_sound (Vector.Reserve t n w).
Proof.
  intros Hw.
  apply (sound_adopting _ w t size_ size_ (λ v, N.max (capacity_ (data_ v)) n));
    [done|eapply or_thrown, Reserve_objs|..].
  - intros v _ (Hs & Hm & _) _. lia.
  - intros v _ (Hs & Hm & _). lia.
Qed.

Lemma sound_Resize w t n :
  sound_store w → n < size_t_modulus → objects_stay_sound (Vector.Resize t n w).
Proof.
  intros [Hw Hb] Hn.
  apply (sound_adopting _ w t (λ _, n) size_
           (λ v, if size_ v <? n then N.max (capacity_ (data_ v)) n
                 else capacity_ (data_ v))); [done|apply Resize_objs|..].
  - intros v Hv (Hs & Hm & _) Hok.
    destruct (Vector.Resize t n w) as [u w'| |] eqn:Hrun; [|done..].
    destruct (size_ v <? n) eqn:Hlt.
    + apply N.ltb_lt in Hlt. split; [lia|]. by eapply Resize_fits.
    + apply N.ltb_ge in Hlt. lia.
  - intros v _ (Hs & Hm & _). destruct (size_ v <? n); lia.
Qed.

Lemma sound_EmplaceBack w t a :
  sound_store w → objects_stay_sound (Vector.EmplaceBack t a w).
Proof.
  intros [Hw Hb].
  apply (sound_adopting _ w t (λ v, wrap (size_ v + 1)) size_ appended);
    [done|eapply or_thrown, EmplaceBack_objs|..].
  - intros v Hv Hsound Hok. split; [by apply appended_fits|].
    destruct (Vector.EmplaceBack t a w) as [p w'| |] eqn:Hrun; [|done..].
    rewrite wrap_small by by apply sound_vector_bound.
    by eapply EmplaceBack_fits.
  - intros v _ (Hs & Hm & _). split; [|done].
    pose proof (appended_ge v). lia.
Qed.

Lemma sound_Emplace w t pos a :
  sound_store w → objects_stay_sound (Vector.Emplace t pos a w).
Proof.
  intros [Hw Hb].
  apply (sound_adopting _ w t (λ v, wrap (size_ v + 1)) size_ appended);
    [done|eapply or_thrown, Emplace_objs|..].
  - intros v Hv Hsound Hok. split; [by apply appended_fits|].
    destruct (Vector.Emplace t pos a w) as [p w'| |] eqn:Hrun; [|done..].
    rewrite wrap_small by by apply sound_vector_bound.
    destruct Hsound as (_ & Hm & _). by eapply Emplace_fits.
  - intros v _ (Hs & Hm & _). split; [|done].
    pose proof (appended_ge v). lia.
Qed.

Lemma size_t_pred x : 1 ≤ x → x < size_t_modulus → size_t_sub x 1 = x - 1.
Proof. intros. by apply size_t_sub_small. Qed.

Lemma sound_Erase w t pos :
  sound_objects (objs w) → objects_stay_sound (Vector.Erase t pos w).
Proof.
  intros Hw.
  apply (sound_adopting _ w t (λ v, size_t_sub (size_ v) 1) size_
           (λ v, capacity_ (data_ v))); [done|eapply or_thrown, Erase_objs|..].
  - intros v Hv Hsound Hok.
    destruct (Vector.Erase t pos w) as [it w'| |] eqn:Hrun; [|done..].
    pose proof (Erase_nonempty _ _ _ _ _ _ Hrun Hv) as Hne.
    pose proof (sound_vector_bound v Hsound). destruct Hsound as (Hs & Hm & _).
    rewrite size_t_pred by lia. lia.
  - intros v _ (Hs & Hm & _). lia.
Qed.

Lemma sound_PopBack w t :
  sound_objects (objs w) → objects_stay_sound (Vector.PopBack t w).
Proof.
  intros Hw.
  apply (sound_adopting _ w t (λ v, size_t_sub (size_ v) 1) size_
           (λ v, capacity_ (data_ v))); [done|eapply or_thrown, PopBack_objs|..].
  - intros v Hv Hsound Hok.
    destruct (Vector.PopBack t w) as [u w'| |] eqn:Hrun; [|done..].
    pose proof (PopBack_nonempty _ _ _ _ _ Hrun Hv) as Hne.
    pose proof (sound_vector_bound v Hsound). destruct Hsound as (Hs & Hm & Hoff).
    rewrite Hoff in Hne. rewrite size_t_pred by lia. lia.
  - intros v _ (Hs & Hm & _). lia.
Qed.

Lemma sound_then_tt {A} (m : M T A) w :
  objects_stay_sound (m w) → objects_stay_sound ((m ;; mret tt) w).
Proof. intros Hm. eapply outcome_bind; [exact Hm|]. by intros a w1 Hok. Qed.

Lemma objects_sound_perform w c :
  sound_store w → size_args_fit c = true → objects_stay_sound (perform c w).
Proof.
  intros Hsound Hc. pose proof Hsound as [Hw Hb]. destruct c; unfold perform.
  - by apply sound_ctor_default.
  - by apply sound_ctor_size.
  - by apply sound_ctor_copy.
  - by apply sound_ctor_move.
  - by apply sound_dtor.
  - by apply sound_op_assign_copy.
  - by apply sound_op_assign_move.
  - by apply sound_Swap.
  - by apply sound_Reserve.
  - apply sound_Resize; [done|]. by apply N.ltb_lt.
  - by apply sound_then_tt, sound_EmplaceBack.
  - by apply sound_then_tt, sound_EmplaceBack.
  - by apply sound_PopBack.
  - by apply sound_then_tt, sound_EmplaceBack.
  - by apply sound_then_tt, sound_Emplace.
  - by apply sound_then_tt, sound_Emplace.
  - by apply sound_then_tt, sound_Emplace.
  - by apply sound_then_tt, sound_Erase.
Qed.

Lemma sound_perform w c :
  sound_store w → size_args_fit c = true → stays_sound (perform c w).
Proof.
  intros Hsound Hc. pose proof (objects_sound_perform w c Hsound Hc) as Hobjs.
  pose proof (bounded_perform c w (proj2 Hsound)) as Hblocks.
  unfold stays_sound, sound_store.
  destruct (perform c w); simpl in *; done.
Qed.

Lemma sound_perform_all cs w w' :
  sound_store w → forallb size_args_fit cs = true →
  perform_all cs w = Ok tt w' → sound_store w'.
Proof.
  revert w. induction cs as [|c cs IH]; intros w Hw Hcs; simpl.
  - by intros [= <-].
  - simpl in Hcs. apply andb_true_iff in Hcs as [Hc Hcs].
    intros (u & w1 & Hrun & Hrest)%bind_Ok_inv.
    pose proof (sound_perform w c Hw Hc) as Hout. rewrite Hrun in Hout.
    by apply (IH w1).
Qed.

(** every store a sequence of public calls reaches is sound *)
Lemma reachable_sound w : reachable w → sound_store w.
Proof.
  intros (cs & room & Hcs & Hrun).
  eapply sound_perform_all; [|exact Hcs|exact Hrun]. apply sound_store_empty.
Qed.

(** [0 <= size <= capacity] for every vector of every store a sequence of
    public calls reaches, the size one a block can have, and across every
    further call, returning or throwing.  (That the slots [0 .. size) hold
    constructed objects does not follow: move assignment can leave a size
    over raw slots.) *)
Theorem reachable_size_within_capacity w this v :
  reachable w → objs w !! this = Some v →
  size_ v ≤ capacity_ (data_ v) ∧ size_ v ≤ max_size ∧
  ∀ c, size_args_fit c = true →
       (∀ u w', perform c w = Ok u w' → sound_store w') ∧
       (∀ e w', perform c w = Throw e w' → sound_store w').
Proof.
  intros Hw%reachable_sound Hv.
  destruct (proj1 Hw this v Hv) as (Hs & Hm & _).
  split; [done|]. split; [done|].
  intros c Hc. pose proof (sound_perform w c Hw Hc) as Hout. split.
  - intros u w' Hrun'. by rewrite Hrun' in Hout.
  - intros e w' Hrun'. by rewrite Hrun' in Hout.
Qed.
End Sound.

(** ** The capacity policy on the vectors of a program *)

Section ReachableCapacity.
Context {T : Type} `{!Element T} `{!ElementLaws T}.
Implicit Types (w : world T) (p : ptr) (this t : vid) (n : N) (c : call T).

(** C3, as the code has it.  The capacity of a vector [this] across one
    public call.  The vector is any [Vector] object of a store that a
    finite sequence of public calls produces from nothing, so also one that
    was moved from.
    (1) An append ([PushBack], [EmplaceBack]) or an insert ([Emplace],
    [Insert]) on [this] that finds the size equal to the capacity and
    returns leaves the capacity exactly [max(1, 2 * capacity)], whatever its
    arguments refer to.
    (2) No call decreases the capacity of [this], whether it returns or
    throws, unless it replaces the contents of [this] as a whole: an
    assignment to [this], a [Swap] with [this], a move from [this] (by the
    move constructor or by move assignment with [this] as the source), or
    the destructor of [this].  This covers the calls on [this] and the
    calls on every other vector.  [Swap] and the move constructor are no
    assignments, and they do lower the capacity.
    (3) The appends and inserts of a value into a represented vector at a
    position of [begin() .. end()] return when no operation of [T] throws and
    a full vector has room to grow. *)
Theorem capacity_policy w this v :
  reachable w → objs w !! this = Some v →
  let cap := capacity_ (data_ v) in
  (∀ c u w',
     appends this c = true → size_ v = cap →
     perform c w = Ok u w' → capacity_of w' this = Some (grown cap)) ∧
  (∀ c,
     replaces this c = false →
     (∀ u w', perform c w = Ok u w' →
        ∃ cap', capacity_of w' this = Some cap' ∧ cap ≤ cap') ∧
     (∀ e w', perform c w = Throw e w' →
        ∃ cap', capacity_of w' this = Some cap' ∧ cap ≤ cap')) ∧
  (∀ vs, represents w this vs cap → never_throws → room_to_grow w vs cap →
   ∀ i pos value c,
     (i ≤ length vs)%nat → iterator_at w this i = Some pos →
     c ∈ appends_of this pos value → is_ok (perform c w) = true).
Proof.
  intros Hw%reachable_sound Hv. apply capacity_across_call; [done|].
  intros Hfull. destruct (proj1 Hw this v Hv) as (_ & Hm & _). lia.
Qed.
End ReachableCapacity.

(** ** The calls on the back of a vector and on a position *)

Section Back.
Context {T : Type} `{!Element T} `{!ElementLaws T}.
Implicit Types (w : world T) (p : ptr) (this : vid) (a : addr) (vs : list T).

(** the object at the position [begin() + i] of a represented vector *)
Lemma represents_load w this vs cap (i : nat) x p :
  represents w this vs cap → vs !! i = Some x →
  iterator_at w this i = Some p → load p w = Ok x w.
Proof.
  intros Hrep Hx Hp.
  destruct (represents_inv _ _ _ _ Hrep)
    as [_ [(_ & -> & _)|(Hc & a & tail & Hv & Ha & Hl)]]; [done|].
  unfold iterator_at in Hp. rewrite Hv in Hp. simpl in Hp. injection Hp as <-.
  apply run_load. erewrite slot_at_heap; [|done|exact Ha]. simpl.
  replace (N.to_nat (0 + 0 + N.of_nat i)) with i by lia.
  rewrite lookup_app_l by (rewrite length_fmap; by eapply lookup_lt_Some).
  by rewrite list_lookup_fmap, Hx.
Qed.

(** [PopBack()] on a vector with a last element *)
Lemma PopBack_last w this vs' x cap :
  represents w this (vs' ++ [x]) cap →
  ∃ w', Vector.PopBack this w = Ok tt w' ∧
        represents w' this vs' cap ∧
        slot_of w' this (N.of_nat (length vs')) = Some None.
Proof.
  intros Hrep.
  pose proof (represents_size_bound _ _ _ _ Hrep) as [Hsz Hcap].
  destruct (represents_inv _ _ _ _ Hrep)
    as [Hmax [(_ & Hnil & _)|(Hc & a & tail & Hv & Ha & Hl)]].
  { by destruct vs'. }
  rewrite length_app in *. simpl in *.
  rewrite fmap_app in Ha. simpl in Ha. rewrite <- app_assoc in Ha. simpl in Ha.
  unfold Vector.PopBack. rewrite (run_bind_ok _ _ _ _ _ (run_get _ _ _ Hv)).
  rewrite (run_bind_ok _ _ _ _ w) by (apply run_op_plus; simpl; lia).
  rewrite (run_bind_ok _ _ _ _ w) by (apply run_ptr_sub; simpl; lia).
  cbn [data_ buffer_ size_ ptr_add base off].
  erewrite run_bind_ok; cycle 1.
  { eapply (run_destroy_n [x] _ _ a (Some <$> vs') tail 1); try done.
    simpl. rewrite length_fmap. lia. }
  rewrite (run_set_size (with_block w a _) this _ _ Hv). simpl.
  rewrite size_t_sub_small by lia.
  eexists. split; [done|]. split.
  - eapply (represents_intro _ _ _ cap a (None :: tail)); try done.
    + simpl. rewrite lookup_insert_eq. do 3 f_equal. lia.
    + simpl. by rewrite lookup_insert_eq.
    + simpl. lia.
  - unfold slot_of. simpl. rewrite lookup_insert_eq. simpl.
    erewrite slot_at_heap; [|done|simpl; apply lookup_insert_eq]. simpl.
    replace (N.to_nat (0 + N.of_nat (length vs'))) with (length (Some <$> vs'))
      by (rewrite length_fmap; lia).
    by rewrite list_lookup_middle.
Qed.

(** [PopBack()].  On a vector with no element the pointer [data_ + size_ - 1]
    steps in front of the storage: the call is undefined.  On a vector with
    an element it destroys the last one and returns; the vector then holds
    the elements before it, with the capacity it had, and the slot of the
    last element is raw storage. *)
Theorem PopBack_spec w this vs cap :
  represents w this vs cap →
  (vs = [] → Vector.PopBack this w = Undef) ∧
  (∀ vs' x, vs = vs' ++ [x] →
     ∃ w', Vector.PopBack this w = Ok tt w' ∧
           represents w' this vs' cap ∧
           slot_of w' this (N.of_nat (length vs')) = Some None).
Proof.
  intros Hrep. split.
  - intros ->.
    destruct (represents_object _ _ _ _ Hrep) as (v & Hv & Hs & Hc & Hoff).
    unfold Vector.PopBack. rewrite (run_bind_ok _ _ _ _ _ (run_get _ _ _ Hv)).
    rewrite (run_bind_ok _ _ _ _ w) by (apply run_op_plus; simpl in *; lia).
    rewrite run_bind. unfold ptr_sub. simpl. rewrite Hs, Hoff. done.
  - intros vs' x ->. by apply (PopBack_last w this vs' x cap).
Qed.

(** [EmplaceBack(args...)] with arguments that refer to no element of a
    vector.  When the call returns, the vector holds the elements it had
    followed by the object made from the arguments, the capacity is the one
    it had, or the grown one when the vector was full, and the reference
    returned is the new last element.  The call returns when the constructor
    does not throw and, for a full vector, the new block can be allocated
    and no transfer throws. *)
Theorem EmplaceBack_appends w this vs cap x :
  represents w this vs cap → external x = true →
  let cap' := if N.of_nat (length vs) =? cap then grown cap else cap in
  (∀ it w', Vector.EmplaceBack this x w = Ok it w' →
     ∃ v, made x = Some v ∧
          represents w' this (vs ++ [v]) cap' ∧
          iterator_at w' this (length vs) = Some it ∧
          load it w' = Ok v w') ∧
  (is_Some (made x) →
   (N.of_nat (length vs) = cap →
    grown cap ≤ max_size ∧ grown cap * sizeof_T ≤ avail w ∧ transfer_never_throws) →
   ∃ it w', Vector.EmplaceBack this x w = Ok it w').
Proof.
  intros Hrep Hext cap'.
  destruct (EmplaceBack_spec w this vs cap x Hrep Hext) as [Hpost Hreturns].
  split.
  - intros it w' Hrun. destruct (Hpost it w' Hrun) as (v & Hmade & Hrep' & Hit).
    exists v. split; [done|]. split; [done|]. split; [done|].
    apply (represents_load w' this (vs ++ [v]) cap' (length vs) v it); [done| |done].
    by rewrite list_lookup_middle.
  - intros Hmade Hroom.
    destruct (Vector.EmplaceBack this x w) as [it w'| |] eqn:Hrun; [by eauto|..];
      by specialize (Hreturns (conj Hmade Hroom)).
Qed.

(** [PushBack(value)] followed by [PopBack()], for both overloads and a
    value outside the vector: when the append returns, [PopBack] returns
    too, and the vector holds the elements it had before the two calls; the
    capacity stays the grown one when the append reallocated. *)
Theorem PushBack_then_PopBack w this vs cap (value : T) :
  represents w this vs cap →
  let cap' := if N.of_nat (length vs) =? cap then grown cap else cap in
  (∀ w1, Vector.PushBack this (Temp value) w = Ok tt w1 →
     ∃ w2, Vector.PopBack this w1 = Ok tt w2 ∧ represents w2 this vs cap') ∧
  (∀ w1, Vector.PushBack_rvalue this (Temp value) w = Ok tt w1 →
     ∃ w2, Vector.PopBack this w1 = Ok tt w2 ∧ represents w2 this vs cap').
Proof.
  intros Hrep cap'.
  assert (∀ x w1, external x = true →
            (Vector.EmplaceBack this x;; mret tt) w = Ok tt w1 →
            ∃ w2, Vector.PopBack this w1 = Ok tt w2 ∧ represents w2 this vs cap')
    as Hback.
  { intros x w1 Hext (it & w1' & Hrun & Hret)%bind_Ok_inv.
    injection Hret as <-.
    destruct (proj1 (EmplaceBack_spec w this vs cap x Hrep Hext) it w1' Hrun)
      as (v & _ & Hrep1 & _).
    destruct (PopBack_last w1' this vs v cap' Hrep1)
      as (w2 & Hpop & Hrep2 & _).
    by exists w2. }
  split; intros w1 Hrun.
  - by apply (Hback (Copy (Temp value)) w1).
  - by apply (Hback (Move (Temp value)) w1).
Qed.

(** [Erase(pos)] at the position [begin() + i] of an element.  When the call
    returns, the vector holds the elements it had without element [i], in
    their order and with the capacity it had, and the iterator returned is
    [pos].  The call returns when no move assignment of [T] throws. *)
Theorem Erase_removes w this vs cap i pos :
  represents w this vs cap → (i < length vs)%nat →
  iterator_at w this i = Some pos →
  (∀ it w', Vector.Erase this pos w = Ok it w' →
     it = pos ∧ represents w' this (take i vs ++ drop (S i) vs) cap) ∧
  (move_assign_never_throws → ∃ it w', Vector.Erase this pos w = Ok it w').
Proof.
  intros Hrep Hi Hpos.
  destruct (Erase_spec w this vs cap i pos Hrep Hi Hpos) as [Hpost Hreturns].
  split; [exact Hpost|]. intros Hquiet. specialize (Hreturns Hquiet).
  destruct (Vector.Erase this pos w) as [it w'| |]; [by eauto|done..].
Qed.

(** [Erase(end())].  The assertion [pos >= begin() && pos <= end()] admits
    the position [end()], but [std::move] is then called on the range from
    [end() + 1] to [end()], which is no range: the call is undefined, on an
    empty vector as on any other. *)
Theorem Erase_at_end_undefined w this vs cap pos :
  represents w this vs cap →
  iterator_at w this (length vs) = Some pos →
  Vector.Erase this pos w = Undef.
Proof.
  intros Hrep Hpos.
  pose proof (represents_size_bound _ _ _ _ Hrep) as [Hsz Hcap].
  destruct (represents_object _ _ _ _ Hrep) as (v & Hv & Hs & Hc & Hoff).
  unfold iterator_at in Hpos. rewrite Hv in Hpos. simpl in Hpos.
  injection Hpos as <-.
  unfold Vector.Erase.
  rewrite (run_position_assert w this _ _ _ Hv); [|lia|done|done|simpl; lia].
  change (Vector.cbegin this) with (Vector.begin (T := T) this).
  rewrite (run_bind_ok _ _ _ _ _ (run_begin _ _ _ Hv)).
  rewrite (run_bind_ok _ _ _ (N.of_nat (length vs)) w)
    by (rewrite run_distance; [f_equal; simpl; lia|done|simpl; lia]).
  rewrite (run_bind_ok _ _ _ _ _ (run_begin _ _ _ Hv)).
  rewrite (run_bind_ok _ _ _ _ w) by (apply run_end; [done|lia]).
  rewrite (run_bind_ok _ _ _ _ _ (run_begin _ _ _ Hv)).
  unfold std_move. rewrite !run_bind. unfold distance. simpl.
  rewrite bool_decide_true by done. simpl.
  assert ((off (buffer_ (data_ v)) + 0 + N.of_nat (length vs) + 1
           <=? off (buffer_ (data_ v)) + size_ v) = false) as ->
    by (apply N.leb_gt; lia).
  done.
Qed.

(** [Insert(pos, value)], for both overloads, a value outside the vector
    and the position [begin() + i] with [i <= size].  When the call returns,
    the vector holds its elements with [value] at index [i] and the later
    elements one place further, and the iterator returned is the position of
    the new element.  The call returns when no operation of [T] throws and a
    full vector has room to grow. *)
Theorem Insert_at_index w this vs cap i pos (value : T) :
  represents w this vs cap → (i ≤ length vs)%nat →
  iterator_at w this i = Some pos →
  let cap' := if N.of_nat (length vs) =? cap then grown cap else cap in
  (∀ it w', Vector.Insert this pos (Temp value) w = Ok it w' →
     represents w' this (take i vs ++ value :: drop i vs) cap' ∧
     iterator_at w' this i = Some it ∧ load it w' = Ok value w') ∧
  (∀ it w', Vector.Insert_rvalue this pos (Temp value) w = Ok it w' →
     represents w' this (take i vs ++ value :: drop i vs) cap' ∧
     iterator_at w' this i = Some it ∧ load it w' = Ok value w') ∧
  (never_throws → room_to_grow w vs cap →
   is_ok (Vector.Insert this pos (Temp value) w) = true ∧
   is_ok (Vector.Insert_rvalue this pos (Temp value) w) = true).
Proof.
  intros Hrep Hi Hpos cap'.
  assert (∀ x it w', external x = true → made x = Some value →
            Vector.Emplace this pos x w = Ok it w' →
            represents w' this (take i vs ++ value :: drop i vs) cap' ∧
            iterator_at w' this i = Some it ∧ load it w' = Ok value w') as Hat.
  { intros x it w' Hext Hmade Hrun.
    destruct (proj1 (Emplace_spec w this vs cap i pos x Hrep Hext Hi Hpos) it w' Hrun)
      as (v & Hv & Hrep' & Hit).
    rewrite Hmade in Hv. injection Hv as <-.
    split; [done|]. split; [done|].
    apply (represents_load w' this _ cap' i value it Hrep'); [|done].
    rewrite lookup_app_r by (rewrite length_take; lia).
    rewrite length_take. by replace (i - i `min` length vs)%nat with 0%nat by lia. }
  split; [|split].
  - intros it w' Hrun. unfold Vector.Insert in Hrun.
    destruct (proj1 (Emplace_spec w this vs cap i pos (Copy (Temp value))
                       Hrep eq_refl Hi Hpos) it w' Hrun) as (v & Hv & _).
    simpl in Hv. apply copy_construct_value in Hv as Heq. subst v.
    by apply (Hat (Copy (Temp value)) it w').
  - intros it w' Hrun. unfold Vector.Insert_rvalue in Hrun.
    destruct (proj1 (Emplace_spec w this vs cap i pos (Move (Temp value))
                       Hrep eq_refl Hi Hpos) it w' Hrun) as (v & Hv & _).
    simpl in Hv. destruct (move_construct value) as [[v' r]|] eqn:Hmove; [|done].
    simpl in Hv. injection Hv as <-.
    apply move_construct_value in Hmove as Heq. subst v'.
    apply (Hat (Move (Temp value)) it w'); [done| |done]. simpl. by rewrite Hmove.
  - intros Hquiet Hroom. pose proof Hquiet as (Hcopy & Hmove & _).
    split.
    + apply (proj2 (Emplace_spec w this vs cap i pos (Copy (Temp value))
                      Hrep eq_refl Hi Hpos)).
      split; [apply Hcopy|]. by split.
    + apply (proj2 (Emplace_spec w this vs cap i pos (Move (Temp value))
                      Hrep eq_refl Hi Hpos)).
      split; [|by split]. simpl. destruct (Hmove value) as [[v' r] ->]. by eexists.
Qed.

(** [operator[](index)].  For an index below the size the call returns the
    address of the slot [begin() + index], which holds element [index]; the
    store is not changed.  For an index at or past the size the assertion
    fails, also when the index is below the capacity. *)
Theorem op_index_spec w this vs cap (index : N) :
  represents w this vs cap →
  (∀ x, vs !! N.to_nat index = Some x →
     ∃ p, Vector.op_index this index w = Ok p w ∧
          iterator_at w this (N.to_nat index) = Some p ∧
          load p w = Ok x w) ∧
  (N.of_nat (length vs) ≤ index → Vector.op_index this index w = Undef).
Proof.
  intros Hrep.
  pose proof (represents_size_bound _ _ _ _ Hrep) as [Hsz Hcap].
  destruct (represents_object _ _ _ _ Hrep) as (v & Hv & Hs & Hc & Hoff).
  split.
  - intros x Hx. apply lookup_lt_Some in Hx as Hlt.
    assert (iterator_at w this (N.to_nat index) = Some (buffer_ (data_ v) +ₚ index))
      as Hit.
    { unfold iterator_at. rewrite Hv. simpl. unfold ptr_add. simpl.
      do 2 f_equal. lia. }
    exists (buffer_ (data_ v) +ₚ index). split; [|split; [done|]].
    + unfold Vector.op_index. rewrite (run_bind_ok _ _ _ _ _ (run_get _ _ _ Hv)).
      rewrite (run_bind_ok _ _ _ tt w) by (apply run_assert, N.ltb_lt; lia).
      apply run_op_index. lia.
    + by apply (represents_load w this vs cap (N.to_nat index)).
  - intros Hge. unfold Vector.op_index.
    rewrite (run_bind_ok _ _ _ _ _ (run_get _ _ _ Hv)).
    rewrite run_bind. assert ((index <? size_ v) = false) as ->
      by (apply N.ltb_ge; lia).
    done.
Qed.
End Back.

(** ** Construction, copy and destruction of a vector *)

Section Lifetime.
Context {T : Type} `{!Element T} `{!ElementLaws T}.
Implicit Types (w : world T) (p : ptr) (this t other : vid) (a b : addr)
  (vs : list T) (n : N).

(** [Vector(size)] for a size an allocation can have, with room for the
    block and a value constructor that returns *)
Lemma run_ctor_size w n v0 :
  n ≠ 0 → n ≤ max_size → n * sizeof_T ≤ avail w → value_construct = Some v0 →
  Vector.ctor_size n w
  = Ok (fresh (dom (objs w)))
       (set_objs (with_block (allocated w n) (fresh (dom (heap w)))
                    (replicate (N.to_nat n) (Some v0)))
          (<[fresh (dom (objs w)) :=
               {| data_ := {| buffer_ := fresh_ptr w; capacity_ := n |};
                  size_ := n |}]> (objs w))).
Proof.
  intros Hn Hmax Hav Hv0. unfold Vector.ctor_size.
  rewrite (run_bind_ok _ _ _ _ _ (run_ctor_capacity_ok w n Hn Hmax Hav)).
  cbn [RawMemory.GetAddress buffer_].
  destruct (spec_uninitialized_value_loop (N.to_nat n) (allocated w n) (fresh_ptr w)
              (fresh (dom (heap w))) 0 [] (replicate (N.to_nat n) None) [])
    as [Hpost Hreturns]; [done|done|by rewrite length_replicate|..].
  { rewrite allocated_lookup_new. simpl. by rewrite app_nil_r. }
  specialize (Hreturns (ex_intro _ v0 Hv0)).
  unfold uninitialized_value_construct_n.
  destruct (uninitialized_loop _ (fresh_ptr w) 0 (N.to_nat n) (allocated w n))
    as [[] w2| |] eqn:Hloop; [|done..].
  destruct (Hpost _ _ eq_refl) as [[Hzero _]|(v1 & Hv1 & ->)]; [lia|].
  rewrite Hv0 in Hv1. injection Hv1 as <-.
  rewrite (run_bind_ok _ _ _ tt _ (run_unwinding_ok _ _ _ _ _ Hloop)).
  simpl. by rewrite app_nil_r.
Qed.

(** the same call with a value constructor that throws: the block is given
    back *)
Lemma run_ctor_size_throws w n :
  n ≠ 0 → n ≤ max_size → n * sizeof_T ≤ avail w → value_construct = None →
  Vector.ctor_size n w = Throw element_error w.
Proof.
  intros Hn Hmax Hav Hv0. unfold Vector.ctor_size.
  rewrite (run_bind_ok _ _ _ _ _ (run_ctor_capacity_ok w n Hn Hmax Hav)).
  cbn [RawMemory.GetAddress buffer_].
  unfold uninitialized_value_construct_n.
  destruct (N.to_nat n) as [|k] eqn:Hk; [lia|].
  assert (uninitialized_loop (λ _ p, placement_new_value p) (fresh_ptr w) 0 (S k)
            (allocated w n) = Throw element_error (allocated w n)) as Hloop.
  { simpl. erewrite run_bind_throw; [done|].
    eapply run_unwinding_throw; [|done].
    unfold placement_new_value.
    erewrite run_bind_ok; cycle 1.
    { eapply run_check_storage. erewrite slot_at_heap; [|done|apply allocated_lookup_new].
      simpl. rewrite Hk. done. }
    rewrite Hv0. done. }
  erewrite run_bind_throw; [done|].
  eapply run_unwinding_throw; [exact Hloop|]. by apply run_dtor_allocated.
Qed.

(** no [Vector(size)] returns for a size no block can have *)
Lemma ctor_size_too_large w n :
  max_size < n → is_ok (Vector.ctor_size n w) = false.
Proof.
  intros Hlarge. destruct (Vector.ctor_size n w) as [t w'| |] eqn:Hrun; [|done..].
  exfalso. unfold Vector.ctor_size in Hrun.
  apply bind_Ok_inv in Hrun as (data & w1 & Hctor & Hrun).
  apply bind_Ok_inv in Hrun as ([] & w2 & Hloop%unwinding_Ok_inv & _).
  assert (n ≠ 0) as Hn by lia.
  rewrite run_ctor_capacity in Hctor by done. simpl in Hctor.
  destruct ((wrap (n * sizeof_T) <=? ptrdiff_max)
            && (wrap (n * sizeof_T) <=? avail w)) eqn:Hfits; [|done].
  apply andb_true_iff in Hfits as [Hpd%N.leb_le _].
  injection Hctor as <- <-. apply slots_bound in Hpd.
  pose proof (uninitialized_loop_overruns (λ _ p, placement_new_value p)
                (fresh_ptr w) (fresh (dom (heap w)))
                (λ _ p, keeps_blocks_placement_new_value p)
                (λ _ p w0, placement_new_value_no_storage p w0) eq_refl
                (N.to_nat n) 0 _ _
                (handed_out_lookup_new w (N.to_nat (wrap (n * sizeof_T) / sizeof_T))
                   (wrap (n * sizeof_T)))) as Hover.
  rewrite length_replicate in Hover.
  unfold uninitialized_value_construct_n in Hloop. simpl in Hloop, Hover.
  rewrite Hloop in Hover. simpl in Hover.
  generalize dependent (wrap (n * sizeof_T) / sizeof_T). intros m Hm _ Hover.
  assert (true = false) as Habs by (apply Hover; lia). done.
Qed.

(** [Vector(size)].  When the constructor returns, the new object is a
    vector of [size] value-constructed elements with the capacity [size];
    the vectors and the blocks there were are untouched, and nothing is
    allocated for the size 0.  When it throws ([bad_alloc], or the value
    constructor of [T]) the store is the one before the call: the block is
    given back.  It returns when a block of [size] objects can be allocated
    and the value constructor does not throw. *)
Theorem ctor_size_spec w n :
  (∀ t w', Vector.ctor_size n w = Ok t w' →
     objs w !! t = None ∧
     (∀ t', t' ≠ t → objs w' !! t' = objs w !! t') ∧
     (∀ a blk, heap w !! a = Some blk → heap w' !! a = Some blk) ∧
     (n = 0 → heap w' = heap w) ∧
     ∃ vs, represents w' t vs n ∧ length vs = N.to_nat n ∧
           ∀ x, x ∈ vs → value_construct = Some x) ∧
  (∀ e w', Vector.ctor_size n w = Throw e w' →
     n * sizeof_T < size_t_modulus → w' = w) ∧
  (n ≤ max_size → n * sizeof_T ≤ avail w → (n ≠ 0 → is_Some value_construct) →
   is_ok (Vector.ctor_size n w) = true).
Proof.
  assert (objs w !! fresh (dom (objs w)) = None) as Hfresh
    by apply not_elem_of_dom, is_fresh.
  destruct (decide (n = 0)) as [->|Hn].
  { assert (Vector.ctor_size 0 w
            = Ok (fresh (dom (objs w)))
                 (set_objs w (<[fresh (dom (objs w)) :=
                    {| data_ := {| buffer_ := nullptr; capacity_ := 0 |};
                       size_ := 0 |}]> (objs w)))) as Hrun by reflexivity.
    rewrite Hrun. split; [|split]; [|done..].
    intros t w' [= <- <-]. split; [done|]. split.
    { intros t' Hne. simpl. by rewrite lookup_insert_ne. }
    split; [done|]. split; [done|]. exists []. split; [|split; [done|]].
    - apply represents_intro_empty. simpl. by rewrite lookup_insert_eq.
    - intros x Hx. by apply elem_of_nil in Hx. }
  destruct (decide (n ≤ max_size)) as [Hmax|Hlarge]; cycle 1.
  { pose proof (ctor_size_too_large w n ltac:(lia)) as Hno.
    split; [|split].
    - intros t w' Hrun. by rewrite Hrun in Hno.
    - intros e w' Hrun Hbytes. unfold Vector.ctor_size in Hrun.
      rewrite run_bind, run_ctor_capacity in Hrun by done. simpl in Hrun.
      rewrite wrap_small in Hrun by done.
      pose proof (bytes_exceed n ltac:(lia)) as Hexceed.
      assert ((n * sizeof_T <=? ptrdiff_max) = false) as Hpd
        by (apply N.leb_gt; lia).
      rewrite Hpd in Hrun. simpl in Hrun. by injection Hrun as _ <-.
    - lia. }
  destruct (decide (n * sizeof_T ≤ avail w)) as [Hav|Hshort]; cycle 1.
  { assert (Vector.ctor_size n w = Throw bad_alloc w) as Hrun.
    { unfold Vector.ctor_size. erewrite run_bind_throw; [done|].
      apply run_ctor_capacity_fail; [done| |tauto].
      pose proof (max_size_pos (T := T)). lia. }
    rewrite Hrun. split; [done|]. split; [|lia]. by intros e w' [= _ <-]. }
  destruct value_construct as [v0|] eqn:Hv0; cycle 1.
  { rewrite (run_ctor_size_throws w n Hn Hmax Hav Hv0).
    split; [done|]. split; [by intros e w' [= _ <-]|].
    intros _ _ Hsome. by destruct (Hsome Hn). }
  rewrite (run_ctor_size w n v0 Hn Hmax Hav Hv0).
  split; [|split]; [|done..].
  intros t w' [= <- <-]. split; [done|]. split.
  { intros t' Hne. simpl. by rewrite lookup_insert_ne. }
  split.
  { intros a blk Ha. simpl. rewrite lookup_insert_ne.
    - by rewrite lookup_insert_ne
        by (intros <-; by rewrite fresh_not_in_heap in Ha).
    - intros <-. by rewrite fresh_not_in_heap in Ha. }
  split; [done|]. exists (replicate (N.to_nat n) v0).
  split; [|split].
  - eapply (represents_intro _ _ _ n (fresh (dom (heap w))) []); try done.
    + simpl. rewrite lookup_insert_eq. do 2 f_equal.
      rewrite length_replicate. lia.
    + simpl. rewrite lookup_insert_eq. by rewrite fmap_replicate, app_nil_r.
    + rewrite length_replicate. simpl. lia.
  - by rewrite length_replicate.
  - intros x Hx. by apply elem_of_replicate in Hx as [-> _].
Qed.
End Lifetime.

(** ** Copies that throw *)

Section CopyFailure.
Context {T : Type} `{!Element T} `{!ElementLaws T}.
Implicit Types (w : world T) (p : ptr) (this t other : vid) (a b : addr)
  (vs : list T) (n : N).

Lemma run_make_copy_at w src a pre v post :
  base src = Some a → N.to_nat (off src) = length pre →
  heap w !! a = Some (pre ++ Some v :: post) →
  make (Copy (At src)) w = elem (copy_construct v) w.
Proof.
  intros Hb Ho Ha. unfold make, read_ref.
  by rewrite (run_bind_ok _ _ _ _ _ (run_load_middle _ _ _ _ _ _ Hb Ho Ha)).
Qed.

(** [std::uninitialized_copy_n] from constructed objects into a block of
    raw storage.  It returns with the copies in place, or a copy constructor
    throws: the copies made so far are then destroyed and the destination is
    raw storage again.  The source is untouched, and the run is defined. *)
Lemma uninitialized_copy_loop_result vs :
  ∀ w first d_first a b k pre_s post_s (built : list T) (m : nat),
    a ≠ b →
    base first = Some a → base d_first = Some b → off d_first = 0 →
    N.to_nat (off first + k) = length pre_s →
    N.to_nat k = length built →
    (length vs ≤ m)%nat →
    heap w !! a = Some (pre_s ++ (Some <$> vs) ++ post_s) →
    heap w !! b = Some ((Some <$> built) ++ replicate m None) →
    match uninitialized_loop (λ i p, placement_new p (Copy (At (first +ₚ i))))
            d_first k (length vs) w with
    | Ok _ w' =>
        w' = with_block w b ((Some <$> built) ++ (Some <$> vs)
                               ++ replicate (m - length vs) None)
    | Throw _ w' => w' = with_block w b (replicate (length built + m) None)
    | Undef => False
    end.
Proof.
  induction vs as [|v vs IH];
    intros w first d_first a b k pre_s post_s built m
      Hab Hfb Hdb Hd0 Hfo Hk Hm Ha Hb.
  { simpl. rewrite Nat.sub_0_r. by rewrite with_block_same. }
  simpl in Hm, Ha. simpl uninitialized_loop.
  destruct m as [|m]; [lia|]. simpl in Hb.
  assert (N.to_nat (off (d_first +ₚ k)) = length (Some <$> built)) as Hdo.
  { simpl. rewrite length_fmap. lia. }
  destruct (copy_construct v) as [v'|] eqn:Hcopy.
  - destruct (spec_placement_new_copy w (first +ₚ k) (d_first +ₚ k) a b
                pre_s v ((Some <$> vs) ++ post_s) (Some <$> built) None
                (replicate m None)) as [Hpost Hreturns]; try done.
    specialize (Hreturns ltac:(by rewrite Hcopy)).
    destruct (placement_new (d_first +ₚ k) (Copy (At (first +ₚ k))) w)
      as [[] w1| |] eqn:Hstep; [|done..].
    specialize (Hpost _ _ eq_refl). subst w1.
    rewrite (run_bind_ok _ _ _ tt _ (run_unwinding_ok _ _ _ _ _ Hstep)).
    set (w1 := with_block w b ((Some <$> built) ++ Some v :: replicate m None)).
    assert (N.to_nat (off first + (k + 1)) = length (pre_s ++ [Some v])) as H1
      by (rewrite length_app; simpl; lia).
    assert (N.to_nat (k + 1) = length (built ++ [v])) as H2
      by (rewrite length_app; simpl; lia).
    assert (length vs ≤ m)%nat as H3 by lia.
    assert (heap w1 !! a = Some ((pre_s ++ [Some v]) ++ (Some <$> vs) ++ post_s))
      as H4.
    { unfold w1. rewrite with_block_lookup_ne by done. by rewrite <- app_assoc. }
    assert (heap w1 !! b = Some ((Some <$> (built ++ [v])) ++ replicate m None))
      as H5.
    { unfold w1. rewrite with_block_lookup. by rewrite fmap_app, <- app_assoc. }
    pose proof (IH w1 first d_first a b (k + 1) (pre_s ++ [Some v]) post_s
                  (built ++ [v]) m Hab Hfb Hdb Hd0 H1 H2 H3 H4 H5) as Hrest.
    destruct (uninitialized_loop _ d_first (k + 1) (length vs) w1)
      as [[] w2|e w2|]; [| |done].
    + rewrite Hrest. unfold w1. rewrite with_block_twice.
      f_equal. simpl. by rewrite fmap_app, <- !app_assoc.
    + rewrite Hrest. unfold w1. rewrite with_block_twice.
      f_equal. rewrite length_app. simpl. f_equal. lia.
  - assert (placement_new (d_first +ₚ k) (Copy (At (first +ₚ k))) w
            = Throw element_error w) as Hstep.
    { eapply run_placement_new_throws.
      - by eapply (slot_at_middle w _ b (Some <$> built) None (replicate m None)).
      - erewrite (run_make_copy_at w _ a pre_s v); [|done|done|exact Ha].
        by rewrite Hcopy. }
    assert (destroy_n d_first k w
            = Ok tt (with_block w b ([] ++ replicate (length built) None
                                        ++ None :: replicate m None))) as Hclean.
    { eapply (run_destroy_n built w d_first b [] (None :: replicate m None)); try done.
      - lia.
      - by rewrite Hd0. }
    rewrite (run_bind_throw _ _ _ _ _
               (run_unwinding_throw _ _ _ _ _ _ Hstep Hclean)).
    f_equal. simpl. by rewrite (replicate_add (length built) (S m)).
Qed.
End CopyFailure.

(** ** The copy constructor and the destructor *)

Section CopyAndDestroy.
Context {T : Type} `{!Element T} `{!ElementLaws T}.
Implicit Types (w : world T) (p : ptr) (this t other : vid) (a b : addr)
  (vs : list T) (n : N).


Lemma heap_frame_allocated w n a blk0 blk :
  heap w !! a = Some blk0 →
  heap (with_block (allocated w n) (fresh (dom (heap w))) blk) !! a = Some blk0.
Proof.
  intros Ha. rewrite with_block_lookup_ne
    by (intros <-; by rewrite fresh_not_in_heap in Ha).
  by apply allocated_lookup_old.
Qed.

(** the copy constructor on a vector with an element, with room for the
    block: the new vector when it returns, the store before the call when a
    copy throws *)
Lemma run_ctor_copy w other a tail vs cap :
  vs ≠ [] →
  objs w !! other
  = Some {| data_ := {| buffer_ := {| base := Some a; off := 0 |};
                        capacity_ := cap |};
            size_ := N.of_nat (length vs) |} →
  heap w !! a = Some ((Some <$> vs) ++ tail) →
  N.of_nat (length vs) ≤ max_size →
  N.of_nat (length vs) * sizeof_T ≤ avail w →
  let n := N.of_nat (length vs) in
  outcome (Vector.ctor_copy other w)
    (λ t w', t = fresh (dom (objs w)) ∧
       w' = set_objs (with_block (allocated w n) (fresh (dom (heap w)))
                        (Some <$> vs))
              (<[fresh (dom (objs w)) :=
                   {| data_ := {| buffer_ := fresh_ptr w; capacity_ := n |};
                      size_ := n |}]> (objs w)))
    (λ w', w' = w) ∧
  ((∀ v : T, is_Some (copy_construct v)) → is_ok (Vector.ctor_copy other w) = true).
Proof.
  intros Hne Hv Ha Hmax Hav n.
  set (b := fresh (dom (heap w))).
  assert (n ≠ 0) as Hn by (unfold n; destruct vs; [done|simpl; lia]).
  assert (a ≠ b) as Hab.
  { intros ->. unfold b in Ha. by rewrite fresh_not_in_heap in Ha. }
  assert (heap (allocated w n) !! b = Some (replicate (length vs) None)) as Hb.
  { unfold b. rewrite allocated_lookup_new. unfold n. by rewrite Nat2N.id. }
  unfold Vector.ctor_copy. rewrite (run_bind_ok _ _ _ _ _ (run_get _ _ _ Hv)).
  cbn [size_ data_ RawMemory.GetAddress buffer_]. fold n.
  rewrite (run_bind_ok _ _ _ _ _ (run_ctor_capacity_ok w n Hn Hmax Hav)).
  cbn [RawMemory.GetAddress buffer_].
  destruct (spec_uninitialized_copy_n vs (allocated w n)
              {| base := Some a; off := 0 |} (fresh_ptr w) a b n
              [] tail [] (replicate (length vs) None) [])
    as [Hpost Hreturns]; try done.
  { by rewrite length_replicate. }
  { by apply allocated_lookup_old. }
  { by rewrite app_nil_r. }
  rewrite run_bind. unfold unwinding, try_catch.
  destruct (uninitialized_copy_n {| base := Some a; off := 0 |} n (fresh_ptr w)
              (allocated w n)) as [[] w2|e w2|] eqn:Hloop.
  - specialize (Hpost _ _ eq_refl). subst w2.
    split; [|done]. simpl. by rewrite app_nil_r.
  - assert (w2 = allocated w n) as ->.
    { unfold uninitialized_copy_n in Hloop. unfold n in Hloop at 1.
      rewrite Nat2N.id in Hloop.
      pose proof (uninitialized_copy_loop_result vs (allocated w n)
                    {| base := Some a; off := 0 |} (fresh_ptr w) a b 0 [] tail []
                    (length vs) Hab eq_refl eq_refl eq_refl eq_refl eq_refl
                    ltac:(lia) (allocated_lookup_old _ _ _ _ Ha) Hb) as Hres.
      rewrite Hloop in Hres. simpl in Hres. by rewrite with_block_same in Hres. }
    unfold bind. rewrite (run_dtor_allocated w n Hav). simpl.
    split; [done|]. intros Hcopies. by specialize (Hreturns Hcopies).
  - simpl. split; [done|]. intros Hcopies. by specialize (Hreturns Hcopies).
Qed.



(** the destructor of a vector that owns a block *)
Lemma run_dtor w this a tail vs cap :
  objs w !! this
  = Some {| data_ := {| buffer_ := {| base := Some a; off := 0 |};
                        capacity_ := cap |};
            size_ := N.of_nat (length vs) |} →
  heap w !! a = Some ((Some <$> vs) ++ tail) →
  Vector.dtor this w
  = Ok tt {| heap := delete a (heap w);
             avail := avail w + N.of_nat (length vs + length tail) * sizeof_T;
             objs := delete this (objs w) |}.
Proof.
  intros Hv Ha. unfold Vector.dtor.
  rewrite (run_bind_ok _ _ _ _ _ (run_get _ _ _ Hv)).
  rewrite (run_bind_ok _ _ _ _ w) by (apply run_op_plus; simpl; lia).
  cbn [data_ buffer_ size_ ptr_add base off].
  erewrite run_bind_ok; cycle 1.
  { eapply (run_destroy_n vs w _ a [] tail); try done. }
  unfold RawMemory.dtor, RawMemory.Deallocate. cbn [buffer_].
  erewrite run_bind_ok; cycle 1.
  { apply run_operator_delete. apply with_block_lookup. }
  unfold Vector.free_object, set_objs. simpl.
  by rewrite delete_insert_eq, length_app, length_replicate.
Qed.

(** the destructor of a represented vector *)
Lemma dtor_result w this vs cap :
  represents w this vs cap →
  ∃ v w',
    objs w !! this = Some v ∧
    Vector.dtor this w = Ok tt w' ∧
    objs w' = delete this (objs w) ∧
    avail w' = avail w + cap * sizeof_T ∧
    heap w' = match base (buffer_ (data_ v)) with
              | Some a => delete a (heap w)
              | None => heap w
              end.
Proof.
  intros Hrep.
  destruct (represents_inv _ _ _ _ Hrep)
    as [Hmax [(-> & -> & Hv)|(Hc & a & tail & Hv & Ha & Hl)]].
  - eexists _, _. split; [exact Hv|]. split.
    + unfold Vector.dtor. by rewrite (run_bind_ok _ _ _ _ _ (run_get _ _ _ Hv)).
    + simpl. split; [done|]. split; [lia|done].
  - eexists _, _. split; [exact Hv|]. split; [by apply (run_dtor w this a tail vs cap)|].
    simpl. split; [done|]. split; [by rewrite Hl|done].
Qed.


End CopyAndDestroy.

(** ** [Reserve] that throws, and [Reserve] of a size whose byte count wraps *)

Section ReserveEdges.
Context {T : Type} `{!Element T} `{!ElementLaws T}.
Implicit Types (w : world T) (p : ptr) (this t : vid) (a b : addr)
  (vs : list T) (n : N).

(** [Reserve(n)] on a vector [this], for an [n] whose byte count
    [n * sizeof(T)] is a [size_t], and a type [T] that is copyable or has a
    move constructor that does not throw.  The call is defined; and when it
    throws ([bad_alloc], or a copy constructor of [T] during the transfer)
    the store is the one before the call: the vector, its elements and the
    allocator are untouched.  (A type that can only be moved, by a
    constructor that throws, is left out: its elements are moved from when
    the exception arrives.) *)
Theorem Reserve_strong_guarantee w this vs cap n :
  represents w this vs cap →
  n * sizeof_T < size_t_modulus →
  is_nothrow_move_constructible = true ∨ is_copy_constructible = true →
  (∀ e w', Vector.Reserve this n w = Throw e w' → w' = w) ∧
  Vector.Reserve this n w ≠ Undef.
Proof.
  intros Hrep Hbytes Hpolicy.
  destruct (decide (n ≤ cap)) as [Hle|Hlt].
  { by rewrite (Reserve_no_op w this vs cap n Hrep Hle). }
  assert (n ≠ 0) as Hn0 by lia.
  assert ((n <=? cap) = false) as Hleb by (apply N.leb_gt; lia).
  destruct (decide (n ≤ max_size ∧ n * sizeof_T ≤ avail w)) as [[Hmax Hav]|Hno];
    cycle 1.
  { assert (Vector.Reserve this n w = Throw bad_alloc w) as Hrun.
    { destruct Hrep as (v & blk & Hv & _ & <- & _). unfold Vector.Reserve.
      rewrite (run_bind_ok _ _ _ _ _ (run_get _ _ _ Hv)).
      unfold RawMemory.Capacity. rewrite Hleb.
      rewrite run_bind, run_ctor_capacity by done. simpl.
      rewrite wrap_small by done.
      assert ((n * sizeof_T <=? ptrdiff_max) && (n * sizeof_T <=? avail w) = false)
        as ->; [|done].
      apply andb_false_iff.
      destruct (decide (n ≤ max_size)) as [Hmax|Hlarge].
      - right. apply N.leb_gt. lia.
      - left. apply N.leb_gt. apply bytes_exceed. lia. }
    rewrite Hrun. split; [|done]. by intros e w' [= _ <-]. }
  destruct Vector.moves_elements eqn:Hmoves.
  { assert (transfer_never_throws (T := T)) as Hquiet.
    { unfold transfer_never_throws. rewrite Hmoves. intros v.
      unfold Vector.moves_elements in Hmoves.
      destruct is_nothrow_move_constructible eqn:Hnothrow.
      - by apply nothrow_move_sound.
      - destruct Hpolicy as [?|Hcopy]; [done|]. by rewrite Hcopy in Hmoves. }
    pose proof (proj2 (Reserve_grows w this vs cap n Hrep ltac:(lia))
                  (conj Hmax (conj Hav Hquiet))) as Hok.
    by destruct (Vector.Reserve this n w). }
  destruct (represents_inv _ _ _ _ Hrep)
    as [_ [(Hc & -> & Hv)|(Hc & a & tail & Hv & Ha & Hl)]];
    try subst cap;
    unfold Vector.Reserve;
    rewrite (run_bind_ok _ _ _ _ _ (run_get _ _ _ Hv));
    cbn [size_ data_ RawMemory.Capacity capacity_ RawMemory.GetAddress buffer_];
    rewrite Hleb, Hmoves;
    rewrite (run_bind_ok _ _ _ _ _ (run_ctor_capacity_ok w n Hn0 Hmax Hav)).
  - rewrite (run_bind_ok _ _ _ tt (allocated w n)) by done.
    rewrite (run_bind_ok _ _ _ tt (allocated w n)) by done.
    unfold RawMemory.Swap. cbn [buffer_ capacity_].
    erewrite run_bind_ok; [|by apply run_set_data]. done.
  - set (b := fresh (dom (heap w))).
    assert (a ≠ b) as Hab.
    { intros ->. unfold b in Ha. by rewrite fresh_not_in_heap in Ha. }
    assert (length vs ≤ N.to_nat n)%nat as Hfits by lia.
    pose proof (uninitialized_copy_loop_result vs (allocated w n)
                  {| base := Some a; off := 0 |} (fresh_ptr w) a b 0 [] tail []
                  (N.to_nat n) Hab eq_refl eq_refl eq_refl eq_refl eq_refl
                  Hfits (allocated_lookup_old _ _ _ _ Ha)
                  (allocated_lookup_new w n)) as Hres.
    cbn [RawMemory.GetAddress buffer_].
    unfold uninitialized_copy_n. rewrite Nat2N.id.
    rewrite run_bind. unfold unwinding, try_catch.
    destruct (uninitialized_loop _ (fresh_ptr w) 0 (length vs) (allocated w n))
      as [[] w2|e w2|]; [| |done].
    + subst w2. unfold RawMemory.Swap. cbn [buffer_ capacity_].
      erewrite (run_adopt _ this a b vs tail); [done|done|done|].
      rewrite with_block_lookup_ne by done. by apply allocated_lookup_old.
    + subst w2. simpl.
      rewrite with_block_same by apply allocated_lookup_new.
      unfold bind. rewrite (run_dtor_allocated w n Hav). simpl.
      split; [|done]. by intros e0 w' [= _ <-].
Qed.

(** [Reserve(n)] for an [n] whose byte count [n * sizeof(T)] is no
    [size_t]: [Allocate] hands the wrapped count to [operator new].  On a
    vector without elements, when the allocator grants the wrapped request,
    the call returns and the vector reports the capacity [n] over a block of
    fewer than [n] slots. *)
Theorem Reserve_overflow w this cap n :
  represents w this [] cap → cap < n → n < size_t_modulus →
  size_t_modulus ≤ n * sizeof_T →
  wrap (n * sizeof_T) ≤ ptrdiff_max → wrap (n * sizeof_T) ≤ avail w →
  ∃ w', Vector.Reserve this n w = Ok tt w' ∧
        stores w' this [] n (wrap (n * sizeof_T) / sizeof_T) ∧
        wrap (n * sizeof_T) / sizeof_T < n.
Proof.
  intros Hrep Hlt Hn Hwraps Hpd Hav.
  assert (n ≠ 0) as Hn0 by lia.
  assert ((n <=? cap) = false) as Hleb by (apply N.leb_gt; lia).
  set (count := wrap (n * sizeof_T)) in *.
  set (m := count / sizeof_T).
  assert (m < n) as Hm.
  { unfold m. apply N.Div0.div_lt_upper_bound.
    assert (count < size_t_modulus) by (by apply N.mod_lt).
    lia. }
  set (b := fresh (dom (heap w))).
  set (w1 := handed_out w (N.to_nat m) count).
  assert (RawMemory.ctor_capacity n w
          = Ok {| buffer_ := fresh_ptr w; capacity_ := n |} w1) as Hctor.
  { rewrite run_ctor_capacity by done. simpl. fold count.
    assert ((count <=? ptrdiff_max) && (count <=? avail w) = true) as ->; [|done].
    apply andb_true_iff. split; by apply N.leb_le. }
  assert (∀ W,
            objs W !! this
            = Some {| data_ := {| buffer_ := {| base := Some b; off := 0 |};
                                  capacity_ := n |};
                      size_ := N.of_nat (length (@nil T)) |} →
            heap W !! b = Some ((Some <$> []) ++ replicate (N.to_nat m) (@None T)) →
            stores W this [] n m) as Hstores.
  { intros W HW Hblk.
    pose proof (stores_intro W this [] n b (replicate (N.to_nat m) None)
                  Hn0 HW Hblk) as Hst.
    rewrite length_replicate in Hst. simpl in Hst. by rewrite N2Nat.id in Hst. }
  destruct (represents_inv _ _ _ _ Hrep)
    as [_ [(Hc & _ & Hv)|(Hc & a & tail & Hv & Ha & Hl)]];
    try subst cap;
    unfold Vector.Reserve;
    rewrite (run_bind_ok _ _ _ _ _ (run_get _ _ _ Hv));
    cbn [size_ data_ RawMemory.Capacity capacity_ RawMemory.GetAddress buffer_];
    rewrite Hleb;
    rewrite (run_bind_ok _ _ _ _ _ Hctor);
    (rewrite (run_bind_ok _ _ _ tt w1)
       by (apply run_unwinding_ok; by destruct Vector.moves_elements)).
  - rewrite (run_bind_ok _ _ _ tt w1) by done.
    unfold RawMemory.Swap. cbn [buffer_ capacity_].
    erewrite run_bind_ok; [|by apply run_set_data].
    eexists. split; [reflexivity|]. split; [|done].
    apply Hstores; simpl; by rewrite lookup_insert_eq.
  - assert (a ≠ b) as Hab.
    { intros ->. unfold b in Ha. by rewrite fresh_not_in_heap in Ha. }
    unfold RawMemory.Swap. cbn [buffer_ capacity_].
    erewrite (run_adopt w1 this a b [] tail); [|done|done|].
    2:{ by apply handed_out_lookup_old. }
    eexists. split; [reflexivity|]. split; [|done].
    apply Hstores; simpl.
    + by rewrite lookup_insert_eq.
    + rewrite lookup_delete_ne by done. by rewrite lookup_insert_eq.
Qed.
End ReserveEdges.

(** ** [Swap] and move assignment on two vectors *)

Section Pairs.
Context {T : Type} `{!Element T}.
Implicit Types (w : world T) (p : ptr) (this other rhs : vid) (vs : list T).

(** [Swap] of a vector with itself *)
Lemma run_Swap_self w this v :
  objs w !! this = Some v → Vector.Swap this this w = Ok tt w.
Proof.
  intros Hv. unfold Vector.Swap.
  rewrite (run_bind_ok _ _ _ _ _ (run_get _ _ _ Hv)).
  rewrite (run_bind_ok _ _ _ _ _ (run_get _ _ _ Hv)).
  unfold RawMemory.Swap. rewrite !RawMemory_eta.
  rewrite (run_bind_ok _ _ _ _ _ (run_set_data _ _ _ _ Hv)).
  erewrite run_bind_ok; [|apply run_set_data; simpl; apply lookup_insert_eq].
  erewrite run_bind_ok; [|apply run_get; simpl; apply lookup_insert_eq].
  erewrite run_bind_ok; [|apply run_get; simpl; apply lookup_insert_eq].
  erewrite run_bind_ok; [|apply run_set_size; simpl; apply lookup_insert_eq].
  erewrite run_set_size; [|simpl; apply lookup_insert_eq].
  f_equal. unfold set_objs. simpl. rewrite !insert_insert_eq, Vector_eta.
  rewrite insert_id by done. apply world_eta.
Qed.

(** [Swap(other)].  The call returns and never touches an element or the
    allocator: each of the two vectors then has the elements, the size and
    the capacity the other one had.  A second [Swap] gives back the store
    before the first; a vector swapped with itself is left as it is. *)
Theorem Swap_exchanges w this other vs1 c1 vs2 c2 :
  represents w this vs1 c1 → represents w other vs2 c2 →
  ∃ w', Vector.Swap this other w = Ok tt w' ∧
        represents w' this vs2 c2 ∧ represents w' other vs1 c1 ∧
        heap w' = heap w ∧ avail w' = avail w ∧
        Vector.Swap this other w' = Ok tt w ∧
        (this = other → w' = w).
Proof.
  intros Hthis Hother.
  pose proof Hthis as (v & _ & Hv & _). pose proof Hother as (o & _ & Ho & _).
  destruct (decide (this = other)) as [<-|Hne].
  { exists w. rewrite (run_Swap_self w this v Hv).
    destruct (represents_agree _ _ _ _ _ _ Hthis Hother) as [-> ->]. done. }
  exists (set_objs w (<[other := v]> (<[this := o]> (objs w)))).
  split; [by apply run_Swap|]. split.
  { eapply represents_ext; [| |exact Hother]; [done|]. simpl.
    rewrite lookup_insert_ne by done. by rewrite lookup_insert_eq. }
  split.
  { eapply represents_ext; [| |exact Hthis]; [done|]. simpl.
    by rewrite lookup_insert_eq. }
  split; [done|]. split; [done|]. split; [|done].
  erewrite run_Swap; [|done|..]; cycle 1.
  { simpl. rewrite lookup_insert_ne by done. apply lookup_insert_eq. }
  { simpl. apply lookup_insert_eq. }
  f_equal. unfold set_objs. simpl.
  replace (<[other:=o]> (<[this:=v]> (<[other:=v]> (<[this:=o]> (objs w)))))
    with (objs w); [apply world_eta|].
  apply map_eq. intros i. rewrite !lookup_insert.
  repeat case_decide; congruence.
Qed.

(** Move assignment [this = std::move(rhs)] between two vectors.  The call
    returns, touching no element and no storage: [this] then has the
    elements, the size and the capacity [rhs] had.  When the size of [rhs]
    exceeds the capacity of [this], the two vectors are swapped and [rhs]
    has what [this] had.  Otherwise only the buffers are swapped: [rhs]
    gets the buffer of [this] and keeps its own size. *)
Theorem op_assign_move_spec w this rhs vs1 c1 vs2 c2 :
  this ≠ rhs →
  represents w this vs1 c1 → represents w rhs vs2 c2 →
  ∃ w', Vector.op_assign_move this rhs w = Ok tt w' ∧
        represents w' this vs2 c2 ∧
        heap w' = heap w ∧ avail w' = avail w ∧
        (c1 < N.of_nat (length vs2) → represents w' rhs vs1 c1) ∧
        (N.of_nat (length vs2) ≤ c1 →
         ∃ v, objs w !! this = Some v ∧
              objs w' !! rhs
              = Some {| data_ := data_ v; size_ := N.of_nat (length vs2) |}).
Proof.
  intros Hne Hthis Hrhs.
  destruct (represents_object _ _ _ _ Hthis) as (v & Hv & Hvs & Hvc & _).
  destruct (represents_object _ _ _ _ Hrhs) as (r & Hr & Hrs & Hrc & _).
  unfold Vector.op_assign_move.
  rewrite bool_decide_eq_false_2 by done. simpl.
  rewrite (run_bind_ok _ _ _ _ _ (run_get _ _ _ Hv)).
  rewrite (run_bind_ok _ _ _ _ _ (run_get _ _ _ Hr)).
  unfold RawMemory.Capacity. rewrite Hvc, Hrs.
  destruct (c1 <? N.of_nat (length vs2)) eqn:Hlt.
  - apply N.ltb_lt in Hlt.
    eexists. split; [by apply run_Swap|]. split.
    { eapply represents_ext; [| |exact Hrhs]; [done|]. simpl.
      rewrite lookup_insert_ne by done. by rewrite lookup_insert_eq. }
    split; [done|]. split; [done|]. split; [|lia]. intros _.
    eapply represents_ext; [| |exact Hthis]; [done|]. simpl.
    by rewrite lookup_insert_eq.
  - apply N.ltb_ge in Hlt.
    unfold RawMemory.Swap. rewrite !RawMemory_eta.
    rewrite (run_bind_ok _ _ _ _ _ (run_set_data _ _ _ _ Hv)).
    erewrite run_bind_ok;
      [|apply run_set_data; simpl; rewrite lookup_insert_ne by done; exact Hr].
    erewrite run_bind_ok; [|apply run_get; simpl; apply lookup_insert_eq].
    eexists. split.
    { apply run_set_size. simpl. rewrite lookup_insert_ne by done.
      apply lookup_insert_eq. }
    split.
    { eapply represents_ext; [| |exact Hrhs]; [done|]. simpl.
      rewrite lookup_insert_eq. by rewrite Vector_eta. }
    split; [done|]. split; [done|]. split; [lia|]. intros _.
    exists v. split; [done|]. simpl.
    rewrite lookup_insert_ne by done. rewrite lookup_insert_eq.
    by rewrite <- Hvc, RawMemory_eta, Hrs.
Qed.
End Pairs.

(** ** Copy assignment *)

Section CopyAssignment.
Context {T : Type} `{!Element T} `{!ElementLaws T}.
Implicit Types (w : world T) (p : ptr) (this rhs t : vid) (a b : addr)
  (vs : list T) (n : N).

(** [*dst = *src] between two blocks *)
Lemma spec_assign_copy w dst src a1 a2 pre1 x post1 pre2 y post2 :
  a1 ≠ a2 →
  base dst = Some a1 → N.to_nat (off dst) = length pre1 →
  base src = Some a2 → N.to_nat (off src) = length pre2 →
  heap w !! a1 = Some (pre1 ++ Some x :: post1) →
  heap w !! a2 = Some (pre2 ++ Some y :: post2) →
  spec (assign_copy dst src w) (is_Some (copy_assign x y))
    (λ _ w', w' = with_block w a1 (pre1 ++ Some y :: post1)).
Proof.
  intros Hne Hdb Hdo Hsb Hso Ha1 Ha2. unfold assign_copy.
  rewrite (run_bind_ok _ _ _ _ _ (run_load_middle _ _ _ _ _ _ Hdb Hdo Ha1)).
  rewrite (run_bind_ok _ _ _ _ _ (run_load_middle _ _ _ _ _ _ Hsb Hso Ha2)).
  destruct (copy_assign x y) as [d'|] eqn:Hca; cycle 1.
  { apply spec_not_ok; [done|]. by intros [? ?]. }
  apply copy_assign_value in Hca as ->.
  rewrite (run_bind_ok _ _ _ y w) by done.
  eapply spec_ok; [|done].
  by apply (run_update_middle _ _ _ _ x).
Qed.

(** the loop [for (i = ...; ...; ++i) data_[i] = rhs.data_[i]] over
    constructed objects of two blocks *)
Lemma spec_assign_loop news :
  ∀ w (d r : RawMemory) a1 a2 i pre1 (olds : list T) post1 pre2 post2,
    a1 ≠ a2 →
    buffer_ d = {| base := Some a1; off := 0 |} →
    buffer_ r = {| base := Some a2; off := 0 |} →
    N.to_nat i = length pre1 → N.to_nat i = length pre2 →
    length olds = length news →
    i + N.of_nat (length news) ≤ capacity_ d →
    i + N.of_nat (length news) ≤ capacity_ r →
    capacity_ d < size_t_modulus →
    heap w !! a1 = Some (pre1 ++ (Some <$> olds) ++ post1) →
    heap w !! a2 = Some (pre2 ++ (Some <$> news) ++ post2) →
    spec (Vector.assign_loop d r i (length news) w)
      (∀ x y : T, is_Some (copy_assign x y))
      (λ _ w', w' = with_block w a1 (pre1 ++ (Some <$> news) ++ post1)).
Proof.
  induction news as [|y news IH];
    intros w d r a1 a2 i pre1 olds post1 pre2 post2
      Hne Hd Hr Hi1 Hi2 Hlen Hcd Hcr Hmod Ha1 Ha2.
  { destruct olds; [|done]. eapply spec_ok; [done|].
    by rewrite with_block_same. }
  destruct olds as [|x olds]; [done|]. simpl in *.
  rewrite (run_bind_ok _ _ _ _ w) by (apply run_op_index; lia).
  rewrite (run_bind_ok _ _ _ _ w) by (apply run_op_index; lia).
  rewrite Hd, Hr.
  eapply spec_bind.
  - eapply (spec_assign_copy w _ _ a1 a2 pre1 x ((Some <$> olds) ++ post1)
              pre2 y ((Some <$> news) ++ post2)); try done; simpl; lia.
  - intros Hquiet. apply Hquiet.
  - simpl. intros [] w1 _ ->.
    rewrite wrap_small by lia.
    eapply spec_weaken.
    + eapply (IH _ d r a1 a2 (i + 1) (pre1 ++ [Some y]) olds post1
                (pre2 ++ [Some y]) post2); try done.
      * rewrite length_app. simpl. lia.
      * rewrite length_app. simpl. lia.
      * lia.
      * lia.
      * lia.
      * rewrite with_block_lookup. by rewrite <- app_assoc.
      * rewrite with_block_lookup_ne by done. by rewrite <- app_assoc.
    + done.
    + simpl. intros _ w' _ ->. rewrite with_block_twice.
      by rewrite <- app_assoc.
Qed.

(** a vector is the one it was in a store that kept its object and its
    block *)
Lemma represents_keep w w' this vs cap :
  represents w this vs cap →
  objs w' !! this = objs w !! this →
  (∀ v a blk, objs w !! this = Some v → base (buffer_ (data_ v)) = Some a →
              heap w !! a = Some blk → heap w' !! a = Some blk) →
  represents w' this vs cap.
Proof.
  intros (v & blk & Hv & Hblk & Hrest) Hobjs Hheap.
  exists v, blk. split; [by rewrite Hobjs|]. split; [|done].
  unfold block_of in *. destruct (base (buffer_ (data_ v))) as [a|] eqn:Ha; [|done].
  destruct ((off (buffer_ (data_ v)) =? 0) && negb (capacity_ (data_ v) =? 0));
    [by apply (Hheap v a)|done].
Qed.

(** as [represents_keep], for an object that moved to another address *)
Lemma represents_moved w w' this that vs cap :
  represents w this vs cap →
  objs w' !! that = objs w !! this →
  (∀ v a blk, objs w !! this = Some v → base (buffer_ (data_ v)) = Some a →
              heap w !! a = Some blk → heap w' !! a = Some blk) →
  represents w' that vs cap.
Proof.
  intros (v & blk & Hv & Hblk & Hrest) Hobjs Hheap.
  exists v, blk. split; [by rewrite Hobjs|]. split; [|done].
  unfold block_of in *. destruct (base (buffer_ (data_ v))) as [a|] eqn:Ha; [|done].
  destruct ((off (buffer_ (data_ v)) =? 0) && negb (capacity_ (data_ v) =? 0));
    [by apply (Hheap v a)|done].
Qed.

(** the last statement of copy assignment, [size_ = rhs.Size()] *)
Lemma run_assign_size w this rhs v r :
  objs w !! this = Some v → objs w !! rhs = Some r →
  (r0 ← Vector.get rhs; Vector.set_size this (size_ r0)) w
  = Ok tt (set_objs w (<[this := {| data_ := data_ v; size_ := size_ r |}]> (objs w))).
Proof.
  intros Hv Hr. rewrite (run_bind_ok _ _ _ _ _ (run_get _ _ _ Hr)).
  by apply run_set_size.
Qed.

Lemma run_ctor_copy_no_room w other o :
  objs w !! other = Some o → size_ o ≠ 0 → size_ o ≤ max_size →
  ¬ size_ o * sizeof_T ≤ avail w →
  Vector.ctor_copy other w = Throw bad_alloc w.
Proof.
  intros Ho Hn Hmax Hroom. unfold Vector.ctor_copy.
  rewrite (run_bind_ok _ _ _ _ _ (run_get _ _ _ Ho)).
  erewrite run_bind_throw; [done|].
  apply run_ctor_capacity_fail; [done|lia|tauto].
Qed.

(** copy assignment from a vector with more elements than [this] has
    capacity: [this] gets a new block of just the size of [rhs]; when the
    copy cannot be made, the store is the one before the call *)
Lemma assign_copy_grows w this rhs vs1 c1 vs2 c2 :
  this ≠ rhs → apart w this rhs →
  represents w this vs1 c1 → represents w rhs vs2 c2 →
  c1 < N.of_nat (length vs2) →
  spec (Vector.op_assign_copy this rhs w)
    (N.of_nat (length vs2) * sizeof_T ≤ avail w ∧
     ∀ v : T, is_Some (copy_construct v))
    (λ _ w', represents w' this vs2 (N.of_nat (length vs2)) ∧
             represents w' rhs vs2 c2) ∧
  ∀ e w', Vector.op_assign_copy this rhs w = Throw e w' → w' = w.
Proof.
  intros Hne Hapart Hthis Hrhs Hlt.
  pose proof (represents_size_bound _ _ _ _ Hrhs) as [Hsz2 Hcap2].
  destruct (represents_object _ _ _ _ Hthis) as (v & Hv & Hvs & Hvc & Hvoff).
  assert (vs2 ≠ []) as Hne2 by (intros ->; simpl in Hlt; lia).
  destruct (represents_inv _ _ _ _ Hrhs)
    as [Hmax2 [(_ & -> & _)|(Hc2 & a2 & tail2 & Hr & Ha2 & Hl2)]]; [done|].
  set (n := N.of_nat (length vs2)) in *.
  set (b := fresh (dom (heap w))).
  set (t := fresh (dom (objs w))).
  assert (objs w !! t = None) as Hfresh by apply not_elem_of_dom, is_fresh.
  assert (this ≠ t) as Hthis_t by (intros ->; congruence).
  assert (rhs ≠ t) as Hrhs_t by (intros ->; congruence).
  assert (a2 ≠ b) as Ha2b.
  { intros ->. unfold b in Ha2. by rewrite fresh_not_in_heap in Ha2. }
  unfold Vector.op_assign_copy. rewrite bool_decide_eq_false_2 by done.
  cbn [negb]. rewrite !run_bind_assoc.
  rewrite (run_bind_ok _ _ _ _ _ (run_get _ _ _ Hv)). rewrite !run_bind_assoc.
  rewrite (run_bind_ok _ _ _ _ _ (run_get _ _ _ Hr)).
  match goal with
  | |- context [RawMemory.Capacity ?d <? ?s] =>
      replace (RawMemory.Capacity d <? s) with true
        by (symmetry; unfold RawMemory.Capacity; simpl; rewrite Hvc;
            by apply N.ltb_lt)
  end.
  rewrite !run_bind_assoc.
  destruct (decide (n * sizeof_T ≤ avail w)) as [Hav|Hshort]; cycle 1.
  { erewrite run_bind_throw; cycle 1.
    { apply (run_ctor_copy_no_room w rhs _ Hr); simpl.
      - unfold n. destruct vs2; [done|simpl; lia].
      - lia.
      - done. }
    split; [|by intros e w' [= _ <-]].
    apply spec_not_ok; [done|tauto]. }
  destruct (run_ctor_copy w rhs a2 tail2 vs2 c2 Hne2 Hr Ha2 ltac:(lia) Hav)
    as [Hout Hreturns]. fold n in Hout.
  destruct (Vector.ctor_copy rhs w) as [t' w1|e w1|] eqn:Hcopy; cycle 1.
  { rewrite (run_bind_throw _ _ _ _ _ Hcopy). simpl in Hout. subst w1.
    split; [|by intros e0 w' [= _ <-]].
    apply spec_not_ok; [done|].
    intros [_ Hquiet]. by specialize (Hreturns Hquiet). }
  { rewrite run_bind, Hcopy. split; [|done].
    apply spec_not_ok; [done|].
    intros [_ Hquiet]. by specialize (Hreturns Hquiet). }
  simpl in Hout. destruct Hout as [-> ->]. fold t b.
  rewrite (run_bind_ok _ _ _ _ _ Hcopy). rewrite !run_bind_assoc.
  set (new := {| data_ := {| buffer_ := fresh_ptr w; capacity_ := n |};
                 size_ := n |}).
  set (w1 := set_objs (with_block (allocated w n) b (Some <$> vs2))
               (<[t := new]> (objs w))).
  assert (∀ a blk, heap w !! a = Some blk → heap w1 !! a = Some blk) as Hkept.
  { intros a blk Ha. by apply heap_frame_allocated. }
  erewrite run_bind_ok; cycle 1.
  { apply (run_Swap w1 this t v new Hthis_t).
    - simpl. by rewrite lookup_insert_ne.
    - simpl. by rewrite lookup_insert_eq. }
  set (w2 := set_objs w1 (<[t := v]> (<[this := new]> (objs w1)))).
  assert (represents w2 t vs1 c1) as Hold.
  { apply (represents_moved w w2 this t vs1 c1 Hthis).
    - simpl. by rewrite lookup_insert_eq.
    - intros v0 a blk _ _ Ha. by apply Hkept. }
  destruct (dtor_result w2 t vs1 c1 Hold)
    as (v' & w3 & Hv' & Hdtor & Hobjs3 & _ & Hheap3).
  assert (v' = v) as ->.
  { simpl in Hv'. rewrite lookup_insert_eq in Hv'. by injection Hv'. }
  rewrite (run_bind_ok _ _ _ _ _ Hdtor).
  assert (objs w3 !! this = Some new) as Hthis3.
  { rewrite Hobjs3. simpl. rewrite lookup_delete_ne by done.
    rewrite lookup_insert_ne by done. by rewrite lookup_insert_eq. }
  assert (objs w3 !! rhs = Some
            {| data_ := {| buffer_ := {| base := Some a2; off := 0 |};
                           capacity_ := c2 |};
               size_ := n |}) as Hrhs3.
  { rewrite Hobjs3. simpl. rewrite lookup_delete_ne by done.
    rewrite !lookup_insert_ne by done. exact Hr. }
  assert (∀ a blk, heap w2 !! a = Some blk →
            base (buffer_ (data_ v)) ≠ Some a → heap w3 !! a = Some blk) as Hkept3.
  { intros a blk Ha Hnot. rewrite Hheap3.
    destruct (base (buffer_ (data_ v))) as [a1|]; [|done].
    rewrite lookup_delete_ne; [done|]. intros ->. done. }
  rewrite (run_assign_size w3 this rhs new _ Hthis3 Hrhs3).
  split; [|done]. eapply spec_ok; [done|].
  split.
  - eapply (represents_intro _ _ _ n b []); try done.
    + unfold n. destruct vs2; [done|simpl; lia].
    + lia.
    + simpl. by rewrite lookup_insert_eq.
    + simpl. apply Hkept3.
      * simpl. rewrite lookup_insert_eq. by rewrite app_nil_r.
      * intros Hb. assert (is_Some (heap w !! b)) as [blk Hblk].
        { destruct Hthis as (v0 & blk & Hv0 & Hblk & _).
          rewrite Hv in Hv0. injection Hv0 as <-.
          unfold block_of in Hblk. rewrite Hb in Hblk.
          destruct ((off (buffer_ (data_ v)) =? 0)
                    && negb (capacity_ (data_ v) =? 0)); [by eexists|done]. }
        unfold b in Hblk. by rewrite fresh_not_in_heap in Hblk.
    + simpl. lia.
  - eapply (represents_intro _ _ _ c2 a2 tail2); try done.
    + simpl. rewrite lookup_insert_ne by done. exact Hrhs3.
    + simpl. apply Hkept3.
      * by apply Hkept.
      * intros Hsame. by apply (Hapart v _ a2 Hv Hr Hsame).
Qed.

(** what [represents] says of the object of a vector that owns a block *)
Lemma represents_block w this vs cap :
  represents w this vs cap → cap ≠ 0 →
  ∃ v a tail,
    objs w !! this = Some v ∧
    buffer_ (data_ v) = {| base := Some a; off := 0 |} ∧
    capacity_ (data_ v) = cap ∧ size_ v = N.of_nat (length vs) ∧
    heap w !! a = Some ((Some <$> vs) ++ tail) ∧
    N.of_nat (length vs + length tail) = cap.
Proof.
  intros Hrep Hcap.
  destruct (represents_inv _ _ _ _ Hrep)
    as [_ [(-> & _)|(_ & a & tail & Hv & Ha & Hl)]]; [done|].
  by eexists _, a, tail.
Qed.

(** copy assignment from a vector with fewer elements: the first elements
    are assigned, the others destroyed *)
Lemma assign_copy_shrinks w this rhs vs1 c1 vs2 c2 :
  this ≠ rhs → apart w this rhs →
  represents w this vs1 c1 → represents w rhs vs2 c2 →
  N.of_nat (length vs2) < N.of_nat (length vs1) →
  spec (Vector.op_assign_copy this rhs w)
    (∀ x y : T, is_Some (copy_assign x y))
    (λ _ w', represents w' this vs2 c1 ∧ represents w' rhs vs2 c2).
Proof.
  intros Hne Hapart Hthis Hrhs Hlt.
  pose proof (represents_size_bound _ _ _ _ Hthis) as [Hsz1 Hcap1].
  pose proof (represents_size_bound _ _ _ _ Hrhs) as [Hsz2 Hcap2].
  destruct (represents_block _ _ _ _ Hthis ltac:(lia))
    as (v & a1 & tail1 & Hv & Hvb & Hvc & Hvs & Ha1 & Hl1).
  destruct (represents_object _ _ _ _ Hrhs) as (r & Hr & Hrs & Hrc & Hroff).
  pose proof (represents_inv _ _ _ _ Hthis) as [Hmax1 _].
  set (k := length vs2).
  assert (k < length vs1)%nat as Hk by (unfold k; lia).
  assert (vs1 = take k vs1 ++ drop k vs1) as Hsplit by (by rewrite take_drop).
  assert (length (take k vs1) = k) as Htake by (rewrite length_take; lia).
  assert (length (drop k vs1) = (length vs1 - k)%nat) as Hdrop by apply length_drop.
  unfold Vector.op_assign_copy. rewrite bool_decide_eq_false_2 by done.
  cbn [negb]. rewrite !run_bind_assoc.
  rewrite (run_bind_ok _ _ _ _ _ (run_get _ _ _ Hv)). rewrite !run_bind_assoc.
  rewrite (run_bind_ok _ _ _ _ _ (run_get _ _ _ Hr)).
  unfold RawMemory.Capacity. rewrite Hvc, Hrs, Hvs.
  assert ((c1 <? N.of_nat (length vs2)) = false) as -> by (apply N.ltb_ge; lia).
  assert ((N.of_nat (length vs2) <? N.of_nat (length vs1)) = true) as ->
    by (by apply N.ltb_lt).
  rewrite !run_bind_assoc. rewrite Nat2N.id.
  assert (spec (Vector.assign_loop (data_ v) (data_ r) 0 (length vs2) w)
            (∀ x y : T, is_Some (copy_assign x y))
            (λ _ w1, w1 = with_block w a1
                            ((Some <$> vs2) ++ (Some <$> drop k vs1) ++ tail1)))
    as Hloop.
  { destruct (decide (vs2 = [])) as [->|Hne2].
    { eapply spec_ok; [done|]. simpl. rewrite with_block_same; [done|].
      by rewrite Ha1. }
    destruct (represents_block _ _ _ _ Hrhs) as (r' & a2 & tail2 & Hr' & Hrb & _ & _ & Ha2 & Hl2).
    { destruct vs2; [done|simpl in *; lia]. }
    rewrite Hr in Hr'. injection Hr' as <-.
    assert (a1 ≠ a2) as Hab.
    { intros <-. apply (Hapart v r a1 Hv Hr); by rewrite ?Hvb, ?Hrb. }
    eapply spec_weaken.
    - eapply (spec_assign_loop vs2 w (data_ v) (data_ r) a1 a2 0 []
                (take k vs1) ((Some <$> drop k vs1) ++ tail1) [] tail2);
        try done.
      + rewrite Hvc. lia.
      + rewrite Hrc. lia.
      + by rewrite Hvc.
      + simpl. rewrite Ha1. f_equal. rewrite Hsplit at 1.
        by rewrite fmap_app, <- app_assoc.
    - done.
    - done. }
  eapply spec_bind; [exact Hloop|done|].
  simpl. intros [] w1 _ ->.
  assert (N.of_nat (length vs2) ≤ capacity_ (data_ v)) as Hoff
    by (rewrite Hvc; lia).
  rewrite !run_bind_assoc.
  rewrite (run_bind_ok _ _ _ _ _ (run_op_plus _ (data_ v) _ Hoff)).
  rewrite Hvb. rewrite size_t_sub_small by lia.
  erewrite run_bind_ok; cycle 1.
  { eapply (run_destroy_n (drop k vs1) _ _ a1 (Some <$> vs2) tail1); try done.
    - rewrite Hdrop. unfold k. lia.
    - simpl. rewrite length_fmap. lia.
    - by rewrite with_block_lookup. }
  rewrite with_block_twice.
  eapply spec_ok.
  { eapply (run_assign_size _ this rhs v r); [exact Hv|exact Hr]. }
  rewrite Hrs. split.
  - eapply (represents_intro _ _ _ c1 a1
              (replicate (length (drop k vs1)) None ++ tail1)); try done.
    + lia.
    + simpl. rewrite lookup_insert_eq. do 2 f_equal.
      rewrite <- Hvc, <- Hvb. by destruct (data_ v).
    + simpl. by rewrite lookup_insert_eq.
    + rewrite length_app, length_replicate, Hdrop. unfold k in *. lia.
  - apply (represents_keep w _ rhs vs2 c2 Hrhs).
    + simpl. by rewrite lookup_insert_ne.
    + intros r0 a blk Hr0 Hbase Ha. simpl.
      rewrite lookup_insert_ne; [done|]. intros <-.
      apply (Hapart v r0 a1 Hv Hr0); [by rewrite Hvb|done].
Qed.

(** copy assignment from a vector with at least as many elements that
    fit the capacity of [this]: the elements of [this] are assigned, the
    others of [rhs] copied into the free slots behind them *)
Lemma assign_copy_extends w this rhs vs1 c1 vs2 c2 :
  this ≠ rhs → apart w this rhs →
  represents w this vs1 c1 → represents w rhs vs2 c2 →
  N.of_nat (length vs1) ≤ N.of_nat (length vs2) →
  N.of_nat (length vs2) ≤ c1 →
  spec (Vector.op_assign_copy this rhs w)
    ((∀ x y : T, is_Some (copy_assign x y)) ∧
     ∀ v : T, is_Some (copy_construct v))
    (λ _ w', represents w' this vs2 c1 ∧ represents w' rhs vs2 c2).
Proof.
  intros Hne Hapart Hthis Hrhs Hle Hfit.
  pose proof (represents_size_bound _ _ _ _ Hthis) as [Hsz1 Hcap1].
  pose proof (represents_size_bound _ _ _ _ Hrhs) as [Hsz2 Hcap2].
  destruct (represents_object _ _ _ _ Hrhs) as (r & Hr & Hrs & Hrc & Hroff).
  unfold Vector.op_assign_copy. rewrite bool_decide_eq_false_2 by done.
  cbn [negb]. rewrite !run_bind_assoc.
  destruct (decide (vs2 = [])) as [->|Hne2].
  { destruct vs1; [|simpl in *; lia].
    destruct (represents_object _ _ _ _ Hthis) as (v & Hv & Hvs & Hvc & Hvoff).
    rewrite (run_bind_ok _ _ _ _ _ (run_get _ _ _ Hv)). rewrite !run_bind_assoc.
    rewrite (run_bind_ok _ _ _ _ _ (run_get _ _ _ Hr)).
    unfold RawMemory.Capacity. rewrite Hvc, Hrs, Hvs. simpl length.
    assert ((c1 <? N.of_nat 0) = false) as -> by (apply N.ltb_ge; lia).
    assert ((N.of_nat 0 <? N.of_nat 0) = false) as -> by (by apply N.ltb_ge).
    rewrite !run_bind_assoc. simpl N.to_nat. cbn [Vector.assign_loop].
    erewrite run_bind_ok; [|reflexivity].
    assert (N.of_nat 0 ≤ capacity_ (data_ r)) as Hoff by (rewrite Hrc; lia).
    rewrite !run_bind_assoc.
    rewrite (run_bind_ok _ _ _ _ _ (run_op_plus _ (data_ r) _ Hoff)).
    rewrite size_t_sub_small by lia.
    erewrite run_bind_ok; [|reflexivity].
    eapply spec_ok.
    { eapply (run_assign_size _ this rhs v r); [exact Hv|exact Hr]. }
    rewrite Hrs, <- Hvs, Vector_eta, insert_id by done.
    replace (set_objs w (objs w)) with w by (by destruct w).
    done. }
  assert (c1 ≠ 0) as Hc1 by (destruct vs2; [done|simpl in *; lia]).
  assert (c2 ≠ 0) as Hc2 by (destruct vs2; [done|simpl in *; lia]).
  destruct (represents_block _ _ _ _ Hthis Hc1)
    as (v & a1 & tail1 & Hv & Hvb & Hvc & Hvs & Ha1 & Hl1).
  destruct (represents_block _ _ _ _ Hrhs Hc2)
    as (r' & a2 & tail2 & Hr' & Hrb & _ & _ & Ha2 & Hl2).
  rewrite Hr in Hr'. injection Hr' as <-.
  assert (a1 ≠ a2) as Hab.
  { intros <-. apply (Hapart v r a1 Hv Hr); by rewrite ?Hvb, ?Hrb. }
  set (k := length vs1).
  assert (k ≤ length vs2)%nat as Hk by (unfold k; lia).
  set (m := (length vs2 - k)%nat).
  assert (vs2 = take k vs2 ++ drop k vs2) as Hsplit by (by rewrite take_drop).
  assert (length (take k vs2) = k) as Htake by (rewrite length_take; lia).
  assert (length (drop k vs2) = m) as Hdrop by apply length_drop.
  assert (m ≤ length tail1)%nat as Hm by (unfold m, k; lia).
  assert (tail1 = take m tail1 ++ drop m tail1) as Htail by (by rewrite take_drop).
  rewrite (run_bind_ok _ _ _ _ _ (run_get _ _ _ Hv)). rewrite !run_bind_assoc.
  rewrite (run_bind_ok _ _ _ _ _ (run_get _ _ _ Hr)).
  unfold RawMemory.Capacity, RawMemory.GetAddress. rewrite Hvc, Hrs, Hvs.
  assert ((c1 <? N.of_nat (length vs2)) = false) as -> by (apply N.ltb_ge; lia).
  assert ((N.of_nat (length vs2) <? N.of_nat (length vs1)) = false) as ->
    by (by apply N.ltb_ge).
  rewrite !run_bind_assoc. rewrite Nat2N.id.
  assert (spec (Vector.assign_loop (data_ v) (data_ r) 0 (length vs1) w)
            (∀ x y : T, is_Some (copy_assign x y))
            (λ _ w1, w1 = with_block w a1 ((Some <$> take k vs2) ++ tail1)))
    as Hloop.
  { fold k. rewrite <- Htake at 1.
    eapply spec_weaken.
    - eapply (spec_assign_loop (take k vs2) w (data_ v) (data_ r) a1 a2 0 []
                vs1 tail1 [] ((Some <$> drop k vs2) ++ tail2));
        try done.
      + rewrite Hvc, Htake. unfold k. lia.
      + rewrite Hrc, Htake. unfold k. lia.
      + by rewrite Hvc.
      + simpl. rewrite Ha2. f_equal. rewrite Hsplit at 1.
        by rewrite fmap_app, <- app_assoc.
    - done.
    - done. }
  eapply spec_bind; [exact Hloop|tauto|].
  simpl. intros [] w1 _ ->.
  assert (N.of_nat (length vs1) ≤ capacity_ (data_ r)) as Hoff
    by (rewrite Hrc; lia).
  rewrite !run_bind_assoc.
  rewrite (run_bind_ok _ _ _ _ _ (run_op_plus _ (data_ r) _ Hoff)).
  rewrite Hvb, Hrb. rewrite size_t_sub_small by lia.
  eapply spec_bind.
  { eapply (spec_uninitialized_copy_n (drop k vs2) _ _ _ a2 a1 _
              (Some <$> take k vs2) tail2 (Some <$> take k vs2)
              (take m tail1) (drop m tail1)); try done.
    - rewrite Hdrop. unfold m, k. lia.
    - simpl. rewrite length_fmap, Htake. unfold k. lia.
    - simpl. rewrite length_fmap, Htake. unfold k. lia.
    - rewrite Hdrop, length_take. lia.
    - rewrite with_block_lookup_ne by done. rewrite Ha2. f_equal.
      rewrite Hsplit at 1. by rewrite fmap_app, <- app_assoc.
    - rewrite with_block_lookup. f_equal. by rewrite <- Htail. }
  { tauto. }
  simpl. intros [] w2 _ ->. rewrite with_block_twice.
  rewrite app_assoc, <- fmap_app, <- Hsplit.
  eapply spec_ok.
  { eapply (run_assign_size _ this rhs v r); [exact Hv|exact Hr]. }
  rewrite Hrs. split.
  - eapply (represents_intro _ _ _ c1 a1 (drop m tail1)); try done.
    + pose proof (represents_inv _ _ _ _ Hthis) as [Hmax1 _]. lia.
    + simpl. rewrite lookup_insert_eq. do 2 f_equal.
      rewrite <- Hvc, <- Hvb. by destruct (data_ v).
    + simpl. by rewrite lookup_insert_eq.
    + rewrite length_drop. unfold m, k in *. lia.
  - apply (represents_keep w _ rhs vs2 c2 Hrhs).
    + simpl. by rewrite lookup_insert_ne.
    + intros r0 a blk Hr0 Hbase Ha. simpl.
      rewrite lookup_insert_ne; [done|]. intros <-.
      apply (Hapart v r0 a1 Hv Hr0); [by rewrite Hvb|done].
Qed.

(** [v = v]: nothing is read or written but the size *)
Lemma run_assign_copy_self w this vs cap :
  represents w this vs cap → Vector.op_assign_copy this this w = Ok tt w.
Proof.
  intros Hrep.
  destruct (represents_object _ _ _ _ Hrep) as (v & Hv & _).
  unfold Vector.op_assign_copy. rewrite bool_decide_eq_true_2 by done.
  cbn [negb]. erewrite run_bind_ok; [|reflexivity].
  rewrite (run_assign_size w this this v v Hv Hv).
  rewrite Vector_eta, insert_id by done. by destruct w.
Qed.

(** [Vector& operator=(const Vector& rhs)].  Assigning a vector to itself
    changes nothing.  For two vectors that own different blocks: when the
    call returns, [this] holds the elements of [rhs], in a new block of
    just that size when they did not fit its capacity and in its own block
    otherwise, and [rhs] is as it was; the call returns when the new block,
    if one is needed, can be allocated and no copy throws; and when a new
    block is needed and the call throws, the store is the one before the
    call. *)
Theorem op_assign_copy_spec w this rhs vs1 c1 vs2 c2 :
  represents w this vs1 c1 → represents w rhs vs2 c2 →
  (this = rhs → Vector.op_assign_copy this rhs w = Ok tt w) ∧
  (this ≠ rhs → apart w this rhs →
   let n := N.of_nat (length vs2) in
   let c' := if c1 <? n then n else c1 in
   (∀ u w', Vector.op_assign_copy this rhs w = Ok u w' →
      represents w' this vs2 c' ∧ represents w' rhs vs2 c2) ∧
   ((c1 < n → n * sizeof_T ≤ avail w) →
    (∀ v : T, is_Some (copy_construct v)) →
    (∀ x y : T, is_Some (copy_assign x y)) →
    is_ok (Vector.op_assign_copy this rhs w) = true) ∧
   (c1 < n → ∀ e w', Vector.op_assign_copy this rhs w = Throw e w' → w' = w)).
Proof.
  intros Hthis Hrhs. split.
  { intros <-. by eapply run_assign_copy_self. }
  intros Hne Hapart n c'. unfold c'.
  destruct (c1 <? n) eqn:Hcmp.
  - apply N.ltb_lt in Hcmp.
    destruct (assign_copy_grows w this rhs vs1 c1 vs2 c2 Hne Hapart Hthis Hrhs Hcmp)
      as [[Hpost Hreturns] Hthrows].
    split; [exact Hpost|]. split; [|by intros _].
    intros Hroom Hcopies _. apply Hreturns. split; [by apply Hroom|done].
  - apply N.ltb_ge in Hcmp. split; [|split; [|unfold n in *; lia]].
    + destruct (decide (n < N.of_nat (length vs1))) as [Hlt|Hge].
      * by apply (assign_copy_shrinks w this rhs vs1 c1 vs2 c2).
      * apply (assign_copy_extends w this rhs vs1 c1 vs2 c2); try done.
        unfold n in *. lia.
    + intros _ Hcopies Hassigns.
      destruct (decide (n < N.of_nat (length vs1))) as [Hlt|Hge].
      * by apply (assign_copy_shrinks w this rhs vs1 c1 vs2 c2).
      * apply (assign_copy_extends w this rhs vs1 c1 vs2 c2); try done.
        unfold n in *. lia.
Qed.
End CopyAssignment.

(** ** Appending a copy of an element of the vector itself *)

Section OwnElement.
Context {T : Type} `{!Element T} `{!ElementLaws T}.
Implicit Types (w : world T) (p : ptr) (this : vid) (a b : addr) (vs : list T).

(** with a free slot the copy is made in the block of the element *)
Lemma EmplaceBack_own_in_place w this vs cap (i : nat) x p :
  represents w this vs cap → vs !! i = Some x →
  iterator_at w this i = Some p →
  N.of_nat (length vs) ≠ cap →
  spec (Vector.EmplaceBack this (Copy (At p)) w) (is_Some (copy_construct x))
    (λ it w', represents w' this (vs ++ [x]) cap ∧
              iterator_at w' this (length vs) = Some it).
Proof.
  intros Hrep Hx Hp Hfull.
  pose proof (represents_size_bound _ _ _ _ Hrep) as [Hsz Hcap].
  destruct (represents_inv _ _ _ _ Hrep)
    as [Hmax [(-> & -> & _)|(Hc & a & tail & Hv & Ha & Hl)]]; [done|].
  destruct tail as [|s tail]; [simpl in Hl; lia|].
  unfold iterator_at in Hp. rewrite Hv in Hp. simpl in Hp. injection Hp as <-.
  pose proof (lookup_lt_Some _ _ _ Hx) as Hi.
  unfold Vector.EmplaceBack.
  rewrite (run_bind_ok _ _ _ _ _ (run_get _ _ _ Hv)).
  cbn [size_ data_ RawMemory.Capacity capacity_ RawMemory.GetAddress buffer_].
  apply N.eqb_neq in Hfull as Hfull'. rewrite Hfull'.
  rewrite !run_bind_assoc.
  rewrite (run_bind_ok _ _ _ _ w) by (apply run_op_plus; simpl; lia).
  eapply spec_bind.
  - eapply (spec_placement_new_copy _ _ _ a a (Some <$> take i vs) x
              ((Some <$> drop (S i) vs) ++ s :: tail) (Some <$> vs) s tail);
      try done.
    + simpl. rewrite length_fmap, length_take. lia.
    + rewrite Ha. f_equal.
      rewrite <- (take_drop_middle vs i x Hx) at 1.
      by rewrite fmap_app, <- app_assoc.
    + simpl. rewrite length_fmap. lia.
  - done.
  - simpl. intros [] w2 _ ->.
    eapply spec_ok.
    + apply run_finish_back; [exact Hv|simpl in *; lia|done].
    + split.
      * eapply (represents_intro _ _ _ cap a tail); try done.
        -- simpl. rewrite lookup_insert_eq. do 3 f_equal.
           rewrite length_app. simpl. lia.
        -- simpl. rewrite lookup_insert_eq.
           by rewrite fmap_app, <- app_assoc.
        -- rewrite length_app. simpl in *. lia.
      * unfold iterator_at. simpl. by rewrite lookup_insert_eq.
Qed.

(** a full vector: the copy is made in the new block while the element is
    still in the old one; the elements are transferred afterwards *)
Lemma EmplaceBack_own_grows w this vs cap (i : nat) x p :
  represents w this vs cap → vs !! i = Some x →
  iterator_at w this i = Some p →
  N.of_nat (length vs) = cap →
  spec (Vector.EmplaceBack this (Copy (At p)) w)
    (is_Some (copy_construct x) ∧ grown cap ≤ max_size ∧
     grown cap * sizeof_T ≤ avail w ∧ transfer_never_throws)
    (λ it w', represents w' this (vs ++ [x]) (grown cap) ∧
              iterator_at w' this (length vs) = Some it).
Proof.
  intros Hrep Hx Hp Hfull.
  pose proof (represents_size_bound _ _ _ _ Hrep) as [Hsz Hcap].
  pose proof (lookup_lt_Some _ _ _ Hx) as Hi.
  assert (cap ≠ 0) as Hc by lia.
  destruct (represents_inv _ _ _ _ Hrep)
    as [Hmax [(-> & _)|(_ & a & tail & Hv & Ha & Hl)]]; [done|].
  destruct tail as [|? ?]; [|simpl in Hl; lia]. clear Hl.
  unfold iterator_at in Hp. rewrite Hv in Hp. simpl in Hp. injection Hp as <-.
  unfold Vector.EmplaceBack.
  rewrite (run_bind_ok _ _ _ _ _ (run_get _ _ _ Hv)).
  cbn [size_ data_ RawMemory.Capacity capacity_ RawMemory.GetAddress buffer_].
  rewrite Hfull, N.eqb_refl.
  rewrite <- Hfull at 1. rewrite new_capacity_grown by done.
  set (n := grown cap).
  assert (n = 2 * cap) as Hn by (unfold n, grown; lia).
  assert (n ≠ 0) as Hn0 by lia.
  rewrite !run_bind_assoc.
  assert (n ≤ 2 * max_size) as Hn2 by lia.
  destruct (decide (n ≤ max_size ∧ n * sizeof_T ≤ avail w)) as [[H1 H2]|Hfail]; cycle 1.
  { apply spec_not_ok; [|tauto].
    by rewrite (run_bind_throw _ _ _ _ _ (run_ctor_capacity_fail w n Hn0 Hn2 Hfail)). }
  rewrite (run_bind_ok _ _ _ _ _ (run_ctor_capacity_ok w n Hn0 H1 H2)).
  set (b := fresh (dom (heap w))).
  assert (a ≠ b) as Hab.
  { intros ->. unfold b in Ha. by rewrite fresh_not_in_heap in Ha. }
  set (w1 := allocated w n).
  set (raw := replicate (N.to_nat n - S (length vs)) (@None T)).
  assert (Hb1 : heap w1 !! b
                = Some (replicate (length vs) None ++ None :: raw)).
  { unfold w1, b. rewrite allocated_lookup_new. f_equal.
    apply replicate_middle. lia. }
  assert (Ha1 : heap w1 !! a = Some ((Some <$> vs) ++ []))
    by (by apply allocated_lookup_old).
  assert (Hsrc : heap w1 !! a
                 = Some ((Some <$> take i vs) ++ Some x :: (Some <$> drop (S i) vs))).
  { rewrite Ha1, app_nil_r. f_equal.
    rewrite <- (take_drop_middle vs i x Hx) at 1. by rewrite fmap_app. }
  assert (Hplace :
    spec (placement_new (fresh_ptr w +ₚ cap)
            (Copy (At ({| base := Some a; off := 0 |} +ₚ 0 +ₚ N.of_nat i))) w1)
      (is_Some (copy_construct x))
      (λ _ w2, w2 = with_block w1 b
                      (replicate (length vs) None ++ Some x :: raw))).
  { eapply (spec_placement_new_copy _ _ _ a b (Some <$> take i vs) x
              (Some <$> drop (S i) vs) (replicate (length vs) None) None raw);
      try done.
    - simpl. rewrite length_fmap, length_take. lia.
    - simpl. rewrite length_replicate. lia. }
  rewrite run_bind_assoc.
  eapply spec_bind.
  - apply spec_unwinding.
    instantiate (1 := λ _ w2, ∃ rest,
      length rest = length vs ∧
      w2 = with_block (with_block w1 a (Some <$> rest))
             b ((Some <$> vs) ++ Some x :: raw)).
    instantiate (1 := is_Some (copy_construct x) ∧ transfer_never_throws).
    unfold transfer_never_throws.
    destruct Vector.moves_elements.
    + rewrite (run_bind_ok _ _ _ _ w1) by (apply run_op_plus; simpl; lia).
      eapply spec_bind; [exact Hplace|tauto|].
      simpl. intros [] w2 _ ->.
      eapply spec_weaken.
      * eapply (spec_uninitialized_move_n vs _ _ _ a b _ [] [] []
                  (replicate (length vs) None) (Some x :: raw)); try done.
        -- by rewrite length_replicate.
        -- by rewrite with_block_lookup_ne.
        -- by rewrite with_block_lookup.
      * tauto.
      * simpl. intros _ w' _ (rest & Hrest & ->). exists rest.
        split; [done|].
        rewrite with_block_over by done. by rewrite app_nil_r.
    + eapply spec_bind.
      * apply spec_try_throw.
        rewrite (run_bind_ok _ _ _ _ w1) by (apply run_op_plus; simpl; lia).
        exact Hplace.
      * tauto.
      * simpl. intros [] w2 _ ->.
        eapply spec_weaken.
        -- eapply (spec_uninitialized_copy_n vs _ _ _ a b _ [] [] []
                     (replicate (length vs) None) (Some x :: raw)); try done.
           ++ by rewrite length_replicate.
           ++ by rewrite with_block_lookup_ne.
           ++ by rewrite with_block_lookup.
        -- tauto.
        -- simpl. intros _ w' _ ->. exists vs.
           split; [done|].
           rewrite with_block_twice.
           rewrite (with_block_same w1 a); [done|].
           by rewrite app_nil_r in Ha1.
  - tauto.
  - simpl. intros [] w2 _ (rest & Hrest & ->).
    rewrite !run_bind_assoc. unfold RawMemory.Swap. cbn [buffer_ capacity_].
    rewrite <- Hfull, <- Hrest.
    erewrite (run_adopt_then _ this a b rest []); [|done|exact Hv|]; cycle 1.
    { rewrite with_block_lookup_ne, with_block_lookup by done.
      by rewrite app_nil_r. }
    rewrite Hrest in *.
    eapply spec_ok.
    + pose proof max_size_modulus.
      apply run_finish_back; [apply lookup_insert_eq|simpl; lia|simpl; lia].
    + split.
      * eapply (represents_intro _ _ (vs ++ [x]) n b raw); try done.
        -- simpl. rewrite insert_insert_eq, lookup_insert_eq.
           do 3 f_equal. rewrite length_app. simpl. lia.
        -- simpl. rewrite lookup_delete_ne by done.
           rewrite lookup_insert_eq. by rewrite fmap_app, <- app_assoc.
        -- unfold raw. rewrite length_app, length_replicate. simpl. lia.
      * unfold iterator_at. simpl.
        by rewrite insert_insert_eq, lookup_insert_eq.
Qed.

(** [PushBack(v[i])], the argument a reference to an element of the vector
    itself.  When the call returns, the vector holds the elements it had
    followed by a copy of element [i], also when the call moved the
    elements to a new block.  The call returns when the copy does not throw
    and, for a full vector, the new block can be allocated and no transfer
    throws. *)
Theorem PushBack_own_element w this vs cap (i : nat) x p :
  represents w this vs cap → vs !! i = Some x →
  iterator_at w this i = Some p →
  let cap' := if N.of_nat (length vs) =? cap then grown cap else cap in
  (∀ w', Vector.PushBack this (At p) w = Ok tt w' →
     represents w' this (vs ++ [x]) cap') ∧
  (is_Some (copy_construct x) →
   (N.of_nat (length vs) = cap →
    grown cap ≤ max_size ∧ grown cap * sizeof_T ≤ avail w ∧ transfer_never_throws) →
   ∃ w', Vector.PushBack this (At p) w = Ok tt w').
Proof.
  intros Hrep Hx Hp cap'.
  assert (spec (Vector.EmplaceBack this (Copy (At p)) w)
            (is_Some (copy_construct x) ∧
             (N.of_nat (length vs) = cap →
              grown cap ≤ max_size ∧ grown cap * sizeof_T ≤ avail w ∧
              transfer_never_throws))
            (λ _ w', represents w' this (vs ++ [x]) cap')) as [Hpost Hreturns].
  { unfold cap'. destruct (N.of_nat (length vs) =? cap) eqn:Hfull.
    - apply N.eqb_eq in Hfull.
      eapply spec_weaken; [by eapply EmplaceBack_own_grows| |].
      + intros [? Hroom]. destruct (Hroom Hfull) as (? & ? & ?). done.
      + by intros it w' _ [? _].
    - apply N.eqb_neq in Hfull.
      eapply spec_weaken; [by eapply EmplaceBack_own_in_place| |].
      + tauto.
      + by intros it w' _ [? _]. }
  unfold Vector.PushBack. split.
  - intros w' (it & w1 & Hrun & Hret)%bind_Ok_inv.
    injection Hret as <-. by eapply Hpost.
  - intros Hcopy Hroom. specialize (Hreturns (conj Hcopy Hroom)).
    rewrite run_bind.
    destruct (Vector.EmplaceBack this (Copy (At p)) w) as [it w'| |];
      [by eexists|done..].
Qed.
End OwnElement.

(** ** Appending to a vector with a free slot *)

Section Stable.
Context {T : Type} `{!Element T} `{!ElementLaws T}.
Implicit Types (w : world T) (p : ptr) (this : vid) (a : addr) (vs : list T).

(** the store after [EmplaceBack] on a vector with a free slot *)
Lemma EmplaceBack_in_place_store w this vs cap x o a s tail :
  external x = true →
  objs w !! this = Some o →
  buffer_ (data_ o) = {| base := Some a; off := 0 |} →
  capacity_ (data_ o) = cap → size_ o = N.of_nat (length vs) →
  heap w !! a = Some ((Some <$> vs) ++ s :: tail) →
  N.of_nat (length vs) < cap → cap < size_t_modulus →
  spec (Vector.EmplaceBack this x w) (is_Some (made x))
    (λ it w', ∃ v,
       made x = Some v ∧
       w' = set_objs (with_block w a ((Some <$> vs) ++ Some v :: tail))
              (<[this := {| data_ := data_ o; size_ := size_ o + 1 |}]> (objs w))).
Proof.
  intros Hext Ho Hob Hoc Hos Ha Hfree Hcap.
  unfold Vector.EmplaceBack.
  rewrite (run_bind_ok _ _ _ _ _ (run_get _ _ _ Ho)).
  unfold RawMemory.Capacity. rewrite Hos, Hoc.
  assert ((N.of_nat (length vs) =? cap) = false) as -> by (apply N.eqb_neq; lia).
  rewrite !run_bind_assoc.
  assert (N.of_nat (length vs) ≤ capacity_ (data_ o)) as Hoff by (rewrite Hoc; lia).
  rewrite (run_bind_ok _ _ _ _ _ (run_op_plus _ (data_ o) _ Hoff)).
  rewrite Hob.
  eapply spec_bind.
  - eapply (spec_placement_new_external _ _ _ a (Some <$> vs) s tail); try done.
    simpl. rewrite length_fmap. lia.
  - done.
  - simpl. intros [] w2 _ (v & Hmade & ->).
    eapply spec_ok.
    + apply run_finish_back; [exact Ho|rewrite Hos, Hoc; lia|by rewrite Hoc].
    + exists v. split; [done|]. by rewrite Hos.
Qed.

(** [EmplaceBack] on a vector whose size is below its capacity, with
    arguments that refer to no element.  When the call returns, no block
    was allocated or freed, the other vectors are the objects they were,
    and every position [begin() + i] of an element is the pointer it was
    and refers to the element it referred to. *)
Theorem EmplaceBack_keeps_positions w this vs cap x it w' :
  represents w this vs cap → external x = true →
  N.of_nat (length vs) < cap →
  Vector.EmplaceBack this x w = Ok it w' →
  avail w' = avail w ∧ dom (heap w') = dom (heap w) ∧
  (∀ t, t ≠ this → objs w' !! t = objs w !! t) ∧
  Vector.Capacity this w' = Ok cap w' ∧
  ∀ (i : nat) y, vs !! i = Some y →
    iterator_at w' this i = iterator_at w this i ∧
    ∃ p, iterator_at w this i = Some p ∧ load p w' = Ok y w'.
Proof.
  intros Hrep Hext Hfree Hrun.
  pose proof (represents_size_bound _ _ _ _ Hrep) as [_ Hcap].
  destruct (represents_block _ _ _ _ Hrep ltac:(lia))
    as (o & a & tail & Ho & Hob & Hoc & Hos & Ha & Hl).
  destruct tail as [|s tail]; [simpl in Hl; lia|].
  destruct (proj1 (EmplaceBack_in_place_store w this vs cap x o a s tail
                     Hext Ho Hob Hoc Hos Ha Hfree Hcap) it w' Hrun)
    as (v & Hmade & ->).
  assert (represents w this vs cap) as Hrep0 by done.
  destruct (proj1 (EmplaceBack_spec w this vs cap x Hrep Hext) it _ Hrun)
    as (v' & Hmade' & Hrep' & _).
  assert ((N.of_nat (length vs) =? cap) = false) as Hne by (apply N.eqb_neq; lia).
  rewrite Hne in Hrep'.
  split; [done|]. split.
  { simpl. apply dom_insert_lookup_L. by eexists. }
  split.
  { intros t Ht. simpl. by rewrite lookup_insert_ne. }
  split.
  { unfold Vector.Capacity. erewrite run_bind_ok;
      [|apply run_get; simpl; apply lookup_insert_eq].
    simpl. unfold RawMemory.Capacity. simpl. by rewrite Hoc. }
  intros i y Hy.
  assert (iterator_at
            (set_objs (with_block w a ((Some <$> vs) ++ Some v :: tail))
               (<[this := {| data_ := data_ o; size_ := size_ o + 1 |}]> (objs w)))
            this i = iterator_at w this i) as Hsame.
  { unfold iterator_at. simpl. by rewrite lookup_insert_eq, Ho. }
  split; [exact Hsame|].
  exists (buffer_ (data_ o) +ₚ 0 +ₚ N.of_nat i). split.
  { unfold iterator_at. by rewrite Ho. }
  eapply (represents_load _ this (vs ++ [v']) cap i y); [exact Hrep'| |].
  - rewrite lookup_app_l; [done|]. by eapply lookup_lt_Some.
  - rewrite Hsame. unfold iterator_at. by rewrite Ho.
Qed.
End Stable.

(** ** [Emplace] in the middle when the constructor throws *)

Section EmplaceFailure.
Context {T : Type} `{!Element T} `{!ElementLaws T}.
Implicit Types (w : world T) (p : ptr) (this : vid) (a : addr) (vs : list T).
Implicit Types (pre post : list (option T)) (s : option T).

(** [new (dst) T(std::move( *src))] into the slot after the source, with
    what the move leaves in the source *)
Lemma run_placement_new_move_right w dst src a pre x m r s post :
  base dst = Some a → base src = Some a →
  N.to_nat (off src) = length pre → N.to_nat (off dst) = S (length pre) →
  heap w !! a = Some (pre ++ Some x :: s :: post) →
  move_construct x = Some (m, r) →
  placement_new dst (Move (At src)) w
  = Ok tt (with_block w a (pre ++ Some r :: Some x :: post)).
Proof.
  intros Hdb Hsb Hso Hdo Ha Hmv. unfold placement_new.
  assert (heap w !! a = Some ((pre ++ [Some x]) ++ s :: post)) as Ha'
    by (by rewrite <- app_assoc).
  assert (N.to_nat (off dst) = length (pre ++ [Some x])) as Hdo'
    by (rewrite length_app; simpl; lia).
  rewrite (run_bind_ok _ _ _ tt w)
    by (eapply run_check_storage, slot_at_middle; done).
  simpl. rewrite run_bind_assoc.
  rewrite (run_bind_ok _ _ _ _ _ (run_load_middle _ _ _ _ _ _ Hsb Hso Ha)).
  rewrite run_bind_assoc. rewrite Hmv.
  apply move_construct_value in Hmv as ->.
  rewrite (run_bind_ok _ _ _ (x, r) w) by done.
  rewrite run_bind_assoc.
  rewrite (run_bind_ok _ _ _ _ _ (run_update_middle _ _ _ _ _ r _ Hsb Hso Ha)).
  rewrite (run_bind_ok _ _ _ x (with_block w a (pre ++ Some r :: s :: post)))
    by done.
  erewrite (run_write_middle _ _ a (pre ++ [Some r]) s (Some x) post); [|done| |].
  - rewrite with_block_twice. by rewrite <- app_assoc.
  - rewrite length_app. simpl. lia.
  - rewrite with_block_lookup. by rewrite <- app_assoc.
Qed.

(** [Emplace(pos, args...)] at the position of an element of a vector that
    has a free slot, when the constructor of the new object throws.  The
    last element was moved to the slot after the end before the
    constructor ran: the exception leaves the call, the vector has the
    size it had and its last element is what the move left of it, and the
    object in the slot after the end is not destroyed. *)
Theorem Emplace_constructor_throws w this front lastv cap (i : nat) pos x m r :
  represents w this (front ++ [lastv]) cap → external x = true →
  (i ≤ length front)%nat → N.of_nat (length front + 1) ≠ cap →
  iterator_at w this i = Some pos →
  made x = None → move_construct lastv = Some (m, r) →
  ∃ w', Vector.Emplace this pos x w = Throw element_error w' ∧
        objs w' = objs w ∧
        represents w' this (front ++ [r]) cap ∧
        slot_of w' this (N.of_nat (length front + 1)) = Some (Some lastv).
Proof.
  intros Hrep Hext Hi Hfull Hpos Hmade Hmv.
  pose proof (represents_size_bound _ _ _ _ Hrep) as [Hsz Hcap].
  destruct (represents_inv _ _ _ _ Hrep)
    as [Hmax [(_ & Hnil & _)|(Hc & a & tail & Hv & Ha & Hl)]];
    [by destruct front|].
  rewrite length_app in *. simpl in *.
  destruct tail as [|s tail]; [simpl in Hl; lia|].
  unfold iterator_at in Hpos. rewrite Hv in Hpos. simpl in Hpos.
  injection Hpos as <-.
  assert (Ha1 : heap w !! a
                = Some ((Some <$> front) ++ Some lastv :: s :: tail)).
  { rewrite Ha, fmap_app. simpl. by rewrite <- app_assoc. }
  unfold Vector.Emplace.
  rewrite (run_Emplace_entry w this _ i _ _ _ Hv);
    [|simpl; lia|done|done|simpl; lia].
  rewrite (run_bind_ok _ _ _ _ _ (run_get _ _ _ Hv)).
  cbn [size_ data_ RawMemory.Capacity capacity_ buffer_].
  apply N.eqb_neq in Hfull as Hfull'. rewrite Hfull'.
  assert ((N.of_nat (length front + 1) =? 0) = false) as Hne
    by (apply N.eqb_neq; lia).
  rewrite Hne. cbn [negb].
  rewrite !run_bind_assoc.
  rewrite (run_bind_ok _ _ _ _ w) by (apply run_end; [done|simpl; lia]).
  rewrite !run_bind_assoc.
  rewrite size_t_sub_small by lia.
  rewrite (run_bind_ok _ _ _ _ w) by (apply run_op_index; simpl; lia).
  cbn [size_ data_ buffer_].
  rewrite !run_bind_assoc.
  erewrite run_bind_ok; cycle 1.
  { eapply (run_placement_new_move_right _ _ _ a (Some <$> front) lastv m r s tail);
      try done; simpl; rewrite length_fmap; lia. }
  rewrite !run_bind_assoc.
  rewrite run_bind, run_make_external by done. rewrite Hmade. simpl.
  eexists. split; [reflexivity|]. split; [done|]. split.
  - eapply (represents_intro _ _ _ cap a (Some lastv :: tail)); try done.
    + simpl. rewrite Hv. do 3 f_equal. rewrite length_app. simpl. lia.
    + rewrite with_block_lookup. f_equal. rewrite fmap_app. simpl.
      by rewrite <- app_assoc.
    + rewrite length_app. simpl in *. lia.
  - unfold slot_of. simpl. rewrite Hv. simpl.
    erewrite slot_at_heap; [|done|apply with_block_lookup]. simpl.
    replace (N.to_nat (0 + N.of_nat (length front + 1)))
      with (length ((Some <$> front) ++ [Some r]))
      by (rewrite length_app, length_fmap; simpl; lia).
    replace ((Some <$> front) ++ Some r :: Some lastv :: tail)
      with (((Some <$> front) ++ [Some r]) ++ Some lastv :: tail)
      by (by rewrite <- app_assoc).
    by rewrite list_lookup_middle.
Qed.
End EmplaceFailure.

(** ** [Resize] when [T()] throws *)

Section ResizeFailure.
Context {T : Type} `{!Element T} `{!ElementLaws T}.
Implicit Types (w : world T) (p : ptr) (this : vid) (a : addr) (vs : list T).

(** [std::uninitialized_value_construct_n] with a [T()] that throws stops
    at the first slot *)
Lemma run_value_construct_throws w p a pre s post n :
  value_construct = None → n ≠ 0 →
  base p = Some a → N.to_nat (off p) = length pre →
  heap w !! a = Some (pre ++ s :: post) →
  uninitialized_value_construct_n p n w = Throw element_error w.
Proof.
  intros Hv0 Hn Hb Ho Ha. unfold uninitialized_value_construct_n.
  destruct (N.to_nat n) as [|k] eqn:Hk; [lia|].
  simpl. erewrite run_bind_throw; [done|].
  eapply run_unwinding_throw; [|done].
  unfold placement_new_value.
  erewrite run_bind_ok; cycle 1.
  { eapply run_check_storage, (slot_at_middle _ _ a pre s post); [done| |done].
    simpl. lia. }
  by rewrite Hv0.
Qed.

(** [Resize(n)] to more elements when [T()] throws.  The exception leaves
    the call and the vector holds the elements it had; when [n] exceeded
    the capacity, the reallocation of [Reserve(n)] is not undone and the
    capacity is [n]; otherwise the store is the one before the call. *)
Theorem Resize_value_constructor_throws w this vs cap n :
  represents w this vs cap → N.of_nat (length vs) < n → n ≤ max_size →
  value_construct = None →
  (cap < n → n * sizeof_T ≤ avail w ∧ transfer_never_throws) →
  ∃ w', Vector.Resize this n w = Throw element_error w' ∧
        represents w' this vs (N.max cap n) ∧
        (n ≤ cap → w' = w).
Proof.
  intros Hrep Hn Hnmax Hv0 Hroom.
  pose proof (represents_size_bound _ _ _ _ Hrep) as [Hsz0 Hcap0].
  pose proof max_size_modulus as Hmod.
  assert (cap ≤ max_size) as Hcapmax by (by destruct (represents_inv _ _ _ _ Hrep)).
  destruct (represents_object _ _ _ _ Hrep) as (v & Hv & Hs & _).
  destruct (Reserve_ensures w this vs cap n Hrep) as [Hpost Hreturns].
  assert (is_ok (Vector.Reserve this n w) = true) as Hok.
  { apply Hreturns. intros Hgrow. destruct (Hroom Hgrow). done. }
  destruct (Vector.Reserve this n w) as [[] w1| |] eqn:Hres; [|done..].
  destruct (Hpost tt w1 eq_refl) as (slots & Hst & _ & Hexact).
  specialize (Hexact Hnmax). subst slots.
  pose proof (N.le_max_r cap n) as Hmaxr.
  pose proof (N.le_max_l cap n) as Hmaxl.
  destruct (stores_inv _ _ _ _ _ Hst) as (a & tail & Hv1 & Ha & Hl); [lia|].
  destruct tail as [|s tail]; [simpl in Hl; lia|].
  exists w1. split; [|split].
  - unfold Vector.Resize.
    rewrite (run_bind_ok _ _ _ _ _ (run_get _ _ _ Hv)). rewrite Hs.
    assert ((n <? N.of_nat (length vs)) = false) as -> by (apply N.ltb_ge; lia).
    apply N.ltb_lt in Hn as Hn'. rewrite Hn'.
    apply run_bind_throw.
    rewrite (run_bind_ok _ _ _ _ _ Hres).
    rewrite (run_bind_ok _ _ _ _ _ (run_get _ _ _ Hv1)).
    cbn [size_ data_].
    rewrite (run_bind_ok _ _ _ _ w1) by (apply run_op_plus; simpl; lia).
    rewrite size_t_sub_small by lia.
    eapply (run_value_construct_throws _ _ a (Some <$> vs) s tail);
      [done|lia|done| |done].
    simpl. rewrite length_fmap. lia.
  - apply represents_stores. split; [done|lia].
  - intros Hle. rewrite (Reserve_no_op w this vs cap n Hrep Hle) in Hres.
    by injection Hres.
Qed.
End ResizeFailure.
(** ** The element types used as concrete inputs obey the laws *)

Global Existing Instance Moody.
Global Existing Instances Int Str Fragile.

Global Instance Int_laws : ElementLaws Z.
Proof. split; simpl; by (intros; simplify_eq) || by eauto. Qed.

Global Instance Str_laws : ElementLaws string.
Proof. split; simpl; by (intros; simplify_eq) || by eauto. Qed.

Global Instance Fragile_laws : ElementLaws N.
Proof.
  split; simpl; try done.
  - intros v v'. by destruct (v =? 13); intros [=].
  - intros v v' r. by destruct (v =? 13); intros [=].
  - by intros ??? [=].
  - by intros ???? [=].
Qed.

Global Instance Moody_laws : ElementLaws bool.
Proof. split; simpl; by (intros; simplify_eq) || by eauto. Qed.
(** ** Concrete runs *)

(** closes a [represents] goal on a concrete store *)
Ltac represents_by_computation :=
  eexists _, _; split; [reflexivity|]; split; [reflexivity|];
  repeat split; try reflexivity; try (vm_compute; discriminate).

Lemma EmplaceBack_constructor_throws_witness :
  represents (one_vector [Some 1; Some 2] 2 100) 1%positive [1; 2] 2 ∧
  make (Direct 13) (one_vector [Some 1; Some 2] 2 100)
  = Throw element_error (one_vector [Some 1; Some 2] 2 100) ∧
  ∃ e, Vector.EmplaceBack 1%positive (Direct 13) (one_vector [Some 1; Some 2] 2 100)
       = Throw e (one_vector [Some 1; Some 2] 2 100) ∧
       represents (one_vector [Some 1; Some 2] 2 100) 1%positive [1; 2] 2.
Proof.
  assert (represents (one_vector [Some 1; Some 2] 2 100) 1%positive [1; 2] 2) as Hrep
    by represents_by_computation.
  split; [exact Hrep|]. split; [reflexivity|].
  exact (EmplaceBack_constructor_throws _ _ _ _ (Direct 13) Hrep eq_refl).
Defined.

Lemma Reserve_spec_witness :
  represents (one_vector [Some 1%Z; Some 2%Z; None] 2 100) 1%positive [1%Z; 2%Z] 3 ∧
  ∃ w', Vector.Reserve 1%positive 8 (one_vector [Some 1%Z; Some 2%Z; None] 2 100)
        = Ok tt w' ∧
        represents w' 1%positive [1%Z; 2%Z] 8.
Proof.
  assert (represents (one_vector [Some 1%Z; Some 2%Z; None] 2 100) 1%positive
            [1%Z; 2%Z] 3) as Hrep by represents_by_computation.
  split; [exact Hrep|].
  destruct (Reserve_spec _ _ _ _ 8 Hrep) as [_ Hgrow].
  destruct (Hgrow eq_refl) as [Hpost _].
  eexists. split; [reflexivity|].
  apply (Hpost _ eq_refl). vm_compute. discriminate.
Defined.

Lemma Resize_spec_witness :
  represents (one_vector [Some 1%Z; Some 2%Z] 2 100) 1%positive [1%Z; 2%Z] 2 ∧
  ∃ w', Vector.Resize 1%positive 3 (one_vector [Some 1%Z; Some 2%Z] 2 100) = Ok tt w' ∧
        represents w' 1%positive [1%Z; 2%Z; 0%Z] 3.
Proof.
  assert (represents (one_vector [Some 1%Z; Some 2%Z] 2 100) 1%positive
            [1%Z; 2%Z] 2) as Hrep by represents_by_computation.
  split; [exact Hrep|].
  destruct (Resize_spec _ _ _ _ 3 Hrep) as (_ & _ & Hgrow).
  destruct (Hgrow eq_refl eq_refl) as [Hpost _].
  eexists. split; [reflexivity|].
  destruct (Hpost _ eq_refl) as (v0 & Hv0 & Hrep'). 
  injection Hv0 as <-. exact Hrep'.
Defined.


Lemma ctor_move_spec_witness :
  represents (one_vector [Some 1%Z; Some 2%Z; None] 2 100) 1%positive [1%Z; 2%Z] 3 ∧
  ∃ this w',
    Vector.ctor_move 1%positive (one_vector [Some 1%Z; Some 2%Z; None] 2 100)
    = Ok this w' ∧
    objs w' !! 1%positive
    = Some {| data_ := {| buffer_ := nullptr; capacity_ := 0 |}; size_ := 0 |} ∧
    represents w' this [1%Z; 2%Z] 3.
Proof.
  assert (represents (one_vector [Some 1%Z; Some 2%Z; None] 2 100) 1%positive
            [1%Z; 2%Z] 3) as Hrep by represents_by_computation.
  split; [exact Hrep|].
  destruct (ctor_move_spec _ _ _ _ Hrep) as (this & w' & Hrun & _ & Hsrc & _ & Hnew & _).
  exists this, w'. split; [exact Hrun|]. split; [exact Hsrc|exact Hnew].
Defined.

Lemma Int_never_throws : never_throws (T := Z).
Proof. repeat split; intros; by eexists. Qed.

Lemma Insert_then_Erase_witness :
  represents (one_vector [Some 1%Z; Some 2%Z] 2 100) 1%positive [1%Z; 2%Z] 2 ∧
  ∃ it w1 it' w2,
    Vector.Insert 1%positive {| base := Some 1%positive; off := 1 |} (Temp 7%Z)
      (one_vector [Some 1%Z; Some 2%Z] 2 100) = Ok it w1 ∧
    Vector.Erase 1%positive it w1 = Ok it' w2 ∧
    represents w2 1%positive [1%Z; 2%Z] 4.
Proof.
  assert (represents (one_vector [Some 1%Z; Some 2%Z] 2 100) 1%positive
            [1%Z; 2%Z] 2) as Hrep by represents_by_computation.
  split; [exact Hrep|].
  assert (1 ≤ length [1%Z; 2%Z])%nat as Hi by (simpl; lia).
  assert (room_to_grow (one_vector [Some 1%Z; Some 2%Z] 2 100) [1%Z; 2%Z] 2) as Hroom.
  { intros _. vm_compute. split; discriminate. }
  destruct (Insert_then_Erase _ _ _ _ 1%nat {| base := Some 1%positive; off := 1 |}
              7%Z Hrep Hi eq_refl) as (Hcopy & _ & Hreturns).
  destruct (Hreturns Int_never_throws Hroom) as [(it & w1 & it' & w2 & Hins & Hers) _].
  exists it, w1, it', w2. split; [exact Hins|]. split; [exact Hers|].
  exact (Hcopy _ _ _ _ Hins Hers).
Defined.

Lemma capacity_policy_witness :
  reachable (one_vector [Some 1%Z; Some 2%Z] 2 100) ∧
  objs (one_vector [Some 1%Z; Some 2%Z] 2 100) !! 1%positive
  = Some {| data_ := {| buffer_ := slot1 0; capacity_ := 2 |}; size_ := 2 |} ∧
  ∃ w',
    perform (CallPushBack 1%positive (Temp 3%Z)) (one_vector [Some 1%Z; Some 2%Z] 2 100)
    = Ok tt w' ∧
    capacity_of w' 1%positive = Some 4.
Proof.
  assert (reachable (one_vector [Some 1%Z; Some 2%Z] 2 100)) as Hreach.
  { exists [Construct; CallReserve 1%positive 2;
            CallPushBack 1%positive (Temp 1%Z); CallPushBack 1%positive (Temp 2%Z)],
           108.
    split; reflexivity. }
  assert (objs (one_vector [Some 1%Z; Some 2%Z] 2 100) !! 1%positive
          = Some {| data_ := {| buffer_ := slot1 0; capacity_ := 2 |}; size_ := 2 |})
    as Hv by reflexivity.
  split; [exact Hreach|]. split; [exact Hv|].
  destruct (capacity_policy _ _ _ Hreach Hv) as (Hgrow & _ & _).
  eexists. split; [reflexivity|].
  exact (Hgrow (CallPushBack 1%positive (Temp 3%Z)) tt _ eq_refl eq_refl eq_refl).
Defined.
(** ** Where the code leaves its contract *)

(** C5, at the failing input.  The destination (capacity 2, empty) is
    move-assigned a source of two elements: [rhs.Size() > data_.Capacity()] is
    false, the buffers are swapped and the source keeps its size 2 over the
    two raw slots it received.  No store represents a vector there. *)
Theorem op_assign_move_source_invalid :
  represents two_vectors 1%positive [] 2 ∧
  represents two_vectors 2%positive [7%Z; 8%Z] 2 ∧
  ∃ w', Vector.op_assign_move 1%positive 2%positive two_vectors = Ok tt w' ∧
        represents w' 1%positive [7%Z; 8%Z] 2 ∧
        (Vector.Size 2%positive w' = Ok 2 w') ∧
        slot_of w' 2%positive 0 = Some None ∧
        slot_of w' 2%positive 1 = Some None ∧
        ∀ vs cap, ¬ represents w' 2%positive vs cap.
Proof.
  split; [represents_by_computation|]. split; [represents_by_computation|].
  eexists. split; [reflexivity|]. split; [represents_by_computation|].
  split; [reflexivity|]. split; [reflexivity|]. split; [reflexivity|].
  intros vs cap (v & blk & Hv & Hb & _ & _ & _ & Hs & Ht).
  vm_compute in Hv. injection Hv as <-.
  vm_compute in Hb. injection Hb as <-.
  simpl in Hs. destruct vs as [|x [|y [|z vs]]]; try done; simpl in Hs; lia.
Qed.

(** C2, at the failing input.  Four public calls from nothing: construct an
    empty vector, reserve two slots, construct a second vector of two
    elements, move-assign the second to the first.  In the store reached the
    second vector reports size 2 within capacity 2, and its slots 0 and 1 are
    raw. *)
Theorem reachable_size_over_raw_slots :
  ∃ w : world Z,
    reachable w ∧
    Vector.Size 2%positive w = Ok 2 w ∧
    Vector.Capacity 2%positive w = Ok 2 w ∧
    slot_of w 2%positive 0 = Some None ∧
    slot_of w 2%positive 1 = Some None ∧
    ∀ vs cap, ¬ represents w 2%positive vs cap.
Proof.
  eexists. split.
  { exists [Construct; CallReserve 1%positive 2; ConstructSize 2;
            AssignMove 1%positive 2%positive], 100.
    split; [reflexivity|]. vm_compute. reflexivity. }
  split; [reflexivity|]. split; [reflexivity|].
  split; [reflexivity|]. split; [reflexivity|].
  intros vs cap (v & blk & Hv & Hb & _ & _ & _ & Hs & Ht).
  vm_compute in Hv. injection Hv as <-.
  vm_compute in Hb. injection Hb as <-.
  simpl in Hs. destruct vs as [|x [|y [|z vs]]]; try done; simpl in Hs; lia.
Qed.

(** C6, at the failing input.  A [RawMemory] that owns block 1 of three slots
    is moved from, by construction and by assignment: the source is what it
    was, with its block and its capacity, and the two destructors release the
    block twice.  The assignment, after its two stores, has no [return]
    statement: the call itself is undefined. *)
Theorem RawMemory_move_keeps_source :
  let src := {| buffer_ := {| base := Some 1%positive; off := 0 |}; capacity_ := 3 |} in
  let w : world Z := {| heap := {[ 1%positive := [None; None; None] ]};
                        avail := 10; objs := ∅ |} in
  RawMemory.ctor_move src = (src, src) ∧
  RawMemory.op_assign_move_stores RawMemory.ctor_default src = (src, src) ∧
  RawMemory.op_assign_move RawMemory.ctor_default src w = Undef ∧
  (let '(dst, src') := RawMemory.ctor_move src in
   (RawMemory.dtor dst;; RawMemory.dtor src') w) = Undef.
Proof. repeat split. Qed.

(** C4, at the failing input.  A vector of strings ["a"; "b"] with two spare
    slots; [Insert(begin(), v[1])] passes a reference to the last element.
    The last element is moved to the trailing slot before the temporary is
    made from the reference, so the temporary is a copy of a moved-from
    string: the result is [""; "a"; "b"], not ["b"; "a"; "b"]. *)
Theorem Insert_reference_to_last_element :
  let w := one_vector [Some "a"; Some "b"; None; None]%string 2 100 in
  represents w 1%positive ["a"; "b"]%string 4 ∧
  load (slot1 1) w = Ok "b"%string w ∧
  ∃ w', Vector.Insert 1%positive (slot1 0) (At (slot1 1)) w = Ok (slot1 0) w' ∧
        represents w' 1%positive [""; "a"; "b"]%string 4 ∧
        ¬ represents w' 1%positive ["b"; "a"; "b"]%string 4.
Proof.
  split; [represents_by_computation|]. split; [reflexivity|].
  eexists. split; [reflexivity|].
  assert (Hrep : represents
            (set_objs (with_block (one_vector [Some "a"; Some "b"; None; None]%string 2 100)
                         1%positive [Some ""; Some "a"; Some "b"; None]%string)
               {[ 1%positive :=
                    {| data_ := {| buffer_ := slot1 0; capacity_ := 4 |};
                       size_ := 3 |} ]})
            1%positive [""; "a"; "b"]%string 4)
    by represents_by_computation.
  split; [exact Hrep|].
  intros Hrep'. by destruct (represents_agree _ _ _ _ _ _ Hrep Hrep') as [[=] _].
Qed.

(** C3, the claim as stated, at a concrete input.  Three public calls from
    nothing: construct an empty vector, reserve two slots, construct a second
    empty vector.  The first vector has capacity 2.  The move constructor
    with the first vector as its source, and [Swap] of the first vector with
    the second, are no assignments, and each leaves the first vector with
    capacity 0. *)
Lemma capacity_lowered_without_assignment :
  ∃ w : world Z,
    reachable w ∧
    Vector.Capacity 1%positive w = Ok 2 w ∧
    (∃ w', perform (ConstructMove 1%positive) w = Ok tt w' ∧
           Vector.Capacity 1%positive w' = Ok 0 w') ∧
    (∃ w', perform (CallSwap 1%positive 2%positive) w = Ok tt w' ∧
           Vector.Capacity 1%positive w' = Ok 0 w').
Proof.
  eexists. split.
  { exists [Construct; CallReserve 1%positive 2; Construct], 100.
    split; [reflexivity|]. vm_compute. reflexivity. }
  split; [reflexivity|].
  split; eexists; (split; [vm_compute; reflexivity|reflexivity]).
Qed.

(** C8, the claim as stated, at a concrete input.  [Resize(3)] on a full
    vector of capacity 2 reallocates to capacity 3, the capacity [Reserve(3)]
    gives, and not to [max(1, 2 * 2)], the capacity of the growth policy. *)
Lemma Resize_does_not_double :
  ∃ w', Vector.Resize 1%positive 3 (one_vector [Some 1%Z; Some 2%Z] 2 100) = Ok tt w' ∧
        Vector.Capacity 1%positive w' = Ok 3 w' ∧
        Vector.Capacity 1%positive w' ≠ Ok (N.max 1 (2 * 2)) w' ∧
        ¬ represents w' 1%positive [1%Z; 2%Z; 0%Z] (N.max 1 (2 * 2)).
Proof.
  eexists. split; [reflexivity|]. split; [reflexivity|]. split; [done|].
  intros (v & blk & Hv & _ & Hc & _).
  vm_compute in Hv. injection Hv as <-. done.
Qed.


(** ** Concrete runs of the further properties *)

Lemma reachable_size_within_capacity_witness :
  reachable (one_vector [Some 1%Z; Some 2%Z] 2 100) ∧
  objs (one_vector [Some 1%Z; Some 2%Z] 2 100) !! 1%positive
  = Some {| data_ := {| buffer_ := slot1 0; capacity_ := 2 |}; size_ := 2 |} ∧
  2 ≤ 2.
Proof.
  assert (reachable (one_vector [Some 1%Z; Some 2%Z] 2 100)) as Hreach.
  { exists [Construct; CallReserve 1%positive 2;
            CallPushBack 1%positive (Temp 1%Z); CallPushBack 1%positive (Temp 2%Z)],
           108.
    split; reflexivity. }
  assert (objs (one_vector [Some 1%Z; Some 2%Z] 2 100) !! 1%positive
          = Some {| data_ := {| buffer_ := slot1 0; capacity_ := 2 |}; size_ := 2 |})
    as Hv by reflexivity.
  split; [exact Hreach|]. split; [exact Hv|].
  exact (proj1 (reachable_size_within_capacity _ _ _ Hreach Hv)).
Defined.

Lemma PopBack_spec_witness :
  represents (one_vector [Some 1%Z; Some 2%Z] 2 100) 1%positive [1%Z; 2%Z] 2 ∧
  ∃ w', Vector.PopBack 1%positive (one_vector [Some 1%Z; Some 2%Z] 2 100) = Ok tt w' ∧
        represents w' 1%positive [1%Z] 2.
Proof.
  assert (represents (one_vector [Some 1%Z; Some 2%Z] 2 100) 1%positive
            [1%Z; 2%Z] 2) as Hrep by represents_by_computation.
  split; [exact Hrep|].
  destruct (proj2 (PopBack_spec _ _ _ _ Hrep) [1%Z] 2%Z eq_refl)
    as (w' & Hrun & Hrep' & _).
  exists w'. split; [exact Hrun|exact Hrep'].
Defined.

Lemma Int_transfer_never_throws : transfer_never_throws (T := Z).
Proof. intros v. by eexists. Qed.

Lemma EmplaceBack_appends_witness :
  represents (one_vector [Some 1%Z; Some 2%Z] 2 100) 1%positive [1%Z; 2%Z] 2 ∧
  external (@Direct Z Int 5%Z) = true ∧
  ∃ it w',
    Vector.EmplaceBack 1%positive (@Direct Z Int 5%Z) (one_vector [Some 1%Z; Some 2%Z] 2 100)
    = Ok it w' ∧
    represents w' 1%positive [1%Z; 2%Z; 5%Z] 4 ∧ load it w' = Ok 5%Z w'.
Proof.
  assert (represents (one_vector [Some 1%Z; Some 2%Z] 2 100) 1%positive
            [1%Z; 2%Z] 2) as Hrep by represents_by_computation.
  split; [exact Hrep|]. split; [reflexivity|].
  destruct (EmplaceBack_appends _ _ _ _ (@Direct Z Int 5%Z) Hrep eq_refl) as [Hpost Hreturns].
  destruct Hreturns as (it & w' & Hrun).
  { by eexists. }
  { intros _. split; [vm_compute; discriminate|].
    split; [vm_compute; discriminate|exact Int_transfer_never_throws]. }
  exists it, w'. split; [exact Hrun|].
  destruct (Hpost _ _ Hrun) as (v & Hmade & Hrep' & _ & Hload).
  injection Hmade as <-. split; [exact Hrep'|exact Hload].
Defined.

Lemma PushBack_then_PopBack_witness :
  represents (one_vector [Some 1%Z; Some 2%Z] 2 100) 1%positive [1%Z; 2%Z] 2 ∧
  ∃ w1 w2,
    Vector.PushBack 1%positive (Temp 3%Z) (one_vector [Some 1%Z; Some 2%Z] 2 100)
    = Ok tt w1 ∧
    Vector.PopBack 1%positive w1 = Ok tt w2 ∧
    represents w2 1%positive [1%Z; 2%Z] 4.
Proof.
  assert (represents (one_vector [Some 1%Z; Some 2%Z] 2 100) 1%positive
            [1%Z; 2%Z] 2) as Hrep by represents_by_computation.
  split; [exact Hrep|].
  destruct (PushBack_then_PopBack _ _ _ _ 3%Z Hrep) as [Hcopy _].
  assert (∃ w1, Vector.PushBack 1%positive (Temp 3%Z)
                  (one_vector [Some 1%Z; Some 2%Z] 2 100) = Ok tt w1)
    as [w1 Hpush] by (eexists; reflexivity).
  destruct (Hcopy w1 Hpush) as (w2 & Hpop & Hrep2).
  exists w1, w2. split; [exact Hpush|]. split; [exact Hpop|exact Hrep2].
Defined.

Lemma Erase_removes_witness :
  represents (one_vector [Some 1%Z; Some 2%Z] 2 100) 1%positive [1%Z; 2%Z] 2 ∧
  (0 < 2)%nat ∧
  iterator_at (one_vector [Some 1%Z; Some 2%Z] 2 100) 1%positive 0 = Some (slot1 0) ∧
  ∃ it w',
    Vector.Erase 1%positive (slot1 0) (one_vector [Some 1%Z; Some 2%Z] 2 100)
    = Ok it w' ∧
    it = slot1 0 ∧ represents w' 1%positive [2%Z] 2.
Proof.
  assert (represents (one_vector [Some 1%Z; Some 2%Z] 2 100) 1%positive
            [1%Z; 2%Z] 2) as Hrep by represents_by_computation.
  assert (0 < length [1%Z; 2%Z])%nat as Hi by (simpl; lia).
  split; [exact Hrep|]. split; [exact Hi|]. split; [reflexivity|].
  destruct (Erase_removes _ _ _ _ 0%nat (slot1 0) Hrep Hi eq_refl)
    as [Hpost Hreturns].
  destruct (Hreturns (proj2 (proj2 Int_never_throws))) as (it & w' & Hrun).
  exists it, w'. split; [exact Hrun|]. exact (Hpost _ _ Hrun).
Defined.

Lemma Erase_at_end_undefined_witness :
  represents (one_vector [Some 1%Z; Some 2%Z] 2 100) 1%positive [1%Z; 2%Z] 2 ∧
  iterator_at (one_vector [Some 1%Z; Some 2%Z] 2 100) 1%positive 2 = Some (slot1 2) ∧
  Vector.Erase 1%positive (slot1 2) (one_vector [Some 1%Z; Some 2%Z] 2 100) = Undef.
Proof.
  assert (represents (one_vector [Some 1%Z; Some 2%Z] 2 100) 1%positive
            [1%Z; 2%Z] 2) as Hrep by represents_by_computation.
  split; [exact Hrep|]. split; [reflexivity|].
  exact (Erase_at_end_undefined _ _ _ _ (slot1 2) Hrep eq_refl).
Defined.

Lemma Insert_at_index_witness :
  represents (one_vector [Some 1%Z; Some 2%Z] 2 100) 1%positive [1%Z; 2%Z] 2 ∧
  (1 ≤ 2)%nat ∧
  iterator_at (one_vector [Some 1%Z; Some 2%Z] 2 100) 1%positive 1 = Some (slot1 1) ∧
  ∃ it w',
    Vector.Insert 1%positive (slot1 1) (Temp 7%Z) (one_vector [Some 1%Z; Some 2%Z] 2 100)
    = Ok it w' ∧
    represents w' 1%positive [1%Z; 7%Z; 2%Z] 4.
Proof.
  assert (represents (one_vector [Some 1%Z; Some 2%Z] 2 100) 1%positive
            [1%Z; 2%Z] 2) as Hrep by represents_by_computation.
  assert (1 ≤ length [1%Z; 2%Z])%nat as Hi by (simpl; lia).
  assert (room_to_grow (one_vector [Some 1%Z; Some 2%Z] 2 100) [1%Z; 2%Z] 2) as Hroom.
  { intros _. vm_compute. split; discriminate. }
  split; [exact Hrep|]. split; [exact Hi|]. split; [reflexivity|].
  destruct (Insert_at_index _ _ _ _ 1%nat (slot1 1) 7%Z Hrep Hi eq_refl)
    as (Hcopy & _ & Hreturns).
  destruct (Hreturns Int_never_throws Hroom) as [Hok _].
  destruct (Vector.Insert 1%positive (slot1 1) (Temp 7%Z)
              (one_vector [Some 1%Z; Some 2%Z] 2 100)) as [it w'| |] eqn:Hrun;
    [|discriminate Hok..].
  exists it, w'. split; [reflexivity|]. exact (proj1 (Hcopy _ _ eq_refl)).
Defined.

Lemma op_index_spec_witness :
  represents (one_vector [Some 1%Z; Some 2%Z] 2 100) 1%positive [1%Z; 2%Z] 2 ∧
  ∃ p, Vector.op_index 1%positive 1 (one_vector [Some 1%Z; Some 2%Z] 2 100)
       = Ok p (one_vector [Some 1%Z; Some 2%Z] 2 100) ∧
       load p (one_vector [Some 1%Z; Some 2%Z] 2 100)
       = Ok 2%Z (one_vector [Some 1%Z; Some 2%Z] 2 100).
Proof.
  assert (represents (one_vector [Some 1%Z; Some 2%Z] 2 100) 1%positive
            [1%Z; 2%Z] 2) as Hrep by represents_by_computation.
  split; [exact Hrep|].
  destruct (proj1 (op_index_spec _ _ _ _ 1 Hrep) 2%Z eq_refl) as (p & Hrun & _ & Hload).
  exists p. split; [exact Hrun|exact Hload].
Defined.



Lemma Reserve_strong_guarantee_witness :
  represents (one_vector [Some 1; Some 13] 2 100) 1%positive [1; 13] 2 ∧
  4 * sizeof_T (T := N) < size_t_modulus ∧
  ∃ e w',
    Vector.Reserve 1%positive 4 (one_vector [Some 1; Some 13] 2 100) = Throw e w' ∧
    w' = one_vector [Some 1; Some 13] 2 100.
Proof.
  assert (represents (one_vector [Some 1; Some 13] 2 100) 1%positive [1; 13] 2)
    as Hrep by represents_by_computation.
  assert (4 * sizeof_T (T := N) < size_t_modulus) as Hbytes by reflexivity.
  split; [exact Hrep|]. split; [exact Hbytes|].
  destruct (Reserve_strong_guarantee _ _ _ _ 4 Hrep Hbytes (or_intror eq_refl))
    as [Hthrows _].
  assert (∃ e w', Vector.Reserve 1%positive 4 (one_vector [Some 1; Some 13] 2 100)
                  = Throw e w') as (e & w' & Hrun) by (eexists _, _; reflexivity).
  exists e, w'. split; [exact Hrun|]. exact (Hthrows _ _ Hrun).
Defined.

Lemma Reserve_overflow_witness :
  represents (fresh_vector (T := Z) 100) 1%positive [] 0 ∧
  size_t_modulus ≤ 2 ^ 62 * sizeof_T (T := Z) ∧
  ∃ w', Vector.Reserve 1%positive (2 ^ 62) (fresh_vector (T := Z) 100) = Ok tt w' ∧
        stores w' 1%positive [] (2 ^ 62) 0.
Proof.
  assert (represents (fresh_vector (T := Z) 100) 1%positive [] 0) as Hrep
    by (by apply represents_intro_empty).
  assert (size_t_modulus ≤ 2 ^ 62 * sizeof_T (T := Z)) as Hwraps
    by (vm_compute; discriminate).
  split; [exact Hrep|]. split; [exact Hwraps|].
  destruct (Reserve_overflow _ _ _ (2 ^ 62) Hrep) as (w' & Hrun & Hstores & _);
    [reflexivity|reflexivity|exact Hwraps|vm_compute; discriminate..|].
  exists w'. split; [exact Hrun|exact Hstores].
Defined.

Lemma Swap_exchanges_witness :
  represents two_vectors 1%positive [] 2 ∧
  represents two_vectors 2%positive [7%Z; 8%Z] 2 ∧
  ∃ w', Vector.Swap 1%positive 2%positive two_vectors = Ok tt w' ∧
        represents w' 1%positive [7%Z; 8%Z] 2 ∧
        represents w' 2%positive [] 2 ∧
        Vector.Swap 1%positive 2%positive w' = Ok tt two_vectors.
Proof.
  assert (represents two_vectors 1%positive [] 2) as H1 by represents_by_computation.
  assert (represents two_vectors 2%positive [7%Z; 8%Z] 2) as H2
    by represents_by_computation.
  split; [exact H1|]. split; [exact H2|].
  destruct (Swap_exchanges _ _ _ _ _ _ _ H1 H2)
    as (w' & Hrun & Hthis & Hother & _ & _ & Hback & _).
  exists w'. split; [exact Hrun|]. split; [exact Hthis|].
  split; [exact Hother|exact Hback].
Defined.

Lemma op_assign_move_spec_witness :
  1%positive ≠ 2%positive ∧
  represents two_vectors 1%positive [] 2 ∧
  represents two_vectors 2%positive [7%Z; 8%Z] 2 ∧
  ∃ w', Vector.op_assign_move 1%positive 2%positive two_vectors = Ok tt w' ∧
        represents w' 1%positive [7%Z; 8%Z] 2 ∧
        objs w' !! 2%positive
        = Some {| data_ := {| buffer_ := slot1 0; capacity_ := 2 |}; size_ := 2 |}.
Proof.
  assert (1%positive ≠ 2%positive) as Hne by discriminate.
  assert (represents two_vectors 1%positive [] 2) as H1 by represents_by_computation.
  assert (represents two_vectors 2%positive [7%Z; 8%Z] 2) as H2
    by represents_by_computation.
  split; [exact Hne|]. split; [exact H1|]. split; [exact H2|].
  destruct (op_assign_move_spec _ _ _ _ _ _ _ Hne H1 H2)
    as (w' & Hrun & Hthis & _ & _ & _ & Hkeeps).
  exists w'. split; [exact Hrun|]. split; [exact Hthis|].
  destruct Hkeeps as (v & Hv & Hrhs); [vm_compute; discriminate|].
  injection Hv as <-. exact Hrhs.
Defined.


Lemma op_assign_copy_spec_witness :
  1%positive ≠ 2%positive ∧ apart two_vectors 1%positive 2%positive ∧
  represents two_vectors 1%positive [] 2 ∧
  represents two_vectors 2%positive [7%Z; 8%Z] 2 ∧
  ∃ w', Vector.op_assign_copy 1%positive 2%positive two_vectors = Ok tt w' ∧
        represents w' 1%positive [7%Z; 8%Z] 2 ∧
        represents w' 2%positive [7%Z; 8%Z] 2.
Proof.
  assert (1%positive ≠ 2%positive) as Hne by discriminate.
  assert (apart two_vectors 1%positive 2%positive) as Hapart.
  { intros v r a Hv Hr Hbase. vm_compute in Hv. vm_compute in Hr.
    injection Hv as <-. injection Hr as <-. simpl in Hbase.
    injection Hbase as <-. discriminate. }
  assert (represents two_vectors 1%positive [] 2) as H1 by represents_by_computation.
  assert (represents two_vectors 2%positive [7%Z; 8%Z] 2) as H2
    by represents_by_computation.
  split; [exact Hne|]. split; [exact Hapart|]. split; [exact H1|].
  split; [exact H2|].
  destruct (proj2 (op_assign_copy_spec _ _ _ _ _ _ _ H1 H2) Hne Hapart)
    as (Hpost & Hreturns & _).
  destruct (Vector.op_assign_copy 1%positive 2%positive two_vectors)
    as [[] w'|e w'|] eqn:Hrun.
  - exists w'. split; [reflexivity|]. exact (Hpost tt w' eq_refl).
  - exfalso. apply Bool.diff_false_true, Hreturns.
    + intros Hlt. vm_compute in Hlt. discriminate.
    + intros v. by eexists.
    + intros x y. by eexists.
  - exfalso. apply Bool.diff_false_true, Hreturns.
    + intros Hlt. vm_compute in Hlt. discriminate.
    + intros v. by eexists.
    + intros x y. by eexists.
Defined.

Lemma PushBack_own_element_witness :
  represents (one_vector [Some 1%Z; Some 2%Z] 2 100) 1%positive [1%Z; 2%Z] 2 ∧
  [1%Z; 2%Z] !! 0%nat = Some 1%Z ∧
  iterator_at (one_vector [Some 1%Z; Some 2%Z] 2 100) 1%positive 0 = Some (slot1 0) ∧
  ∃ w', Vector.PushBack 1%positive (At (slot1 0)) (one_vector [Some 1%Z; Some 2%Z] 2 100)
        = Ok tt w' ∧
        represents w' 1%positive [1%Z; 2%Z; 1%Z] 4.
Proof.
  assert (represents (one_vector [Some 1%Z; Some 2%Z] 2 100) 1%positive
            [1%Z; 2%Z] 2) as Hrep by represents_by_computation.
  split; [exact Hrep|]. split; [reflexivity|]. split; [reflexivity|].
  destruct (PushBack_own_element _ _ _ _ 0%nat 1%Z (slot1 0) Hrep eq_refl eq_refl)
    as [Hpost Hreturns].
  destruct Hreturns as (w' & Hrun).
  { by eexists. }
  { intros _. split; [vm_compute; discriminate|].
    split; [vm_compute; discriminate|exact Int_transfer_never_throws]. }
  exists w'. split; [exact Hrun|]. exact (Hpost w' Hrun).
Defined.

Lemma EmplaceBack_keeps_positions_witness :
  represents (one_vector [Some 1%Z; None] 1 100) 1%positive [1%Z] 2 ∧
  external (@Direct Z Int 5%Z) = true ∧
  Vector.EmplaceBack 1%positive (@Direct Z Int 5%Z) (one_vector [Some 1%Z; None] 1 100)
  = Ok (slot1 1) (one_vector [Some 1%Z; Some 5%Z] 2 100) ∧
  iterator_at (one_vector [Some 1%Z; Some 5%Z] 2 100) 1%positive 0 = Some (slot1 0) ∧
  load (slot1 0) (one_vector [Some 1%Z; Some 5%Z] 2 100)
  = Ok 1%Z (one_vector [Some 1%Z; Some 5%Z] 2 100).
Proof.
  assert (represents (one_vector [Some 1%Z; None] 1 100) 1%positive [1%Z] 2)
    as Hrep by represents_by_computation.
  assert (Vector.EmplaceBack 1%positive (@Direct Z Int 5%Z)
            (one_vector [Some 1%Z; None] 1 100)
          = Ok (slot1 1) (one_vector [Some 1%Z; Some 5%Z] 2 100)) as Hrun
    by (vm_compute; reflexivity).
  split; [exact Hrep|]. split; [reflexivity|]. split; [exact Hrun|].
  destruct (EmplaceBack_keeps_positions _ _ _ _ (@Direct Z Int 5%Z) _ _
              Hrep eq_refl eq_refl Hrun)
    as (_ & _ & _ & _ & Hkept).
  destruct (Hkept 0%nat 1%Z eq_refl) as (Hsame & p & Hp & Hload).
  split; [exact Hsame|].
  vm_compute in Hp. injection Hp as <-. exact Hload.
Defined.

Lemma Emplace_constructor_throws_witness :
  represents (one_vector [Some 1; Some 2; None] 2 100) 1%positive ([1] ++ [2]) 3 ∧
  made (@Direct N Fragile 13) = None ∧
  move_construct (T := N) 2 = Some (2, 0) ∧
  ∃ w', Vector.Emplace 1%positive (slot1 0) (@Direct N Fragile 13)
          (one_vector [Some 1; Some 2; None] 2 100)
        = Throw element_error w' ∧
        represents w' 1%positive ([1] ++ [0]) 3 ∧
        slot_of w' 1%positive 2 = Some (Some 2).
Proof.
  assert (represents (one_vector [Some 1; Some 2; None] 2 100) 1%positive
            ([1] ++ [2]) 3) as Hrep by represents_by_computation.
  split; [exact Hrep|]. split; [reflexivity|]. split; [reflexivity|].
  destruct (Emplace_constructor_throws _ _ [1] 2 _ 0%nat (slot1 0)
              (@Direct N Fragile 13) 2 0 Hrep eq_refl)
    as (w' & Hrun & _ & Hrep' & Hslot);
    [simpl; lia|vm_compute; discriminate|reflexivity|reflexivity|reflexivity|].
  exists w'. split; [exact Hrun|]. split; [exact Hrep'|exact Hslot].
Defined.

Lemma Resize_value_constructor_throws_witness :
  represents (one_vector [Some true; None] 1 100) 1%positive [true] 2 ∧
  value_construct (T := bool) = None ∧
  ∃ w', Vector.Resize 1%positive 3 (one_vector [Some true; None] 1 100)
        = Throw element_error w' ∧
        represents w' 1%positive [true] 3.
Proof.
  assert (represents (one_vector [Some true; None] 1 100) 1%positive [true] 2)
    as Hrep by represents_by_computation.
  split; [exact Hrep|]. split; [reflexivity|].
  destruct (Resize_value_constructor_throws _ _ _ _ 3 Hrep)
    as (w' & Hrun & Hrep' & _).
  - reflexivity.
  - vm_compute. discriminate.
  - reflexivity.
  - intros _. split; [vm_compute; discriminate|]. intros v. by eexists.
  - exists w'. split; [exact Hrun|exact Hrep'].
Defined.
